(** * The OpenFOAM case reader of VTK: a shallow embedding

    Source: [IO/Geometry/vtkOpenFOAMReader.cxx].  The first part of this file
    embeds the pieces of the reader that the verified properties speak about
    (byte stream and number parsing, tokens and entry values, dictionaries,
    label lists of lists, boundary patches, cell-face construction, cell
    insertion and field filling); the second part states and proves the
    properties.

    Conventions.
    - A [vtkTypeInt64]/[vtkIdType] is a [Z]; where the source narrows a value
      ([static_cast<vtkTypeInt32>], [static_cast<int>]) or where a sum can
      leave the 64-bit range the wrap-around is written with [wrap32] and
      [wrap64].
    - A VTK array (vtkTypeInt32Array, vtkTypeInt64Array, vtkIdList, ...) is a
      [list Z] read with [!!!] and written with [<[ i := v ]>].
    - Code that throws [vtkFoamError] returns [inl err]. *)

From Stdlib Require Import ZArith List Lia String Ascii Bool QArith PrimFloat Uint63.
From stdpp Require Import base list strings gmap.
Close Scope Q_scope.
Open Scope Z_scope.
Set Warnings "-inexact-float".

(** ** Machine integers *)

(** Two's complement reduction to [bits] bits. *)
Definition wrap (bits : Z) (x : Z) : Z :=
  (x + 2 ^ (bits - 1)) mod 2 ^ bits - 2 ^ (bits - 1).

Definition wrap32 : Z -> Z := wrap 32.
Definition wrap64 : Z -> Z := wrap 64.

Definition VTK_TYPE_INT32_MAX : Z := 2 ^ 31 - 1.
Definition VTK_TYPE_INT64_MAX : Z := 2 ^ 63 - 1.

(** ** Errors *)

Inductive vtkFoamError : Type :=
| UnexpectedEOF
| UnexpectedNondigit (c : Z)
| UnexpectedToken (expected : Z) (found : Z)
| DuplicatedPutBack
| ErrorMessage (msg : string).

Definition Result (A : Type) : Type := vtkFoamError + A.

Definition bindR {A B : Type} (m : Result A) (k : A -> Result B) : Result B :=
  match m with
  | inl e => inl e
  | inr a => k a
  end.

Notation "'do' x <- m ; k" := (bindR m (fun x => k))
  (at level 10, x pattern, m at level 100, k at level 200).

(** ** 4.1-4.2  The byte stream and the hand-rolled number readers *)

Module FoamFile.

Definition EOF : Z := -1.

(** Character codes used by the readers. *)
Definition ch (a : ascii) : Z := Z.of_N (N_of_ascii a).

Definition chNewline : Z := 10.
Definition chSlash : Z := ch "/".
Definition chStar : Z := ch "*".
Definition chMinus : Z := ch "-".
Definition chPlus : Z := ch "+".
Definition chDot : Z := ch ".".
Definition chE : Z := ch "E".
Definition che : Z := ch "e".
Definition chZero : Z := ch "0".

Fixpoint bytes_of_string (s : string) : list Z :=
  match s with
  | EmptyString => []
  | String a s' => ch a :: bytes_of_string s'
  end.

(** [isspace] and [isdigit] of the C locale; both are false on [EOF]. *)
Definition isspace (c : Z) : bool := (c =? 32) || ((9 <=? c) && (c <=? 13)).
Definition isdigit (c : Z) : bool := (48 <=? c) && (c <=? 57).

(** The part of [vtkFoamFile] the readers touch: the bytes still to be
    delivered by [Getc] (the rest of the output buffer followed by the rest
    of the inflated file) and the line counter (an [int]).  The include
    stack is left out: the stream is one file. *)
Record vtkFoamFile : Type := mkFile { Buf : list Z; LineNumber : Z }.

Definition Getc (io : vtkFoamFile) : Z * vtkFoamFile :=
  match Buf io with
  | [] => (EOF, io)
  | c :: rest => (c, mkFile rest (LineNumber io))
  end.

(** [*--BufPtr = static_cast<unsigned char>(c)]. *)
Definition PutBack (c : Z) (io : vtkFoamFile) : vtkFoamFile :=
  mkFile (c mod 256 :: Buf io) (LineNumber io).

Definition incLine (io : vtkFoamFile) : vtkFoamFile :=
  mkFile (Buf io) (wrap32 (LineNumber io + 1)).

(** [while (isspace(c = Getc())) { if (c == '\n') ++LineNumber; }] *)
Fixpoint skipSpaces (buf : list Z) (line : Z) : Z * vtkFoamFile :=
  match buf with
  | [] => (EOF, mkFile [] line)
  | c :: rest =>
      if isspace c
      then skipSpaces rest (if c =? chNewline then wrap32 (line + 1) else line)
      else (c, mkFile rest line)
  end.

(** [while ((c = Getc()) != EOF && c != '\n');] of a [//] comment. *)
Fixpoint skipLine (buf : list Z) : Z * list Z :=
  match buf with
  | [] => (EOF, [])
  | c :: rest => if c =? chNewline then (c, rest) else skipLine rest
  end.

(** The body of a [/* */] comment.  After a ['*'] the next character is
    read; anything but ['/'] is put back and scanning goes on.  The result is
    [EOF] when the comment is not closed and ['/'] when it is. *)
Fixpoint skipBlock (fuel : nat) (io : vtkFoamFile) : Z * vtkFoamFile :=
  match fuel with
  | O => (EOF, io)
  | S fuel' =>
      let '(c, io1) := Getc io in
      if c =? EOF then (EOF, io1)
      else if c =? chStar then
        let '(c2, io2) := Getc io1 in
        if c2 =? chSlash then (chSlash, io2)
        else skipBlock fuel' (PutBack c2 io2)
      else skipBlock fuel' (if c =? chNewline then incLine io1 else io1)
  end.

Fixpoint NextTokenHead_loop (fuel : nat) (io : vtkFoamFile) : Z * vtkFoamFile :=
  match fuel with
  | O => (EOF, io)
  | S fuel' =>
      let '(c, io1) := skipSpaces (Buf io) (LineNumber io) in
      if c =? chSlash then
        let '(c2, io2) := Getc io1 in
        if c2 =? chSlash then
          let '(c3, rest) := skipLine (Buf io2) in
          if c3 =? EOF then (EOF, mkFile rest (LineNumber io2))
          else NextTokenHead_loop fuel' (incLine (mkFile rest (LineNumber io2)))
        else if c2 =? chStar then
          let '(c3, io3) := skipBlock (2 * length (Buf io2) + 2) io2 in
          if c3 =? EOF then (EOF, io3)
          else NextTokenHead_loop fuel' io3
        else (chSlash, PutBack c2 io2)
      else (c, io1)
  end.

Definition NextTokenHead (io : vtkFoamFile) : Z * vtkFoamFile :=
  NextTokenHead_loop (length (Buf io) + 1) io.

(** The common prologue of [ReadExpecting], [ReadIntValue] and
    [ReadFloatValue]: skip blanks, and comments when a ['/'] shows up. *)
Definition skipToValue (io : vtkFoamFile) : Z * vtkFoamFile :=
  let '(c, io1) := skipSpaces (Buf io) (LineNumber io) in
  if c =? chSlash then NextTokenHead (PutBack c io1) else (c, io1).

(** ["leading sign?"]: the sign flag and the first character after it. *)
Definition readSign (c : Z) (io : vtkFoamFile) : bool * Z * vtkFoamFile :=
  let negNum := c =? chMinus in
  if negNum || (c =? chPlus) then
    let '(c1, io1) := Getc io in
    (negNum, c1, if c1 =? chNewline then incLine io1 else io1)
  else (negNum, c, io).

(** Both number readers start the same way. *)
Definition readHead (io : vtkFoamFile) : bool * Z * vtkFoamFile :=
  let '(c0, io0) := skipToValue io in readSign c0 io0.

(** [while (isdigit(c = Getc())) num = 10 * num + c - '0';]
    The arithmetic is that of [vtkTypeInt64]; the sum [10 * num + c] is
    formed before ['0'] is taken off. *)
Fixpoint intDigits (num : Z) (buf : list Z) : Z * Z * list Z :=
  match buf with
  | [] => (num, EOF, [])
  | c :: rest =>
      if isdigit c
      then intDigits (wrap64 (wrap64 (wrap64 (10 * num) + c) - chZero)) rest
      else (num, c, rest)
  end.

Definition ReadIntValue (io : vtkFoamFile) : Result (Z * vtkFoamFile) :=
  let '(negNum, c, io1) := readHead io in
  if negb (isdigit c) then
    if c =? EOF then inl UnexpectedEOF else inl (UnexpectedNondigit c)
  else
    let '(num, c', rest) := intDigits (c - chZero) (Buf io1) in
    if c' =? EOF then inl UnexpectedEOF
    else inr (if negNum then wrap64 (- num) else num,
              PutBack c' (mkFile rest (LineNumber io1))).

(** The arithmetic of the floating type the value is accumulated in
    ([double]), and the final [static_cast<FloatType>]. *)
Record FloatOps (F : Type) : Type := mkFloatOps {
  of_int : Z -> F;          (* conversion of a small [int] *)
  fadd : F -> F -> F;
  fmul : F -> F -> F;
  fdiv : F -> F -> F;
  fopp : F -> F;
  lit_1e64 : F;             (* 1.0e+64 *)
  lit_1e16 : F;             (* 1.0e+16 *)
  lit_1e4 : F;              (* 1.0e+4 *)
  lit_1e1 : F;              (* 1.0e+1 *)
  narrow : F -> F           (* static_cast<FloatType> *)
}.
Arguments of_int {F} _ _.
Arguments fadd {F} _ _ _.
Arguments fmul {F} _ _ _.
Arguments fdiv {F} _ _ _.
Arguments fopp {F} _ _.
Arguments lit_1e64 {F} _.
Arguments lit_1e16 {F} _.
Arguments lit_1e4 {F} _.
Arguments lit_1e1 {F} _.
Arguments narrow {F} _ _.

Section ReadFloat.
Context {F : Type} (ops : FloatOps F).

(** [while (isdigit(c = Getc())) { num = num * 10.0 + (c - '0'); divisor *= 10.0; }]
    The integer part runs the same loop and ignores [divisor]. *)
Fixpoint floatDigits (num divisor : F) (buf : list Z) : F * F * Z * list Z :=
  match buf with
  | [] => (num, divisor, EOF, [])
  | c :: rest =>
      if isdigit c
      then floatDigits (fadd ops (fmul ops num (of_int ops 10)) (of_int ops (c - chZero)))
                       (fmul ops divisor (of_int ops 10)) rest
      else (num, divisor, c, rest)
  end.

(** [while (isdigit(c)) { eval = eval * 10 + (c - '0'); c = Getc(); }]
    with [int eval]. *)
Fixpoint expDigits (eval : Z) (c : Z) (buf : list Z) : Z * Z * list Z :=
  if isdigit c then
    match buf with
    | [] => (wrap32 (wrap32 (eval * 10) + (c - chZero)), EOF, [])
    | c' :: rest => expDigits (wrap32 (wrap32 (eval * 10) + (c - chZero))) c' rest
    end
  else (eval, c, buf).

(** [while (eval >= step) { scale *= factor; eval -= step; }] *)
Fixpoint scaleLoop (fuel : nat) (step : Z) (factor : F) (eval : Z) (scale : F) : Z * F :=
  match fuel with
  | O => (eval, scale)
  | S fuel' =>
      if step <=? eval
      then scaleLoop fuel' step factor (eval - step) (fmul ops scale factor)
      else (eval, scale)
  end.

(** ["fast exponent multiplication!"] *)
Definition fastScale (eval : Z) : F :=
  let fuel := Z.to_nat eval in
  let '(e1, s1) := scaleLoop fuel 64 (lit_1e64 ops) eval (of_int ops 1) in
  let '(e2, s2) := scaleLoop fuel 16 (lit_1e16 ops) e1 s1 in
  let '(e3, s3) := scaleLoop fuel 4 (lit_1e4 ops) e2 s2 in
  let '(_, s4) := scaleLoop fuel 1 (lit_1e1 ops) e3 s3 in
  s4.

(** ["read integer part (before '.')"], [num] starting from [0]. *)
Definition intPart (c : Z) (buf : list Z) : F * Z * list Z :=
  if negb (c =? chDot) then
    let '(n, _, c', rest) := floatDigits (of_int ops (c - chZero)) (of_int ops 1) buf in
    (n, c', rest)
  else (of_int ops 0, c, buf).

(** ["read decimal part (after '.')"] *)
Definition fracPart (num : F) (c : Z) (buf : list Z) : F * Z * list Z :=
  if c =? chDot then
    let '(n, divisor, c', rest) := floatDigits num (of_int ops 1) buf in
    (fdiv ops n divisor, c', rest)
  else (num, c, buf).

(** ["read exponent part"] *)
Definition expPart (num : F) (c : Z) (buf : list Z) : F * Z * list Z :=
  if (c =? chE) || (c =? che) then
    let '(ca, resta) := match buf with [] => (EOF, []) | x :: r => (x, r) end in
    let '(esign, cb, restb) :=
      if ca =? chMinus then
        match resta with [] => (-1, EOF, []) | x :: r => (-1, x, r) end
      else if ca =? chPlus then
        match resta with [] => (1, EOF, []) | x :: r => (1, x, r) end
      else (1, ca, resta) in
    let '(eval, cc, rest) := expDigits 0 cb restb in
    let scale := fastScale eval in
    (if esign <? 0 then fdiv ops num scale else fmul ops num scale, cc, rest)
  else (num, c, buf).

Definition ReadFloatValue (io : vtkFoamFile) : Result (F * vtkFoamFile) :=
  let '(negNum, c, io1) := readHead io in
  if negb (isdigit c) && negb (c =? chDot) then inl (UnexpectedNondigit c)
  else
    let '(num1, c1, buf1) := intPart c (Buf io1) in
    let '(num2, c2, buf2) := fracPart num1 c1 buf1 in
    let '(num3, c3, buf3) := expPart num2 c2 buf2 in
    if c3 =? EOF then inl UnexpectedEOF
    else inr (narrow ops (if negNum then fopp ops num3 else num3),
              PutBack c3 (mkFile buf3 (LineNumber io1))).

End ReadFloat.

(** Exact rational arithmetic.  This is not the arithmetic of the source:
    it has no rounding, no overflow and no underflow.  It serves to say what
    the digit and exponent steps compute when taken exactly, and as the
    number type of the sample dictionaries. *)
Definition QOps : FloatOps Q :=
  mkFloatOps Q inject_Z Qplus Qmult Qdiv Qopp
    (inject_Z (10 ^ 64)) (inject_Z (10 ^ 16)) (inject_Z (10 ^ 4)) (inject_Z 10)
    (fun q => q).

(** IEEE binary64, the [double] of the source (FloatType = double). *)
Definition DoubleOps : FloatOps float :=
  mkFloatOps float (fun z => PrimFloat.of_uint63 (Uint63.of_Z z))
    PrimFloat.add PrimFloat.mul PrimFloat.div PrimFloat.opp
    1.0e+64%float 1.0e+16%float 1.0e+4%float 1.0e+1%float
    (fun x => x).

(** *** Written literals

    The shape of a numeric literal of a FoamFile, used to state what the
    readers recover. *)

Inductive Sign : Type := NoSign | Plus | Minus.

Definition signChars (s : Sign) : list Z :=
  match s with
  | NoSign => []
  | Plus => [chPlus]
  | Minus => [chMinus]
  end.

Definition negOf (s : Sign) : bool :=
  match s with
  | Minus => true
  | _ => false
  end.

Definition signZ (s : Sign) (v : Z) : Z :=
  match s with
  | Minus => - v
  | _ => v
  end.

(** Decimal digits (values [0..9]) and the characters that write them. *)
Definition isDigitValue (d : Z) : Prop := 0 <= d <= 9.
Definition digitChars (ds : list Z) : list Z := map (fun d => chZero + d) ds.
Definition decStep (acc d : Z) : Z := 10 * acc + d.
Definition decimalValue (ds : list Z) : Z := fold_left decStep ds 0.

(** A floating literal: sign, integer digits, optional ['.'] and fraction
    digits, optional exponent (marker ['e'] or ['E'], sign, digits). *)
Record FloatLiteral : Type := mkFloatLiteral {
  fl_sign : Sign;
  fl_int : list Z;
  fl_frac : option (list Z);
  fl_exp : option (bool * Sign * list Z)
}.

Definition fracDigits (l : FloatLiteral) : list Z :=
  match fl_frac l with
  | Some fs => fs
  | None => []
  end.

Definition floatChars (l : FloatLiteral) : list Z :=
  signChars (fl_sign l) ++ digitChars (fl_int l)
  ++ match fl_frac l with
     | Some fs => chDot :: digitChars fs
     | None => []
     end
  ++ match fl_exp l with
     | Some (upper, s, es) => (if upper : bool then chE else che) :: signChars s ++ digitChars es
     | None => []
     end.

Definition wellFormedFloat (l : FloatLiteral) : Prop :=
  Forall isDigitValue (fl_int l)
  /\ Forall isDigitValue (fracDigits l)
  /\ (fl_int l = [] -> fl_frac l <> None)
  /\ match fl_exp l with
     | Some (_, _, es) => Forall isDigitValue es /\ decimalValue es <= VTK_TYPE_INT32_MAX
     | None => True
     end.

(** The number a literal denotes. *)
Definition mantissaQ (l : FloatLiteral) : Q :=
  (inject_Z (decimalValue (fl_int l ++ fracDigits l))
   / inject_Z (10 ^ Z.of_nat (length (fracDigits l))))%Q.

Definition scaledQ (l : FloatLiteral) : Q :=
  match fl_exp l with
  | Some (_, Minus, es) => (mantissaQ l / inject_Z (10 ^ decimalValue es))%Q
  | Some (_, _, es) => (mantissaQ l * inject_Z (10 ^ decimalValue es))%Q
  | None => mantissaQ l
  end.

Definition writtenValue (l : FloatLiteral) : Q :=
  match fl_sign l with
  | Minus => (- scaledQ l)%Q
  | _ => scaledQ l
  end.

(** A character that ends a literal: it cannot continue one. *)
Definition endsLiteral (t : Z) : Prop :=
  0 <= t < 256 /\ isdigit t = false /\ t <> chDot /\ t <> chE /\ t <> che
  /\ t <> chPlus /\ t <> chMinus.

End FoamFile.

(** ** VTK arrays

    [vtkTypeInt32Array], [vtkTypeInt64Array], [vtkIdList] and the like belong
    to VTK's core, not to the reader; they are modelled after their documented
    behaviour as lists of the valid values ([MaxId + 1] of them).  Memory that
    VTK allocates without initialising holds [garbage]. *)

Section Arrays.
Context (garbage : nat -> Z).

(** The array after [SetNumberOfValues(n)] on a fresh array. *)
Definition SetNumberOfValues (n : Z) : list Z := map garbage (seq 0 (Z.to_nat n)).

(** Growth to [n] values, old values kept. *)
Definition growTo (n : Z) (a : list Z) : list Z :=
  a ++ map garbage (seq (length a) (Z.to_nat n - length a)).

(** [Resize(n)]: growing only reserves memory, shrinking drops values. *)
Definition Resize (n : Z) (a : list Z) : list Z := take (Z.to_nat n) a.

Definition GetValue (a : list Z) (i : Z) : Z := a !!! Z.to_nat i.
Definition SetValue (a : list Z) (i : Z) (v : Z) : list Z := <[Z.to_nat i := v]> a.
Definition FillValue (v : Z) (a : list Z) : list Z := map (fun _ => v) a.

(** [InsertValue(i, v)] grows the array when [i] is beyond its end. *)
Definition InsertValue (a : list Z) (i : Z) (v : Z) : list Z :=
  SetValue (growTo (i + 1) a) i v.

(** [WritePointer(i, n)] makes [i + n] values valid. *)
Definition WritePointer (a : list Z) (i n : Z) : list Z := growTo (i + n) a.

(** An array of labels with its element width. *)
Record vtkLabelArray : Type := mkLabels { Is64BitArray : bool; Values : list Z }.

(** [GetLabelValue(array, idx, use64BitLabels)]: the flag selects the cast
    under which the array is read; both casts deliver the stored label. *)
Definition GetLabelValue (array : vtkLabelArray) (idx : Z) (use64BitLabels : bool) : Z :=
  GetValue (Values array) idx.

Definition GetNumberOfTuples (array : vtkLabelArray) : Z := Z.of_nat (length (Values array)).

(** ** vtkFoamLabelListList: packed data and a table of offsets *)

Record vtkFoamLabelListList : Type := mkLabelListList {
  IsLabel64 : bool;         (* vtkFoamLabelListList64 or vtkFoamLabelListList32 *)
  Offsets : list Z;
  Data : list Z
}.

Definition newLabelListList (is64 : bool) : vtkFoamLabelListList :=
  mkLabelListList is64 [] [].

(** [static_cast<LabelType>]. *)
Definition castLabel (is64 : bool) (v : Z) : Z := if is64 then wrap64 v else wrap32 v.

Definition GetLabelSize (l : vtkFoamLabelListList) : Z := if IsLabel64 l then 8 else 4.
Definition GetNumberOfElements (l : vtkFoamLabelListList) : Z :=
  Z.of_nat (length (Offsets l)) - 1.

Definition ResizeExact (l : vtkFoamLabelListList) (numElem numValues : Z) : vtkFoamLabelListList :=
  mkLabelListList (IsLabel64 l)
    (SetValue (SetNumberOfValues (numElem + 1)) 0 0)
    (SetNumberOfValues numValues).

Definition ResizeData (l : vtkFoamLabelListList) (numValues : Z) : vtkFoamLabelListList :=
  mkLabelListList (IsLabel64 l) (Offsets l) (Resize numValues (Data l)).

Definition ResetOffsets (l : vtkFoamLabelListList) : vtkFoamLabelListList :=
  mkLabelListList (IsLabel64 l) (FillValue 0 (Offsets l)) (Data l).

Definition GetBeginOffset (l : vtkFoamLabelListList) (i : Z) : Z := GetValue (Offsets l) i.
Definition GetEndOffset (l : vtkFoamLabelListList) (i : Z) : Z := GetValue (Offsets l) (i + 1).
Definition GetSize (l : vtkFoamLabelListList) (i : Z) : Z :=
  GetValue (Offsets l) (i + 1) - GetValue (Offsets l) i.

Definition SetOffset (l : vtkFoamLabelListList) (i val : Z) : vtkFoamLabelListList :=
  mkLabelListList (IsLabel64 l) (SetValue (Offsets l) i (castLabel (IsLabel64 l) val)) (Data l).

Definition IncrementOffset (l : vtkFoamLabelListList) (i : Z) : vtkFoamLabelListList :=
  mkLabelListList (IsLabel64 l)
    (SetValue (Offsets l) i (castLabel (IsLabel64 l) (GetValue (Offsets l) i + 1))) (Data l).

(** [WritePointer(cellId, dataOffset, subLength)] stores [dataOffset] in
    [Offsets[cellId]] and has [Data] make room for the sublist. *)
Definition LLL_WritePointer (l : vtkFoamLabelListList) (cellId dataOffset subLength : Z)
  : vtkFoamLabelListList :=
  let off := castLabel (IsLabel64 l) dataOffset in
  mkLabelListList (IsLabel64 l) (SetValue (Offsets l) cellId off)
    (WritePointer (Data l) off subLength).

(** [GetValue(bodyIndex)] and [SetValue(bodyIndex, value)] *)
Definition LLL_GetValue (l : vtkFoamLabelListList) (bodyIndex : Z) : Z :=
  GetValue (Data l) bodyIndex.
Definition LLL_SetValue (l : vtkFoamLabelListList) (bodyIndex value : Z) : vtkFoamLabelListList :=
  mkLabelListList (IsLabel64 l) (Offsets l)
    (SetValue (Data l) bodyIndex (castLabel (IsLabel64 l) value)).

(** [GetValue(cellId, subIndex)] and [SetValue(cellId, subIndex, value)] *)
Definition LLL_GetValue2 (l : vtkFoamLabelListList) (cellId subIndex : Z) : Z :=
  GetValue (Data l) (GetValue (Offsets l) cellId + subIndex).
Definition LLL_SetValue2 (l : vtkFoamLabelListList) (cellId subIndex value : Z)
  : vtkFoamLabelListList :=
  mkLabelListList (IsLabel64 l) (Offsets l)
    (SetValue (Data l) (GetValue (Offsets l) cellId + subIndex) (castLabel (IsLabel64 l) value)).

Definition LLL_InsertValue (l : vtkFoamLabelListList) (bodyIndex value : Z)
  : vtkFoamLabelListList :=
  mkLabelListList (IsLabel64 l) (Offsets l)
    (InsertValue (Data l) bodyIndex (castLabel (IsLabel64 l) value)).

(** [GetCell(i, cell)]: the values from [Offsets[i]] up to [Offsets[i + 1]]. *)
Definition GetCell (l : vtkFoamLabelListList) (i : Z) : list Z :=
  let idx := GetValue (Offsets l) i in
  let last := GetValue (Offsets l) (i + 1) in
  map (GetValue (Data l)) (seqZ idx (last - idx)).

End Arrays.

(** ** 4.5  Cell faces from owner and neighbour *)

(** [for (i = lo; i < hi; ++i) body] over a state. *)
Definition forRange {S : Type} (lo hi : Z) (body : Z -> S -> S) (s : S) : S :=
  fold_left (fun s i => body i s) (seqZ lo (hi - lo)) s.

Section CellFaces.
Context (garbage : nat -> Z).

(** The mesh sizes [CreateCellFaces] stores in the reader. *)
Record MeshSizes : Type := mkMeshSizes {
  NumCells : Z;
  NumFaces : Z;
  NumInternalFaces : Z
}.

(** [if (label >= 0) { ++nTotalCellFaces; if (nCells < label) nCells = label; }] *)
Definition countLabel (label : Z) (acc : Z * Z) : Z * Z :=
  let '(nCells, nTotalCellFaces) := acc in
  if 0 <=? label
  then (if nCells <? label then label else nCells, nTotalCellFaces + 1)
  else acc.

(** ["Determine the number of cells and number of cell faces (total)"] *)
Definition countCells (faceOwner faceNeigh : vtkLabelArray) (use64BitLabels : bool)
    (nInternalFaces nFaces : Z) : Z * Z :=
  let acc :=
    forRange 0 nInternalFaces (fun facei acc =>
      let acc := countLabel (GetLabelValue faceOwner facei use64BitLabels) acc in
      countLabel (GetLabelValue faceNeigh facei use64BitLabels) acc) (-1, 0) in
  let acc :=
    forRange nInternalFaces nFaces (fun facei acc =>
      countLabel (GetLabelValue faceOwner facei use64BitLabels) acc) acc in
  (wrap64 (fst acc + 1), snd acc).

(** [if (label >= 0) cells.IncrementOffset(cellIndexOffset + label);] with
    [cellIndexOffset = 1]: the count goes into the slot above. *)
Definition tallyLabel (label : Z) (cells : vtkFoamLabelListList) : vtkFoamLabelListList :=
  if 0 <=? label then IncrementOffset cells (1 + label) else cells.

(** ["Establish the per-cell face count"] *)
Definition tallyFaces (faceOwner faceNeigh : vtkLabelArray) (use64BitLabels : bool)
    (nInternalFaces nFaces : Z) (cells : vtkFoamLabelListList) : vtkFoamLabelListList :=
  let cells :=
    forRange 0 nInternalFaces (fun facei cells =>
      let cells := tallyLabel (GetLabelValue faceOwner facei use64BitLabels) cells in
      tallyLabel (GetLabelValue faceNeigh facei use64BitLabels) cells) cells in
  forRange nInternalFaces nFaces (fun facei cells =>
    tallyLabel (GetLabelValue faceOwner facei use64BitLabels) cells) cells.

(** ["Reduce per-cell face count -> start offsets"] *)
Definition reduceOffsets (nCells : Z) (cells : vtkFoamLabelListList) : vtkFoamLabelListList :=
  fst (forRange 1 (nCells + 1) (fun celli st =>
         let '(cells, currOffset) := st in
         let currOffset := currOffset + GetBeginOffset cells celli in
         (SetOffset cells celli currOffset, currOffset)) (cells, 0)).

(** [if (label >= 0) { next = tmpAddr->GetBeginOffset(label);
      tmpAddr->IncrementOffset(label); cells.SetValue(next, facei); }] *)
Definition scatterLabel (label facei : Z) (st : vtkFoamLabelListList * vtkFoamLabelListList)
  : vtkFoamLabelListList * vtkFoamLabelListList :=
  let '(cells, tmpAddr) := st in
  if 0 <=? label then
    let next := GetBeginOffset tmpAddr label in
    let tmpAddr := IncrementOffset tmpAddr label in
    (LLL_SetValue cells next facei, tmpAddr)
  else st.

(** ["Add face numbers to cell-faces list, using tmpAddr offsets to manage
    the locations"] *)
Definition scatterFaces (faceOwner faceNeigh : vtkLabelArray) (use64BitLabels : bool)
    (nInternalFaces nFaces : Z) (st : vtkFoamLabelListList * vtkFoamLabelListList)
  : vtkFoamLabelListList * vtkFoamLabelListList :=
  let st :=
    forRange 0 nInternalFaces (fun facei st =>
      let st := scatterLabel (GetLabelValue faceOwner facei use64BitLabels) facei st in
      scatterLabel (GetLabelValue faceNeigh facei use64BitLabels) facei st) st in
  forRange nInternalFaces nFaces (fun facei st =>
    scatterLabel (GetLabelValue faceOwner facei use64BitLabels) facei st) st.

Definition CreateCellFaces (faceOwner faceNeigh : vtkLabelArray)
  : MeshSizes * vtkFoamLabelListList :=
  let use64BitLabels := Is64BitArray faceOwner in
  let nFaces := GetNumberOfTuples faceOwner in
  let nInternalFaces := GetNumberOfTuples faceNeigh in
  let '(nCells, nTotalCellFaces) :=
    countCells faceOwner faceNeigh use64BitLabels nInternalFaces nFaces in
  (* Create meshCells. Avoid 32bit overflow for nTotalCellFaces *)
  let cells :=
    newLabelListList (use64BitLabels || (VTK_TYPE_INT32_MAX <? nTotalCellFaces)) in
  let cells := ResizeExact garbage cells nCells nTotalCellFaces in
  let cells := ResetOffsets cells in
  let cells := tallyFaces faceOwner faceNeigh use64BitLabels nInternalFaces nFaces cells in
  let cells := reduceOffsets nCells cells in
  (* Deep copy of offsets into a temporary array *)
  let tmpAddr := ResizeExact garbage (newLabelListList (IsLabel64 cells)) nCells 1 in
  let tmpAddr := mkLabelListList (IsLabel64 tmpAddr) (Offsets cells) (Data tmpAddr) in
  let '(cells, _) :=
    scatterFaces faceOwner faceNeigh use64BitLabels nInternalFaces nFaces (cells, tmpAddr) in
  (mkMeshSizes nCells nFaces nInternalFaces, cells).

End CellFaces.

(** What the cell-face list of cell [c] is expected to hold: the faces owned
    by [c] and the internal faces whose neighbour is [c], by face index; a
    face with [c] on both sides is listed twice. *)
Definition facesOfCell (owner neigh : list Z) (c : Z) : list Z :=
  flat_map (fun f =>
      (if decide (GetValue owner f = c) then [f] else [])
      ++ (if decide (f < Z.of_nat (length neigh) /\ GetValue neigh f = c) then [f] else []))
    (seqZ 0 (Z.of_nat (length owner))).

(** The cells whose face list mentions face [f]. *)
Definition cellsWithFace (cells : vtkFoamLabelListList) (f : Z) : list Z :=
  filter (fun c => f ∈ GetCell cells c) (seqZ 0 (GetNumberOfElements cells)).

(** The greatest label of the two arrays, [-1] when there is none. *)
Definition maxLabel (owner neigh : list Z) : Z := fold_left Z.max (owner ++ neigh) (-1).

(** *** Vocabulary for the counting sort

    Every pass of [CreateCellFaces] visits the same labelled faces. *)

(** The labelled faces in the order every pass of [CreateCellFaces] visits
    them: owner then neighbour of each internal face, then the owner of each
    boundary face. *)
Definition faceEvents (owner neigh : list Z) : list (Z * Z) :=
  flat_map (fun f => (GetValue owner f, f)
                     :: (if decide (f < Z.of_nat (length neigh)) then [(GetValue neigh f, f)] else []))
    (seqZ 0 (Z.of_nat (length owner))).

(** How many of the labelled faces carry label [c], how many carry a label
    below [i], and the faces that carry [c], in order. *)
Definition labelCount (evs : list (Z * Z)) (c : Z) : Z :=
  Z.of_nat (length (filter (fun e => e.1 = c) evs)).
Definition labelStart (evs : list (Z * Z)) (i : Z) : Z :=
  Z.of_nat (length (filter (fun e => e.1 < i) evs)).
Definition labelFaces (evs : list (Z * Z)) (c : Z) : list Z :=
  (filter (fun e => e.1 = c) evs).*2.

(** Fresh memory that happens to hold zeros. *)
Definition zeroGarbage (i : nat) : Z := 0.

(** ** 3  Tokens, entry values, entries and dictionaries

    [double] and [float] are the scalar types of the source; the reader only
    carries and converts them, so they stay abstract. *)

Inductive tokenType : Type :=
| UNDEFINED
| PUNCTUATION | LABEL | SCALAR | STRING | IDENTIFIER
| STRINGLIST | LABELLIST | SCALARLIST | VECTORLIST
| LABELLISTLIST | ENTRYVALUELIST | BOOLLIST | EMPTYLIST | DICTIONARY
| TOKEN_ERROR.

Definition tokenType_eqb (a b : tokenType) : bool :=
  match a, b with
  | UNDEFINED, UNDEFINED | PUNCTUATION, PUNCTUATION | LABEL, LABEL | SCALAR, SCALAR
  | STRING, STRING | IDENTIFIER, IDENTIFIER | STRINGLIST, STRINGLIST
  | LABELLIST, LABELLIST | SCALARLIST, SCALARLIST | VECTORLIST, VECTORLIST
  | LABELLISTLIST, LABELLISTLIST | ENTRYVALUELIST, ENTRYVALUELIST
  | BOOLLIST, BOOLLIST | EMPTYLIST, EMPTYLIST | DICTIONARY, DICTIONARY
  | TOKEN_ERROR, TOKEN_ERROR => true
  | _, _ => false
  end.

Section FoamData.
Context {double float : Type}.

(** [vtkFoamToken]: the atomic payloads of the tagged union. *)
Inductive vtkFoamToken : Type :=
| TUndefined
| TPunctuation (c : Z)
| TLabel (i : Z)
| TScalar (d : double)
| TString (s : string)
| TIdentifier (s : string)
| TError.

Definition Token_GetType (t : vtkFoamToken) : tokenType :=
  match t with
  | TUndefined => UNDEFINED
  | TPunctuation _ => PUNCTUATION
  | TLabel _ => LABEL
  | TScalar _ => SCALAR
  | TString _ => STRING
  | TIdentifier _ => IDENTIFIER
  | TError => TOKEN_ERROR
  end.

(** [operator==(const char)], [operator==(const vtkTypeInt32)] and
    [operator==(const std::string&)]. *)
Definition Token_eq_char (t : vtkFoamToken) (c : Z) : bool :=
  match t with
  | TPunctuation c' => c' =? c
  | _ => false
  end.
Definition Token_eq_int (t : vtkFoamToken) (v : Z) : bool :=
  match t with
  | TLabel i => i =? v
  | _ => false
  end.
Definition Token_eq_string (t : vtkFoamToken) (s : string) : bool :=
  match t with
  | TString s' => String.eqb s' s
  | _ => false
  end.

(** [vtkFoamEntryValue] extends the token with the list payloads, the
    uniform flag of the entry value, and a nested dictionary; [vtkFoamEntry]
    is a keyword with its values, [vtkFoamDict] a sequence of entries that
    can degenerate to a single token. *)
Inductive vtkFoamEntryValue : Type :=
| mkEntryValue (IsUniformEntry : bool) (data : vtkFoamData)
with vtkFoamData : Type :=
| DToken (t : vtkFoamToken)
| DStringList (l : list string)
| DLabelList (l : vtkLabelArray)
| DScalarList (l : list float)
| DVectorList (nComponents : Z) (l : list float)
| DLabelListList (l : vtkFoamLabelListList)
| DEntryValueList (l : list vtkFoamEntryValue)
| DBoolList (l : list Z)
| DEmptyList
| DDictionary (d : vtkFoamDict)
with vtkFoamDict : Type :=
| mkDict (Token : vtkFoamToken) (entries : list vtkFoamEntry)
with vtkFoamEntry : Type :=
| mkEntry (Keyword : string) (values : list vtkFoamEntryValue).

Definition IsUniform (v : vtkFoamEntryValue) : bool :=
  let '(mkEntryValue u _) := v in u.
Definition dataOf (v : vtkFoamEntryValue) : vtkFoamData :=
  let '(mkEntryValue _ d) := v in d.

Definition Data_GetType (d : vtkFoamData) : tokenType :=
  match d with
  | DToken t => Token_GetType t
  | DStringList _ => STRINGLIST
  | DLabelList _ => LABELLIST
  | DScalarList _ => SCALARLIST
  | DVectorList _ _ => VECTORLIST
  | DLabelListList _ => LABELLISTLIST
  | DEntryValueList _ => ENTRYVALUELIST
  | DBoolList _ => BOOLLIST
  | DEmptyList => EMPTYLIST
  | DDictionary _ => DICTIONARY
  end.

Definition GetType (v : vtkFoamEntryValue) : tokenType := Data_GetType (dataOf v).

(** The constructor [vtkFoamEntryValue(upperEntryPtr)]: undefined, not uniform. *)
Definition newEntryValue : vtkFoamEntryValue := mkEntryValue false (DToken TUndefined).

Definition SetEmptyList (v : vtkFoamEntryValue) : vtkFoamEntryValue :=
  mkEntryValue false DEmptyList.

(** [operator==] of the token part of an entry value. *)
Definition Value_eq_char (v : vtkFoamEntryValue) (c : Z) : bool :=
  match dataOf v with
  | DToken t => Token_eq_char t c
  | _ => false
  end.
Definition Value_eq_int (v : vtkFoamEntryValue) (i : Z) : bool :=
  match dataOf v with
  | DToken t => Token_eq_int t i
  | _ => false
  end.

(** [vtkFoamEntryValue::ToInt] and [ToString]. *)
Definition Value_ToInt (v : vtkFoamEntryValue) : Z :=
  match dataOf v with
  | DToken (TLabel i) => i
  | _ => 0
  end.
Definition Value_ToString (v : vtkFoamEntryValue) : string :=
  match dataOf v with
  | DToken (TString s) => s
  | _ => EmptyString
  end.

Definition Keyword (e : vtkFoamEntry) : string := let '(mkEntry k _) := e in k.
Definition values (e : vtkFoamEntry) : list vtkFoamEntryValue := let '(mkEntry _ vs) := e in vs.

(** [vtkFoamEntry::ToInt], [ToString]: of the first value, if any. *)
Definition Entry_ToInt (e : vtkFoamEntry) : Z :=
  match values e with
  | [] => 0
  | v :: _ => Value_ToInt v
  end.
Definition Entry_ToString (e : vtkFoamEntry) : string :=
  match values e with
  | [] => EmptyString
  | v :: _ => Value_ToString v
  end.

Definition Token (d : vtkFoamDict) : vtkFoamToken := let '(mkDict t _) := d in t.
Definition entries (d : vtkFoamDict) : list vtkFoamEntry := let '(mkDict _ es) := d in es.

(** [vtkFoamDict::GetType]: a dictionary unless it holds a single token. *)
Definition Dict_GetType (d : vtkFoamDict) : tokenType :=
  match Token_GetType (Token d) with
  | UNDEFINED => DICTIONARY
  | ty => ty
  end.

(** ** 4.4  vtkFoamDict::Lookup

    [rexMatchesAll key keyword] stands for
    [rex.compile(key) && rex.find(keyword) && rex.start(0) == 0 &&
     rex.end(0) == keyword.size()] of [vtksys::RegularExpression], which is
    not part of the reader. *)

Section Lookup.
Context (rexMatchesAll : string -> string -> bool).

(** The loop over the entries from index [i] on, [lastMatch] being an [int]. *)
Fixpoint Lookup_loop (es : list vtkFoamEntry) (i : Z) (keyword : string) (regex : bool)
    (lastMatch : Z) : vtkFoamEntry + Z :=
  match es with
  | [] => inr lastMatch
  | e :: rest =>
      let key := Keyword e in
      if String.eqb key keyword then inl e
      else if regex && rexMatchesAll key keyword
           then Lookup_loop rest (i + 1) keyword regex (wrap32 i)
           else Lookup_loop rest (i + 1) keyword regex lastMatch
  end.

Definition Lookup (d : vtkFoamDict) (keyword : string) (regex : bool) : option vtkFoamEntry :=
  match Token_GetType (Token d) with
  | UNDEFINED =>
      match Lookup_loop (entries d) 0 keyword regex (-1) with
      | inl e => Some e
      | inr lastMatch =>
          if 0 <=? lastMatch then entries d !! Z.to_nat lastMatch else None
      end
  | _ => None   (* Not found *)
  end.

End Lookup.

End FoamData.

Arguments vtkFoamToken : clear implicits.
Arguments vtkFoamEntryValue : clear implicits.
Arguments vtkFoamData : clear implicits.
Arguments vtkFoamDict : clear implicits.
Arguments vtkFoamEntry : clear implicits.

(** ** 4.2-4.3  The token stream and the list readers

    The value readers are modelled on the token sequence of an ASCII file:
    [io.Read(token)] delivers the next token, and the character-level
    [ReadExpecting], [ReadIntValue] and [ReadFloatValue] consume the
    punctuation or number that comes next.  Raw binary payloads cannot be
    written in such a stream, so [IsAsciiFormat] holds and the binary
    branches end in [BinaryStream]. *)

Definition BinaryStream : vtkFoamError := ErrorMessage "binary payload in a token stream".

Section FoamStream.
Context {double float : Type}.
Context (toFloat : double -> float) (intToDouble : Z -> double) (intToFloat : Z -> float).
Context (garbage : nat -> Z).

Local Abbreviation token := (vtkFoamToken double).
Local Abbreviation entryValue := (vtkFoamEntryValue double float).
Local Abbreviation fdata := (vtkFoamData double float).
Local Abbreviation dict := (vtkFoamDict double float).
Local Abbreviation entry := (vtkFoamEntry double float).

Record vtkFoamIOobject : Type := mkIO {
  tokens : list token;
  io_IsLabel64 : bool;
  io_IsFloat64 : bool
}.

Definition IsAsciiFormat (io : vtkFoamIOobject) : bool := true.

Definition withTokens (io : vtkFoamIOobject) (ts : list token) : vtkFoamIOobject :=
  mkIO ts (io_IsLabel64 io) (io_IsFloat64 io).

(** [io.Read(token)]: [None] at the end of the input. *)
Definition io_Read (io : vtkFoamIOobject) : option (token * vtkFoamIOobject) :=
  match tokens io with
  | [] => None
  | t :: rest => Some (t, withTokens io rest)
  end.

Definition charOf (t : token) : Z :=
  match t with
  | TPunctuation c => c
  | _ => 0
  end.

Definition chOpen : Z := FoamFile.ch "(".
Definition chClose : Z := FoamFile.ch ")".
Definition chOpenBrace : Z := FoamFile.ch "{".
Definition chCloseBrace : Z := FoamFile.ch "}".
Definition chOpenBracket : Z := FoamFile.ch "[".
Definition chSemicolon : Z := FoamFile.ch ";".

Definition ReadExpecting (expected : Z) (io : vtkFoamIOobject) : Result vtkFoamIOobject :=
  match io_Read io with
  | None => inl (UnexpectedToken expected FoamFile.EOF)
  | Some (t, io') =>
      if Token_eq_char t expected then inr io' else inl (UnexpectedToken expected (charOf t))
  end.

(** [vtkFoamReadValue<vtkTypeInt64>::ReadValue(io)], that is [io.ReadIntValue()].
    Of a scalar the reader takes the digits before the ['.'] and the read
    after it stops at the ['.'] (a scalar written with an exponent only
    stops it at the ['e']; the token does not keep its text). *)
Definition ReadValue_int (io : vtkFoamIOobject) : Result (Z * vtkFoamIOobject) :=
  match io_Read io with
  | None => inl UnexpectedEOF
  | Some (TLabel v, io') => inr (v, io')
  | Some (TScalar _, _) => inl (UnexpectedNondigit (FoamFile.ch "."))
  | Some (t, _) => inl (UnexpectedNondigit (charOf t))
  end.

(** [vtkFoamReadValue<float or double>::ReadValue(io)], stored in a
    [vtkFloatArray].  [ReadFloatValue] tests for a digit or ['.'] before it
    tests for the end of the input, so the end of the input is reported as a
    character that is no digit. *)
Definition ReadValue_float (io : vtkFoamIOobject) : Result (float * vtkFoamIOobject) :=
  match io_Read io with
  | None => inl (UnexpectedNondigit FoamFile.EOF)
  | Some (TLabel v, io') => inr (toFloat (intToDouble v), io')
  | Some (TScalar d, io') => inr (toFloat d, io')
  | Some (t, _) => inl (UnexpectedNondigit (charOf t))
  end.

(** A [Result] loop: [for (i = lo; i < hi; ++i) body], stopping at the
    first error. *)
Definition forRangeR {S : Type} (lo hi : Z) (body : Z -> S -> Result S) (s : S) : Result S :=
  fold_left (fun r i => bindR r (body i)) (seqZ lo (hi - lo)) (inr s).

(** *** vtkFoamEntryValue::ReadLabelListList *)

(** [while (io.Read(currToken) && currToken != ')')] of a sub-list written
    without its size. *)
Fixpoint readDelimitedSublist (ts : list token) (lll : vtkFoamLabelListList) (nTotalElems : Z)
  : Result (vtkFoamLabelListList * Z * list token) :=
  match ts with
  | [] => inr (lll, nTotalElems, [])
  | currToken :: rest =>
      if Token_eq_char currToken chClose then inr (lll, nTotalElems, rest)
      else
        match currToken with
        | TLabel v =>
            (* InsertValue(nTotalElems++, currToken.To<int>()); ++nTotalElems; *)
            let lll := LLL_InsertValue garbage lll nTotalElems (wrap32 v) in
            readDelimitedSublist rest lll (nTotalElems + 1 + 1)
        | _ => inl (ErrorMessage "Expected an integer")
        end
  end.

(** One round of [for (idx = 0; idx < listLen; ++idx)]. *)
Definition readSublist (idx : Z) (st : vtkFoamLabelListList * Z * vtkFoamIOobject)
  : Result (vtkFoamLabelListList * Z * vtkFoamIOobject) :=
  let '(lll, nTotalElems, io) := st in
  match io_Read io with
  | None => inl UnexpectedEOF
  | Some (TLabel sublistLen, io) =>
      if sublistLen <? 0 then inl (ErrorMessage "Illegal negative list length")
      else
        let lll := LLL_WritePointer garbage lll idx nTotalElems sublistLen in
        if IsAsciiFormat io then
          do io <- ReadExpecting chOpen io;
          do st <- forRangeR 0 sublistLen (fun subIdx st =>
                     let '(lll, io) := st in
                     do r <- ReadValue_int io;
                     let '(value, io) := r in
                     inr (LLL_SetValue2 lll idx subIdx value, io)) (lll, io);
          let '(lll, io) := st in
          do io <- ReadExpecting chClose io;
          inr (lll, nTotalElems + sublistLen, io)
        else if 0 <? sublistLen then inl BinaryStream
        else inr (lll, nTotalElems + sublistLen, io)
  | Some (currToken, io) =>
      if Token_eq_char currToken chOpen then
        let lll := SetOffset lll idx nTotalElems in
        do r <- readDelimitedSublist (tokens io) lll nTotalElems;
        let '(lll, nTotalElems, rest) := r in
        inr (lll, nTotalElems, withTokens io rest)
      else inl (ErrorMessage "Expected integer or '('")
  end.

Definition ReadLabelListList (io : vtkFoamIOobject)
  : Result (vtkFoamLabelListList * vtkFoamIOobject) :=
  let use64BitLabels := io_IsLabel64 io || IsAsciiFormat io in
  match io_Read io with
  | None => inl UnexpectedEOF
  | Some (TLabel listLen, io) =>
      if listLen <? 0 then inl (ErrorMessage "Illegal negative list length")
      else
        (* Initial guess for list length *)
        let lll := ResizeExact garbage (newLabelListList use64BitLabels) listLen (4 * listLen) in
        do io <- ReadExpecting chOpen io;
        do st <- forRangeR 0 listLen readSublist (lll, 0, io);
        let '(lll, nTotalElems, io) := st in
        (* Set the final offset *)
        let lll := SetOffset lll listLen nTotalElems in
        (* Shrink to the actually used size *)
        let lll := ResizeData lll nTotalElems in
        do io <- ReadExpecting chClose io;
        inr (lll, io)
  | Some (_, _) => inl (ErrorMessage "Expected integer")
  end.

(** *** vtkFoamEntryValue::ReadNonuniformList

    The traits classes [listTraits] and [vectorListTraits] say how one
    element is read; an element is a list of components. *)

Inductive listTraits : Type :=
| ScalarTraits (isDouble : bool)
| VectorTraits (isDouble : bool) (nComponents : Z)
| LabelTraits (is64 : bool)
| BoolTraits.

Definition wrap8 : Z -> Z := wrap 8.

(** The list under construction: scalars or labels. *)
Definition listElems : Type := (list float + list Z)%type.

Definition emptyElems (traits : listTraits) : listElems :=
  match traits with
  | ScalarTraits _ | VectorTraits _ _ => inl []
  | LabelTraits _ | BoolTraits => inr []
  end.

Definition appendElems (a b : listElems) : listElems :=
  match a, b with
  | inl x, inl y => inl (x ++ y)
  | inr x, inr y => inr (x ++ y)
  | _, _ => a
  end.

Definition repeatElems (n : Z) (e : listElems) : listElems :=
  match e with
  | inl x => inl (concat (replicate (Z.to_nat n) x))
  | inr x => inr (concat (replicate (Z.to_nat n) x))
  end.

Definition listData (traits : listTraits) (e : listElems) : fdata :=
  match traits, e with
  | ScalarTraits _, inl l => DScalarList l
  | VectorTraits _ n, inl l => DVectorList n l
  | LabelTraits is64, inr l => DLabelList (mkLabels is64 l)
  | BoolTraits, inr l => DBoolList l
  | ScalarTraits _, inr _ => DScalarList []
  | VectorTraits _ n, inr _ => DVectorList n []
  | LabelTraits is64, inl _ => DLabelList (mkLabels is64 [])
  | BoolTraits, inl _ => DBoolList []
  end.

(** [n] values read with [vtkFoamReadValue<primitiveT>::ReadValue]. *)
Definition readFloats (n : Z) (io : vtkFoamIOobject) : Result (list float * vtkFoamIOobject) :=
  forRangeR 0 n (fun _ st =>
    let '(acc, io) := st in
    do r <- ReadValue_float io;
    let '(v, io) := r in inr (acc ++ [v], io)) ([], io).

(** One element of [ReadAsciiList] (and the value of [ReadUniformValues]). *)
Definition readElement (traits : listTraits) (io : vtkFoamIOobject)
  : Result (listElems * vtkFoamIOobject) :=
  match traits with
  | ScalarTraits _ =>
      do r <- ReadValue_float io; let '(v, io) := r in inr (inl [v], io)
  | VectorTraits _ n =>
      do io <- ReadExpecting chOpen io;
      do r <- readFloats n io;
      let '(vs, io) := r in
      do io <- ReadExpecting chClose io;
      inr (inl vs, io)
  | LabelTraits is64 =>
      do r <- ReadValue_int io;
      let '(v, io) := r in inr (inr [if is64 then v else wrap32 v], io)
  | BoolTraits =>
      do r <- ReadValue_int io; let '(v, io) := r in inr (inr [wrap8 v], io)
  end.

(** [list.ReadValue(io, currToken)]: an element given by its first token. *)
Definition readElementFrom (traits : listTraits) (currToken : token) (io : vtkFoamIOobject)
  : Result (listElems * vtkFoamIOobject) :=
  match traits with
  | ScalarTraits isDouble =>
      match currToken with
      | TScalar d => inr (inl [toFloat d], io)
      | TLabel v =>
          if isDouble then inl (ErrorMessage "Expected an integer or a (")
          else inr (inl [toFloat (intToDouble v)], io)
      | _ => inl (ErrorMessage "Expected an integer or a (")
      end
  | VectorTraits _ n =>
      if Token_eq_char currToken chOpen then
        do r <- readFloats n io;
        let '(vs, io) := r in
        do io <- ReadExpecting chClose io;
        inr (inl vs, io)
      else inl (ErrorMessage "Expected '('")
  | LabelTraits is64 =>
      match currToken with
      | TLabel v =>
          if is64 then inr (inr [v], io)
          else if io_IsLabel64 io then inl (ErrorMessage "Expected an integer or a (")
               else inr (inr [wrap32 v], io)
      | _ => inl (ErrorMessage "Expected an integer or a (")
      end
  | BoolTraits =>
      match currToken with
      | TLabel v => inr (inr [wrap8 v], io)
      | _ => inl (ErrorMessage "Expected an integer or a (")
      end
  end.

(** [while (io.Read(currToken) && currToken != ')') list.ReadValue(io, currToken);] *)
Fixpoint readDelimitedList (fuel : nat) (traits : listTraits) (acc : listElems)
    (io : vtkFoamIOobject) : Result (listElems * vtkFoamIOobject) :=
  match fuel with
  | O => inr (acc, io)
  | S fuel' =>
      match io_Read io with
      | None => inr (acc, io)
      | Some (currToken, io) =>
          if Token_eq_char currToken chClose then inr (acc, io)
          else
            do r <- readElementFrom traits currToken io;
            let '(e, io) := r in
            readDelimitedList fuel' traits (appendElems acc e) io
      end
  end.

Definition ReadNonuniformList (traits : listTraits) (io : vtkFoamIOobject)
  : Result (fdata * vtkFoamIOobject) :=
  match io_Read io with
  | None => inl UnexpectedEOF
  | Some (TLabel size, io) =>
      if size <? 0 then inl (ErrorMessage "List size must not be negative")
      else if IsAsciiFormat io then
        match io_Read io with
        | None => inl UnexpectedEOF
        | Some (currToken, io) =>
            if Token_eq_char currToken chOpenBrace then
              (* lists with only one element enclosed by {} *)
              do r <- readElement traits io;
              let '(e, io) := r in
              do io <- ReadExpecting chCloseBrace io;
              inr (listData traits (repeatElems size e), io)
            else if negb (Token_eq_char currToken chOpen) then
              inl (ErrorMessage "Expected '('")
            else
              do r <- forRangeR 0 size (fun _ st =>
                        let '(acc, io) := st in
                        do r <- readElement traits io;
                        let '(e, io) := r in inr (appendElems acc e, io))
                      (emptyElems traits, io);
              let '(es, io) := r in
              do io <- ReadExpecting chClose io;
              inr (listData traits es, io)
        end
      else if 0 <? size then inl BinaryStream
      else inr (listData traits (emptyElems traits), io)
  | Some (currToken, io) =>
      if Token_eq_char currToken chOpen then
        do r <- readDelimitedList (length (tokens io)) traits (emptyElems traits) io;
        let '(es, io) := r in inr (listData traits es, io)
      else inl (ErrorMessage "Expected integer or '('")
  end.

(** *** vtkFoamEntryValue::Read and vtkFoamEntry::Read

    The readers of sub-dictionaries, of dimension sets, and of the lists that
    [ReadList] has to guess the type of are not needed by the properties
    below; they are parameters:
    - [ReadDictionary firstKeyword io] for [vtkFoamEntryValue::ReadDictionary],
    - [ReadDimensionSet io] for [vtkFoamEntryValue::ReadDimensionSet],
    - [ReadListFrom firstToken io] for what [ReadList] does once its first
      token is known not to close the list. *)

Context (ReadDictionary : token -> vtkFoamIOobject -> Result (dict * vtkFoamIOobject)).
Context (ReadDimensionSet : vtkFoamIOobject -> Result (fdata * vtkFoamIOobject)).
Context (ReadListFrom : token -> vtkFoamIOobject -> Result (fdata * vtkFoamIOobject)).

(** [ReadList]: the preceding ['('] has been thrown away. *)
Definition ReadList (io : vtkFoamIOobject) : Result (fdata * vtkFoamIOobject) :=
  match io_Read io with
  | None => ReadListFrom TUndefined io
  | Some (currToken, io') =>
      if Token_eq_char currToken chClose then inr (DEmptyList, io')   (* empty list *)
      else ReadListFrom currToken io'
  end.

Definition scalarTraits (io : vtkFoamIOobject) : listTraits := ScalarTraits (io_IsFloat64 io).
Definition vectorTraits (io : vtkFoamIOobject) (n : Z) : listTraits :=
  VectorTraits (io_IsFloat64 io) n.
Definition labelTraits (io : vtkFoamIOobject) : listTraits := LabelTraits (io_IsLabel64 io).

(** Reads one entry value into a freshly constructed [vtkFoamEntryValue];
    the first component is the value the source returns: [0] when the end
    of the entry was met inside a composite value, [1] otherwise. *)
Definition EntryValue_Read (io : vtkFoamIOobject)
  : Result (Z * entryValue * vtkFoamIOobject) :=
  let list (uniform : bool) (r : Result (fdata * vtkFoamIOobject)) :=
    do x <- r; let '(d, io) := x in inr (1, mkEntryValue uniform d, io) in
  match io_Read io with
  | None => inl UnexpectedEOF
  | Some (currToken, io) =>
      if Token_eq_char currToken chOpenBrace then
        do x <- ReadDictionary TUndefined io;
        let '(d, io) := x in inr (1, mkEntryValue false (DDictionary d), io)
      else if Token_eq_char currToken chOpen then list false (ReadList io)
      else if Token_eq_char currToken chOpenBracket then list false (ReadDimensionSet io)
      else if Token_eq_string currToken "uniform" then
        match io_Read io with
        | None => inl (ErrorMessage "Expected a uniform value or a list, found unexpected EOF")
        | Some (currToken, io) =>
            if Token_eq_char currToken chOpen then list true (ReadList io)
            else if Token_eq_char currToken chSemicolon then
              inr (0, mkEntryValue false (DToken (TString "uniform")), io)
            else
              match currToken with
              | TLabel _ | TScalar _ | TString _ =>
                  inr (1, mkEntryValue true (DToken currToken), io)
              | _ => inl (ErrorMessage "Expected number, string or (")
              end
        end
      else if Token_eq_string currToken "nonuniform" then
        match io_Read io with
        | None => inl (ErrorMessage "Expected list type specifier, found EOF")
        | Some (currToken, io) =>
            if Token_eq_string currToken "List<scalar>" then
              list false (ReadNonuniformList (scalarTraits io) io)
            else if Token_eq_string currToken "List<sphericalTensor>" then
              list false (ReadNonuniformList (vectorTraits io 1) io)
            else if Token_eq_string currToken "List<vector>" then
              list false (ReadNonuniformList (vectorTraits io 3) io)
            else if Token_eq_string currToken "List<symmTensor>" then
              list false (ReadNonuniformList (vectorTraits io 6) io)
            else if Token_eq_string currToken "List<tensor>" then
              list false (ReadNonuniformList (vectorTraits io 9) io)
            else if Token_eq_string currToken "List<label>"
                    || Token_eq_string currToken "List<bool>" then
              list false (ReadNonuniformList (labelTraits io) io)
            (* an empty list doesn't have a list type specifier *)
            else if Token_eq_int currToken 0 then
              if IsAsciiFormat io then
                do io <- ReadExpecting chOpen io;
                do io <- ReadExpecting chClose io;
                inr (1, mkEntryValue false DEmptyList, io)
              else inr (1, mkEntryValue false DEmptyList, io)
            else if Token_eq_char currToken chSemicolon then
              inr (0, mkEntryValue false (DToken (TString "nonuniform")), io)
            else inl (ErrorMessage "Unsupported nonuniform list type")
        end
      else if Token_eq_string currToken "List<scalar>" then
        list false (ReadNonuniformList (scalarTraits io) io)
      else if Token_eq_string currToken "List<label>" then
        list false (ReadNonuniformList (labelTraits io) io)
      else if Token_eq_string currToken "List<bool>" then
        list false (ReadNonuniformList BoolTraits io)
      else
        match currToken with
        | TPunctuation _ | TLabel _ | TScalar _ | TString _ | TIdentifier _ =>
            inr (1, mkEntryValue false (DToken currToken), io)
        | _ => inr (1, newEntryValue, io)
        end
  end.

(** [MakeLabelList(value, size)] and [MakeScalarList(value, size)]. *)
Definition MakeLabelList (is64 : bool) (labelValue size : Z) : fdata :=
  DLabelList (mkLabels is64
    (replicate (Z.to_nat size) (if is64 then labelValue else wrap32 labelValue))).
Definition MakeScalarList (scalarValue : float) (size : Z) : fdata :=
  DScalarList (replicate (Z.to_nat size) scalarValue).

(** [vtkFoamToken::ToFloat] of the token a degenerate dictionary holds. *)
Definition Token_ToFloat (zero : float) (t : token) : float :=
  match t with
  | TLabel i => intToFloat i
  | TScalar d => toFloat d
  | _ => zero
  end.

Definition remove_back {A : Type} (l : list A) : list A := removelast l.

(** The special care [vtkFoamEntry::Read] takes once at least two values
    are there and the one before the last is a label: a label [0] followed
    by an empty list becomes the empty list alone, and [LABEL{LABELorSCALAR}]
    becomes a filled list. *)
Definition normalizeBack (zero : float) (io : vtkFoamIOobject) (vs : list entryValue)
  : list entryValue :=
  match rev vs with
  | lastValue :: secondLastValue :: _ =>
      match GetType secondLastValue with
      | LABEL =>
          if tokenType_eqb (GetType lastValue) EMPTYLIST && Value_eq_int secondLastValue 0 then
            (* Remove last value, and mark new last value as EMPTYLIST *)
            remove_back (remove_back vs) ++ [SetEmptyList secondLastValue]
          else
            match dataOf lastValue with
            | DDictionary d =>
                match Token d with
                | TLabel value =>
                    remove_back (remove_back vs)
                    ++ [mkEntryValue false
                          (MakeLabelList (io_IsLabel64 io) value (Value_ToInt secondLastValue))]
                | TScalar _ =>
                    remove_back (remove_back vs)
                    ++ [mkEntryValue false
                          (MakeScalarList (Token_ToFloat zero (Token d))
                             (Value_ToInt secondLastValue))]
                | _ => vs
                end
            | _ => vs
            end
      | _ => vs
      end
  | _ => vs
  end.

(** [$identifier] substitution: the entry is looked up in the enclosing
    dictionaries, innermost first. *)
Fixpoint substituteIdentifier (identifier : string) (uppers : list dict)
  : Result (list entryValue) :=
  match uppers with
  | [] => inl (ErrorMessage "substituting entry not found")
  | d :: rest =>
      match Lookup (fun _ _ => false) d identifier false with
      | Some e => inr (values e)
      | None => substituteIdentifier identifier rest
      end
  end.

(** [vtkFoamEntry::Read]: the values of one entry.  [fuel] bounds the
    number of values read. *)
Fixpoint Entry_Read_loop (fuel : nat) (zero : float) (uppers : list dict)
    (vs : list entryValue) (io : vtkFoamIOobject)
  : Result (list entryValue * vtkFoamIOobject) :=
  match fuel with
  | O => inl (ErrorMessage "out of fuel")
  | S fuel' =>
      do r <- EntryValue_Read io;
      let '(ret, v, io) := r in
      let vs := vs ++ [v] in
      if ret =? 0 then inr (vs, io)
      else
        let vs := normalizeBack zero io vs in
        match last vs with
        | None => Entry_Read_loop fuel' zero uppers vs io
        | Some back =>
            match dataOf back with
            | DToken (TIdentifier identifier) =>
                do sub <- substituteIdentifier identifier uppers;
                Entry_Read_loop fuel' zero uppers (remove_back vs ++ sub) io
            | DDictionary _ =>
                (* subdictionary is not suffixed by an entry terminator ';' *)
                inr (vs, io)
            | _ =>
                if Value_eq_char back chSemicolon then inr (remove_back vs, io)
                else if Value_eq_char back chCloseBrace || Value_eq_char back chClose
                     then inl (ErrorMessage "Unmatched")
                     else Entry_Read_loop fuel' zero uppers vs io
            end
        end
  end.

Definition Entry_Read (zero : float) (uppers : list dict) (io : vtkFoamIOobject)
  : Result (list entryValue * vtkFoamIOobject) :=
  Entry_Read_loop (S (length (tokens io))) zero uppers [] io.

End FoamStream.

(** ** 4.7  Boundary patches *)

Inductive patchType : Type :=
| GEOMETRICAL    (* symmetryPlane, wedge, cyclic, empty, etc. *)
| PHYSICAL       (* patch, wall *)
| PROCESSOR.     (* processor *)

Record vtkFoamPatch : Type := mkPatch {
  name_ : string;
  index_ : Z;
  start_ : Z;
  size_ : Z;
  offset_ : Z;        (* The start-face offset into all boundaries *)
  type_ : patchType;
  owner_ : bool       (* Patch owner (processor patch) *)
}.

Definition defaultPatch : vtkFoamPatch := mkPatch "" 0 0 0 0 GEOMETRICAL true.

(** The first patch face, and one beyond the last patch face
    ([start_ + size_] in [vtkIdType]). *)
Definition startFace (p : vtkFoamPatch) : Z := start_ p.
Definition endFace (p : vtkFoamPatch) : Z := wrap64 (start_ p + size_ p).

(** What [update] reports through [error()]. *)
Inductive BoundaryError : Type :=
| NoError
| NoTypeEntry (patch : string)
| NoStartFaceEntry (patch : string)
| NoNFacesEntry (patch : string)
| NegativeRange (startFace nFaces : Z) (patch : string)
| InconsistentFaces (endFaceNumber : Z) (previous : string) (startFace : Z) (patch : string).

(** [vtkFoamBoundaries]: the patches, the error, and the patch groups of
    the [inGroups] keyword.  The selection sets and the time name, which
    [update] leaves alone after [clearAll], are not modelled. *)
Record vtkFoamBoundaries : Type := mkBoundaries {
  patches : list vtkFoamPatch;
  error_ : BoundaryError;
  groups : gmap string (list Z)
}.

Section Boundaries.
Context {double float : Type}.

Local Abbreviation dict := (vtkFoamDict double float).
Local Abbreviation entry := (vtkFoamEntry double float).
Local Abbreviation entryValue := (vtkFoamEntryValue double float).

(** [eptr->Dictionary()]: the dictionary held by the first value.  The
    source reads the union member without looking at the tag; an entry that
    holds no dictionary is modelled as a dictionary in which nothing is found. *)
Definition Entry_Dictionary (e : entry) : dict :=
  match values e with
  | mkEntryValue _ (DDictionary d) :: _ => d
  | _ => mkDict TError []
  end.

Definition holdsDictionary (e : entry) : Prop :=
  exists u d rest, values e = mkEntryValue u (DDictionary d) :: rest.

(** Lookups of [update] are exact ([regex = false]). *)
Definition lookupExact (d : dict) (keyword : string) : option entry :=
  Lookup (fun _ _ => false) d keyword false.

(** [FirstValue().GetType() == LABEL] *)
Definition firstIsLabel (e : entry) : bool :=
  match values e with
  | v :: _ => tokenType_eqb (GetType v) LABEL
  | [] => false
  end.

(** [inGroups[groupName].push_back(patchi)] for the names of every
    STRINGLIST value of the entry. *)
Definition addGroups (patchi : Z) (e : entry) (inGroups : gmap string (list Z))
  : gmap string (list Z) :=
  fold_left (fun g subentry =>
      match dataOf subentry with
      | DStringList groupNames =>
          fold_left (fun g groupName =>
              <[groupName := default [] (g !! groupName) ++ [patchi]]> g) groupNames g
      | _ => g
      end) (values e) inGroups.

(** The state of the loop over the patches. *)
Record UpdateState : Type := mkUpdateState {
  us_patches : list vtkFoamPatch;
  us_groups : gmap string (list Z);
  us_endFace : Z;                  (* for sanity check *)
  us_nBoundaryFaces : Z
}.

Definition setPatch (patchi : Z) (p : vtkFoamPatch) (st : UpdateState) : UpdateState :=
  mkUpdateState (<[Z.to_nat patchi := p]> (us_patches st)) (us_groups st)
    (us_endFace st) (us_nBoundaryFaces st).

Definition previousName (patchi : Z) (st : UpdateState) : string :=
  match us_patches st !! Z.to_nat (patchi - 1) with
  | Some p => name_ p
  | None => ""
  end.

(** The body of [for (patchi = 0; patchi < nBoundaries; ++patchi)]: the
    error and the state at the early return, or the state after the round. *)
Definition updatePatch (patchi : Z) (eptr : entry) (st : UpdateState)
  : (BoundaryError * UpdateState) + UpdateState :=
  let patchName := Keyword eptr in
  let patchDict := Entry_Dictionary eptr in
  (* The patch entry to populate *)
  let patch := default defaultPatch (us_patches st !! Z.to_nat patchi) in
  let patch := mkPatch patchName patchi (start_ patch) (size_ patch)
                 (us_nBoundaryFaces st) GEOMETRICAL true in
  match lookupExact patchDict "type" with
  | None => inl (NoTypeEntry patchName, setPatch patchi patch st)
  | Some etype =>
      let patchTypeName := Entry_ToString etype in
      match lookupExact patchDict "startFace" with
      | None => inl (NoStartFaceEntry patchName, setPatch patchi patch st)
      | Some estart =>
          let patch := mkPatch (name_ patch) (index_ patch) (Entry_ToInt estart) (size_ patch)
                         (offset_ patch) (type_ patch) (owner_ patch) in
          match lookupExact patchDict "nFaces" with
          | None => inl (NoNFacesEntry patchName, setPatch patchi patch st)
          | Some esize =>
              let patch := mkPatch (name_ patch) (index_ patch) (start_ patch) (Entry_ToInt esize)
                             (offset_ patch) (type_ patch) (owner_ patch) in
              (* Size, consistency sanity checks *)
              if (start_ patch <? 0) || (size_ patch <? 0) then
                inl (NegativeRange (start_ patch) (size_ patch) patchName,
                     setPatch patchi patch st)
              else if (0 <=? us_endFace st) && negb (us_endFace st =? start_ patch) then
                inl (InconsistentFaces (us_endFace st - 1) (previousName patchi st)
                       (start_ patch) patchName,
                     setPatch patchi patch st)
              else
                let endFace' := endFace patch in   (* The startFace for the next patch index *)
                let '(patch, nBoundaryFaces) :=
                  if String.eqb patchTypeName "patch" || String.eqb patchTypeName "wall"
                     || String.eqb patchTypeName "mappedWall" then
                    (mkPatch (name_ patch) (index_ patch) (start_ patch) (size_ patch)
                       (offset_ patch) PHYSICAL (owner_ patch),
                     us_nBoundaryFaces st + size_ patch)
                  else if String.eqb patchTypeName "processor"
                          || String.eqb patchTypeName "processorCyclic" then
                    let owner :=
                      match lookupExact patchDict "myProcNo",
                            lookupExact patchDict "neighbProcNo" with
                      | Some ownptr, Some neiptr =>
                          if firstIsLabel ownptr && firstIsLabel neiptr
                          then Entry_ToInt ownptr <? Entry_ToInt neiptr
                          else owner_ patch
                      | _, _ => owner_ patch
                      end in
                    (mkPatch (name_ patch) (index_ patch) (start_ patch) (size_ patch)
                       (offset_ patch) PROCESSOR owner,
                     us_nBoundaryFaces st + size_ patch)
                  else (patch, us_nBoundaryFaces st) in
                (* inGroups, but never for processor boundaries *)
                let inGroups :=
                  match lookupExact patchDict "inGroups", type_ patch with
                  | Some _, PROCESSOR => us_groups st
                  | Some e, _ => addGroups patchi e (us_groups st)
                  | None, _ => us_groups st
                  end in
                inr (mkUpdateState (<[Z.to_nat patchi := patch]> (us_patches st))
                       inGroups endFace' nBoundaryFaces)
          end
      end
  end.

Fixpoint update_loop (es : list entry) (patchi : Z) (st : UpdateState)
  : (BoundaryError * UpdateState) + UpdateState :=
  match es with
  | [] => inr st
  | eptr :: rest =>
      match updatePatch patchi eptr st with
      | inl err => inl err
      | inr st' => update_loop rest (patchi + 1) st'
      end
  end.

(** [vtkFoamBoundaries::update]: the returned flag and the collection. *)
Definition update (d : dict) : bool * vtkFoamBoundaries :=
  (* patches.clearAll(); patches.resize(dict.size()); *)
  let st0 := mkUpdateState (replicate (length (entries d)) defaultPatch) ∅ (-1) 0 in
  match update_loop (entries d) 0 st0 with
  | inl (err, st) => (false, mkBoundaries (us_patches st) err (us_groups st))
  | inr st => (true, mkBoundaries (us_patches st) NoError (us_groups st))
  end.

(** What a patch dictionary has to provide: [type], [startFace] and
    [nFaces]; the face range it then declares. *)
Definition patchRange (e : entry) : option (Z * Z) :=
  let patchDict := Entry_Dictionary e in
  match lookupExact patchDict "type",
        lookupExact patchDict "startFace",
        lookupExact patchDict "nFaces" with
  | Some _, Some estart, Some esize => Some (Entry_ToInt estart, Entry_ToInt esize)
  | _, _, _ => None
  end.

Definition nonNegativeRange (r : Z * Z) : Prop := 0 <= r.1 /\ 0 <= r.2.

(** Consecutive ranges touch: [p[i].start + p[i].size == p[i+1].start]. *)
Definition contiguousRanges (rs : list (Z * Z)) : Prop :=
  forall (i : nat) r r', rs !! i = Some r -> rs !! S i = Some r' -> r.1 + r.2 = r'.1.

(** The ranges as the loop of [update] meets them: each starts where the
    loop has arrived, [endFace] being negative before the first patch. *)
Fixpoint chained (endFace : Z) (rs : list (Z * Z)) : Prop :=
  match rs with
  | [] => True
  | r :: rs' => (endFace < 0 \/ endFace = r.1) /\ chained (r.1 + r.2) rs'
  end.

(** The end face of the declared range is a [vtkIdType]. *)
Definition noOverflow (e : entry) : Prop :=
  forall r, patchRange e = Some r -> r.1 + r.2 <= VTK_TYPE_INT64_MAX.

(** The face range of a patch of the collection. *)
Definition rangeOf (p : vtkFoamPatch) : Z * Z := (start_ p, size_ p).

End Boundaries.

(** [vtkFoamBoundaries::whichPatch]: ["Binary search like std::lower_bound,
    but slightly modified"]; [first] is the position of the iterator. *)
Fixpoint whichPatch_loop (fuel : nat) (ps : list vtkFoamPatch) (faceIndex : Z)
    (first count : Z) : Z :=
  match fuel with
  | O => first
  | S fuel' =>
      if 0 <? count then
        let step := count / 2 in
        let iter := first + step in
        match ps !! Z.to_nat iter with
        | Some p =>
            if start_ p <=? faceIndex   (* NB: must include start in the comparison *)
            then whichPatch_loop fuel' ps faceIndex (iter + 1) (count - (step + 1))
            else whichPatch_loop fuel' ps faceIndex first step
        | None => first
        end
      else first
  end.

Definition whichPatch (ps : list vtkFoamPatch) (faceIndex : Z) : Z :=
  match ps, last ps with
  | front :: _, Some back =>
      if (faceIndex <? startFace front) || (endFace back <=? faceIndex) then -1
      else
        let first :=
          whichPatch_loop (length ps) ps faceIndex 0 (Z.of_nat (length ps)) in
        match ps !! Z.to_nat first with
        | Some p => index_ p
        | None => -1
        end
  | _, _ => -1
  end.

(** The patch a face belongs to, by definition: its range holds the face. *)
Definition patchHolds (p : vtkFoamPatch) (faceIndex : Z) : Prop :=
  start_ p <= faceIndex < start_ p + size_ p.

(** ** 4.8  Field data *)

(** [vtkFoamTypes::dataType]: primitive types, with nComponents encoded in
    lower 4 bits. *)
Inductive dataType : Type :=
| NO_TYPE | LABEL_TYPE | SCALAR_TYPE | VECTOR_TYPE | SYMM_TENSOR_TYPE | TENSOR_TYPE
| SPH_TENSOR_TYPE.

Definition dataTypeValue (dtype : dataType) : Z :=
  match dtype with
  | NO_TYPE => 0
  | LABEL_TYPE => 17          (* 0x11 *)
  | SCALAR_TYPE => 1
  | VECTOR_TYPE => 3
  | SYMM_TENSOR_TYPE => 6
  | TENSOR_TYPE => 9
  | SPH_TENSOR_TYPE => 33     (* 0x21 *)
  end.

(** The number of data components: [dtype & 0xF]. *)
Definition GetNumberOfComponents (dtype : dataType) : Z := Z.land (dataTypeValue dtype) 15.

Definition IsScalar (dtype : dataType) : bool := dataTypeValue dtype =? dataTypeValue SCALAR_TYPE.

(** Is a VectorSpace type? *)
Definition IsVectorSpace (dtype : dataType) : bool :=
  (1 <? GetNumberOfComponents dtype)
  || (dataTypeValue dtype =? dataTypeValue SPH_TENSOR_TYPE).

(** The two orders of the components of a symmetric tensor. *)
Inductive symmTensorComponent : Type := XX | XY | XZ | YY | YZ | ZZ.

(** OpenFOAM = (XX, XY, XZ, YY, YZ, ZZ) *)
Definition foamIndex (c : symmTensorComponent) : Z :=
  match c with XX => 0 | XY => 1 | XZ => 2 | YY => 3 | YZ => 4 | ZZ => 5 end.
(** VTK uses = (XX, YY, ZZ, XY, YZ, XZ) *)
Definition vtkIndex (c : symmTensorComponent) : Z :=
  match c with XX => 0 | YY => 1 | ZZ => 2 | XY => 3 | YZ => 4 | XZ => 5 end.

Section FieldData.
Context {double float : Type}.
Context (toFloat : double -> float) (intToDouble : Z -> double) (intToFloat : Z -> float).
Context (zero : float).
(** What a float array holds where nothing was written yet. *)
Context (indeterminate : nat -> float).

(** [vtkFloatArray]: the values, tuple after tuple. *)
Record vtkFloatArray : Type := mkFloatArray {
  NumberOfComponents : Z;
  FloatValues : list float
}.

Definition Float_GetNumberOfTuples (a : vtkFloatArray) : Z :=
  Z.of_nat (length (FloatValues a)) / NumberOfComponents a.

Definition GetComponent (a : vtkFloatArray) (tupleIdx compIdx : Z) : option float :=
  FloatValues a !! Z.to_nat (NumberOfComponents a * tupleIdx + compIdx).

(** [SetNumberOfComponents(n); SetNumberOfTuples(nTuples)] on a new array. *)
Definition newFloatArray (nComponents nTuples : Z) : vtkFloatArray :=
  mkFloatArray nComponents (indeterminate <$> seq 0 (Z.to_nat (nComponents * nTuples))).

(** [data->SetTuple(i, tuple)]: the components of [tuple] go to tuple [i]. *)
Definition SetTuple (a : vtkFloatArray) (i : Z) (tuple : list float) : vtkFloatArray :=
  let n := NumberOfComponents a in
  mkFloatArray n
    (list_inserts (Z.to_nat (n * i)) (take (Z.to_nat n) tuple) (FloatValues a)).

(** [std::swap(tuple[i], tuple[j])] on the values from [tuple] on. *)
Definition std_swap (data : list float) (tuple i j : Z) : list float :=
  match data !! Z.to_nat (tuple + i), data !! Z.to_nat (tuple + j) with
  | Some a, Some b => <[Z.to_nat (tuple + i) := b]> (<[Z.to_nat (tuple + j) := a]> data)
  | _, _ => data
  end.

(** Remap symmTensor tuple. *)
Definition remapSymmTensor (data : list float) (tuple : Z) : list float :=
  let data := std_swap data tuple 1 3 in   (* swap XY <-> YY *)
  std_swap data tuple 2 5.                 (* swap XZ <-> ZZ *)

(** [vtkFoamEntryValue::ToFloat]. *)
Definition Value_ToFloat (v : vtkFoamEntryValue double float) : float :=
  match dataOf v with
  | DToken (TLabel i) => intToFloat i
  | DToken (TScalar d) => toFloat d
  | _ => zero
  end.

(** The float array behind [entry.ScalarList()] and [entry.Ptr()]: the
    scalar and the vector list are the same pointer of a union. *)
Definition ScalarList (v : vtkFoamEntryValue double float) : vtkFloatArray :=
  match dataOf v with
  | DScalarList l => mkFloatArray 1 l
  | DVectorList n l => mkFloatArray n l
  | _ => mkFloatArray 1 []
  end.

(** [vtkOpenFOAMReaderPrivate::FillField]; [None] is [nullptr], returned
    after an error was reported.  The array returned for a nonuniform list
    is the list of the entry itself, remapped in place; the tuple of a
    uniform scalar list is remapped in the entry too.  The entry has a first
    value. *)
Definition FillField (entry : vtkFoamEntry double float) (nElements : Z)
    (fieldDataType : dataType) : option vtkFloatArray :=
  match values entry with
  | [] => None
  | FirstValue :: _ =>
      if IsUniform FirstValue then
        if tokenType_eqb (GetType FirstValue) SCALAR || tokenType_eqb (GetType FirstValue) LABEL
        then
          let num := Value_ToFloat FirstValue in
          Some (mkFloatArray 1 (replicate (Z.to_nat nElements) num))
        else
          (* have to determine the type of vector *)
          let found :=
            match dataOf FirstValue with
            | DLabelList ll =>
                let nComponents := wrap32 (Z.of_nat (length (Values ll))) in
                (* float tupleBuffer[9] *)
                if 9 <? nComponents then None
                else Some (nComponents,
                           (fun v => toFloat (intToDouble v)) <$> Values ll)
            | DScalarList sl => Some (wrap32 (Z.of_nat (length sl)), sl)
            | _ => None   (* Wrong list type for uniform field *)
            end in
          match found with
          | None => None
          | Some (nComponents, tuple) =>
              if (GetNumberOfComponents fieldDataType =? nComponents)
                 && IsVectorSpace fieldDataType then
                let data := newFloatArray nComponents nElements in
                let tuple := if nComponents =? 6 then remapSymmTensor tuple 0 else tuple in
                Some (forRange 0 nElements (fun i data => SetTuple data i tuple) data)
              else None   (* Number of components and field class doesn't match *)
          end
      else (* nonuniform *)
        if (tokenType_eqb (GetType FirstValue) SCALARLIST && IsScalar fieldDataType)
           || (tokenType_eqb (GetType FirstValue) VECTORLIST && IsVectorSpace fieldDataType)
        then
          let nTuples := Float_GetNumberOfTuples (ScalarList FirstValue) in
          if negb (nTuples =? nElements) then None
          else
            let data := ScalarList FirstValue in
            let nComponents := NumberOfComponents data in
            if nComponents =? 6 then
              Some (mkFloatArray nComponents
                      (forRange 0 nTuples
                         (fun tuplei values => remapSymmTensor values (nComponents * tuplei))
                         (FloatValues data)))
            else Some data
        else if tokenType_eqb (GetType FirstValue) EMPTYLIST && (nElements <=? 0) then
          (* Set appropriate number of components for empty list as well *)
          let nComp := GetNumberOfComponents fieldDataType in
          Some (mkFloatArray (if 0 <? nComp then nComp else 1) [])
        else None
  end.

(** The tuple [FillField] is given for element [i]: the one tuple of a
    uniform field, tuple [i] of a nonuniform one. *)
Definition writtenTuple (entry : vtkFoamEntry double float) (i : Z) : list float :=
  match values entry with
  | [] => []
  | FirstValue :: _ =>
      match dataOf FirstValue with
      | DLabelList ll => (fun v => toFloat (intToDouble v)) <$> Values ll
      | DScalarList sl => if IsUniform FirstValue then sl else take 1 (drop (Z.to_nat i) sl)
      | DVectorList n l => take (Z.to_nat n) (drop (Z.to_nat (n * i)) l)
      | _ => []
      end
  end.

End FieldData.

(** ** 4.9  Cell shapes

    [vtkOpenFOAMReaderPrivate::InsertCellsToGrid]: determine cell shape and
    insert the cell into the mesh. *)

Inductive VTKCellType : Type :=
| VTK_EMPTY_CELL | VTK_TETRA | VTK_HEXAHEDRON | VTK_WEDGE | VTK_PYRAMID | VTK_POLYHEDRON.

Definition VTKCellType_eqb (a b : VTKCellType) : bool :=
  match a, b with
  | VTK_EMPTY_CELL, VTK_EMPTY_CELL | VTK_TETRA, VTK_TETRA | VTK_HEXAHEDRON, VTK_HEXAHEDRON
  | VTK_WEDGE, VTK_WEDGE | VTK_PYRAMID, VTK_PYRAMID | VTK_POLYHEDRON, VTK_POLYHEDRON => true
  | _, _ => false
  end.

(** A cell of the [vtkUnstructuredGrid]: what [InsertNextCell] was given.
    A polyhedron comes with its number of faces and its face stream. *)
Record vtkGridCell : Type := mkCell {
  cellType : VTKCellType;
  pointIds : list Z;
  faceStream : option (Z * list Z)
}.

(** What [vtkErrorMacro] and [vtkWarningMacro] report. *)
Inductive vtkMessage : Type :=
| DecomposeOnSubset            (* Decompose polyhedral is not supported on mesh subset *)
| CellLabelExceeds (cellId : Z)  (* cellLabels id exceeds the number of cells *)
| NoPointsInCell (cellId : Z)    (* Warning: No points in cellId *)
| TooLargePolyhedron (cellId : Z). (* Too large polyhedron at cellId *)

(** The grid under construction with the scratch arrays of the function. *)
Record GridState : Type := mkGrid {
  Cells : list vtkGridCell;     (* internalMesh *)
  cellPoints : list Z;          (* Scratch array for inserting primitive cell points *)
  polyPoints : list Z;          (* Scratch array for inserting polyhedral faces and sizes *)
  arrayId : list Z;             (* cell id only on zone mesh *)
  Messages : list vtkMessage
}.

(** How the body of the loop over the cells ends: at its end, or with
    [return]. *)
Inductive Outcome : Type :=
| Continue (s : GridState)
| Return (s : GridState).

Definition maxNPoints : Z := 256.       (* max num of points per cell *)
Definition maxNPolyPoints : Z := 1024.  (* max num of nPoints per face + points per cell *)

Definition SetId (ids : list Z) (i : Z) (v : Z) : list Z := <[Z.to_nat i := v]> ids.
Definition GetId (ids : list Z) (i : Z) : Z := ids !!! Z.to_nat i.

Definition InsertNextCell (type : VTKCellType) (npts : Z) (s : GridState) : GridState :=
  mkGrid (Cells s ++ [mkCell type (take (Z.to_nat npts) (cellPoints s)) None])
    (cellPoints s) (polyPoints s) (arrayId s) (Messages s).

Definition InsertNextPolyhedron (npts nfaces nPolyPoints : Z) (s : GridState) : GridState :=
  mkGrid (Cells s ++ [mkCell VTK_POLYHEDRON (take (Z.to_nat npts) (cellPoints s))
                        (Some (nfaces, take (Z.to_nat nPolyPoints) (polyPoints s)))])
    (cellPoints s) (polyPoints s) (arrayId s) (Messages s).

Definition report (m : vtkMessage) (s : GridState) : GridState :=
  mkGrid (Cells s) (cellPoints s) (polyPoints s) (arrayId s) (Messages s ++ [m]).

Definition withCellPoints (s : GridState) (ids : list Z) : GridState :=
  mkGrid (Cells s) ids (polyPoints s) (arrayId s) (Messages s).

Definition withScratch (s : GridState) (ids poly : list Z) : GridState :=
  mkGrid (Cells s) ids poly (arrayId s) (Messages s).

(** The first position from [pointI] on that satisfies [found], or the
    position after the last: [for (; pointI < n; pointI++) if (...) break;]. *)
Fixpoint firstIndex (found : Z -> bool) (indices : list Z) (after : Z) : Z :=
  match indices with
  | [] => after
  | i :: rest => if found i then i else firstIndex found rest after
  end.

Section InsertCells.

(** What a slot of a [vtkFoamStackVector] holds beyond its size, and what a
    [vtkIdList] holds after [SetNumberOfIds]. *)
Context (stale : nat -> Z) (garbage : nat -> Z).

(** The mesh: [this->FaceOwner], [this->NumCells], the faces of the cells
    and the points of the faces. *)
Context (FaceOwner : vtkLabelArray) (this_NumCells : Z).
Context (meshCells meshFaces : vtkFoamLabelListList).

(** The polyhedral decomposition into tetrahedra and pyramids around the
    cell centroid, which computes with the point coordinates, is left open;
    it ends without [return]. *)
Context (decompose : Z -> list Z -> GridState -> GridState).

Definition faceOwner64Bit : bool := Is64BitArray FaceOwner.

(** [vtkFoamStackVector::operator[]]: no check against the size. *)
Definition at_ (v : list Z) (pos : Z) : Z :=
  match v !! Z.to_nat pos with
  | Some x => x
  | None => stale (Z.to_nat pos)
  end.

Definition size (v : list Z) : Z := Z.of_nat (length v).

Definition isOwner (face cellId : Z) : bool :=
  GetLabelValue FaceOwner face faceOwner64Bit =? cellId.

(** [all = (meshFaces.GetSize(cellFaces[facei]) == n); if (!all) break;]
    over the faces. *)
Fixpoint allOfSize (n : Z) (faces : list Z) (all : bool) : bool :=
  match faces with
  | [] => all
  | f :: rest => if GetSize meshFaces f =? n then allOfSize n rest true else false
  end.

Fixpoint countTrisQuads (faces : list Z) (nTris nQuads : Z) : Z * Z :=
  match faces with
  | [] => (nTris, nQuads)
  | f :: rest =>
      let nPoints := GetSize meshFaces f in
      if nPoints =? 3 then countTrisQuads rest (nTris + 1) nQuads
      else if nPoints =? 4 then countTrisQuads rest nTris (nQuads + 1)
      else (nTris, nQuads)
  end.

(** determine type of the cell *)
Definition cellShape (cellFaces : list Z) : VTKCellType :=
  let cellType :=
    if size cellFaces =? 6 then
      if allOfSize 4 cellFaces false then VTK_HEXAHEDRON else VTK_POLYHEDRON
    else if size cellFaces =? 5 then
      let '(nTris, nQuads) := countTrisQuads cellFaces 0 0 in
      if (nTris =? 2) && (nQuads =? 3) then VTK_WEDGE
      else if (nTris =? 4) && (nQuads =? 1) then VTK_PYRAMID
      else VTK_POLYHEDRON
    else if size cellFaces =? 4 then
      if allOfSize 3 cellFaces false then VTK_TETRA else VTK_POLYHEDRON
    else VTK_POLYHEDRON in
  (* Not a known (standard) primitive mesh-shape *)
  if VTKCellType_eqb cellType VTK_POLYHEDRON then
    if allOfSize 0 cellFaces true then VTK_EMPTY_CELL else cellType
  else cellType.

(** Copies [src[pointI]] for the given positions to the cell points from
    [basePointI] on: [cellPoints->SetId(basePointI++, src[pointI])]. *)
Definition copyPoints (src : list Z) (positions : list Z) (basePointI : Z) (ids : list Z)
  : list Z * Z :=
  fold_left (fun '(ids, basePointI) pointI => (SetId ids basePointI (at_ src pointI), basePointI + 1))
    positions (ids, basePointI).

(** [for (pointI = from; pointI < to; pointI++)] and
    [for (pointI = from; pointI > to; pointI--)]. *)
Definition upFrom (from to : Z) : list Z := seqZ from (to - from).
Definition downFrom (from to : Z) : list Z := reverse (seqZ (to + 1) (from - to)).

(** *** OFhex | vtkHexahedron *)

(** The point of the face that duplicates point 0 or point 2 of the base
    face: [(foundDup, pointI)]. *)
Fixpoint hexFindDup (baseFacePoint0 baseFacePoint2 : Z) (faceIPoints : list Z)
    (positions : list Z) : Z * Z :=
  match positions with
  | [] => (-1, 4)
  | pointI :: rest =>
      let faceIPointI := at_ faceIPoints pointI in
      if baseFacePoint0 =? faceIPointI then (0, pointI)
      else if baseFacePoint2 =? faceIPointI then (2, pointI)
      else hexFindDup baseFacePoint0 baseFacePoint2 faceIPoints rest
  end.

(** What the loop over the faces 1 to 4 keeps: the opposite face, the pivot
    point and the base point through which the pivot was found. *)
Record HexSearch : Type := mkHexSearch {
  cellOppositeFaceI : Z;
  pivotPoint : Z;
  dupPoint : Z
}.

Fixpoint hexSearchFaces (cellId : Z) (cellFaces ids : list Z) (faces : list Z)
    (st : HexSearch) : HexSearch :=
  match faces with
  | [] => st
  | faceI :: rest =>
      let cellFaceI := at_ cellFaces faceI in
      let faceIPoints := GetCell meshFaces cellFaceI in
      let '(foundDup, pointI) :=
        hexFindDup (GetId ids 0) (GetId ids 2) faceIPoints (upFrom 0 4) in
      if 0 <=? foundDup then
        (* find the pivot point if still haven't *)
        if pivotPoint st =? -1 then
          let faceINextPoint := at_ faceIPoints ((pointI + 1) mod 4) in
          let pivot :=
            if faceINextPoint =? (if isOwner cellFaceI cellId then GetId ids (1 + foundDup)
                                  else GetId ids (3 - foundDup))
            then at_ faceIPoints ((3 + pointI) mod 4)
            else faceINextPoint in
          let st := mkHexSearch (cellOppositeFaceI st) pivot foundDup in
          if 0 <=? cellOppositeFaceI st then st
          else hexSearchFaces cellId cellFaces ids rest st
        else hexSearchFaces cellId cellFaces ids rest st
      else
        (* if no duplicated point found, faceI is the opposite face *)
        let st := mkHexSearch cellFaceI (pivotPoint st) (dupPoint st) in
        if 0 <=? pivotPoint st then st
        else hexSearchFaces cellId cellFaces ids rest st
  end.

(** The base face in the cell points: flipped if the cell owns it. *)
Definition hexBase (cellId : Z) (cellFaces ids : list Z) : list Z :=
  let cellBaseFaceId := at_ cellFaces 0 in
  let face0Points := GetCell meshFaces cellBaseFaceId in
  if isOwner cellBaseFaceId cellId then
    forRange 0 4 (fun j ids => SetId ids j (at_ face0Points (3 - j))) ids
  else
    forRange 0 4 (fun j ids => SetId ids j (at_ face0Points j)) ids.

Definition hexSearch (cellId : Z) (cellFaces ids : list Z) : HexSearch :=
  hexSearchFaces cellId cellFaces ids (upFrom 1 5) (mkHexSearch (-1) (-1) (-1)).

(** if the opposite face is not found until face 4, face 5 is always the
    opposite face *)
Definition hexOpposite (cellFaces : list Z) (st : HexSearch) : Z :=
  if cellOppositeFaceI st =? -1 then at_ cellFaces 5 else cellOppositeFaceI st.

(** find the pivot point in opposite face, and shift the pivot point if the
    point corresponds to point 2 of the base face *)
Definition hexPivotIndex (oppositeFacePoints : list Z) (st : HexSearch) : Z :=
  let pivotPointI :=
    firstIndex (fun i => at_ oppositeFacePoints i =? pivotPoint st) (upFrom 0 4) 4 in
  if dupPoint st =? 2 then (pivotPointI + 2) mod 4 else pivotPointI.

Definition insertHexahedron (cellId : Z) (cellFaces : list Z) (s : GridState) : GridState :=
  let ids := hexBase cellId cellFaces (cellPoints s) in
  let st := hexSearch cellId cellFaces ids in
  let cellOppositeFaceI := hexOpposite cellFaces st in
  let oppositeFacePoints := GetCell meshFaces cellOppositeFaceI in
  let pivotPointI := hexPivotIndex oppositeFacePoints st in
  (* copy the face-point list of the opposite face to cell-point list *)
  let basePointI := 4 in
  let ids :=
    if isOwner cellOppositeFaceI cellId then
      let '(ids, basePointI) :=
        copyPoints oppositeFacePoints (upFrom pivotPointI 4) basePointI ids in
      fst (copyPoints oppositeFacePoints (upFrom 0 pivotPointI) basePointI ids)
    else
      let '(ids, basePointI) :=
        copyPoints oppositeFacePoints (downFrom pivotPointI (-1)) basePointI ids in
      fst (copyPoints oppositeFacePoints (downFrom 3 pivotPointI) basePointI ids) in
  (* create the hex cell and insert it into the mesh *)
  InsertNextCell VTK_HEXAHEDRON 8 (withCellPoints s ids).

(** *** OFprism | vtkWedge

    [false] with the state: no pivot was found, the cell is processed like
    a polyhedron. *)

Record WedgeSearch : Type := mkWedgeSearch {
  w_cellOppositeFaceI : Z;
  w_pivotPoint : Z;
  dupPoint2 : bool
}.

Fixpoint wedgeFindDup (baseFacePoint0 baseFacePoint2 : Z) (faceIPoints : list Z)
    (positions : list Z) : bool * Z :=
  match positions with
  | [] => (false, 4)
  | pointI :: rest =>
      let faceIPointI := at_ faceIPoints pointI in
      if baseFacePoint0 =? faceIPointI then (true, pointI)
      else if baseFacePoint2 =? faceIPointI then (false, pointI)
      else wedgeFindDup baseFacePoint0 baseFacePoint2 faceIPoints rest
  end.

Fixpoint wedgeSearchFaces (cellId baseFaceId : Z) (cellFaces ids : list Z) (faces : list Z)
    (st : WedgeSearch) : WedgeSearch :=
  match faces with
  | [] => st
  | faceI :: rest =>
      if faceI =? baseFaceId then wedgeSearchFaces cellId baseFaceId cellFaces ids rest st
      else
        let cellFaceI := at_ cellFaces faceI in
        let st :=
          if GetSize meshFaces cellFaceI =? 3 then
            mkWedgeSearch cellFaceI (w_pivotPoint st) (dupPoint2 st)
          else if w_pivotPoint st =? -1 then
            (* find the pivot point if still haven't *)
            let faceIPoints := GetCell meshFaces cellFaceI in
            let '(found0Dup, pointI) :=
              wedgeFindDup (GetId ids 0) (GetId ids 2) faceIPoints (upFrom 0 4) in
            (* the matching point must always be found so omit the check *)
            let baseFacePrevPoint := if found0Dup then GetId ids 2 else GetId ids 1 in
            let baseFaceNextPoint := if found0Dup then GetId ids 1 else GetId ids 0 in
            let faceINextPoint := at_ faceIPoints ((pointI + 1) mod 4) in
            let faceIPrevPoint := at_ faceIPoints ((3 + pointI) mod 4) in
            let pivot :=
              if faceINextPoint =? (if isOwner cellFaceI cellId then baseFacePrevPoint
                                    else baseFaceNextPoint)
              then faceIPrevPoint else faceINextPoint in
            mkWedgeSearch (w_cellOppositeFaceI st) pivot
              (if found0Dup then dupPoint2 st else true)
          else st in
        (* break when both of opposite face and pivot point are found *)
        if (0 <=? w_cellOppositeFaceI st) && (0 <=? w_pivotPoint st) then st
        else wedgeSearchFaces cellId baseFaceId cellFaces ids rest st
  end.

Definition insertWedge (cellId : Z) (cellFaces : list Z) (s : GridState)
  : bool * GridState :=
  (* find the base face number *)
  let baseFaceId :=
    firstIndex (fun j => GetSize meshFaces (at_ cellFaces j) =? 3) (upFrom 0 5) 0 in
  (* get first face in correct order *)
  let cellBaseFaceId := at_ cellFaces baseFaceId in
  let face0Points := GetCell meshFaces cellBaseFaceId in
  let ids :=
    if isOwner cellBaseFaceId cellId then
      forRange 0 3 (fun j ids => SetId ids j (at_ face0Points j)) (cellPoints s)
    else
      (* if it is a neighbor face flip the points *)
      forRange 0 3 (fun j ids => SetId ids j (at_ face0Points (2 - j))) (cellPoints s) in
  let st := wedgeSearchFaces cellId baseFaceId cellFaces ids (upFrom 0 5)
              (mkWedgeSearch (-1) (-1) false) in
  (* find the pivot point in opposite face *)
  let oppositeFacePoints := GetCell meshFaces (w_cellOppositeFaceI st) in
  let pivotPointI :=
    firstIndex (fun i => at_ oppositeFacePoints i =? w_pivotPoint st) (upFrom 0 3) 3 in
  if negb (pivotPointI =? 3) then
    (* We have found a pivot. We can process cell as a wedge *)
    let basePointI := 3 in
    let ids :=
      if isOwner (w_cellOppositeFaceI st) cellId then
        let pivotPointI := if dupPoint2 st then (pivotPointI + 2) mod 3 else pivotPointI in
        let '(ids, basePointI) :=
          copyPoints oppositeFacePoints (downFrom pivotPointI (-1)) basePointI ids in
        fst (copyPoints oppositeFacePoints (downFrom 2 pivotPointI) basePointI ids)
      else
        let pivotPointI := if dupPoint2 st then (1 + pivotPointI) mod 3 else pivotPointI in
        let '(ids, basePointI) :=
          copyPoints oppositeFacePoints (upFrom pivotPointI 3) basePointI ids in
        fst (copyPoints oppositeFacePoints (upFrom 0 pivotPointI) basePointI ids) in
    (* create the wedge cell and insert it into the mesh *)
    (true, InsertNextCell VTK_WEDGE 6 (withCellPoints s ids))
  else
    (* We did not find a pivot: this cell was suspected to be a wedge but it
       is not. Let's process it like a polyhedron instead. *)
    (false, withCellPoints s ids).

(** *** OFpyramid | vtkPyramid || OFtet | vtkTetrahedron *)

(** Find the apex point (non-common to the base). *)
Fixpoint findApex (baseFacePoints adjacentFacePoints : list Z) (positions : list Z)
    (apexPointI : Z) : Z :=
  match positions with
  | [] => apexPointI
  | ptI :: rest =>
      let apexPointI := at_ adjacentFacePoints ptI in
      let foundDup :=
        negb (firstIndex (fun baseI => apexPointI =? at_ baseFacePoints baseI)
                (upFrom 0 (size baseFacePoints)) (size baseFacePoints)
              =? size baseFacePoints) in
      if negb foundDup then apexPointI
      else findApex baseFacePoints adjacentFacePoints rest apexPointI
  end.

Definition insertPyramidOrTetra (cellType : VTKCellType) (cellId : Z) (cellFaces : list Z)
    (s : GridState) : GridState :=
  let nPoints := if VTKCellType_eqb cellType VTK_PYRAMID then 5 else 4 in
  let baseFaceId :=
    if VTKCellType_eqb cellType VTK_PYRAMID then
      (* Find the pyramid base *)
      firstIndex (fun j => GetSize meshFaces (at_ cellFaces j) =? 4)
        (upFrom 0 (size cellFaces)) 0
    else 0 in
  let cellBaseFaceId := at_ cellFaces baseFaceId in
  let baseFacePoints := GetCell meshFaces cellBaseFaceId in
  (* Take any adjacent (non-base) face *)
  let adjacentFaceId := if baseFaceId =? 0 then 1 else 0 in
  let cellAdjacentFaceId := at_ cellFaces adjacentFaceId in
  let adjacentFacePoints := GetCell meshFaces cellAdjacentFaceId in
  let apexPointI :=
    findApex baseFacePoints adjacentFacePoints (upFrom 0 (size adjacentFacePoints))
      (at_ adjacentFacePoints 0) in
  (* Add base-face points (in order) to cell points *)
  let ids :=
    if isOwner cellBaseFaceId cellId then
      (* if it is an owner face, flip the points (to point inwards) *)
      forRange 0 (size baseFacePoints)
        (fun j ids => SetId ids j (at_ baseFacePoints (size baseFacePoints - 1 - j)))
        (cellPoints s)
    else
      forRange 0 (size baseFacePoints)
        (fun j ids => SetId ids j (at_ baseFacePoints j)) (cellPoints s) in
  (* ... and add the apex-point *)
  let ids := SetId ids (nPoints - 1) apexPointI in
  InsertNextCell cellType nPoints (withCellPoints s ids).

(** *** OFpolyhedron || vtkPolyhedron, not decomposed

    The lists of the cell points and of the face stream with their counts;
    [None] stands for [vtkErrorMacro(<< "Too large polyhedron at cellId = "
    << cellId); return;]. *)

Record PolyScratch : Type := mkPoly {
  p_cellPoints : list Z;
  p_polyPoints : list Z;
  p_nPoints : Z;
  p_nPolyPoints : Z
}.

(** One point of face [j]: kept as a cell point unless it is one already,
    and added to the face stream. *)
Definition addFacePoint (faceJPointK : Z) (p : PolyScratch) : option PolyScratch :=
  let foundDup :=
    negb (firstIndex (fun l => GetId (p_cellPoints p) l =? faceJPointK)
            (upFrom 0 (p_nPoints p)) (p_nPoints p) =? p_nPoints p) in
  let afterPoint :=
    if negb foundDup then
      if maxNPoints <=? p_nPoints p then None
      else Some (mkPoly (SetId (p_cellPoints p) (p_nPoints p) faceJPointK) (p_polyPoints p)
                   (p_nPoints p + 1) (p_nPolyPoints p))
    else Some p in
  match afterPoint with
  | None => None
  | Some p =>
      if maxNPolyPoints <=? p_nPolyPoints p then None
      else Some (mkPoly (p_cellPoints p) (SetId (p_polyPoints p) (p_nPolyPoints p) faceJPointK)
                   (p_nPoints p) (p_nPolyPoints p + 1))
  end.

Fixpoint addFacePoints (points : list Z) (p : PolyScratch) : option PolyScratch :=
  match points with
  | [] => Some p
  | faceJPointK :: rest =>
      match addFacePoint faceJPointK p with
      | None => None
      | Some p => addFacePoints rest p
      end
  end.

(** One face after the base face. *)
Definition addFace (cellId : Z) (cellFacesJ : Z) (p : PolyScratch) : option PolyScratch :=
  let faceJPoints := GetCell meshFaces cellFacesJ in
  if maxNPolyPoints <=? p_nPolyPoints p then None
  else
    let p := mkPoly (p_cellPoints p) (SetId (p_polyPoints p) (p_nPolyPoints p) (size faceJPoints))
               (p_nPoints p) (p_nPolyPoints p + 1) in
    (* if it is a _neighbor_ face flip the points *)
    let positions :=
      if isOwner cellFacesJ cellId then upFrom 0 (size faceJPoints)
      else downFrom (size faceJPoints - 1) (-1) in
    addFacePoints (map (at_ faceJPoints) positions) p.

Fixpoint addFaces (cellId : Z) (faces : list Z) (p : PolyScratch) : option PolyScratch :=
  match faces with
  | [] => Some p
  | cellFacesJ :: rest =>
      match addFace cellId cellFacesJ p with
      | None => None
      | Some p => addFaces cellId rest p
      end
  end.

Definition insertPolyhedron (cellId : Z) (cellFaces : list Z) (s : GridState) : Outcome :=
  (* get first face *)
  let cellFaces0 := at_ cellFaces 0 in
  let baseFacePoints := GetCell meshFaces cellFaces0 in
  let nPoints := size baseFacePoints in
  let nPolyPoints := size baseFacePoints + 1 in
  if (maxNPoints <? nPoints) || (maxNPolyPoints <? nPolyPoints) then
    Return (report (TooLargePolyhedron cellId) s)
  else
    let poly := SetId (polyPoints s) 0 (size baseFacePoints) in
    let owner := isOwner cellFaces0 cellId in
    let '(ids, poly) :=
      forRange 0 (size baseFacePoints)
        (fun j '(ids, poly) =>
           (* if it is a _neighbor_ face flip the points *)
           let pointJ :=
             at_ baseFacePoints (if owner then j else size baseFacePoints - 1 - j) in
           (SetId ids j pointJ, SetId poly (j + 1) pointJ))
        (cellPoints s, poly) in
    (* loop through faces and create a list of all points
       j = 1 skip baseFace *)
    match addFaces cellId (drop 1 cellFaces) (mkPoly ids poly nPoints nPolyPoints) with
    | None => Return (report (TooLargePolyhedron cellId) s)
    | Some p =>
        (* create the poly cell and insert it into the mesh *)
        Continue (InsertNextPolyhedron (p_nPoints p) (size cellFaces) (p_nPolyPoints p)
                    (withScratch s (p_cellPoints p) (p_polyPoints p)))
    end.

(** *** The loop over the cells *)

(** The body of the loop once the cell id is known. *)
Definition insertShape (additionalCells : bool) (cellId : Z) (s : GridState) : Outcome :=
  let cellFaces := GetCell meshCells cellId in
  let cellType := cellShape cellFaces in
  let polyhedron (s : GridState) : Outcome :=
    if additionalCells then Continue (decompose cellId cellFaces s)
    else insertPolyhedron cellId cellFaces s in
  match cellType with
  | VTK_HEXAHEDRON => Continue (insertHexahedron cellId cellFaces s)
  | VTK_WEDGE =>
      match insertWedge cellId cellFaces s with
      | (true, s) => Continue s
      | (false, s) => polyhedron s
      end
  | VTK_PYRAMID | VTK_TETRA => Continue (insertPyramidOrTetra cellType cellId cellFaces s)
  | VTK_EMPTY_CELL =>
      (* erroneous cells *)
      Continue (InsertNextCell VTK_EMPTY_CELL 0 (report (NoPointsInCell cellId) s))
  | VTK_POLYHEDRON => polyhedron s
  end.

Definition insertCell (cellList : option vtkLabelArray) (additionalCells : bool)
    (cellI : Z) (s : GridState) : Outcome :=
  match cellList with
  | None => insertShape additionalCells cellI s
  | Some list =>
      let cellId := GetLabelValue list cellI (Is64BitArray list) in
      if this_NumCells <=? cellId then
        Continue (InsertNextCell VTK_EMPTY_CELL 0 (report (CellLabelExceeds cellId) s))
      else
        insertShape additionalCells cellId
          (mkGrid (Cells s) (cellPoints s) (polyPoints s)
             (SetValue (arrayId s) cellI cellId) (Messages s))
  end.

(** [for (cellI = 0; cellI < nCells; cellI++)], left by [return]. *)
Fixpoint insertCells (cellList : option vtkLabelArray) (additionalCells : bool)
    (cells : list Z) (s : GridState) : Outcome :=
  match cells with
  | [] => Continue s
  | cellI :: rest =>
      match insertCell cellList additionalCells cellI s with
      | Continue s => insertCells cellList additionalCells rest s
      | Return s => Return s
      end
  end.

Definition nCells (cellList : option vtkLabelArray) : Z :=
  match cellList with
  | None => this_NumCells
  | Some list => GetNumberOfTuples list
  end.

(** The state the loop starts from, given the cells the grid holds. *)
Definition scratch (cellList : option vtkLabelArray) (internalMesh : list vtkGridCell)
  : GridState :=
  mkGrid internalMesh
    (SetNumberOfValues garbage maxNPoints) (SetNumberOfValues garbage maxNPolyPoints)
    (match cellList with
     | None => []
     | Some _ => SetNumberOfValues garbage (nCells cellList)
     end)
    [].

Definition stateOf (o : Outcome) : GridState :=
  match o with Continue s | Return s => s end.

Definition InsertCellsToGrid (internalMesh : list vtkGridCell)
    (additionalCells : bool) (cellList : option vtkLabelArray) : GridState :=
  match cellList, additionalCells with
  | Some _, true => report DecomposeOnSubset (scratch None internalMesh)   (* sanity check *)
  | _, _ =>
      stateOf (insertCells cellList additionalCells (upFrom 0 (nCells cellList))
                 (scratch cellList internalMesh))
  end.

End InsertCells.

(** *** The size of a polyhedron

    The entries of its face stream: for every face the number of its
    points and its points.  Its points: the points of its faces, each
    once. *)
Definition faceStreamLength (meshFaces : vtkFoamLabelListList) (cellFaces : list Z) : Z :=
  fold_right (fun f n => 1 + size (GetCell meshFaces f) + n) 0 cellFaces.

Definition polyhedronPoints (meshFaces : vtkFoamLabelListList) (cellFaces : list Z) : list Z :=
  remove_dups (concat (GetCell meshFaces <$> cellFaces)).

Definition exceedsLimits (meshFaces : vtkFoamLabelListList) (cellFaces : list Z) : Prop :=
  maxNPoints < size (polyhedronPoints meshFaces cellFaces)
  \/ maxNPolyPoints < faceStreamLength meshFaces cellFaces.

(** The cell the loop looks at in round [cellI]. *)
Definition cellIdAt (cellList : option vtkLabelArray) (cellI : Z) : Z :=
  match cellList with
  | None => cellI
  | Some list => GetLabelValue list cellI (Is64BitArray list)
  end.

(** *** The faces of a cell by their number of points *)

(** How many of the faces have [n] points. *)
Definition countOfSize (meshFaces : vtkFoamLabelListList) (n : Z) (cellFaces : list Z) : nat :=
  length (filter (fun f => GetSize meshFaces f = n) cellFaces).

(** *** The points of a polyhedron in the order of their first appearance *)

(** The points gone through after [ids], each added unless it is among the
    points kept so far. *)
Definition keepNew (points ids : list Z) : list Z :=
  fold_left (fun ids k => if decide (k ∈ ids) then ids else ids ++ [k]) points ids.

(** Whether the loop takes the label of round [cellI] for a cell of the
    mesh: [cellId >= this->NumCells] is tested for a cell list only. *)
Definition labelExceeds (this_NumCells : Z) (cellList : option vtkLabelArray) (cellI : Z) : bool :=
  match cellList with
  | None => false
  | Some _ => this_NumCells <=? cellIdAt cellList cellI
  end.

(** *** A list of label lists as it is written

    [n(k0(v ... v) k1(v ... v) ...)]: the number of sub-lists, and every
    sub-list with its size. *)
Definition sizedSublist {double : Type} (l : list Z) : list (vtkFoamToken double) :=
  TLabel (Z.of_nat (length l)) :: TPunctuation chOpen :: (TLabel <$> l) ++ [TPunctuation chClose].

Definition sizedLists {double : Type} (lists : list (list Z)) : list (vtkFoamToken double) :=
  TLabel (Z.of_nat (length lists)) :: TPunctuation chOpen
  :: concat (sizedSublist <$> lists) ++ [TPunctuation chClose].

(** The labels a 64-bit label holds. *)
Definition isLabel64 (v : Z) : Prop := - 2 ^ 63 <= v < 2 ^ 63.

(** *** The boundary faces of a patch

    The faces a patch adds to the boundary faces: those of a physical or
    processor patch. *)
Definition boundarySize (p : vtkFoamPatch) : Z :=
  match type_ p with
  | GEOMETRICAL => 0
  | _ => size_ p
  end.

(** The patch type a type name stands for. *)
Definition patchTypeOf (patchTypeName : string) : patchType :=
  if String.eqb patchTypeName "patch" || String.eqb patchTypeName "wall"
     || String.eqb patchTypeName "mappedWall" then PHYSICAL
  else if String.eqb patchTypeName "processor" || String.eqb patchTypeName "processorCyclic"
  then PROCESSOR
  else GEOMETRICAL.

(** The boundary faces of a list of patches. *)
Definition boundaryFaces (ps : list vtkFoamPatch) : Z :=
  fold_right (fun p n => boundarySize p + n) 0 ps.

(** The patch type a patch dictionary declares with its [type] entry. *)
Definition declaredType {double float : Type} (e : vtkFoamEntry double float) : patchType :=
  match lookupExact (Entry_Dictionary e) "type" with
  | Some etype => patchTypeOf (Entry_ToString etype)
  | None => GEOMETRICAL
  end.

(** *** Patches in the order of their start faces *)

Definition sortedByStart (ps : list vtkFoamPatch) : Prop :=
  forall (k k' : nat) q q',
    (k <= k')%nat -> ps !! k = Some q -> ps !! k' = Some q' -> start_ q <= start_ q'.

(** ** Sample inputs

    Inputs the properties are tried on.  Scalars are rationals here; none of
    the samples computes with them. *)

Definition tLabel (i : Z) : vtkFoamToken Q := TLabel i.
Definition tWord (s : string) : vtkFoamToken Q := TString s.
Definition tOpen : vtkFoamToken Q := TPunctuation chOpen.
Definition tClose : vtkFoamToken Q := TPunctuation chClose.
Definition tSemicolon : vtkFoamToken Q := TPunctuation chSemicolon.

Definition asciiStream (ts : list (vtkFoamToken Q)) : @vtkFoamIOobject Q := mkIO ts false true.

(** [1((7 8))]: one sub-list, written without its size. *)
Definition delimitedListList : @vtkFoamIOobject Q :=
  asciiStream [tLabel 1; tOpen; tOpen; tLabel 7; tLabel 8; tClose; tClose].

(** [2(3(7 8 9) 2(4 5))]: two sub-lists, each with its size. *)
Definition sizedListList : @vtkFoamIOobject Q :=
  asciiStream [tLabel 2; tOpen; tLabel 3; tOpen; tLabel 7; tLabel 8; tLabel 9; tClose;
               tLabel 2; tOpen; tLabel 4; tLabel 5; tClose; tClose].

(** Readers for the parts of the grammar the samples do not use. *)
Definition noDictionary (t : vtkFoamToken Q) (io : @vtkFoamIOobject Q)
  : Result (vtkFoamDict Q Q * @vtkFoamIOobject Q) := inl (ErrorMessage "not in the sample").
Definition noData (io : @vtkFoamIOobject Q)
  : Result (vtkFoamData Q Q * @vtkFoamIOobject Q) := inl (ErrorMessage "not in the sample").
Definition noListFrom (t : vtkFoamToken Q) (io : @vtkFoamIOobject Q)
  : Result (vtkFoamData Q Q * @vtkFoamIOobject Q) := inl (ErrorMessage "not in the sample").

Definition sampleEntryRead (ts : list (vtkFoamToken Q))
  : Result (list (vtkFoamEntryValue Q Q) * @vtkFoamIOobject Q) :=
  Entry_Read (fun q => q) inject_Z inject_Z noDictionary noData noListFrom 0%Q []
    (asciiStream ts).

(** A patch dictionary as the [boundary] file gives it. *)
Definition patchEntry (name type : string) (startFace nFaces : Z) : vtkFoamEntry Q Q :=
  mkEntry name
    [mkEntryValue false (DDictionary (mkDict TUndefined
       [mkEntry "type" [mkEntryValue false (DToken (TString type))];
        mkEntry "nFaces" [mkEntryValue false (DToken (TLabel nFaces))];
        mkEntry "startFace" [mkEntryValue false (DToken (TLabel startFace))]]))].

(** Scenario 3: patches [{start:0,size:10}] then [{start:10,size:5}], and
    the variant whose second patch starts at 11. *)
Definition twoPatches : vtkFoamDict Q Q :=
  mkDict TUndefined [patchEntry "inlet" "patch" 0 10; patchEntry "walls" "wall" 10 5].
Definition twoPatchesWithGap : vtkFoamDict Q Q :=
  mkDict TUndefined [patchEntry "inlet" "patch" 0 10; patchEntry "walls" "wall" 11 5].

(** Two patches that do not touch: the first declares the one face
    9223372036854775807, the second starts at face 5. *)
Definition gapAfterOverflow : vtkFoamDict Q Q :=
  mkDict TUndefined
    [patchEntry "inlet" "patch" 9223372036854775807 1; patchEntry "walls" "wall" 5 1].

(** A small dictionary with a pattern keyword, and a matcher that knows the
    one pattern it uses. *)
Definition sampleKeywords : vtkFoamDict Q Q :=
  mkDict TUndefined [mkEntry "inlet.*" []; mkEntry "outlet" []; mkEntry ".*" []].
Definition sampleMatcher (key keyword : string) : bool :=
  String.eqb key ".*" || (String.eqb key "inlet.*" && String.prefix "inlet" keyword).

(** A uniform and a nonuniform symmTensor field over rationals. *)
Definition uniformSymmTensor : vtkFoamEntry Q Q :=
  mkEntry "internalField"
    [mkEntryValue true (DScalarList [11; 12; 13; 22; 23; 33]%Q)].
Definition nonuniformSymmTensor : vtkFoamEntry Q Q :=
  mkEntry "internalField"
    [mkEntryValue false (DVectorList 6 [11; 12; 13; 22; 23; 33; 44; 45; 46; 55; 56; 66]%Q)].

(** Lists packed as a [vtkFoamLabelListList] holds them. *)
Definition packLists (lists : list (list Z)) : vtkFoamLabelListList :=
  mkLabelListList true
    (fold_left (fun offsets l => offsets ++ [default 0 (last offsets) + Z.of_nat (length l)])
       lists [0])
    (concat lists).

(** The unit cube as one cell.  Points 0 to 3 are the corners of the bottom,
    counter-clockwise seen from above, and point [i + 4] lies above point
    [i].  The cell owns its six faces, whose points run counter-clockwise
    seen from outside: bottom, back, top, front, right, left. *)
Definition cubeFaces : vtkFoamLabelListList :=
  packLists [[0; 3; 2; 1]; [2; 3; 7; 6]; [4; 5; 6; 7]; [0; 1; 5; 4]; [1; 2; 6; 5]; [3; 0; 4; 7]].
Definition cubeCells : vtkFoamLabelListList := packLists [[0; 1; 2; 3; 4; 5]].
Definition cubeOwner : vtkLabelArray := mkLabels true [0; 0; 0; 0; 0; 0].

(** The same cube with the front face listed before the back face. *)
Definition cubeCellsFrontFirst : vtkFoamLabelListList := packLists [[0; 3; 2; 1; 4; 5]].

(** Two cells: cell 0 has one face of 257 points, cell 1 is a tetrahedron
    on the points 0 to 3.  Cell 0 owns face 0, cell 1 the faces 1 to 4. *)
Definition largeFace : list Z := seqZ 0 257.
Definition largeFirstFaces : vtkFoamLabelListList :=
  packLists [largeFace; [0; 2; 1]; [0; 1; 3]; [1; 2; 3]; [2; 0; 3]].
Definition largeFirstCells : vtkFoamLabelListList := packLists [[0]; [1; 2; 3; 4]].
Definition largeFirstOwner : vtkLabelArray := mkLabels true [0; 1; 1; 1; 1].

(** The same two cells in the other order. *)
Definition largeLastFaces : vtkFoamLabelListList :=
  packLists [[0; 2; 1]; [0; 1; 3]; [1; 2; 3]; [2; 0; 3]; largeFace].
Definition largeLastCells : vtkFoamLabelListList := packLists [[0; 1; 2; 3]; [4]].
Definition largeLastOwner : vtkLabelArray := mkLabels true [0; 0; 0; 0; 1].

Definition noDecompose (cellId : Z) (cellFaces : list Z) (s : GridState) : GridState := s.

(** A pyramid as one cell: the base on the points 0 to 3 and the apex 4.
    The cell owns its five faces; the base is its second face. *)
Definition pyramidFaces : vtkFoamLabelListList :=
  packLists [[0; 1; 4]; [0; 3; 2; 1]; [1; 2; 4]; [2; 3; 4]; [3; 0; 4]].
Definition pyramidCells : vtkFoamLabelListList := packLists [[0; 1; 2; 3; 4]].
Definition pyramidOwner : vtkLabelArray := mkLabels true [0; 0; 0; 0; 0].

(** A prism over a pentagon as one cell: the points 0 to 4 at the bottom
    and point [i + 5] above point [i].  The cell owns the bottom and the five
    sides; the top belongs to the cell above. *)
Definition prismFaces : vtkFoamLabelListList :=
  packLists [[0; 4; 3; 2; 1]; [5; 9; 8; 7; 6];
             [0; 1; 6; 5]; [1; 2; 7; 6]; [2; 3; 8; 7]; [3; 4; 9; 8]; [4; 0; 5; 9]].
Definition prismCells : vtkFoamLabelListList := packLists [[0; 1; 2; 3; 4; 5; 6]].
Definition prismOwner : vtkLabelArray := mkLabels true [0; 1; 0; 0; 0; 0; 0].

(** Four patches that touch: a patch, an empty patch, a wall and a
    processor patch. *)
Definition fourPatches : vtkFoamDict Q Q :=
  mkDict TUndefined
    [patchEntry "inlet" "patch" 0 10; patchEntry "frontAndBack" "empty" 10 4;
     patchEntry "walls" "wall" 14 5; patchEntry "procBoundary0to1" "processor" 19 3].

(** A wedge over the points 0 to 5: two triangles and three quadrilaterals,
    all owned by cell 0. *)
Definition wedgeFaces : vtkFoamLabelListList :=
  packLists [[0; 2; 1]; [3; 4; 5]; [0; 1; 4; 3]; [1; 2; 5; 4]; [2; 0; 3; 5]].
Definition wedgeCells : vtkFoamLabelListList := packLists [[0; 1; 2; 3; 4]].
Definition wedgeOwner : vtkLabelArray := mkLabels true [0; 0; 0; 0; 0].

(** Three patches in a row, the second without faces. *)
Definition threePatches : list vtkFoamPatch :=
  [mkPatch "inlet" 0 0 10 0 PHYSICAL true;
   mkPatch "frontAndBack" 1 10 0 10 GEOMETRICAL true;
   mkPatch "walls" 2 10 5 10 PHYSICAL true].

(** * Part II: the verified properties *)

(** ** Machine integers: facts *)

Lemma wrap_small bits x :
  0 < bits -> - 2 ^ (bits - 1) <= x < 2 ^ (bits - 1) -> wrap bits x = x.
Proof.
  intros Hb Hx. unfold wrap.
  assert (H2 : 2 ^ bits = 2 * 2 ^ (bits - 1)).
  { replace bits with (Z.succ (bits - 1)) at 1 by lia. apply Z.pow_succ_r. lia. }
  rewrite Z.mod_small; lia.
Qed.

Lemma wrap_wrap_add bits a b :
  0 < bits -> wrap bits (wrap bits a + b) = wrap bits (a + b).
Proof.
  intros Hb. unfold wrap.
  assert (Hp : 0 < 2 ^ bits) by (apply Z.pow_pos_nonneg; lia).
  f_equal.
  replace ((a + 2 ^ (bits - 1)) mod 2 ^ bits - 2 ^ (bits - 1) + b + 2 ^ (bits - 1))
    with ((a + 2 ^ (bits - 1)) mod 2 ^ bits + b) by lia.
  rewrite Zplus_mod_idemp_l. f_equal. lia.
Qed.

Lemma wrap64_small x : - 2 ^ 63 <= x < 2 ^ 63 -> wrap64 x = x.
Proof. intros H. apply wrap_small; simpl; lia. Qed.

Lemma wrap32_small x : - 2 ^ 31 <= x < 2 ^ 31 -> wrap32 x = x.
Proof. intros H. apply wrap_small; simpl; lia. Qed.

Module FoamFileFacts.
Import FoamFile.

Lemma isdigit_digitChar d : isDigitValue d -> isdigit (chZero + d) = true.
Proof.
  unfold isDigitValue, isdigit. change chZero with 48. intros H.
  apply andb_true_intro. split; apply Z.leb_le; lia.
Qed.

Lemma isdigit_true c : isdigit c = true <-> 48 <= c <= 57.
Proof. unfold isdigit. rewrite andb_true_iff, !Z.leb_le. reflexivity. Qed.

Lemma isspace_digitChar d : isDigitValue d -> isspace (chZero + d) = false.
Proof.
  unfold isDigitValue, isspace. change chZero with 48. intros H.
  apply orb_false_intro; [apply Z.eqb_neq; lia|].
  apply andb_false_intro2. apply Z.leb_gt. lia.
Qed.

Lemma skipSpaces_app ws c rest line :
  Forall (fun w => isspace w = true) ws -> isspace c = false ->
  exists line', skipSpaces (ws ++ c :: rest) line = (c, mkFile rest line').
Proof.
  intros Hws Hc. revert line. induction Hws as [|w ws Hw _ IH]; intros line; simpl.
  - rewrite Hc. eauto.
  - rewrite Hw. apply IH.
Qed.

Lemma skipToValue_app ws c rest line :
  Forall (fun w => isspace w = true) ws -> isspace c = false -> c <> chSlash ->
  exists line', skipToValue (mkFile (ws ++ c :: rest) line) = (c, mkFile rest line').
Proof.
  intros Hws Hc Hs. unfold skipToValue. simpl.
  destruct (skipSpaces_app ws c rest line Hws Hc) as [line' ->].
  exists line'. destruct (Z.eqb_spec c chSlash); [contradiction | reflexivity].
Qed.

Lemma decStep_fold_mono ds acc :
  Forall isDigitValue ds -> 0 <= acc -> acc <= fold_left decStep ds acc.
Proof.
  intros Hds. revert acc. induction Hds as [|d ds Hd _ IH]; intros acc Hacc; simpl; [lia|].
  unfold isDigitValue in Hd. specialize (IH (decStep acc d)). unfold decStep in *. lia.
Qed.

Lemma intDigits_spec ds t rest num :
  Forall isDigitValue ds -> isdigit t = false -> 0 <= num ->
  fold_left decStep ds num <= VTK_TYPE_INT64_MAX ->
  intDigits num (digitChars ds ++ t :: rest) = (fold_left decStep ds num, t, rest).
Proof.
  intros Hds Ht. revert num. induction Hds as [|d ds Hd Hds IH]; intros num Hnum Hmax; simpl.
  - rewrite Ht. reflexivity.
  - rewrite isdigit_digitChar by assumption.
    assert (Hle := decStep_fold_mono ds (decStep num d) Hds).
    unfold isDigitValue in Hd. unfold VTK_TYPE_INT64_MAX in Hmax.
    assert (Hstep : 0 <= decStep num d < 2 ^ 63) by (unfold decStep in *; simpl in Hmax; lia).
    replace (wrap64 (wrap64 (wrap64 (10 * num) + (chZero + d)) - chZero)) with (decStep num d).
    + apply IH; [lia | assumption].
    + unfold wrap64.
      replace (wrap 64 (10 * num) + (chZero + d)) with (wrap 64 (10 * num) + (chZero + d)) by reflexivity.
      rewrite (wrap_wrap_add 64 (10 * num)) by lia.
      replace (wrap 64 (10 * num + (chZero + d)) - chZero)
        with (wrap 64 (10 * num + (chZero + d)) + (- chZero)) by lia.
      rewrite wrap_wrap_add by lia.
      replace (10 * num + (chZero + d) + - chZero) with (decStep num d) by (unfold decStep; lia).
      symmetry. apply wrap_small; [lia | simpl; lia].
Qed.

Lemma decimalValue_fold ds : decimalValue ds = fold_left decStep ds 0.
Proof. reflexivity. Qed.

Lemma decimalValue_cons d ds :
  Forall isDigitValue (d :: ds) -> fold_left decStep ds d = decimalValue (d :: ds).
Proof. intros _. unfold decimalValue. simpl. reflexivity. Qed.

Lemma decimalValue_nonneg ds : Forall isDigitValue ds -> 0 <= decimalValue ds.
Proof. intros H. unfold decimalValue. apply (decStep_fold_mono ds 0 H). lia. Qed.

Lemma readHead_spec ws s c buf line :
  Forall (fun w => isspace w = true) ws -> isdigit c = true \/ c = chDot ->
  exists line',
    readHead (mkFile (ws ++ signChars s ++ c :: buf) line) = (negOf s, c, mkFile buf line').
Proof.
  intros Hws Hc.
  assert (Hr : c <> chMinus /\ c <> chPlus /\ c <> chNewline /\ c <> chSlash
               /\ isspace c = false).
  { change chMinus with 45. change chPlus with 43. change chNewline with 10.
    change chSlash with 47. unfold isspace.
    destruct Hc as [Hc| ->]; [apply isdigit_true in Hc | change chDot with 46];
      repeat split; try lia;
      (apply orb_false_intro; [apply Z.eqb_neq; lia | apply andb_false_intro2; apply Z.leb_gt; lia]). }
  destruct Hr as (Hm & Hp & Hn & Hs & Hsp).
  unfold readHead. destruct s; cbn [signChars app].
  - destruct (skipToValue_app ws c buf line Hws Hsp Hs) as [line' ->].
    exists line'. unfold readSign.
    destruct (Z.eqb_spec c chMinus); [contradiction|].
    destruct (Z.eqb_spec c chPlus); [contradiction|]. reflexivity.
  - destruct (skipToValue_app ws chPlus (c :: buf) line Hws) as [line' ->];
      [reflexivity | discriminate |].
    exists line'. unfold readSign, Getc. cbn.
    destruct (Z.eqb_spec c chNewline); [contradiction|]. reflexivity.
  - destruct (skipToValue_app ws chMinus (c :: buf) line Hws) as [line' ->];
      [reflexivity | discriminate |].
    exists line'. unfold readSign, Getc. cbn.
    destruct (Z.eqb_spec c chNewline); [contradiction|]. reflexivity.
Qed.

(** *** ReadIntValue *)

(** X7: after any white space, a decimal integer literal with an optional
    sign whose magnitude fits a signed 64-bit integer, followed by a
    character that is no digit, is consumed by [ReadIntValue]: it returns
    exactly the written value and leaves the input at the character that
    follows the literal. *)
Lemma ReadIntValue_literal ws s ds t rest line :
  Forall (fun w => isspace w = true) ws ->
  ds <> [] -> Forall isDigitValue ds -> decimalValue ds <= VTK_TYPE_INT64_MAX ->
  0 <= t < 256 -> isdigit t = false ->
  exists line',
    ReadIntValue (mkFile (ws ++ signChars s ++ digitChars ds ++ t :: rest) line)
    = inr (signZ s (decimalValue ds), mkFile (t :: rest) line').
Proof.
  intros Hws Hne Hds Hmax Ht Htd.
  destruct ds as [|d ds]; [congruence|]. clear Hne.
  inversion Hds as [|? ? Hd Hds']; subst.
  assert (Hdc : isdigit (chZero + d) = true) by (apply isdigit_digitChar; assumption).
  assert (Hv : 0 <= decimalValue (d :: ds)) by (apply decimalValue_nonneg; assumption).
  assert (Hint : intDigits (chZero + d - chZero) (digitChars ds ++ t :: rest)
                 = (decimalValue (d :: ds), t, rest)).
  { replace (chZero + d - chZero) with d by lia.
    change (decimalValue (d :: ds)) with (fold_left decStep ds (decStep 0 d)).
    replace (decStep 0 d) with d by (unfold decStep; lia).
    apply intDigits_spec; [assumption | assumption | unfold isDigitValue in Hd; lia |].
    replace d with (decStep 0 d) by (unfold decStep; lia). exact Hmax. }
  unfold ReadIntValue. cbn [digitChars map app]. fold (digitChars ds).
  destruct (readHead_spec ws s (chZero + d) (digitChars ds ++ t :: rest) line Hws (or_introl Hdc))
    as [line' ->].
  exists line'. rewrite Hdc. cbn [negb Buf LineNumber]. rewrite Hint.
  destruct (Z.eqb_spec t EOF) as [E|_]; [unfold EOF in E; lia|].
  unfold PutBack. cbn [Buf LineNumber]. rewrite Z.mod_small by lia.
  destruct s; cbn [negOf signZ]; try reflexivity.
  rewrite wrap64_small; [reflexivity|]. unfold VTK_TYPE_INT64_MAX in Hmax. lia.
Qed.

(** *** ReadFloatValue in exact arithmetic *)

Lemma decStep_fold_shift ds acc :
  fold_left decStep ds acc = acc * 10 ^ Z.of_nat (length ds) + fold_left decStep ds 0.
Proof.
  revert acc. induction ds as [|d ds IH]; intros acc.
  - simpl. lia.
  - cbn [fold_left length]. rewrite (IH (decStep acc d)), (IH (decStep 0 d)).
    rewrite Nat2Z.inj_succ, Z.pow_succ_r by lia. unfold decStep. ring.
Qed.

Lemma decimalValue_app ds1 ds2 :
  decimalValue (ds1 ++ ds2)
  = decimalValue ds1 * 10 ^ Z.of_nat (length ds2) + decimalValue ds2.
Proof.
  unfold decimalValue. rewrite fold_left_app.
  fold decStep. apply decStep_fold_shift.
Qed.

Lemma floatDigits_spec ds t rest (num divisor : Q) :
  Forall isDigitValue ds -> isdigit t = false ->
  exists n' d',
    floatDigits QOps num divisor (digitChars ds ++ t :: rest) = (n', d', t, rest)
    /\ (n' == num * inject_Z (10 ^ Z.of_nat (length ds)) + inject_Z (decimalValue ds))%Q
    /\ (d' == divisor * inject_Z (10 ^ Z.of_nat (length ds)))%Q.
Proof.
  intros Hds Ht. revert num divisor.
  induction Hds as [|d ds Hd Hds IH]; intros num divisor.
  - exists num, divisor. simpl. rewrite Ht. split; [reflexivity|].
    change (decimalValue []) with 0. cbn [length Z.of_nat]. change (10 ^ 0) with 1.
    change (inject_Z 1) with 1%Q. change (inject_Z 0) with 0%Q.
    split; [rewrite Qmult_1_r, Qplus_0_r | rewrite Qmult_1_r]; reflexivity.
  - cbn [digitChars map app floatDigits]. rewrite isdigit_digitChar by assumption.
    fold (digitChars ds).
    destruct (IH (fadd QOps (fmul QOps num (of_int QOps 10)) (of_int QOps (chZero + d - chZero)))
                 (fmul QOps divisor (of_int QOps 10))) as (n' & d' & -> & Hn & Hd').
    exists n', d'. split; [reflexivity|].
    replace (chZero + d - chZero) with d in Hn by lia.
    cbn [fadd fmul of_int QOps] in Hn, Hd'.
    change (d :: ds) with ([d] ++ ds). rewrite decimalValue_app.
    change (decimalValue [d]) with (10 * 0 + d). replace (10 * 0 + d) with d by lia.
    cbn [length app].
    rewrite Nat2Z.inj_succ, Z.pow_succ_r by lia.
    split.
    + rewrite Hn. rewrite !inject_Z_plus, !inject_Z_mult. ring.
    + rewrite Hd'. rewrite !inject_Z_mult. ring.
Qed.

Lemma expDigits_spec es t rest eval :
  Forall isDigitValue es -> isdigit t = false -> 0 <= eval ->
  fold_left decStep es eval <= VTK_TYPE_INT32_MAX ->
  forall c buf, c :: buf = digitChars es ++ t :: rest ->
  expDigits eval c buf = (fold_left decStep es eval, t, rest).
Proof.
  intros Hes Ht. revert eval.
  induction Hes as [|d es Hd Hes IH]; intros eval Heval Hmax c buf Heq.
  - simpl in Heq. injection Heq as -> ->. destruct rest; simpl; rewrite Ht; reflexivity.
  - cbn [digitChars map app] in Heq. fold (digitChars es) in Heq. injection Heq as -> ->.
    assert (Hle := decStep_fold_mono es (decStep eval d) Hes).
    unfold isDigitValue in Hd. unfold VTK_TYPE_INT32_MAX in Hmax. cbn [fold_left] in Hmax.
    assert (Hstep : 0 <= decStep eval d < 2 ^ 31) by (unfold decStep in *; lia).
    assert (Hw : wrap32 (wrap32 (eval * 10) + (chZero + d - chZero)) = decStep eval d).
    { unfold wrap32. rewrite wrap_wrap_add by lia.
      replace (eval * 10 + (chZero + d - chZero)) with (decStep eval d) by (unfold decStep; lia).
      apply wrap_small; [lia | simpl; lia]. }
    cbn [fold_left].
    destruct (digitChars es ++ t :: rest) as [|c' buf'] eqn:E.
    { destruct es; discriminate. }
    cbn [expDigits]. rewrite isdigit_digitChar by assumption. rewrite Hw.
    apply IH; [lia | unfold VTK_TYPE_INT32_MAX; assumption | reflexivity].
Qed.

Lemma scaleLoop_spec step k (factor : Q) :
  0 < step -> (factor == inject_Z (10 ^ k))%Q -> k = step ->
  forall fuel eval (scale : Q) s,
  0 <= eval -> (Z.to_nat eval <= fuel)%nat -> (scale == inject_Z s)%Q ->
  exists e' sc',
    scaleLoop QOps fuel step factor eval scale = (e', sc')
    /\ 0 <= e' < step /\ e' <= eval
    /\ (sc' == inject_Z (s * 10 ^ (eval - e')))%Q.
Proof.
  intros Hstep Hfac ->. induction fuel as [|fuel IH]; intros eval scale s Heval Hfuel Hsc.
  - assert (eval = 0) by lia. subst eval. exists 0, scale. cbn [scaleLoop].
    repeat split; try lia. rewrite Hsc. replace (s * 10 ^ (0 - 0)) with s by (simpl; lia).
    reflexivity.
  - cbn [scaleLoop]. destruct (Z.leb_spec step eval) as [Hle|Hgt].
    + destruct (IH (eval - step) (fmul QOps scale factor) (s * 10 ^ step))
        as (e' & sc' & -> & He' & Hle' & Hsc'); [lia | lia | |].
      { cbn [fmul QOps]. rewrite Hsc, Hfac, inject_Z_mult. reflexivity. }
      exists e', sc'. repeat split; try lia.
      rewrite Hsc'. replace (eval - e') with (step + (eval - step - e')) by lia.
      rewrite Z.pow_add_r by lia. rewrite Z.mul_assoc. reflexivity.
    + exists eval, scale. repeat split; try lia.
      rewrite Hsc. replace (eval - eval) with 0 by lia. rewrite Z.mul_1_r. reflexivity.
Qed.

Lemma fastScale_spec eval :
  0 <= eval -> (fastScale QOps eval == inject_Z (10 ^ eval))%Q.
Proof.
  intros Heval. unfold fastScale.
  destruct (scaleLoop_spec 64 64 (lit_1e64 QOps) ltac:(lia) ltac:(reflexivity) eq_refl
              (Z.to_nat eval) eval (of_int QOps 1) 1 Heval (le_n _) ltac:(reflexivity))
    as (e1 & s1 & -> & He1 & Hle1 & Hs1).
  destruct (scaleLoop_spec 16 16 (lit_1e16 QOps) ltac:(lia) ltac:(reflexivity) eq_refl
              (Z.to_nat eval) e1 s1 _ ltac:(lia) ltac:(lia) Hs1)
    as (e2 & s2 & -> & He2 & Hle2 & Hs2).
  destruct (scaleLoop_spec 4 4 (lit_1e4 QOps) ltac:(lia) ltac:(reflexivity) eq_refl
              (Z.to_nat eval) e2 s2 _ ltac:(lia) ltac:(lia) Hs2)
    as (e3 & s3 & -> & He3 & Hle3 & Hs3).
  destruct (scaleLoop_spec 1 1 (lit_1e1 QOps) ltac:(lia) ltac:(reflexivity) eq_refl
              (Z.to_nat eval) e3 s3 _ ltac:(lia) ltac:(lia) Hs3)
    as (e4 & s4 & -> & He4 & Hle4 & Hs4).
  rewrite Hs4. assert (e4 = 0) by lia. subst e4.
  match goal with |- (inject_Z ?a == inject_Z ?b)%Q => replace a with b; [reflexivity|] end.
  rewrite Z.mul_1_l, <- !Z.pow_add_r by lia. f_equal. lia.
Qed.


Lemma intPart_spec ints c1 buf1 c buf :
  Forall isDigitValue ints -> isdigit c1 = false -> (ints = [] -> c1 = chDot) ->
  c :: buf = digitChars ints ++ c1 :: buf1 ->
  exists n, intPart QOps c buf = (n, c1, buf1) /\ (n == inject_Z (decimalValue ints))%Q.
Proof.
  intros Hds Hc1 Hdot Heq. unfold intPart. destruct ints as [|d ds].
  - simpl in Heq. injection Heq as -> ->. rewrite (Hdot eq_refl). simpl.
    exists (inject_Z 0). split; reflexivity.
  - inversion Hds as [|? ? Hd Hds']; subst.
    cbn [digitChars map app] in Heq. fold (digitChars ds) in Heq. injection Heq as -> ->.
    destruct (Z.eqb_spec (chZero + d) chDot) as [E|_].
    { unfold isDigitValue in Hd. change chZero with 48 in E. change chDot with 46 in E. lia. }
    cbn [negb].
    destruct (floatDigits_spec ds c1 buf1 (of_int QOps (chZero + d - chZero)) (of_int QOps 1)
                Hds' Hc1) as (n' & d' & -> & Hn & _).
    exists n'. split; [reflexivity|].
    rewrite Hn. replace (chZero + d - chZero) with d by lia. cbn [of_int QOps].
    change (d :: ds) with ([d] ++ ds). rewrite decimalValue_app.
    change (decimalValue [d]) with (10 * 0 + d). replace (10 * 0 + d) with d by lia.
    rewrite inject_Z_plus, inject_Z_mult. reflexivity.
Qed.

Lemma fracPart_some fs c2 buf2 (num : Q) :
  Forall isDigitValue fs -> isdigit c2 = false ->
  exists q, fracPart QOps num chDot (digitChars fs ++ c2 :: buf2) = (q, c2, buf2)
    /\ (q == (num * inject_Z (10 ^ Z.of_nat (length fs)) + inject_Z (decimalValue fs))
             / inject_Z (10 ^ Z.of_nat (length fs)))%Q.
Proof.
  intros Hfs Hc2. unfold fracPart. rewrite Z.eqb_refl.
  destruct (floatDigits_spec fs c2 buf2 num (of_int QOps 1) Hfs Hc2) as (n' & d' & -> & Hn & Hd).
  exists (fdiv QOps n' d'). split; [reflexivity|].
  cbn [fdiv QOps of_int] in *. rewrite Hn, Hd. change (inject_Z 1) with 1%Q.
  rewrite Qmult_1_l. reflexivity.
Qed.

Lemma fracPart_none c buf (num : Q) :
  c <> chDot -> fracPart QOps num c buf = (num, c, buf).
Proof. intros H. unfold fracPart. destruct (Z.eqb_spec c chDot); [contradiction | reflexivity]. Qed.

Lemma expPart_none c buf (num : Q) :
  c <> chE -> c <> che -> expPart QOps num c buf = (num, c, buf).
Proof.
  intros H1 H2. unfold expPart.
  destruct (Z.eqb_spec c chE); [contradiction|].
  destruct (Z.eqb_spec c che); [contradiction | reflexivity].
Qed.

Lemma expPart_some (upper : bool) s es t rest (num : Q) :
  Forall isDigitValue es -> decimalValue es <= VTK_TYPE_INT32_MAX -> endsLiteral t ->
  exists q,
    expPart QOps num (if upper then chE else che) (signChars s ++ digitChars es ++ t :: rest)
    = (q, t, rest)
    /\ (q == match s with
             | Minus => num / inject_Z (10 ^ decimalValue es)
             | _ => num * inject_Z (10 ^ decimalValue es)
             end)%Q.
Proof.
  intros Hes Hmax (Ht & Htd & Hdot & HE & He & Hp & Hm).
  assert (Hv : 0 <= decimalValue es) by (apply decimalValue_nonneg; assumption).
  assert (Hexp : forall c buf, c :: buf = digitChars es ++ t :: rest ->
                 expDigits 0 c buf = (decimalValue es, t, rest)).
  { intros c buf Heq. apply (expDigits_spec es t rest 0 Hes Htd); [lia | assumption | assumption]. }
  assert (Hhead : exists c buf, c :: buf = digitChars es ++ t :: rest
                   /\ c <> chMinus /\ c <> chPlus).
  { destruct es as [|d es'].
    - exists t, rest. simpl. auto.
    - inversion Hes as [|? ? Hd _]; subst. unfold isDigitValue in Hd.
      exists (chZero + d), (digitChars es' ++ t :: rest). split; [reflexivity|].
      change chZero with 48. change chMinus with 45. change chPlus with 43. lia. }
  destruct Hhead as (c & buf & Heq & Hcm & Hcp).
  unfold expPart.
  replace (((if upper then chE else che) =? chE) || ((if upper then chE else che) =? che))
    with true by (destruct upper; reflexivity).
  destruct s; cbn [signChars app].
  - rewrite <- Heq.
    destruct (Z.eqb_spec c chMinus); [contradiction|].
    destruct (Z.eqb_spec c chPlus); [contradiction|].
    rewrite (Hexp c buf Heq). cbn [Z.ltb Z.compare].
    eexists. split; [reflexivity|]. cbn [fmul QOps].
    rewrite fastScale_spec by assumption. reflexivity.
  - change (chPlus =? chMinus) with false. rewrite Z.eqb_refl. cbv iota.
    rewrite <- Heq. rewrite (Hexp c buf Heq). cbn [Z.ltb Z.compare].
    eexists. split; [reflexivity|]. cbn [fmul QOps].
    rewrite fastScale_spec by assumption. reflexivity.
  - rewrite Z.eqb_refl. cbv iota.
    rewrite <- Heq. rewrite (Hexp c buf Heq). cbn [Z.ltb Z.compare].
    eexists. split; [reflexivity|]. cbn [fdiv QOps].
    rewrite fastScale_spec by assumption. reflexivity.
Qed.


Lemma body_head (ints : list Z) (tl : list Z) c1 buf1 :
  Forall isDigitValue ints -> (ints = [] -> c1 = chDot) ->
  exists c buf, c :: buf = digitChars ints ++ c1 :: buf1 /\ (isdigit c = true \/ c = chDot).
Proof.
  intros Hds Hdot. destruct ints as [|d ds].
  - exists c1, buf1. split; [reflexivity|]. right. auto.
  - inversion Hds; subst. exists (chZero + d), (digitChars ds ++ c1 :: buf1).
    split; [reflexivity|]. left. apply isdigit_digitChar. assumption.
Qed.


(** *** The literals [ -42;] and [ 6.25e-2;] *)

Lemma ReadIntValue_literal_witness :
  Forall (fun w => isspace w = true) [32]
  /\ [4; 2] <> [] /\ Forall isDigitValue [4; 2]
  /\ decimalValue [4; 2] <= VTK_TYPE_INT64_MAX
  /\ 0 <= 59 < 256 /\ isdigit 59 = false
  /\ exists line',
       ReadIntValue (mkFile (bytes_of_string " -42;") 0)
       = inr (-42, mkFile (bytes_of_string ";") line').
Proof.
  assert (H1 : Forall (fun w => isspace w = true) [32]) by (repeat constructor).
  assert (H2 : [4; 2] <> @nil Z) by discriminate.
  assert (H3 : Forall isDigitValue [4; 2])
    by (repeat constructor; unfold isDigitValue; lia).
  assert (H4 : decimalValue [4; 2] <= VTK_TYPE_INT64_MAX) by (vm_compute; congruence).
  assert (H5 : 0 <= 59 < 256) by lia.
  assert (H6 : isdigit 59 = false) by reflexivity.
  split; [exact H1|]. split; [exact H2|]. split; [exact H3|]. split; [exact H4|].
  split; [exact H5|]. split; [exact H6|].
  exact (ReadIntValue_literal [32] Minus [4; 2] 59 [] 0 H1 H2 H3 H4 H5 H6).
Defined.


(** *** ReadFloatValue in binary64 *)

(** C10: in [double] the reader does not recover every well-formed
    literal within floating-point precision.  The literal [100000e-310]
    has the written value 10^-305, which is a normal [double] and not zero;
    the fast exponent loop builds the scale 10^310, which is infinite in
    [double], and the quotient returned is 0.  In the same way
    [0.00001e310], the number 10^305, is read as infinity, and [1e-310] as
    0. *)
Theorem ReadFloatValue_loses_extreme_exponents :
  let l := mkFloatLiteral NoSign [1; 0; 0; 0; 0; 0] None (Some (false, Minus, [3; 1; 0])) in
  floatChars l ++ [59] = bytes_of_string "100000e-310;"
  /\ wellFormedFloat l
  /\ (writtenValue l == 1 / inject_Z (10 ^ 305))%Q
  /\ PrimFloat.eqb 1e-305%float 0%float = false
  /\ (exists io, ReadFloatValue DoubleOps (mkFile (bytes_of_string "100000e-310;") 0)
                 = inr (0%float, io))
  /\ (exists io, ReadFloatValue DoubleOps (mkFile (bytes_of_string "0.00001e310;") 0)
                 = inr (infinity, io))
  /\ (exists io, ReadFloatValue DoubleOps (mkFile (bytes_of_string "1e-310;") 0)
                 = inr (0%float, io)).
Proof.
  intros l. split; [reflexivity|]. split.
  { repeat split; repeat constructor; unfold isDigitValue; try lia; try discriminate. }
  split; [vm_compute; reflexivity|]. split; [vm_compute; reflexivity|].
  repeat split; eexists; vm_compute; reflexivity.
Qed.

(** In binary64: [1.5e3] is read exactly, [0.1] as the double nearest to
    it. *)
Lemma ReadFloatValue_double_examples :
  (exists io, ReadFloatValue DoubleOps (mkFile (bytes_of_string "1.5e3;") 0)
              = inr (1500%float, io))
  /\ (exists io, ReadFloatValue DoubleOps (mkFile (bytes_of_string "-0.1;") 0)
                 = inr ((-0.1)%float, io)).
Proof. split; eexists; vm_compute; reflexivity. Qed.

(** Both readers want a character after the literal: a literal that ends
    the input is an error. *)
Lemma ReadValue_at_end_of_input :
  ReadIntValue (mkFile (bytes_of_string "42") 0) = inl UnexpectedEOF
  /\ ReadFloatValue QOps (mkFile (bytes_of_string "4.2") 0) = inl UnexpectedEOF.
Proof. split; reflexivity. Qed.

End FoamFileFacts.

(** ** VTK arrays: facts *)

Lemma GetValue_SetValue_eq a i v :
  0 <= i < Z.of_nat (length a) -> GetValue (SetValue a i v) i = v.
Proof.
  intros H. unfold GetValue, SetValue.
  apply list_lookup_total_insert_eq. lia.
Qed.

Lemma GetValue_SetValue_ne a i j v :
  0 <= i -> 0 <= j -> i <> j -> GetValue (SetValue a i v) j = GetValue a j.
Proof.
  intros Hi Hj Hne. unfold GetValue, SetValue.
  apply list_lookup_total_insert_ne. lia.
Qed.

Lemma length_SetValue a i v : length (SetValue a i v) = length a.
Proof. apply length_insert. Qed.

Lemma length_SetNumberOfValues g n : length (SetNumberOfValues g n) = Z.to_nat n.
Proof. unfold SetNumberOfValues. rewrite length_map, length_seq. reflexivity. Qed.

Lemma GetValue_FillValue v a i :
  0 <= i < Z.of_nat (length a) -> GetValue (FillValue v a) i = v.
Proof.
  intros H. unfold GetValue, FillValue.
  apply list_lookup_total_correct. rewrite list_lookup_fmap.
  destruct (lookup_lt_is_Some_2 a (Z.to_nat i)) as [x ->]; [lia | reflexivity].
Qed.

Lemma length_FillValue v a : length (FillValue v a) = length a.
Proof. apply length_map. Qed.

(** ** Folding over the faces *)

Lemma fold_left_flat_map {A B S : Type} (g : S -> B -> S) (h : A -> list B) l s :
  fold_left g (flat_map h l) s = fold_left (fun s x => fold_left g (h x) s) l s.
Proof.
  revert s. induction l as [|x l IH]; intros s; simpl; [reflexivity|].
  rewrite fold_left_app. apply IH.
Qed.

Lemma fold_left_ext_elem {A S : Type} (g1 g2 : S -> A -> S) l s :
  (forall x s, x ∈ l -> g1 s x = g2 s x) -> fold_left g1 l s = fold_left g2 l s.
Proof.
  revert s. induction l as [|x l IH]; intros s H; simpl; [reflexivity|].
  rewrite H by constructor. apply IH. intros y s' Hy. apply H. by constructor.
Qed.

Lemma two_passes_events {S : Type} (act : Z -> Z -> S -> S) (owner neigh : list Z) s :
  (length neigh <= length owner)%nat ->
  forRange (Z.of_nat (length neigh)) (Z.of_nat (length owner))
    (fun f s => act (GetValue owner f) f s)
    (forRange 0 (Z.of_nat (length neigh))
       (fun f s => act (GetValue neigh f) f (act (GetValue owner f) f s)) s)
  = fold_left (fun s e => act e.1 e.2 s) (faceEvents owner neigh) s.
Proof.
  intros Hlen. unfold forRange, faceEvents.
  rewrite fold_left_flat_map.
  set (nI := Z.of_nat (length neigh)). set (nF := Z.of_nat (length owner)).
  assert (Hsplit : seqZ 0 nF = seqZ 0 (nI - 0) ++ seqZ nI (nF - nI)).
  { transitivity (seqZ 0 (nI + (nF - nI))); [f_equal; lia|].
    rewrite seqZ_app by lia. rewrite Z.sub_0_r. reflexivity. }
  rewrite Hsplit, fold_left_app.
  match goal with
  | |- fold_left _ _ ?x = fold_left _ _ ?y => assert (Hin : x = y)
  end.
  { apply fold_left_ext_elem. intros f s' Hf. apply elem_of_seqZ in Hf.
    cbn beta. rewrite decide_True by lia. reflexivity. }
  rewrite Hin. apply fold_left_ext_elem. intros f s' Hf. apply elem_of_seqZ in Hf.
  cbn beta. rewrite decide_False by lia. reflexivity.
Qed.

(** ** Counting the labelled faces *)

Lemma labelCount_nonneg evs c : 0 <= labelCount evs c.
Proof. unfold labelCount. lia. Qed.

Lemma labelCount_snoc evs e c :
  labelCount (evs ++ [e]) c = labelCount evs c + (if decide (e.1 = c) then 1 else 0).
Proof.
  unfold labelCount. rewrite filter_app, length_app, filter_cons, filter_nil.
  destruct (decide (e.1 = c)); simpl; lia.
Qed.

Lemma labelCount_le_length evs c : labelCount evs c <= Z.of_nat (length evs).
Proof. unfold labelCount. pose proof (length_filter (fun e : Z * Z => e.1 = c) evs). lia. Qed.

Lemma labelStart_succ evs i : labelStart evs (i + 1) = labelStart evs i + labelCount evs i.
Proof.
  unfold labelStart, labelCount. induction evs as [|e evs IH]; [reflexivity|].
  rewrite !filter_cons.
  destruct (decide (e.1 < i + 1)), (decide (e.1 < i)), (decide (e.1 = i)); simpl; lia.
Qed.

Lemma labelStart_mono evs i j : i <= j -> labelStart evs i <= labelStart evs j.
Proof.
  intros Hij. unfold labelStart. induction evs as [|e evs IH]; [reflexivity|].
  rewrite !filter_cons.
  destruct (decide (e.1 < i)), (decide (e.1 < j)); simpl; lia.
Qed.

Lemma labelStart_zero (evs : list (Z * Z)) : Forall (fun e => 0 <= e.1) evs -> labelStart evs 0 = 0.
Proof.
  intros H. unfold labelStart. induction H as [|e evs He _ IH]; [reflexivity|].
  rewrite filter_cons. rewrite decide_False by lia. exact IH.
Qed.

Lemma labelStart_all (evs : list (Z * Z)) n :
  Forall (fun e => e.1 < n) evs -> labelStart evs n = Z.of_nat (length evs).
Proof.
  intros H. unfold labelStart. induction H as [|e evs He _ IH]; [reflexivity|].
  rewrite filter_cons. rewrite decide_True by lia. simpl. lia.
Qed.

Lemma labelFaces_snoc evs e c :
  labelFaces (evs ++ [e]) c = labelFaces evs c ++ (if decide (e.1 = c) then [e.2] else []).
Proof.
  unfold labelFaces. rewrite filter_app, fmap_app, filter_cons, filter_nil.
  destruct (decide (e.1 = c)); reflexivity.
Qed.

Lemma length_labelFaces evs c : Z.of_nat (length (labelFaces evs c)) = labelCount evs c.
Proof. unfold labelFaces, labelCount. rewrite length_fmap. reflexivity. Qed.

Lemma labelStart_le_length evs i : labelStart evs i <= Z.of_nat (length evs).
Proof. unfold labelStart. pose proof (length_filter (fun e : Z * Z => e.1 < i) evs). lia. Qed.

Lemma labelStart_nonneg evs i : 0 <= labelStart evs i.
Proof. unfold labelStart. lia. Qed.

Lemma labelCount_app evs1 evs2 c :
  labelCount (evs1 ++ evs2) c = labelCount evs1 c + labelCount evs2 c.
Proof. unfold labelCount. rewrite filter_app, length_app. lia. Qed.

(** *** The first pass *)

Lemma countLabel_fold (evs : list (Z * Z)) m n :
  Forall (fun e => 0 <= e.1) evs ->
  fold_left (fun acc e => countLabel e.1 acc) evs (m, n)
  = (fold_left Z.max evs.*1 m, n + Z.of_nat (length evs)).
Proof.
  intros H. revert m n. induction H as [|e evs He _ IH]; intros m n.
  - simpl. f_equal. lia.
  - cbn [fold_left fmap list_fmap length]. unfold countLabel at 2.
    destruct (Z.leb_spec 0 e.1); [|lia].
    rewrite IH. f_equal; [|lia].
    f_equal. destruct (Z.ltb_spec m e.1); lia.
Qed.

(** *** The tally *)

Section Passes.
Context (is64 : bool) (n : Z) (evs : list (Z * Z)).
Hypothesis n_nonneg : 0 <= n.
Hypothesis labels_in_range : Forall (fun e => 0 <= e.1 < n) evs.
Hypothesis counts_fit :
  forall v, 0 <= v <= Z.of_nat (length evs) -> castLabel is64 v = v.

Lemma Forall_snoc_last {A : Type} (P : A -> Prop) l x : Forall P (l ++ [x]) -> P x.
Proof. intros H. rewrite Forall_forall in H. apply H. apply elem_of_app. right. constructor. Qed.

Lemma prefix_in_range pre post :
  evs = pre ++ post -> Forall (fun e => 0 <= e.1 < n) pre /\ (length pre <= length evs)%nat.
Proof.
  intros ->. split.
  - rewrite Forall_app in labels_in_range. tauto.
  - rewrite length_app. lia.
Qed.

Lemma tally_prefix offs0 d pre post :
  evs = pre ++ post -> Z.of_nat (length offs0) = n + 1 ->
  let res := fold_left (fun cells e => tallyLabel e.1 cells) pre
               (mkLabelListList is64 (FillValue 0 offs0) d) in
  IsLabel64 res = is64 /\ Data res = d /\ Z.of_nat (length (Offsets res)) = n + 1
  /\ forall i, 0 <= i <= n ->
       GetValue (Offsets res) i = if decide (i = 0) then 0 else labelCount pre (i - 1).
Proof.
  intros Hevs Hlen. revert post Hevs. induction pre as [|e pre IH] using rev_ind; intros post Hevs.
  - cbn. repeat split; [rewrite length_FillValue; exact Hlen|].
    intros i Hi. rewrite GetValue_FillValue by lia.
    destruct (decide (i = 0)); reflexivity.
  - rewrite fold_left_app. cbn [fold_left].
    destruct (IH ([e] ++ post)) as (H64 & Hd & Hl & Hoff).
    { rewrite Hevs, <- List.app_assoc. reflexivity. }
    destruct (prefix_in_range (pre ++ [e]) post Hevs) as [Hr Hle].
    apply Forall_snoc_last in Hr.
    set (cells := fold_left _ pre _) in *.
    unfold tallyLabel. destruct (Z.leb_spec 0 e.1); [|lia].
    unfold IncrementOffset. cbn [IsLabel64 Data Offsets].
    repeat split; [exact H64 | exact Hd | rewrite length_SetValue; exact Hl |].
    intros i Hi. rewrite H64.
    rewrite length_app in Hle. cbn in Hle.
    rewrite (Hoff (1 + e.1)) by lia. rewrite decide_False by lia.
    replace (1 + e.1 - 1) with e.1 by lia.
    pose proof (labelCount_le_length pre e.1). pose proof (labelCount_nonneg pre e.1).
    rewrite counts_fit by lia.
    rewrite labelCount_snoc.
    destruct (decide (i = 1 + e.1)) as [->|Hne].
    + rewrite GetValue_SetValue_eq by lia. rewrite decide_False by lia.
      replace (1 + e.1 - 1) with e.1 by lia. rewrite decide_True by reflexivity. reflexivity.
    + rewrite GetValue_SetValue_ne by lia. rewrite Hoff by lia.
      destruct (decide (i = 0)); [reflexivity|]. rewrite decide_False by lia. lia.
Qed.

Lemma reduce_steps cells (k : nat) :
  IsLabel64 cells = is64 -> Z.of_nat (length (Offsets cells)) = n + 1 ->
  (forall i, 0 <= i <= n ->
     GetValue (Offsets cells) i = if decide (i = 0) then 0 else labelCount evs (i - 1)) ->
  Z.of_nat k <= n ->
  let st := fold_left (fun st celli =>
                let '(cells, currOffset) := st in
                let currOffset := currOffset + GetBeginOffset cells celli in
                (SetOffset cells celli currOffset, currOffset))
              (seqZ 1 (Z.of_nat k)) (cells, 0) in
  st.2 = labelStart evs (Z.of_nat k)
  /\ IsLabel64 st.1 = is64 /\ Data st.1 = Data cells
  /\ Z.of_nat (length (Offsets st.1)) = n + 1
  /\ forall i, 0 <= i <= n ->
       GetValue (Offsets st.1) i
       = if decide (i <= Z.of_nat k) then labelStart evs i else labelCount evs (i - 1).
Proof.
  intros H64 Hlen Hoff.
  assert (Hz : labelStart evs 0 = 0).
  { apply labelStart_zero. eapply Forall_impl; [exact labels_in_range|]. cbn. lia. }
  induction k as [|k IH]; intros Hk.
  - cbn. repeat split; try assumption; [symmetry; exact Hz|].
    intros i Hi. rewrite Hoff by lia.
    destruct (decide (i = 0)) as [->|]; [rewrite decide_True by lia; symmetry; exact Hz|].
    rewrite decide_False by lia. reflexivity.
  - replace (Z.of_nat (S k)) with (Z.of_nat k + 1) by lia.
    rewrite seqZ_app by lia. rewrite fold_left_app.
    destruct IH as (Hcur & H64' & Hd & Hl & Hoff'); [lia|].
    destruct (fold_left _ (seqZ 1 (Z.of_nat k)) (cells, 0)) as [cells' curr].
    cbn [fst snd] in *. change (seqZ (1 + Z.of_nat k) 1) with [1 + Z.of_nat k].
    cbn [fold_left fst snd]. unfold GetBeginOffset, SetOffset. cbn [IsLabel64 Data Offsets].
    rewrite (Hoff' (1 + Z.of_nat k)) by lia. rewrite decide_False by lia.
    replace (1 + Z.of_nat k - 1) with (Z.of_nat k) by lia.
    rewrite Hcur, <- labelStart_succ.
    repeat split; try assumption; [rewrite length_SetValue; exact Hl|].
    intros i Hi. rewrite H64'.
    pose proof (labelStart_le_length evs (Z.of_nat k + 1)).
    pose proof (labelStart_nonneg evs (Z.of_nat k + 1)).
    rewrite counts_fit by lia.
    destruct (decide (i = 1 + Z.of_nat k)) as [->|Hne].
    + rewrite GetValue_SetValue_eq by lia. rewrite decide_True by lia. f_equal. lia.
    + rewrite GetValue_SetValue_ne by lia. rewrite Hoff' by lia.
      destruct (decide (i <= Z.of_nat k)); [rewrite decide_True by lia | rewrite decide_False by lia];
        reflexivity.
Qed.

Lemma reduce_spec cells :
  IsLabel64 cells = is64 -> Z.of_nat (length (Offsets cells)) = n + 1 ->
  (forall i, 0 <= i <= n ->
     GetValue (Offsets cells) i = if decide (i = 0) then 0 else labelCount evs (i - 1)) ->
  let res := reduceOffsets n cells in
  IsLabel64 res = is64 /\ Data res = Data cells
  /\ Z.of_nat (length (Offsets res)) = n + 1
  /\ forall i, 0 <= i <= n -> GetValue (Offsets res) i = labelStart evs i.
Proof.
  intros H64 Hlen Hoff. unfold reduceOffsets, forRange.
  replace (n + 1 - 1) with (Z.of_nat (Z.to_nat n)) by lia.
  destruct (reduce_steps cells (Z.to_nat n) H64 Hlen Hoff ltac:(lia)) as (_ & H1 & H2 & H3 & H4).
  repeat split; try assumption.
  intros i Hi. rewrite H4 by lia. rewrite decide_True by lia. reflexivity.
Qed.

Hypothesis faces_fit : Forall (fun e => castLabel is64 e.2 = e.2) evs.

Lemma scatter_prefix cells0 tmp0 pre post :
  evs = pre ++ post ->
  IsLabel64 cells0 = is64 -> IsLabel64 tmp0 = is64 ->
  Z.of_nat (length (Offsets tmp0)) = n + 1 ->
  (forall i, 0 <= i <= n -> GetValue (Offsets tmp0) i = labelStart evs i) ->
  length (Data cells0) = length evs ->
  let st := fold_left (fun st e => scatterLabel e.1 e.2 st) pre (cells0, tmp0) in
  IsLabel64 st.1 = is64 /\ Offsets st.1 = Offsets cells0
  /\ length (Data st.1) = length evs
  /\ IsLabel64 st.2 = is64 /\ Z.of_nat (length (Offsets st.2)) = n + 1
  /\ (forall c, 0 <= c < n ->
        GetValue (Offsets st.2) c = labelStart evs c + labelCount pre c)
  /\ (forall c k, 0 <= c < n -> 0 <= k < labelCount pre c ->
        GetValue (Data st.1) (labelStart evs c + k) = labelFaces pre c !!! Z.to_nat k).
Proof.
  intros Hevs H64 H64t Hlt Hstart Hld. revert post Hevs.
  induction pre as [|e pre IH] using rev_ind; intros post Hevs.
  - cbn. repeat split; try assumption.
    + intros c Hc. rewrite Hstart by lia. unfold labelCount. cbn. lia.
    + intros c k Hc Hk. unfold labelCount in Hk. cbn in Hk. lia.
  - rewrite fold_left_app. cbn [fold_left].
    destruct (IH ([e] ++ post)) as (Ha & Hb & Hc & Hd & He & Hoff & Hdata).
    { rewrite Hevs, <- List.app_assoc. reflexivity. }
    destruct (prefix_in_range (pre ++ [e]) post Hevs) as [Hr Hle].
    apply Forall_snoc_last in Hr.
    assert (Hfit : castLabel is64 e.2 = e.2).
    { rewrite Forall_forall in faces_fit. apply faces_fit. rewrite Hevs.
      apply elem_of_app. left. apply elem_of_app. right. constructor. }
    assert (Hcnt : forall c, labelCount (pre ++ [e]) c <= labelCount evs c).
    { intros c. rewrite Hevs, (labelCount_app (pre ++ [e]) post).
      pose proof (labelCount_nonneg post c). lia. }
    destruct (fold_left _ pre (cells0, tmp0)) as [cells tmp]. cbn [fst snd] in *.
    unfold scatterLabel. destruct (Z.leb_spec 0 e.1); [|lia].
    unfold GetBeginOffset, IncrementOffset, LLL_SetValue. cbn [fst snd IsLabel64 Data Offsets].
    rewrite Ha, Hd, Hfit. rewrite (Hoff e.1) by lia.
    set (next := labelStart evs e.1 + labelCount pre e.1).
    assert (Hnext : 0 <= next < labelStart evs (e.1 + 1)).
    { subst next. rewrite labelStart_succ. specialize (Hcnt e.1).
      rewrite labelCount_snoc, decide_True in Hcnt by reflexivity.
      pose proof (labelStart_nonneg evs e.1). pose proof (labelCount_nonneg pre e.1). lia. }
    assert (Htot : labelStart evs (e.1 + 1) <= Z.of_nat (length evs))
      by apply labelStart_le_length.
    rewrite counts_fit by lia.
    repeat split; try assumption.
    + rewrite length_SetValue. exact Hc.
    + rewrite length_SetValue. exact He.
    + intros c Hcr. rewrite labelCount_snoc.
      destruct (decide (e.1 = c)) as [<-|Hne].
      * rewrite GetValue_SetValue_eq by lia. subst next. lia.
      * rewrite GetValue_SetValue_ne by lia. rewrite Hoff by lia. lia.
    + intros c k Hcr Hk. rewrite labelFaces_snoc.
      pose proof (length_labelFaces pre c) as Hlf.
      rewrite labelCount_snoc in Hk.
      destruct (decide (e.1 = c)) as [<-|Hne].
      * destruct (decide (k = labelCount pre e.1)) as [->|Hk'].
        -- fold next. rewrite GetValue_SetValue_eq by lia.
           symmetry. apply list_lookup_total_correct.
           rewrite lookup_app_r by lia.
           replace (Z.to_nat (labelCount pre e.1) - length (labelFaces pre e.1))%nat with 0%nat by lia.
           reflexivity.
        -- rewrite GetValue_SetValue_ne by (subst next; pose proof (labelStart_nonneg evs e.1); lia).
           rewrite Hdata by lia. symmetry.
           apply list_lookup_total_correct. rewrite lookup_app_l by lia.
           apply list_lookup_lookup_total_lt. lia.
      * rewrite app_nil_r. rewrite GetValue_SetValue_ne; [apply Hdata; lia | lia |
          pose proof (labelStart_nonneg evs c); lia |].
        specialize (Hcnt c). rewrite labelCount_snoc, decide_False in Hcnt by assumption.
        destruct (Z.lt_ge_cases c e.1) as [Hlt'|Hge].
        -- pose proof (labelStart_mono evs (c + 1) e.1 ltac:(lia)) as Hm.
           rewrite labelStart_succ in Hm.
           subst next. pose proof (labelCount_nonneg pre e.1). lia.
        -- pose proof (labelStart_mono evs (e.1 + 1) c ltac:(lia)). lia.
Qed.

End Passes.

(** *** The labelled faces of an owner/neighbour pair *)

Lemma elem_of_GetValue (a : list Z) x :
  x ∈ a <-> exists i, 0 <= i < Z.of_nat (length a) /\ GetValue a i = x.
Proof.
  rewrite list_elem_of_lookup. split.
  - intros [i Hi]. exists (Z.of_nat i). pose proof (lookup_lt_Some _ _ _ Hi).
    split; [lia|]. unfold GetValue. rewrite Nat2Z.id. by apply list_lookup_total_correct.
  - intros (i & Hi & <-). exists (Z.to_nat i). unfold GetValue.
    apply list_lookup_lookup_total_lt. lia.
Qed.

Lemma elem_of_faceEvents owner neigh e :
  e ∈ faceEvents owner neigh <->
  0 <= e.2 < Z.of_nat (length owner)
  /\ (e.1 = GetValue owner e.2 \/ (e.2 < Z.of_nat (length neigh) /\ e.1 = GetValue neigh e.2)).
Proof.
  unfold faceEvents. rewrite list_elem_of_In, in_flat_map. split.
  - intros (f & Hf & He). apply list_elem_of_In, elem_of_seqZ in Hf.
    destruct He as [<-|He]; [cbn; split; [lia | left; reflexivity]|].
    destruct (decide (f < Z.of_nat (length neigh))); [|destruct He].
    destruct He as [<-|[]]. cbn. split; [lia | right; split; [lia | reflexivity]].
  - intros (Hf & He). exists e.2. split; [apply list_elem_of_In, elem_of_seqZ; lia|].
    destruct e as [l f]. cbn in *. destruct He as [->|[Hlt ->]]; [left; reflexivity|].
    right. rewrite decide_True by lia. left. reflexivity.
Qed.

Lemma length_faceEvents owner neigh :
  (length neigh <= length owner)%nat ->
  length (faceEvents owner neigh) = (length owner + length neigh)%nat.
Proof.
  intros Hlen.
  pose proof (two_passes_events (fun _ _ (k : nat) => S k) owner neigh 0%nat Hlen) as H.
  assert (Hcount : forall (l : list (Z * Z)) k,
             fold_left (fun (s : nat) (_ : Z * Z) => S s) l k = (k + length l)%nat).
  { induction l as [|x l IH]; intros k; cbn; [lia|]. rewrite IH. lia. }
  rewrite Hcount in H. cbn in H. rewrite <- H. unfold forRange.
  assert (Hs1 : forall (l : list Z) k,
             fold_left (fun (s : nat) (_ : Z) => S s) l k = (k + length l)%nat).
  { induction l as [|x l IH]; intros k; cbn; [lia|]. rewrite IH. lia. }
  assert (Hs2 : forall (l : list Z) k,
             fold_left (fun (s : nat) (_ : Z) => S (S s)) l k = (k + 2 * length l)%nat).
  { induction l as [|x l IH]; intros k; cbn; [lia|]. rewrite IH. cbn. lia. }
  rewrite Hs1, Hs2, !length_seqZ. lia.
Qed.

Lemma labelFaces_faceEvents owner neigh c :
  labelFaces (faceEvents owner neigh) c = facesOfCell owner neigh c.
Proof.
  unfold labelFaces, faceEvents, facesOfCell.
  induction (seqZ 0 (Z.of_nat (length owner))) as [|f l IH]; [reflexivity|].
  cbn [flat_map]. rewrite filter_app, fmap_app, IH. f_equal.
  rewrite filter_cons. cbn [fst].
  destruct (decide (f < Z.of_nat (length neigh))) as [Hlt|Hge].
  - rewrite filter_cons, filter_nil. cbn [fst].
    destruct (decide (GetValue owner f = c)), (decide (GetValue neigh f = c));
      [rewrite decide_True by tauto | rewrite decide_False by tauto
      | rewrite decide_True by tauto | rewrite decide_False by tauto]; reflexivity.
  - rewrite filter_nil. rewrite (decide_False (P := _ /\ _)) by tauto.
    destruct (decide (GetValue owner f = c)); reflexivity.
Qed.

(** *** The greatest label *)

Lemma fold_max_spec l a :
  let m := fold_left Z.max l a in
  a <= m /\ (forall x, x ∈ l -> x <= m) /\ (m = a \/ m ∈ l).
Proof.
  revert a. induction l as [|y l IH]; intros a; cbn.
  - split; [lia|]. split; [intros x Hx; inversion Hx | left; reflexivity].
  - destruct (IH (Z.max a y)) as (H1 & H2 & H3). split; [lia|]. split.
    + intros x Hx. inversion Hx; subst; [lia | auto].
    + destruct H3 as [H3|H3]; [|right; by constructor].
      destruct (Z.max_spec a y) as [[_ E]|[_ E]]; rewrite E in *.
      * right. rewrite H3. constructor.
      * left. exact H3.
Qed.

Lemma fold_max_ext l1 l2 a :
  (forall x, x ∈ l1 <-> x ∈ l2) -> fold_left Z.max l1 a = fold_left Z.max l2 a.
Proof.
  intros H.
  destruct (fold_max_spec l1 a) as (A1 & B1 & C1).
  destruct (fold_max_spec l2 a) as (A2 & B2 & C2).
  cbn zeta in *.
  assert (fold_left Z.max l1 a <= fold_left Z.max l2 a).
  { destruct C1 as [->|C1]; [assumption|]. apply B2, H, C1. }
  assert (fold_left Z.max l2 a <= fold_left Z.max l1 a).
  { destruct C2 as [->|C2]; [assumption|]. apply B1, H, C2. }
  lia.
Qed.

Lemma max_faceEvents owner neigh :
  (length neigh <= length owner)%nat ->
  fold_left Z.max (faceEvents owner neigh).*1 (-1) = maxLabel owner neigh.
Proof.
  intros Hlen. unfold maxLabel. apply fold_max_ext. intros x.
  rewrite list_elem_of_fmap, elem_of_app, !elem_of_GetValue. split.
  - intros (e & -> & He). apply elem_of_faceEvents in He. destruct He as (Hf & [->|[Hlt ->]]).
    + left. exists e.2. split; [lia | reflexivity].
    + right. exists e.2. split; [lia | reflexivity].
  - intros [(f & Hf & <-)|(f & Hf & <-)].
    + exists (GetValue owner f, f). split; [reflexivity|].
      apply elem_of_faceEvents. cbn. split; [lia | left; reflexivity].
    + exists (GetValue neigh f, f). split; [reflexivity|].
      apply elem_of_faceEvents. cbn. split; [lia | right; split; [lia | reflexivity]].
Qed.

Lemma map_seqZ_lookup (f : Z -> Z) a (l : list Z) :
  (forall k, 0 <= k < Z.of_nat (length l) -> f (a + k) = l !!! Z.to_nat k) ->
  map f (seqZ a (Z.of_nat (length l))) = l.
Proof.
  revert a. induction l as [|x l IH]; intros a H; [reflexivity|].
  rewrite seqZ_cons by (cbn; lia). cbn [map]. f_equal.
  - specialize (H 0). rewrite Z.add_0_r in H. apply H. cbn. lia.
  - replace (Z.pred (Z.of_nat (length (x :: l)))) with (Z.of_nat (length l)) by (cbn; lia).
    apply IH. intros k Hk. replace (Z.succ a + k) with (a + (k + 1)) by lia.
    rewrite H by (cbn; lia). replace (Z.to_nat (k + 1)) with (S (Z.to_nat k)) by lia.
    reflexivity.
Qed.

Lemma maxLabel_range owner neigh :
  Forall (fun l => 0 <= l < VTK_TYPE_INT64_MAX) (owner ++ neigh) ->
  -1 <= maxLabel owner neigh < VTK_TYPE_INT64_MAX
  /\ Forall (fun l => 0 <= l <= maxLabel owner neigh) (owner ++ neigh).
Proof.
  intros H. unfold maxLabel.
  destruct (fold_max_spec (owner ++ neigh) (-1)) as (H1 & H2 & H3). cbn zeta in *.
  rewrite Forall_forall in H. split.
  - destruct H3 as [->|H3]; [unfold VTK_TYPE_INT64_MAX; lia|].
    specialize (H _ H3). cbn in H. lia.
  - apply Forall_forall. intros x Hx. specialize (H _ Hx). specialize (H2 _ Hx). cbn in H. lia.
Qed.

(** *** CreateCellFaces *)

Section CreateCellFacesFacts.
Context (garbage : nat -> Z) (faceOwner faceNeigh : vtkLabelArray).
Let owner := Values faceOwner.
Let neigh := Values faceNeigh.
Hypothesis owner_covers_neigh : (length neigh <= length owner)%nat.
Hypothesis labels_ok : Forall (fun l => 0 <= l < VTK_TYPE_INT64_MAX) (owner ++ neigh).
Hypothesis sizes_ok :
  Z.of_nat (length owner) + Z.of_nat (length neigh) <= VTK_TYPE_INT64_MAX.

Lemma countCells_spec :
  countCells faceOwner faceNeigh (Is64BitArray faceOwner)
    (GetNumberOfTuples faceNeigh) (GetNumberOfTuples faceOwner)
  = (1 + maxLabel owner neigh, Z.of_nat (length owner) + Z.of_nat (length neigh)).
Proof.
  unfold countCells, GetNumberOfTuples, GetLabelValue. fold owner neigh.
  rewrite (two_passes_events (fun l _ acc => countLabel l acc) owner neigh (-1, 0)
             owner_covers_neigh).
  destruct (maxLabel_range owner neigh labels_ok) as [Hm Hall].
  rewrite (countLabel_fold (faceEvents owner neigh) (-1) 0).
  - cbn [fst snd]. rewrite max_faceEvents by assumption.
    rewrite length_faceEvents by assumption. f_equal; [|lia].
    rewrite wrap64_small; [lia|]. unfold VTK_TYPE_INT64_MAX in Hm. lia.
  - apply Forall_forall. intros e He. apply elem_of_faceEvents in He.
    rewrite Forall_forall in Hall. destruct He as (Hf & [->|[Hlt ->]]).
    + assert (GetValue owner e.2 ∈ owner ++ neigh).
      { apply elem_of_app. left. apply elem_of_GetValue. eauto. }
      specialize (Hall _ H). cbn in Hall. lia.
    + assert (GetValue neigh e.2 ∈ owner ++ neigh).
      { apply elem_of_app. right. apply elem_of_GetValue. exists e.2. split; [lia | reflexivity]. }
      specialize (Hall _ H). cbn in Hall. lia.
Qed.

Lemma CreateCellFaces_cells :
  let '(sizes, cells) := CreateCellFaces garbage faceOwner faceNeigh in
  sizes = mkMeshSizes (1 + maxLabel owner neigh)
            (Z.of_nat (length owner)) (Z.of_nat (length neigh))
  /\ GetNumberOfElements cells = 1 + maxLabel owner neigh
  /\ forall c, 0 <= c < 1 + maxLabel owner neigh ->
       GetCell cells c = facesOfCell owner neigh c.
Proof.
  unfold CreateCellFaces. rewrite countCells_spec.
  set (n := 1 + maxLabel owner neigh).
  set (total := Z.of_nat (length owner) + Z.of_nat (length neigh)).
  set (is64 := Is64BitArray faceOwner || (VTK_TYPE_INT32_MAX <? total)).
  set (evs := faceEvents owner neigh).
  destruct (maxLabel_range owner neigh labels_ok) as [Hm Hall].
  assert (Hn : 0 <= n) by (subst n; lia).
  assert (Hlen : Z.of_nat (length evs) = total).
  { subst evs total. rewrite length_faceEvents by assumption. lia. }
  assert (Hrange : Forall (fun e => 0 <= e.1 < n) evs).
  { apply Forall_forall. intros e He. apply elem_of_faceEvents in He.
    rewrite Forall_forall in Hall. destruct He as (Hf & [->|[Hlt ->]]).
    - assert (H : GetValue owner e.2 ∈ owner ++ neigh).
      { apply elem_of_app. left. apply elem_of_GetValue. eauto. }
      specialize (Hall _ H). cbn in Hall. subst n. lia.
    - assert (H : GetValue neigh e.2 ∈ owner ++ neigh).
      { apply elem_of_app. right. apply elem_of_GetValue. exists e.2. split; [lia | reflexivity]. }
      specialize (Hall _ H). cbn in Hall. subst n. lia. }
  assert (Hfit : forall v, 0 <= v <= Z.of_nat (length evs) -> castLabel is64 v = v).
  { intros v Hv. rewrite Hlen in Hv. unfold castLabel. subst is64.
    destruct (Is64BitArray faceOwner); cbn [orb].
    - apply wrap64_small. unfold VTK_TYPE_INT64_MAX in sizes_ok. subst total. lia.
    - destruct (Z.ltb_spec VTK_TYPE_INT32_MAX total).
      + apply wrap64_small. unfold VTK_TYPE_INT64_MAX in sizes_ok. subst total. lia.
      + apply wrap32_small. unfold VTK_TYPE_INT32_MAX in *. lia. }
  assert (Hfaces : Forall (fun e => castLabel is64 e.2 = e.2) evs).
  { apply Forall_forall. intros e He. apply Hfit. apply elem_of_faceEvents in He. lia. }
  unfold tallyFaces, scatterFaces, GetNumberOfTuples, GetLabelValue. fold owner neigh.
  rewrite (two_passes_events (fun l _ cells => tallyLabel l cells) owner neigh _ owner_covers_neigh).
  rewrite (two_passes_events (fun l f st => scatterLabel l f st) owner neigh _ owner_covers_neigh).
  fold evs. unfold ResetOffsets, ResizeExact, newLabelListList. cbn [IsLabel64 Offsets Data].
  set (offs0 := SetValue (SetNumberOfValues garbage (n + 1)) 0 0).
  set (d0 := SetNumberOfValues garbage total).
  assert (Hoffs0 : Z.of_nat (length offs0) = n + 1).
  { subst offs0. rewrite length_SetValue, length_SetNumberOfValues. lia. }
  destruct (tally_prefix is64 n evs Hrange Hfit offs0 d0 evs [] (eq_sym (app_nil_r _)) Hoffs0)
    as (T1 & T2 & T3 & T4).
  set (tallied := fold_left _ evs _) in *.
  destruct (reduce_spec is64 n evs Hn Hrange Hfit tallied T1 T3) as (R1 & R2 & R3 & R4).
  { intros i Hi. rewrite T4 by lia. f_equal. }
  set (reduced := reduceOffsets n tallied) in *.
  rewrite R1.
  destruct (scatter_prefix is64 n evs Hrange Hfit Hfaces reduced
              (mkLabelListList is64 (Offsets reduced) (SetNumberOfValues garbage 1))
              evs [] (eq_sym (app_nil_r _)) R1 eq_refl R3 R4)
    as (S1 & S2 & S3 & S4 & S5 & S6 & S7).
  { rewrite R2, T2. subst d0. rewrite length_SetNumberOfValues. lia. }
  destruct (fold_left _ evs (reduced, _)) as [cells tmp]. cbn [fst snd] in *.
  split; [reflexivity|]. split.
  { unfold GetNumberOfElements. rewrite S2. lia. }
  intros c Hc. unfold GetCell. rewrite S2, !R4 by lia.
  rewrite labelStart_succ. replace (labelStart evs c + labelCount evs c - labelStart evs c)
    with (labelCount evs c) by lia.
  subst evs. rewrite <- labelFaces_faceEvents.
  rewrite <- length_labelFaces. apply map_seqZ_lookup.
  intros k Hk. rewrite length_labelFaces in Hk. apply S7; lia.
Qed.

End CreateCellFacesFacts.

(** *** Cells that mention a face *)

Lemma filter_ext_elem {A : Type} (P Q : A -> Prop)
    `{!forall x, Decision (P x)} `{!forall x, Decision (Q x)} (l : list A) :
  (forall x, x ∈ l -> P x <-> Q x) -> filter P l = filter Q l.
Proof.
  induction l as [|x l IH]; intros Hext; [reflexivity|].
  rewrite !filter_cons. rewrite IH by (intros y Hy; apply Hext; by constructor).
  specialize (Hext x ltac:(constructor)).
  destruct (decide (P x)), (decide (Q x)); tauto || reflexivity.
Qed.

Lemma length_filter_eq_NoDup (a : Z) (l : list Z) :
  NoDup l -> a ∈ l -> length (filter (fun c => c = a) l) = 1%nat.
Proof.
  induction 1 as [|x l Hx Hnd IH]; intros Ha; [inversion Ha|].
  rewrite filter_cons. destruct (decide (x = a)) as [->|Hne].
  - cbn. f_equal. destruct (filter (fun c => c = a) l) as [|y l'] eqn:E; [reflexivity|].
    assert (Hy : y ∈ filter (fun c => c = a) l) by (rewrite E; constructor).
    apply list_elem_of_filter in Hy. destruct Hy as [-> Hy]. contradiction.
  - apply IH. inversion Ha; subst; [contradiction | assumption].
Qed.

Lemma length_filter_or (P Q : Z -> Prop)
    `{!forall x, Decision (P x)} `{!forall x, Decision (Q x)} (l : list Z) :
  (forall x, P x -> Q x -> False) ->
  length (filter (fun x => P x \/ Q x) l) = (length (filter P l) + length (filter Q l))%nat.
Proof.
  intros Hdis. induction l as [|x l IH]; [reflexivity|].
  rewrite !filter_cons.
  destruct (decide (P x)) as [HP|HP], (decide (Q x)) as [HQ|HQ];
    [destruct (Hdis x HP HQ) | rewrite decide_True by tauto | rewrite decide_True by tauto
    | rewrite decide_False by tauto]; cbn; lia.
Qed.

(** C1: for an owner array and a neighbour array not longer than it, with
    labels that are not negative (and labels and sizes within 64 bits),
    [CreateCellFaces] sets [NumCells] to 1 plus the greatest label of the
    two arrays, and the list of cell [c] holds exactly the faces [f] with
    [owner[f] = c] or, for an internal face, [neighbour[f] = c], in
    ascending order.  An internal face whose owner and neighbour differ is
    in the lists of exactly two cells, a boundary face in the list of
    exactly one; an internal face whose owner is also its neighbour is in
    the list of that one cell only. *)
Theorem CreateCellFaces_spec garbage (faceOwner faceNeigh : vtkLabelArray) :
  let owner := Values faceOwner in
  let neigh := Values faceNeigh in
  let nFaces := Z.of_nat (length owner) in
  let nInternalFaces := Z.of_nat (length neigh) in
  (length neigh <= length owner)%nat ->
  Forall (fun l => 0 <= l < VTK_TYPE_INT64_MAX) (owner ++ neigh) ->
  nFaces + nInternalFaces <= VTK_TYPE_INT64_MAX ->
  let '(sizes, cells) := CreateCellFaces garbage faceOwner faceNeigh in
  NumCells sizes = 1 + maxLabel owner neigh
  /\ GetNumberOfElements cells = NumCells sizes
  /\ (forall c, 0 <= c < NumCells sizes -> GetCell cells c = facesOfCell owner neigh c)
  /\ (forall c f, 0 <= c < NumCells sizes ->
        f ∈ GetCell cells c <->
        0 <= f < nFaces
        /\ (GetValue owner f = c \/ (f < nInternalFaces /\ GetValue neigh f = c)))
  /\ (forall f, 0 <= f < nInternalFaces -> GetValue owner f <> GetValue neigh f ->
        length (cellsWithFace cells f) = 2%nat)
  /\ (forall f, 0 <= f < nInternalFaces -> GetValue owner f = GetValue neigh f ->
        cellsWithFace cells f = [GetValue owner f]
        /\ GetCell cells (GetValue owner f) = facesOfCell owner neigh (GetValue owner f))
  /\ (forall f, nInternalFaces <= f < nFaces -> length (cellsWithFace cells f) = 1%nat).
Proof.
  intros owner neigh nFaces nInternalFaces Hlen Hlabels Hsizes.
  pose proof (CreateCellFaces_cells garbage faceOwner faceNeigh Hlen Hlabels Hsizes) as H.
  destruct (CreateCellFaces garbage faceOwner faceNeigh) as [sizes cells].
  destruct H as (-> & Hn & Hcell). cbn [NumCells]. fold owner neigh in Hn, Hcell |- *.
  set (n := 1 + maxLabel owner neigh) in *.
  destruct (maxLabel_range owner neigh Hlabels) as [Hm Hall].
  rewrite Forall_forall in Hall.
  assert (Hown : forall f, 0 <= f < nFaces -> 0 <= GetValue owner f < n).
  { intros f Hf. assert (H : GetValue owner f ∈ owner ++ neigh).
    { apply elem_of_app. left. apply elem_of_GetValue. eauto. }
    specialize (Hall _ H). cbn in Hall. subst n. lia. }
  assert (Hnei : forall f, 0 <= f < nInternalFaces -> 0 <= GetValue neigh f < n).
  { intros f Hf. assert (H : GetValue neigh f ∈ owner ++ neigh).
    { apply elem_of_app. right. apply elem_of_GetValue. eauto. }
    specialize (Hall _ H). cbn in Hall. subst n. lia. }
  assert (Hmem : forall c f, 0 <= c < n ->
             f ∈ GetCell cells c <->
             0 <= f < nFaces
             /\ (GetValue owner f = c \/ (f < nInternalFaces /\ GetValue neigh f = c))).
  { intros c f Hc. rewrite Hcell by assumption. unfold facesOfCell.
    rewrite list_elem_of_In, in_flat_map. split.
    - intros (g & Hg & Hin). apply list_elem_of_In, elem_of_seqZ in Hg.
      apply in_app_or in Hin.
      destruct Hin as [Hin|Hin]; match type of Hin with context [decide ?P] =>
        destruct (decide P) as [HP|HP]; [destruct Hin as [<-|[]] | destruct Hin] end.
      + split; [subst nFaces; lia | left; exact HP].
      + split; [subst nFaces; lia | right; exact HP].
    - intros (Hf & Hor). exists f. split; [apply list_elem_of_In, elem_of_seqZ; subst nFaces; lia|].
      apply in_or_app. destruct Hor as [Ho|Hne].
      + left. rewrite decide_True by assumption. left. reflexivity.
      + right. rewrite decide_True by assumption. left. reflexivity. }
  assert (Hrange : forall c, c ∈ seqZ 0 (GetNumberOfElements cells) <-> 0 <= c < n).
  { intros c. rewrite elem_of_seqZ, Hn. lia. }
  split; [reflexivity|]. split; [exact Hn|]. split; [exact Hcell|]. split; [exact Hmem|].
  split; [|split].
  - intros f Hf Hne. unfold cellsWithFace.
    rewrite (filter_ext_elem _ (fun c => c = GetValue owner f \/ c = GetValue neigh f)).
    2:{ intros c Hc. apply Hrange in Hc. rewrite Hmem by assumption.
        subst nFaces nInternalFaces. split; [intros (_ & [E|[_ E]]); [left | right]; congruence|].
        intros [->| ->]; (split; [lia|]); [left | right]; tauto. }
    rewrite length_filter_or by (intros x -> E; exact (Hne E)).
    rewrite !length_filter_eq_NoDup; [reflexivity | apply NoDup_seqZ | | apply NoDup_seqZ |].
    + apply Hrange, Hnei. assumption.
    + apply Hrange, Hown. subst nFaces nInternalFaces. lia.
  - intros f Hf Heq. split; [|apply Hcell, Hown; subst nFaces nInternalFaces; lia].
    unfold cellsWithFace.
    rewrite (filter_ext_elem _ (fun c => c = GetValue owner f)).
    2:{ intros c Hc. apply Hrange in Hc. rewrite Hmem by assumption.
        subst nFaces nInternalFaces. split; [intros (_ & [E|[_ E]]); congruence|].
        intros ->. split; [lia | left; reflexivity]. }
    assert (Hin : GetValue owner f ∈ seqZ 0 (GetNumberOfElements cells)).
    { apply Hrange, Hown. subst nFaces nInternalFaces. lia. }
    pose proof (length_filter_eq_NoDup (GetValue owner f) _ (NoDup_seqZ 0 _) Hin) as Hone.
    destruct (filter _ _) as [|x [|y l]] eqn:E; try discriminate Hone.
    assert (Hx : x ∈ filter (fun c => c = GetValue owner f) (seqZ 0 (GetNumberOfElements cells)))
      by (rewrite E; constructor).
    apply list_elem_of_filter in Hx. destruct Hx as [-> _]. reflexivity.
  - intros f Hf. unfold cellsWithFace.
    rewrite (filter_ext_elem _ (fun c => c = GetValue owner f)).
    2:{ intros c Hc. apply Hrange in Hc. rewrite Hmem by assumption.
        subst nFaces nInternalFaces. split; [intros (_ & [E|[? _]]); [congruence | lia]|].
        intros ->. split; [lia | left; reflexivity]. }
    apply length_filter_eq_NoDup; [apply NoDup_seqZ|]. apply Hrange, Hown. lia.
Qed.

(** C1, the input that decides it: one face whose owner and neighbour are
    both cell 0.  The face is in the list of one cell, twice, and not in the
    lists of two cells. *)
Lemma CreateCellFaces_same_cell_on_both_sides :
  let '(sizes, cells) :=
    CreateCellFaces zeroGarbage (mkLabels true [0]) (mkLabels true [0]) in
  NumCells sizes = 1 /\ GetCell cells 0 = [0; 0] /\ cellsWithFace cells 0 = [0]
  /\ length (cellsWithFace cells 0) <> 2%nat.
Proof. vm_compute. repeat split; congruence. Qed.

(** Two cells and three faces: face 0 lies between cell 0 and cell 1, the
    faces 1 and 2 on the boundary. *)
Lemma CreateCellFaces_spec_witness :
  let faceOwner := mkLabels true [0; 0; 1] in
  let faceNeigh := mkLabels true [1] in
  let owner := Values faceOwner in
  let neigh := Values faceNeigh in
  let nFaces := Z.of_nat (length owner) in
  let nInternalFaces := Z.of_nat (length neigh) in
  (length neigh <= length owner)%nat
  /\ Forall (fun l => 0 <= l < VTK_TYPE_INT64_MAX) (owner ++ neigh)
  /\ nFaces + nInternalFaces <= VTK_TYPE_INT64_MAX
  /\ let '(sizes, cells) := CreateCellFaces zeroGarbage faceOwner faceNeigh in
     NumCells sizes = 1 + maxLabel owner neigh
     /\ GetNumberOfElements cells = NumCells sizes
     /\ (forall c, 0 <= c < NumCells sizes -> GetCell cells c = facesOfCell owner neigh c)
     /\ (forall c f, 0 <= c < NumCells sizes ->
           f ∈ GetCell cells c <->
           0 <= f < nFaces
           /\ (GetValue owner f = c \/ (f < nInternalFaces /\ GetValue neigh f = c)))
     /\ (forall f, 0 <= f < nInternalFaces -> GetValue owner f <> GetValue neigh f ->
           length (cellsWithFace cells f) = 2%nat)
     /\ (forall f, 0 <= f < nInternalFaces -> GetValue owner f = GetValue neigh f ->
           cellsWithFace cells f = [GetValue owner f]
           /\ GetCell cells (GetValue owner f) = facesOfCell owner neigh (GetValue owner f))
     /\ (forall f, nInternalFaces <= f < nFaces -> length (cellsWithFace cells f) = 1%nat).
Proof.
  cbv zeta.
  assert (H1 : (1 <= 3)%nat) by lia.
  assert (H2 : Forall (fun l => 0 <= l < VTK_TYPE_INT64_MAX)
                 (Values (mkLabels true [0; 0; 1]) ++ Values (mkLabels true [1])))
    by (repeat constructor; vm_compute; congruence).
  assert (H3 : Z.of_nat (length (Values (mkLabels true [0; 0; 1])))
               + Z.of_nat (length (Values (mkLabels true [1]))) <= VTK_TYPE_INT64_MAX)
    by (vm_compute; congruence).
  split; [exact H1|]. split; [exact H2|]. split; [exact H3|].
  exact (CreateCellFaces_spec zeroGarbage (mkLabels true [0; 0; 1]) (mkLabels true [1])
           H1 H2 H3).
Defined.

(** ** Boundary patches: update *)

Section UpdateFacts.
Context {double float : Type}.
Local Abbreviation entry := (vtkFoamEntry double float).
Local Abbreviation dict := (vtkFoamDict double float).

Lemma updatePatch_ok patchi (e : entry) st r :
  patchRange e = Some r -> nonNegativeRange r -> r.1 + r.2 <= VTK_TYPE_INT64_MAX ->
  (us_endFace st < 0 \/ us_endFace st = r.1) ->
  exists st',
    updatePatch patchi e st = inr st'
    /\ us_endFace st' = r.1 + r.2
    /\ length (us_patches st') = length (us_patches st)
    /\ (forall p, us_patches st' !! Z.to_nat patchi = Some p ->
          rangeOf p = r /\ index_ p = patchi /\ name_ p = Keyword e)
    /\ (forall j, j <> Z.to_nat patchi -> us_patches st' !! j = us_patches st !! j).
Proof.
  unfold patchRange, updatePatch. intros Hr [Hs Hn] Hov Hend.
  destruct (lookupExact (Entry_Dictionary e) "type") as [etype|]; [|discriminate].
  destruct (lookupExact (Entry_Dictionary e) "startFace") as [estart|]; [|discriminate].
  destruct (lookupExact (Entry_Dictionary e) "nFaces") as [esize|]; [|discriminate].
  injection Hr as <-. cbn [fst snd] in *. cbn [start_ size_ name_ index_ offset_ type_ owner_].
  destruct (Z.ltb_spec (Entry_ToInt estart) 0); [lia|].
  destruct (Z.ltb_spec (Entry_ToInt esize) 0); [lia|]. cbn [orb].
  assert (Hc : (0 <=? us_endFace st) && negb (us_endFace st =? Entry_ToInt estart) = false).
  { destruct Hend as [Hneg| ->].
    - destruct (Z.leb_spec 0 (us_endFace st)); [lia | reflexivity].
    - rewrite Z.eqb_refl. apply andb_false_r. }
  rewrite Hc.
  match goal with
  | |- context [let '(patch, nBoundaryFaces) := ?X in _] => destruct X as [patch nb] eqn:EX
  end.
  assert (Hp : rangeOf patch = (Entry_ToInt estart, Entry_ToInt esize)
               /\ index_ patch = patchi /\ name_ patch = Keyword e).
  { repeat match type of EX with
           | (if ?c then _ else _) = _ => destruct c
           end; injection EX as <- <-; repeat split. }
  eexists. split; [reflexivity|]. cbn [us_endFace us_patches].
  split.
  { unfold endFace. cbn [start_ size_]. apply wrap64_small.
    unfold VTK_TYPE_INT64_MAX in Hov. lia. }
  split; [apply length_insert|]. split.
  - intros p Hp'. destruct (decide (Z.to_nat patchi < length (us_patches st))%nat) as [Hlt|Hge].
    + rewrite list_lookup_insert_eq in Hp' by assumption. injection Hp' as <-. exact Hp.
    + rewrite list_insert_ge in Hp' by lia. apply lookup_lt_Some in Hp'. lia.
  - intros j Hj. apply list_lookup_insert_ne. lia.
Qed.

Lemma updatePatch_fails patchi (e : entry) st :
  0 <= us_endFace st \/ us_endFace st = -1 ->
  (forall r, patchRange e = Some r ->
     ~ (nonNegativeRange r /\ (us_endFace st < 0 \/ us_endFace st = r.1))) ->
  exists err st', updatePatch patchi e st = inl (err, st') /\ err <> NoError.
Proof.
  unfold patchRange, updatePatch. intros Hend Hbad.
  destruct (lookupExact (Entry_Dictionary e) "type") as [etype|]; [|eauto].
  destruct (lookupExact (Entry_Dictionary e) "startFace") as [estart|]; [|eauto].
  destruct (lookupExact (Entry_Dictionary e) "nFaces") as [esize|]; [|eauto].
  specialize (Hbad _ eq_refl). unfold nonNegativeRange in Hbad. cbn [fst snd] in Hbad.
  cbn [start_ size_ name_ index_ offset_ type_ owner_].
  destruct (Z.ltb_spec (Entry_ToInt estart) 0); [cbn [orb]; eauto|].
  destruct (Z.ltb_spec (Entry_ToInt esize) 0); [cbn [orb]; eauto|]. cbn [orb].
  destruct (Z.leb_spec 0 (us_endFace st)); [|exfalso; apply Hbad; lia].
  destruct (Z.eqb_spec (us_endFace st) (Entry_ToInt estart)); [exfalso; apply Hbad; lia|].
  cbn [andb negb]. eauto.
Qed.

Lemma chained_contiguous endFace rs :
  Forall nonNegativeRange rs ->
  chained endFace rs <->
  (forall r, rs !! 0%nat = Some r -> endFace < 0 \/ endFace = r.1) /\ contiguousRanges rs.
Proof.
  intros Hnn. revert endFace. induction Hnn as [|r rs Hr Hnn IH]; intros endFace.
  - cbn. split; [|tauto]. intros _. split; [intros r Hr; discriminate|].
    intros i r r' Hi. discriminate.
  - cbn [chained]. rewrite IH. unfold nonNegativeRange in Hr. split.
    + intros (Hhead & Hnext & Hcont). split; [intros r0 [= <-]; exact Hhead|].
      intros [|i] r1 r2 H1 H2; cbn in H1, H2.
      * injection H1 as <-. destruct (Hnext _ H2); lia.
      * eapply Hcont; eassumption.
    + intros (Hhead & Hcont). split; [apply Hhead; reflexivity|]. split.
      * intros r' Hr'. right. apply (Hcont 0%nat r r'); [reflexivity | exact Hr'].
      * intros i r1 r2 H1 H2. apply (Hcont (S i) r1 r2); assumption.
Qed.

Lemma update_loop_ok (es : list entry) : forall patchi st rs,
  0 <= patchi ->
  Forall2 (fun e r => patchRange e = Some r) es rs ->
  Forall nonNegativeRange rs ->
  Forall (fun r => r.1 + r.2 <= VTK_TYPE_INT64_MAX) rs ->
  chained (us_endFace st) rs ->
  (Z.to_nat patchi + length es <= length (us_patches st))%nat ->
  exists st',
    update_loop es patchi st = inr st'
    /\ length (us_patches st') = length (us_patches st)
    /\ (forall (i : nat) e r, es !! i = Some e -> rs !! i = Some r ->
          exists p, us_patches st' !! (Z.to_nat patchi + i)%nat = Some p
                    /\ rangeOf p = r /\ index_ p = patchi + Z.of_nat i
                    /\ name_ p = Keyword e)
    /\ (forall j, (j < Z.to_nat patchi)%nat -> us_patches st' !! j = us_patches st !! j).
Proof.
  induction es as [|e es IH]; intros patchi st rs Hpi H2 Hnn Hov Hch Hlen.
  - inversion H2; subst. exists st. cbn. repeat split; try reflexivity.
    intros i e r Hi. discriminate.
  - inversion H2 as [|? r ? rs' Hr H2']; subst.
    inversion Hnn as [|? ? Hnn1 Hnn']; subst. inversion Hov as [|? ? Hov1 Hov']; subst.
    destruct Hch as [Hhead Hch].
    destruct (updatePatch_ok patchi e st r Hr Hnn1 Hov1 Hhead)
      as (st1 & Hst1 & Hend1 & Hlen1 & Hat1 & Hother1).
    cbn [update_loop]. rewrite Hst1.
    destruct (IH (patchi + 1) st1 rs') as (st' & Hst' & Hlen' & Hat' & Hother');
      try assumption; [lia | rewrite Hend1; exact Hch | cbn in Hlen; lia |].
    exists st'. split; [exact Hst'|]. split; [lia|]. split.
    + intros [|i] e0 r0 He0 Hr0; cbn in He0, Hr0.
      * injection He0 as <-. injection Hr0 as <-.
        destruct (lookup_lt_is_Some_2 (us_patches st1) (Z.to_nat patchi)) as [p Hp];
          [cbn in Hlen; lia|].
        exists p. rewrite Nat.add_0_r, Z.add_0_r. rewrite Hother' by lia.
        split; [exact Hp|]. apply Hat1. exact Hp.
      * destruct (Hat' i e0 r0 He0 Hr0) as (p & Hp & Hrange & Hidx & Hname).
        exists p. replace (Z.to_nat patchi + S i)%nat with (Z.to_nat (patchi + 1) + i)%nat by lia.
        split; [exact Hp|]. split; [exact Hrange|]. split; [lia | exact Hname].
    + intros j Hj. rewrite Hother' by lia. apply Hother1. lia.
Qed.

Lemma update_loop_fails (es : list entry) : forall patchi st,
  0 <= us_endFace st \/ us_endFace st = -1 ->
  Forall noOverflow es ->
  ~ (exists rs, Forall2 (fun e r => patchRange e = Some r) es rs
                /\ Forall nonNegativeRange rs /\ chained (us_endFace st) rs) ->
  exists err st', update_loop es patchi st = inl (err, st') /\ err <> NoError.
Proof.
  induction es as [|e es IH]; intros patchi st Hend Hov Hno.
  - exfalso. apply Hno. exists []. repeat constructor.
  - inversion Hov as [|? ? Hov1 Hov']; subst. cbn [update_loop].
    destruct (patchRange e) as [r|] eqn:Hr.
    + destruct (decide (nonNegativeRange r /\ (us_endFace st < 0 \/ us_endFace st = r.1)))
        as [[Hnn Hhead]|Hbad].
      * destruct (updatePatch_ok patchi e st r Hr Hnn (Hov1 _ Hr) Hhead)
          as (st1 & -> & Hend1 & _).
        apply IH; [left; unfold nonNegativeRange in Hnn; lia | assumption |].
        intros (rs & H2 & Hnn' & Hch). apply Hno. exists (r :: rs).
        split; [constructor; assumption|]. split; [constructor; assumption|].
        cbn [chained]. rewrite <- Hend1. tauto.
      * destruct (updatePatch_fails patchi e st Hend) as (err & st' & -> & Herr); [|eauto].
        intros r' Hr'. rewrite Hr in Hr'. injection Hr' as <-. exact Hbad.
    + destruct (updatePatch_fails patchi e st Hend) as (err & st' & -> & Herr); [|eauto].
      intros r' Hr'. rewrite Hr in Hr'. discriminate.
Qed.

Lemma ranges_decidable (es : list entry) : forall endFace,
  (exists rs, Forall2 (fun e r => patchRange e = Some r) es rs
              /\ Forall nonNegativeRange rs /\ chained endFace rs)
  \/ ~ (exists rs, Forall2 (fun e r => patchRange e = Some r) es rs
                   /\ Forall nonNegativeRange rs /\ chained endFace rs).
Proof.
  induction es as [|e es IH]; intros endFace.
  - left. exists []. repeat constructor.
  - destruct (patchRange e) as [r|] eqn:Hr.
    2:{ right. intros (rs & H2 & _). inversion H2; subst. congruence. }
    destruct (decide (nonNegativeRange r /\ (endFace < 0 \/ endFace = r.1))) as [[Hnn Hh]|Hbad].
    2:{ right. intros (rs & H2 & Hnn & Hch). inversion H2 as [|? r' ? rs' Hr' ?]; subst.
        rewrite Hr in Hr'. injection Hr' as <-. inversion Hnn; subst.
        destruct Hch as [Hh _]. apply Hbad. split; assumption. }
    destruct (IH (r.1 + r.2)) as [(rs & H2 & Hnn' & Hch)|Hno].
    + left. exists (r :: rs). split; [constructor; assumption|].
      split; [constructor; assumption|]. cbn [chained]. tauto.
    + right. intros (rs & H2 & Hnn' & Hch). inversion H2 as [|? r' ? rs' Hr' H2']; subst.
      rewrite Hr in Hr'. injection Hr' as <-. inversion Hnn'; subst.
      destruct Hch as [_ Hch]. apply Hno. exists rs'. tauto.
Qed.

(** X5: on a boundary dictionary whose entries are patch dictionaries and
    whose declared ranges keep [startFace + nFaces] within the signed 64-bit
    integers, [update] returns true exactly when every patch provides
    [type], [startFace] and [nFaces], no [startFace] or [nFaces] is negative,
    and each patch starts where the one before it ends.  The collection then
    holds the patches in order, with these ranges, and no error; otherwise,
    so with any gap or overlap, [update] returns false and the collection
    carries an error. *)
Theorem update_spec (d : dict) :
  Forall holdsDictionary (entries d) -> Forall noOverflow (entries d) ->
  let '(ok, b) := update d in
  (ok = true <->
     exists rs, Forall2 (fun e r => patchRange e = Some r) (entries d) rs
                /\ Forall nonNegativeRange rs /\ contiguousRanges rs)
  /\ (ok = true ->
        error_ b = NoError
        /\ Forall2 (fun e p => patchRange e = Some (rangeOf p) /\ name_ p = Keyword e)
             (entries d) (patches b)
        /\ (forall (i : nat) p, patches b !! i = Some p -> index_ p = Z.of_nat i)
        /\ contiguousRanges (rangeOf <$> patches b))
  /\ (ok = false -> error_ b <> NoError).
Proof.
  intros _ Hov. unfold update.
  set (st0 := mkUpdateState (replicate (length (entries d)) defaultPatch) ∅ (-1) 0).
  assert (Hequiv : forall rs, Forall nonNegativeRange rs ->
                     chained (-1) rs <-> contiguousRanges rs).
  { intros rs Hnn. rewrite chained_contiguous by assumption. split; [tauto|].
    intros H. split; [intros; lia | exact H]. }
  destruct (ranges_decidable (entries d) (-1)) as [(rs & H2 & Hnn & Hch)|Hno].
  - assert (Hovr : Forall (fun r => r.1 + r.2 <= VTK_TYPE_INT64_MAX) rs).
    { clear Hch Hnn. induction H2 as [|e r es rs' Hr _ IH]; [constructor|].
      inversion Hov; subst. constructor; [auto | apply IH; assumption]. }
    destruct (update_loop_ok (entries d) 0 st0 rs ltac:(lia) H2 Hnn Hovr Hch)
      as (st' & -> & Hlen & Hat & _).
    { cbn. rewrite length_replicate. lia. }
    cbn [us_patches st0] in Hlen. rewrite length_replicate in Hlen.
    cbn [patches error_]. split; [|split; [|discriminate]].
    { split; [|reflexivity]. intros _. exists rs. rewrite <- Hequiv by assumption. tauto. }
    intros _. split; [reflexivity|].
    assert (Hps : Forall2 (fun (e : entry) p => patchRange e = Some (rangeOf p)
                                            /\ name_ p = Keyword e)
                    (entries d) (us_patches st')
                  /\ rangeOf <$> us_patches st' = rs
                  /\ forall (i : nat) p, us_patches st' !! i = Some p -> index_ p = Z.of_nat i).
    { assert (Hlrs : length rs = length (entries d)) by (symmetry; eapply Forall2_length, H2).
      split; [|split].
      - apply Forall2_same_length_lookup_2; [lia|].
        intros i e p He Hp.
        destruct (lookup_lt_is_Some_2 rs i) as [r Hr]; [apply lookup_lt_Some in He; lia|].
        destruct (Hat i e r He Hr) as (p' & Hp' & Hrange & _ & Hname).
        change (Z.to_nat 0 + i)%nat with i in Hp'. rewrite Hp in Hp'. injection Hp' as <-.
        rewrite Hrange. split; [|exact Hname].
        eapply (Forall2_lookup_lr _ _ _ _ _ _ H2 He Hr).
      - apply list_eq_same_length with (length rs); [reflexivity | rewrite length_fmap; lia|].
        intros i x y Hi Hx Hy. rewrite list_lookup_fmap in Hx.
        destruct (us_patches st' !! i) as [p|] eqn:Hp; [|discriminate]. injection Hx as <-.
        destruct (lookup_lt_is_Some_2 (entries d) i) as [e He]; [lia|].
        destruct (Hat i e y He Hy) as (p' & Hp' & Hrange & _).
        change (Z.to_nat 0 + i)%nat with i in Hp'. rewrite Hp in Hp'. injection Hp' as <-. exact Hrange.
      - intros i p Hp.
        destruct (lookup_lt_is_Some_2 (entries d) i) as [e He];
          [apply lookup_lt_Some in Hp; lia|].
        destruct (lookup_lt_is_Some_2 rs i) as [r Hr]; [apply lookup_lt_Some in He; lia|].
        destruct (Hat i e r He Hr) as (p' & Hp' & _ & Hidx & _).
        change (Z.to_nat 0 + i)%nat with i in Hp'. rewrite Hp in Hp'. injection Hp' as <-. lia. }
    destruct Hps as (Hf2 & Hmap & Hidx).
    split; [exact Hf2|]. split; [exact Hidx|]. rewrite Hmap. apply Hequiv; assumption.
  - destruct (update_loop_fails (entries d) 0 st0 ltac:(right; reflexivity) Hov Hno)
      as (err & st' & -> & Herr).
    cbn [error_]. split; [|split; [discriminate | intros _; exact Herr]].
    split; [discriminate|]. intros (rs & H2 & Hnn & Hcont). exfalso. apply Hno.
    exists rs. rewrite Hequiv by assumption. tauto.
Qed.

End UpdateFacts.

(** Scenario 3, the two patches that touch. *)
Lemma update_spec_witness :
  Forall holdsDictionary (entries twoPatches)
  /\ Forall noOverflow (entries twoPatches)
  /\ let '(ok, b) := update twoPatches in
     (ok = true <->
        exists rs, Forall2 (fun e r => patchRange e = Some r) (entries twoPatches) rs
                   /\ Forall nonNegativeRange rs /\ contiguousRanges rs)
     /\ (ok = true ->
           error_ b = NoError
           /\ Forall2 (fun e p => patchRange e = Some (rangeOf p) /\ name_ p = Keyword e)
                (entries twoPatches) (patches b)
           /\ (forall (i : nat) p, patches b !! i = Some p -> index_ p = Z.of_nat i)
           /\ contiguousRanges (rangeOf <$> patches b))
     /\ (ok = false -> error_ b <> NoError).
Proof.
  assert (H1 : Forall holdsDictionary (entries twoPatches))
    by (repeat constructor; eexists _, _, _; reflexivity).
  assert (H2 : Forall noOverflow (entries twoPatches)).
  { repeat constructor; intros r Hr; vm_compute in Hr; injection Hr as <-;
      vm_compute; congruence. }
  split; [exact H1|]. split; [exact H2|].
  exact (update_spec twoPatches H1 H2).
Defined.

(** C3: a gap between two patches is not always an error.  The first
    patch of this boundary dictionary declares the one face
    9223372036854775807, so its end face [start_ + size_] wraps to a negative
    number; the test [endFace >= 0 && endFace != patch.start_] then takes the
    second patch, which starts at face 5, for the first one and skips the
    comparison.  [update] returns true, reports no error, and the collection
    holds two patches whose ranges do not touch. *)
Theorem update_accepts_gap_after_overflow :
  let '(ok, b) := update gapAfterOverflow in
  ok = true
  /\ error_ b = NoError
  /\ rangeOf <$> patches b = [(9223372036854775807, 1); (5, 1)]
  /\ Forall nonNegativeRange (rangeOf <$> patches b)
  /\ ~ contiguousRanges (rangeOf <$> patches b)
  /\ (endFace <$> patches b) !! 0%nat = Some (-9223372036854775808).
Proof.
  vm_compute. repeat split; try congruence.
  - repeat constructor; cbn; congruence.
  - intros H. specialize (H 0%nat _ _ eq_refl eq_refl). cbn in H. congruence.
Qed.

(** ** vtkFoamDict::Lookup *)

Section LookupFacts.
Context {double float : Type} (rexMatchesAll : string -> string -> bool).
Local Abbreviation entry := (vtkFoamEntry double float).
Local Abbreviation dict := (vtkFoamDict double float).

Lemma Lookup_loop_exact (es : list entry) keyword regex : forall (k : nat) e i lastMatch,
  es !! k = Some e -> Keyword e = keyword ->
  (forall (j : nat) e', (j < k)%nat -> es !! j = Some e' -> Keyword e' <> keyword) ->
  Lookup_loop rexMatchesAll es i keyword regex lastMatch = inl e.
Proof.
  induction es as [|e0 es IH]; intros k e i lastMatch Hk He Hbefore; [discriminate|].
  cbn [Lookup_loop]. destruct k as [|k]; cbn in Hk.
  - injection Hk as ->. rewrite He, String.eqb_refl. reflexivity.
  - assert (Hne : Keyword e0 <> keyword) by (apply (Hbefore 0%nat); [lia | reflexivity]).
    apply String.eqb_neq in Hne. rewrite Hne.
    assert (Hrest : forall (j : nat) e', (j < k)%nat -> es !! j = Some e' -> Keyword e' <> keyword).
    { intros j e' Hj Hj'. apply (Hbefore (S j)); [lia | exact Hj']. }
    destruct (regex && rexMatchesAll (Keyword e0) keyword); eapply IH; eassumption.
Qed.

Lemma Lookup_loop_none (es : list entry) keyword regex : forall i lastMatch,
  (forall e, e ∈ es -> Keyword e <> keyword) ->
  (regex = false \/ forall e, e ∈ es -> rexMatchesAll (Keyword e) keyword = false) ->
  Lookup_loop rexMatchesAll es i keyword regex lastMatch = inr lastMatch.
Proof.
  induction es as [|e0 es IH]; intros i lastMatch Hne Hno; [reflexivity|].
  cbn [Lookup_loop].
  assert (H0 : Keyword e0 <> keyword) by (apply Hne; constructor).
  apply String.eqb_neq in H0. rewrite H0.
  assert (Hc : regex && rexMatchesAll (Keyword e0) keyword = false).
  { destruct Hno as [->|Hno]; [reflexivity|]. rewrite Hno by constructor. apply andb_false_r. }
  rewrite Hc. apply IH.
  - intros e He. apply Hne. by constructor.
  - destruct Hno as [Hno|Hno]; [left; exact Hno | right]. intros e He. apply Hno. by constructor.
Qed.

Lemma Lookup_loop_last (es : list entry) keyword : forall (k : nat) e i lastMatch,
  (forall e, e ∈ es -> Keyword e <> keyword) ->
  es !! k = Some e -> rexMatchesAll (Keyword e) keyword = true ->
  (forall (j : nat) e', (k < j)%nat -> es !! j = Some e' ->
     rexMatchesAll (Keyword e') keyword = false) ->
  Lookup_loop rexMatchesAll es i keyword true lastMatch = inr (wrap32 (i + Z.of_nat k)).
Proof.
  induction es as [|e0 es IH]; intros k e i lastMatch Hne Hk Hm Hafter; [discriminate|].
  cbn [Lookup_loop].
  assert (H0 : Keyword e0 <> keyword) by (apply Hne; constructor).
  apply String.eqb_neq in H0. rewrite H0.
  assert (Hne' : forall e, e ∈ es -> Keyword e <> keyword).
  { intros e' He'. apply Hne. by constructor. }
  destruct k as [|k]; cbn in Hk.
  - injection Hk as ->. rewrite Hm. cbn [andb]. rewrite Lookup_loop_none.
    + f_equal. f_equal. lia.
    + exact Hne'.
    + right. intros e' He'. apply list_elem_of_lookup in He'. destruct He' as [j Hj].
      apply (Hafter (S j)); [lia | exact Hj].
  - replace (i + Z.of_nat (S k)) with (i + 1 + Z.of_nat k) by lia.
    assert (Hafter' : forall (j : nat) e', (k < j)%nat -> es !! j = Some e' ->
                        rexMatchesAll (Keyword e') keyword = false).
    { intros j e' Hj Hj'. apply (Hafter (S j)); [lia | exact Hj']. }
    destruct (true && rexMatchesAll (Keyword e0) keyword); eapply IH; eassumption.
Qed.


End LookupFacts.


(** ** ReadLabelListList *)

(** Sub-lists written with their size come out as written. *)
Lemma ReadLabelListList_sized garbage :
  exists lll io',
    ReadLabelListList garbage sizedListList = inr (lll, io')
    /\ GetNumberOfElements lll = 2
    /\ GetCell lll 0 = [7; 8; 9] /\ GetCell lll 1 = [4; 5].
Proof. eexists _, _. split; [vm_compute; reflexivity|]. vm_compute. auto. Qed.

(** C2: a sub-list written without its size does not come out as written.
    Each label read by the [while] loop advances [nTotalElems] twice, so the
    sub-list [(7 8)] of [1((7 8))] gets size 4 and holds 7 and 8 in its slots
    0 and 2; slots 1 and 3 keep what the array held before, whatever that
    was.  The number of sub-lists is still the written one. *)
Theorem ReadLabelListList_delimited_skips_slots garbage :
  exists lll io',
    ReadLabelListList garbage delimitedListList = inr (lll, io')
    /\ GetNumberOfElements lll = 1
    /\ GetSize lll 0 = 4
    /\ GetCell lll 0 = [7; garbage 1%nat; 8; garbage 3%nat].
Proof. eexists _, _. split; [vm_compute; reflexivity|]. vm_compute. auto. Qed.

(** Every label of a sub-list written without its size moves the count of
    the elements by two. *)
Lemma readDelimitedSublist_counts_twice {double : Type} garbage (labels : list Z)
    (rest : list (vtkFoamToken double)) lll nTotalElems :
  exists lll',
    readDelimitedSublist garbage
      ((TLabel <$> labels) ++ TPunctuation chClose :: rest) lll nTotalElems
    = inr (lll', nTotalElems + 2 * Z.of_nat (length labels), rest)
    /\ Offsets lll' = Offsets lll.
Proof.
  revert lll nTotalElems. induction labels as [|v labels IH]; intros lll nTotalElems.
  - exists lll. split; [|reflexivity].
    replace (nTotalElems + 2 * Z.of_nat (length (@nil Z))) with nTotalElems
      by (cbn [length]; lia).
    reflexivity.
  - cbn [fmap list_fmap app readDelimitedSublist Token_eq_char].
    destruct (IH (LLL_InsertValue garbage lll nTotalElems (wrap32 v)) (nTotalElems + 1 + 1))
      as (lll' & -> & Hoff).
    exists lll'. split; [|exact Hoff].
    replace (nTotalElems + 2 * Z.of_nat (length (v :: labels)))
      with (nTotalElems + 1 + 1 + 2 * Z.of_nat (length labels)) by (cbn [length]; lia).
    reflexivity.
Qed.

(** ** whichPatch *)

(** C4: on the validated collection of the two patches [{start:0,size:10}]
    and [{start:10,size:5}], [whichPatch] does not return the index of the
    patch holding the face.  Face 3 lies in patch 0 and the search answers 1;
    face 12 lies in patch 1 and the search answers -1, as it does for face 15
    beyond the last patch. *)
Theorem whichPatch_names_the_next_patch :
  let '(ok, b) := update twoPatches in
  ok = true
  /\ (exists p, patches b !! 0%nat = Some p /\ index_ p = 0 /\ patchHolds p 3)
  /\ whichPatch (patches b) 3 = 1
  /\ (exists p, patches b !! 1%nat = Some p /\ index_ p = 1 /\ patchHolds p 12)
  /\ whichPatch (patches b) 12 = -1
  /\ whichPatch (patches b) 15 = -1.
Proof.
  vm_compute. repeat split; try congruence.
  - eexists. repeat split; congruence.
  - eexists. repeat split; congruence.
Qed.

(** ** vtkFoamEntry::Read: a label [0] before an empty list *)

(** C6: the entry [0 nonuniform 0();] is normalized.  It is read as one
    value, the empty list, exactly as the entry [0();] is: the label [0] is
    folded into the EMPTYLIST that [nonuniform 0()] gives.  After the list
    type [List<scalar>] the list [0()] is read as a scalar list, whose type
    is not EMPTYLIST. *)
Lemma Entry_Read_zero_nonuniform_is_folded :
  sampleEntryRead [tLabel 0; tWord "nonuniform"; tLabel 0; tOpen; tClose; tSemicolon]
  = inr ([mkEntryValue false DEmptyList], asciiStream [])
  /\ sampleEntryRead [tLabel 0; tOpen; tClose; tSemicolon]
     = inr ([mkEntryValue false DEmptyList], asciiStream [])
  /\ sampleEntryRead [tWord "nonuniform"; tWord "List<scalar>"; tLabel 0; tOpen; tClose;
                      tSemicolon]
     = inr ([mkEntryValue false (DScalarList [])], asciiStream [])
  /\ GetType (mkEntryValue false (@DScalarList Q Q [])) <> EMPTYLIST.
Proof. repeat split; try reflexivity. discriminate. Qed.

Section EntryReadFacts.

Context {double float : Type}.
Context (toFloat : double -> float) (intToDouble : Z -> double) (intToFloat : Z -> float).
Context (ReadDictionary : vtkFoamToken double -> @vtkFoamIOobject double ->
           Result (vtkFoamDict double float * @vtkFoamIOobject double)).
Context (ReadDimensionSet : @vtkFoamIOobject double ->
           Result (vtkFoamData double float * @vtkFoamIOobject double)).
Context (ReadListFrom : vtkFoamToken double -> @vtkFoamIOobject double ->
           Result (vtkFoamData double float * @vtkFoamIOobject double)).
Context (zero : float).

Local Abbreviation read :=
  (Entry_Read toFloat intToDouble intToFloat ReadDictionary ReadDimensionSet ReadListFrom
     zero).
Local Abbreviation lab := (@TLabel double).
Local Abbreviation word := (@TString double).
Local Abbreviation punct := (@TPunctuation double).

(** The fold itself, at the back of any sequence of values. *)
Lemma normalizeBack_zero_empty io (vs : list (vtkFoamEntryValue double float)) u u' :
  normalizeBack toFloat intToFloat zero io
    (vs ++ [mkEntryValue u (DToken (TLabel 0)); mkEntryValue u' DEmptyList])
  = vs ++ [mkEntryValue false DEmptyList].
Proof.
  unfold normalizeBack. rewrite rev_app_distr. cbn.
  unfold remove_back.
  rewrite (removelast_app vs) by discriminate. cbn.
  rewrite (removelast_app vs) by discriminate. cbn.
  rewrite List.app_nil_r. reflexivity.
Qed.

(** Whatever the readers of dictionaries, dimension sets and non-empty
    lists do, and whatever follows the terminating [;], the entries [0()],
    [nonuniform 0()] and [0 nonuniform 0()] are each read as the single value
    EMPTYLIST: a label [0] directly before an empty list is folded into it,
    also when the empty list was written [nonuniform 0()].  With a list type
    before it, as in [nonuniform List<scalar> 0()] or [List<scalar> 0()], the
    value is a scalar list of no elements and not EMPTYLIST. *)
Theorem Entry_Read_empty_list uppers rest l64 :
  let io ts := mkIO (ts ++ punct chSemicolon :: rest) l64 true in
  let after := mkIO rest l64 true in
  read uppers (io [lab 0; punct chOpen; punct chClose])
    = inr ([mkEntryValue false DEmptyList], after)
  /\ read uppers (io [word "nonuniform"; lab 0; punct chOpen; punct chClose])
    = inr ([mkEntryValue false DEmptyList], after)
  /\ read uppers (io [lab 0; word "nonuniform"; lab 0; punct chOpen; punct chClose])
    = inr ([mkEntryValue false DEmptyList], after)
  /\ read uppers (io [word "nonuniform"; word "List<scalar>"; lab 0; punct chOpen; punct chClose])
    = inr ([mkEntryValue false (DScalarList [])], after)
  /\ read uppers (io [word "List<scalar>"; lab 0; punct chOpen; punct chClose])
    = inr ([mkEntryValue false (DScalarList [])], after).
Proof.
  cbn zeta. repeat split; reflexivity.
Qed.

End EntryReadFacts.

(** ** FillField *)

Section FillFieldFacts.
Context {double float : Type}.
Context (toFloat : double -> float) (intToDouble : Z -> double) (intToFloat : Z -> float).
Context (zero : float) (indeterminate : nat -> float).

Local Abbreviation fill := (FillField toFloat intToDouble intToFloat zero indeterminate).
Local Abbreviation written := (@writtenTuple double float toFloat intToDouble).

Lemma length_std_swap (data : list float) t i j :
  length (std_swap data t i j) = length data.
Proof.
  unfold std_swap.
  destruct (data !! Z.to_nat (t + i)), (data !! Z.to_nat (t + j));
    rewrite ?length_insert; reflexivity.
Qed.

Lemma std_swap_lookup (data : list float) t i j (p : nat) :
  (Z.to_nat (t + i) < length data)%nat -> (Z.to_nat (t + j) < length data)%nat ->
  std_swap data t i j !! p =
    if decide (p = Z.to_nat (t + i)) then data !! Z.to_nat (t + j)
    else if decide (p = Z.to_nat (t + j)) then data !! Z.to_nat (t + i)
    else data !! p.
Proof.
  intros Hi Hj. unfold std_swap.
  destruct (lookup_lt_is_Some_2 _ _ Hi) as [a Ha].
  destruct (lookup_lt_is_Some_2 _ _ Hj) as [b Hb].
  rewrite Ha, Hb.
  destruct (decide (p = Z.to_nat (t + i))) as [->|Hpi].
  - rewrite list_lookup_insert_eq by (rewrite length_insert; lia). reflexivity.
  - rewrite list_lookup_insert_ne by congruence.
    destruct (decide (p = Z.to_nat (t + j))) as [->|Hpj].
    + rewrite list_lookup_insert_eq by lia. reflexivity.
    + rewrite list_lookup_insert_ne by congruence. reflexivity.
Qed.

Lemma length_remapSymmTensor (data : list float) t :
  length (remapSymmTensor data t) = length data.
Proof. unfold remapSymmTensor. rewrite !length_std_swap. reflexivity. Qed.

(** The remap of the tuple at [t] reads, at the place VTK gives a component,
    what stood at the place OpenFOAM gives it. *)
Lemma remapSymmTensor_component (data : list float) t c :
  0 <= t -> t + 5 < Z.of_nat (length data) ->
  remapSymmTensor data t !! Z.to_nat (t + vtkIndex c) = data !! Z.to_nat (t + foamIndex c).
Proof.
  intros Ht Hlen. unfold remapSymmTensor.
  rewrite std_swap_lookup by (rewrite ?length_std_swap; lia).
  rewrite !std_swap_lookup by lia.
  destruct c; cbn [vtkIndex foamIndex];
    repeat (case_decide; try lia); reflexivity.
Qed.

(** It leaves everything outside the tuple alone. *)
Lemma remapSymmTensor_outside (data : list float) t (p : nat) :
  0 <= t -> t + 5 < Z.of_nat (length data) ->
  (Z.of_nat p < t \/ t + 6 <= Z.of_nat p) ->
  remapSymmTensor data t !! p = data !! p.
Proof.
  intros Ht Hlen Hp. unfold remapSymmTensor.
  rewrite std_swap_lookup by (rewrite ?length_std_swap; lia).
  rewrite !std_swap_lookup by lia.
  repeat (case_decide; try lia); reflexivity.
Qed.

Lemma forRange_succ {S : Type} (body : Z -> S -> S) (s : S) k :
  0 <= k -> forRange 0 (k + 1) body s = body k (forRange 0 k body s).
Proof.
  intros Hk. unfold forRange.
  replace (k + 1 - 0) with (k + 1) by lia.
  rewrite seqZ_app by lia. rewrite fold_left_app.
  replace (k - 0) with k by lia. reflexivity.
Qed.

Lemma forRange_empty {S : Type} (body : Z -> S -> S) (s : S) hi :
  hi <= 0 -> forRange 0 hi body s = s.
Proof.
  intros Hk. unfold forRange. replace (seqZ 0 (hi - 0)) with (@nil Z); [reflexivity|].
  symmetry. apply seqZ_nil. lia.
Qed.

(** The loop over the tuples of a nonuniform list, after [k] rounds. *)
Lemma remap_loop (orig : list float) k :
  0 <= k -> 6 * k <= Z.of_nat (length orig) ->
  let data := forRange 0 k (fun tuplei values => remapSymmTensor values (6 * tuplei)) orig in
  length data = length orig
  /\ (forall i c, 0 <= i < k ->
        data !! Z.to_nat (6 * i + vtkIndex c) = orig !! Z.to_nat (6 * i + foamIndex c))
  /\ (forall p : nat, 6 * k <= Z.of_nat p -> data !! p = orig !! p).
Proof.
  intros Hk. pattern k. revert Hk. apply natlike_ind.
  - intros _. cbn zeta. rewrite forRange_empty by lia.
    repeat split; intros; try reflexivity. lia.
  - intros x Hx IH Hlen. cbn zeta.
    unfold Z.succ. rewrite forRange_succ by lia.
    destruct IH as (IHlen & IHin & IHout); [lia|].
    set (data := forRange 0 x _ orig) in *.
    split; [rewrite length_remapSymmTensor; exact IHlen|]. split.
    + intros i c Hi. destruct (decide (i = x)) as [->|Hne].
      * rewrite remapSymmTensor_component by lia.
        apply IHout. destruct c; cbn; lia.
      * rewrite remapSymmTensor_outside; [apply IHin; lia|lia|lia|].
        left. destruct c; cbn; lia.
    + intros p Hp. rewrite remapSymmTensor_outside by lia. apply IHout. lia.
Qed.

(** The loop that fills a uniform field, after [k] rounds. *)
Lemma fill_loop (tuple : list float) n k :
  0 <= k <= n -> 6 <= Z.of_nat (length tuple) ->
  let data := forRange 0 k (fun i data => SetTuple data i tuple)
                (newFloatArray indeterminate 6 n) in
  NumberOfComponents data = 6
  /\ length (FloatValues data) = Z.to_nat (6 * n)
  /\ (forall i c, 0 <= i < k -> 0 <= c < 6 ->
        FloatValues data !! Z.to_nat (6 * i + c) = tuple !! Z.to_nat c).
Proof.
  intros [Hk Hkn]. revert Hkn. pattern k. revert Hk. apply natlike_ind.
  - intros _ _. cbn zeta. rewrite forRange_empty by lia. cbn.
    rewrite length_fmap, length_seq. repeat split; intros; lia.
  - intros x Hx IH Hxn Hlen. cbn zeta.
    unfold Z.succ. rewrite forRange_succ by lia.
    destruct IH as (IHn & IHlen & IHin); [lia|lia|].
    set (data := forRange 0 x _ _) in *.
    unfold SetTuple. rewrite IHn. cbn [NumberOfComponents FloatValues].
    split; [reflexivity|]. split; [rewrite length_inserts; exact IHlen|].
    intros i c Hi Hc.
    assert (Htake : length (take (Z.to_nat 6) tuple) = 6%nat)
      by (rewrite length_take; lia).
    destruct (decide (i = x)) as [->|Hne].
    + rewrite list_lookup_inserts by lia.
      rewrite lookup_take_lt by lia. f_equal. lia.
    + rewrite list_lookup_inserts_lt by lia. apply IHin; lia.
Qed.

Lemma wrap32_of_length_6 (n : nat) : wrap32 (Z.of_nat n) = 6 -> (6 <= n)%nat.
Proof.
  unfold wrap32, wrap. intros H.
  destruct (Z_lt_le_dec (Z.of_nat n) 6) as [Hlt|]; [|lia].
  exfalso. revert H. cbn -[Z.modulo Z.add Z.sub Z.of_nat].
  rewrite Z.mod_small by lia. lia.
Qed.


Lemma fill_components (tuple : list float) (l : list Z) (a : vtkFloatArray) :
  NumberOfComponents (fold_left (fun data i => SetTuple data i tuple) l a)
  = NumberOfComponents a.
Proof.
  revert a. induction l as [|i l IH]; intros a; [reflexivity|].
  cbn [fold_left]. rewrite IH. reflexivity.
Qed.

Lemma six_components dtype : GetNumberOfComponents dtype = 6 -> dtype = SYMM_TENSOR_TYPE.
Proof. destruct dtype; cbn; intros H; try discriminate H; reflexivity. Qed.

(** What a uniform field is filled with. *)
Lemma fill_uniform (tuple : list float) n i c :
  wrap32 (Z.of_nat (length tuple)) = 6 ->
  let data := forRange 0 n (fun i data => SetTuple data i (remapSymmTensor tuple 0))
                (newFloatArray indeterminate 6 n) in
  0 <= i < Float_GetNumberOfTuples data ->
  NumberOfComponents data = 6
  /\ GetComponent data i (vtkIndex c) = tuple !! Z.to_nat (foamIndex c).
Proof.
  intros Hlen data Hi.
  apply wrap32_of_length_6 in Hlen.
  destruct (Z_le_gt_dec n 0) as [Hn|Hn].
  { exfalso. subst data. rewrite forRange_empty in Hi by lia.
    unfold Float_GetNumberOfTuples, newFloatArray in Hi. cbn in Hi.
    rewrite length_fmap, length_seq in Hi.
    replace (Z.to_nat (6 * n)) with 0%nat in Hi by lia. change (Z.of_nat 0 / 6) with 0 in Hi. lia. }
  destruct (fill_loop (remapSymmTensor tuple 0) n n) as (Hc & Hl & Hin);
    [lia|rewrite length_remapSymmTensor; lia|].
  fold data in Hc, Hl, Hin.
  split; [exact Hc|].
  unfold Float_GetNumberOfTuples in Hi. rewrite Hc, Hl in Hi.
  assert (Hi' : 0 <= i < n).
  { replace (Z.of_nat (Z.to_nat (6 * n))) with (n * 6) in Hi by lia.
    rewrite Z.div_mul in Hi by lia. exact Hi. }
  unfold GetComponent. rewrite Hc.
  rewrite Hin by (destruct c; cbn; lia).
  replace (Z.to_nat (vtkIndex c)) with (Z.to_nat (0 + vtkIndex c)) by (f_equal; lia).
  rewrite remapSymmTensor_component by lia.
  f_equal.
Qed.

(** C8: every tuple of six components that [FillField] returns is the tuple
    it was given with the components remapped: at the place VTK gives a
    component of a symmetric tensor stands the value written at the place
    OpenFOAM gives it, (XX,XY,XZ,YY,YZ,ZZ) becoming (XX,YY,ZZ,XY,YZ,XZ).
    This holds for the one tuple of a uniform field and for each tuple of a
    nonuniform one, and both kinds of symmTensor field do get their array.
    The remap, [swap(tuple[1], tuple[3]); swap(tuple[2], tuple[5])], applied
    twice to a tuple of six gives the tuple back. *)
Theorem FillField_remaps_symmTensor :
  (forall entry nElements fieldDataType data i c,
      fill entry nElements fieldDataType = Some data ->
      NumberOfComponents data = 6 -> 0 <= i < Float_GetNumberOfTuples data ->
      is_Some (GetComponent data i (vtkIndex c))
      /\ GetComponent data i (vtkIndex c) = written entry i !! Z.to_nat (foamIndex c))
  /\ (forall keyword rest (tuple : list float) nElements,
        length tuple = 6%nat -> 0 <= nElements ->
        exists data,
          fill (mkEntry keyword (mkEntryValue true (DScalarList tuple) :: rest))
               nElements SYMM_TENSOR_TYPE = Some data
          /\ NumberOfComponents data = 6 /\ Float_GetNumberOfTuples data = nElements)
  /\ (forall keyword rest (l : list float) nElements,
        Z.of_nat (length l) = 6 * nElements ->
        exists data,
          fill (mkEntry keyword (mkEntryValue false (DVectorList 6 l) :: rest))
               nElements SYMM_TENSOR_TYPE = Some data
          /\ NumberOfComponents data = 6 /\ Float_GetNumberOfTuples data = nElements)
  /\ (forall tuple : list float,
        length tuple = 6%nat -> remapSymmTensor (remapSymmTensor tuple 0) 0 = tuple).
Proof.
  split; [|split; [|split]].
  - intros [keyword vs] nElements fieldDataType data i c Hfill Hsix Hi.
    assert (Hsome : forall x y : option float, (x = y -> is_Some y -> is_Some x /\ x = y)).
    { intros x y -> Hy. split; [exact Hy|reflexivity]. }
    unfold FillField, writtenTuple in *. cbn [values] in *.
    destruct vs as [|[uniform d] rest]; [discriminate|].
    cbn [IsUniform GetType dataOf] in *.
    destruct uniform.
    + (* uniform *)
      destruct d as [t| |ll|sl| | | | | |]; cbn [Data_GetType] in Hfill;
        try (cbn in Hfill; discriminate Hfill).
      * destruct t; cbn in Hfill; try discriminate Hfill;
          injection Hfill as <-; cbn in Hsix; discriminate Hsix.
      * cbn [tokenType_eqb orb] in Hfill.
        destruct (9 <? _); [discriminate|].
        destruct (_ && _) eqn:Hcheck; [|discriminate].
        injection Hfill as <-.
        apply andb_true_iff in Hcheck as [Hn _]. apply Z.eqb_eq in Hn.
        set (tuple := (fun v => toFloat (intToDouble v)) <$> Values ll) in *.
        assert (Hw : wrap32 (Z.of_nat (length tuple)) = wrap32 (Z.of_nat (length (Values ll))))
          by (unfold tuple; rewrite length_fmap; reflexivity).
        destruct (Z.eqb_spec (wrap32 (Z.of_nat (length (Values ll)))) 6) as [H6|H6].
        -- rewrite H6 in *.
           destruct (fill_uniform tuple nElements i c) as [_ Hget]; [lia|exact Hi|].
           apply Hsome; [exact Hget|].
           apply lookup_lt_is_Some_2. apply wrap32_of_length_6 in H6.
           unfold tuple. rewrite length_fmap. destruct c; cbn; lia.
        -- exfalso. unfold forRange in Hsix. rewrite fill_components in Hsix.
           cbn in Hsix. congruence.
      * cbn [tokenType_eqb orb] in Hfill.
        destruct (_ && _) eqn:Hcheck; [|discriminate].
        injection Hfill as <-.
        apply andb_true_iff in Hcheck as [Hn _]. apply Z.eqb_eq in Hn.
        destruct (Z.eqb_spec (wrap32 (Z.of_nat (length sl))) 6) as [H6|H6].
        -- rewrite H6 in *.
           destruct (fill_uniform sl nElements i c) as [_ Hget]; [lia|exact Hi|].
           apply Hsome; [exact Hget|].
           apply lookup_lt_is_Some_2. apply wrap32_of_length_6 in H6.
           destruct c; cbn; lia.
        -- exfalso. unfold forRange in Hsix. rewrite fill_components in Hsix.
           cbn in Hsix. congruence.
    + (* nonuniform *)
      destruct d as [t| | |sl|n l| | | | |]; cbn [Data_GetType] in Hfill;
        try (cbn in Hfill; discriminate Hfill).
      * destruct t; cbn in Hfill; discriminate Hfill.
      * cbn [tokenType_eqb andb orb ScalarList dataOf NumberOfComponents] in Hfill.
        destruct (IsScalar fieldDataType); cbn in Hfill; [|discriminate].
        destruct (negb _); [discriminate|].
        injection Hfill as <-. cbn in Hsix. discriminate.
      * cbn [tokenType_eqb andb orb ScalarList dataOf NumberOfComponents FloatValues] in Hfill.
        destruct (IsVectorSpace fieldDataType); cbn [orb] in Hfill; [|discriminate].
        destruct (negb _); [discriminate|].
        destruct (Z.eqb_spec n 6) as [->|Hn];
          [|injection Hfill as <-; cbn in Hsix; congruence].
        injection Hfill as <-.
        unfold Float_GetNumberOfTuples in *.
        cbn [NumberOfComponents FloatValues] in *.
        pose proof (Z.mul_div_le (Z.of_nat (length l)) 6 ltac:(lia)) as Hle.
        pose proof (Z.div_pos (Z.of_nat (length l)) 6 ltac:(lia) ltac:(lia)) as Hpos.
        destruct (remap_loop l (Z.of_nat (length l) / 6)) as (Hlen & Hin & _); [lia|lia|].
        cbn zeta in Hlen, Hin. rewrite Hlen in Hi.
        unfold GetComponent. cbn [NumberOfComponents FloatValues].
        apply Hsome.
        -- rewrite Hin by lia.
           rewrite lookup_take_lt by (destruct c; cbn; lia).
           rewrite lookup_drop. f_equal. destruct c; cbn; lia.
        -- apply lookup_lt_is_Some_2.
           rewrite length_take, length_drop. destruct c; cbn; lia.
      * cbn in Hfill. destruct (nElements <=? 0); [|discriminate].
        injection Hfill as <-. unfold Float_GetNumberOfTuples in Hi. cbn in Hi.
        rewrite Z.div_0_l in Hi; [lia|].
        destruct (0 <? _) eqn:E; [apply Z.ltb_lt in E; lia|lia].
  - intros keyword rest tuple n Hlen Hn.
    unfold FillField. cbn [values IsUniform GetType dataOf Data_GetType tokenType_eqb orb].
    rewrite Hlen. change (wrap32 (Z.of_nat 6)) with 6.
    cbn [GetNumberOfComponents IsVectorSpace dataTypeValue Z.eqb Z.land Pos.eqb Pos.land
         andb orb Z.ltb Z.compare Pos.compare Pos.compare_cont].
    eexists. split; [reflexivity|].
    destruct (fill_loop (remapSymmTensor tuple 0) n n) as (Hc & Hl & _);
      [lia|rewrite length_remapSymmTensor; lia|].
    cbn zeta in Hc, Hl. change (6 =? 6) with true. cbn iota.
    split; [exact Hc|].
    unfold Float_GetNumberOfTuples. rewrite Hc, Hl.
    replace (Z.of_nat (Z.to_nat (6 * n))) with (n * 6) by lia.
    apply Z.div_mul. lia.
  - intros keyword rest l n Hlen.
    unfold FillField.
    cbn [values IsUniform GetType dataOf Data_GetType tokenType_eqb orb andb ScalarList
         NumberOfComponents FloatValues].
    unfold Float_GetNumberOfTuples. cbn [NumberOfComponents FloatValues].
    assert (Hdiv : Z.of_nat (length l) / 6 = n)
      by (rewrite Hlen, Z.mul_comm; apply Z.div_mul; lia).
    rewrite Hdiv. rewrite Z.eqb_refl.
    cbn [IsVectorSpace GetNumberOfComponents dataTypeValue Z.eqb Z.land Pos.eqb Pos.land
         andb orb negb Z.ltb Z.compare Pos.compare Pos.compare_cont].
    eexists. split; [reflexivity|]. split; [reflexivity|].
    cbn [NumberOfComponents FloatValues].
    destruct (remap_loop l n) as (Hl & _); [lia|lia|].
    cbn zeta in Hl. rewrite Hl. exact Hdiv.
  - intros tuple Hlen.
    do 7 (destruct tuple as [|? tuple]; try discriminate Hlen). reflexivity.
Qed.

End FillFieldFacts.

(** The second tuple of the nonuniform sample: its XY component, written
    second, is read fourth. *)
Lemma FillField_remaps_symmTensor_witness :
  let fill := FillField (fun q : Q => q) inject_Z inject_Z 0%Q (fun _ => 0%Q) in
  exists data,
    fill nonuniformSymmTensor 2 SYMM_TENSOR_TYPE = Some data
    /\ NumberOfComponents data = 6
    /\ 0 <= 1 < Float_GetNumberOfTuples data
    /\ is_Some (GetComponent data 1 (vtkIndex XY))
    /\ GetComponent data 1 (vtkIndex XY)
       = writtenTuple (fun q : Q => q) inject_Z nonuniformSymmTensor 1
           !! Z.to_nat (foamIndex XY).
Proof.
  eexists. split; [reflexivity|]. split; [reflexivity|].
  split; [vm_compute; split; congruence|].
  apply (proj1 (FillField_remaps_symmTensor (fun q : Q => q) inject_Z inject_Z 0%Q
                  (fun _ => 0%Q)) nonuniformSymmTensor 2 SYMM_TENSOR_TYPE).
  - reflexivity.
  - reflexivity.
  - vm_compute. split; congruence.
Defined.

(** ** InsertCellsToGrid *)

Lemma length_GetCell (l : vtkFoamLabelListList) (i : Z) :
  length (GetCell l i) = Z.to_nat (GetSize l i).
Proof. unfold GetCell, GetSize. rewrite length_map, length_seqZ. reflexivity. Qed.

Section InsertCellsFacts.

Context (stale : nat -> Z) (garbage : nat -> Z).
Context (FaceOwner : vtkLabelArray) (this_NumCells : Z).
Context (meshCells meshFaces : vtkFoamLabelListList).
Context (decompose : Z -> list Z -> GridState -> GridState).

Local Abbreviation hexSearch' := (hexSearch stale FaceOwner meshFaces).
Local Abbreviation hexBase' := (hexBase stale FaceOwner meshFaces).
Local Abbreviation isOwner' := (isOwner FaceOwner).
Local Abbreviation insertShape' :=
  (insertShape stale FaceOwner meshCells meshFaces decompose).
Local Abbreviation insertCell' :=
  (insertCell stale FaceOwner this_NumCells meshCells meshFaces decompose).
Local Abbreviation insertCells' :=
  (insertCells stale FaceOwner this_NumCells meshCells meshFaces decompose).

Lemma allOfSize_true n (faces : list Z) all :
  Forall (fun f => GetSize meshFaces f = n) faces ->
  faces <> [] \/ all = true ->
  allOfSize meshFaces n faces all = true.
Proof.
  intros H. revert all. induction H as [|f faces Hf _ IH]; intros all Hall.
  - destruct Hall as [Hne| ->]; [congruence|reflexivity].
  - cbn. rewrite Hf, Z.eqb_refl. apply IH. right. reflexivity.
Qed.

(** Six faces of four points each: a hexahedron. *)
Lemma cellShape_hexahedron (cellFaces : list Z) :
  length cellFaces = 6%nat ->
  Forall (fun f => GetSize meshFaces f = 4) cellFaces ->
  cellShape meshFaces cellFaces = VTK_HEXAHEDRON.
Proof.
  intros Hlen Hall. unfold cellShape, size. rewrite Hlen. cbn [Z.of_nat Z.eqb Pos.eqb
    Pos.of_succ_nat Pos.succ].
  rewrite allOfSize_true; [reflexivity|exact Hall|].
  left. intros ->. discriminate Hlen.
Qed.

(** The opposite face the search keeps is one of the faces it went through. *)
Lemma hexSearchFaces_opposite (P : Z -> Prop) cellId (cellFaces ids faces : list Z) st :
  (cellOppositeFaceI st = -1 \/ P (cellOppositeFaceI st)) ->
  Forall (fun i => P (at_ stale cellFaces i)) faces ->
  let st' := hexSearchFaces stale FaceOwner meshFaces cellId cellFaces ids faces st in
  cellOppositeFaceI st' = -1 \/ P (cellOppositeFaceI st').
Proof.
  intros Hst Hfaces. revert st Hst.
  induction Hfaces as [|faceI faces Hf _ IH]; intros st Hst; [exact Hst|].
  cbn [hexSearchFaces].
  destruct (hexFindDup _ _ _ _ _) as [foundDup pointI].
  destruct (0 <=? foundDup).
  - destruct (pivotPoint st =? -1); [|apply IH; exact Hst].
    cbn [cellOppositeFaceI].
    destruct (0 <=? cellOppositeFaceI st); [exact Hst|].
    apply IH. exact Hst.
  - cbn [pivotPoint].
    destruct (0 <=? pivotPoint st); [right; exact Hf|].
    apply IH. right. exact Hf.
Qed.


Lemma list_of_length_4 (l : list Z) :
  length l = 4%nat -> exists a b c d, l = [a; b; c; d].
Proof.
  intros H. do 5 (destruct l as [|? l]; try discriminate H). eauto.
Qed.

Local Ltac four_cases :=
  let j := fresh "j" in
  let Hj := fresh "Hj" in
  intros j Hj;
  assert (j = 0 \/ j = 1 \/ j = 2 \/ j = 3) as [->|[->|[->| ->]]] by lia;
  reflexivity.

Local Ltac no_member :=
  match goal with
  | Hin : _ ∈ _ |- _ =>
      rewrite !elem_of_cons in Hin; rewrite elem_of_nil in Hin; intuition congruence
  end.

(** C7: a cell of six faces with four points each is classified as a
    hexahedron, and the loop body inserts exactly one cell for it: a
    VTK_HEXAHEDRON of 8 point ids, never a polyhedron.  The first four ids
    are the points of the base face, reversed if the cell owns that face.
    The last four are the points of the opposite face, forwards if the cell
    owns that face and backwards if not, from the position [start] on: the
    position of the pivot point when the pivot was found through point 0 of
    the base face, two places past it when it was found through point 2.
    When the pivot point is no point of the opposite face (and was not found
    through point 2), an owner gets the four points as they stand and a
    neighbour the slot after them followed by the points 3, 2 and 1. *)
Theorem hexahedron_cell additionalCells cellId (s : GridState) :
  let cellFaces := GetCell meshCells cellId in
  length cellFaces = 6%nat ->
  Forall (fun f => GetSize meshFaces f = 4) cellFaces ->
  (8 <= length (cellPoints s))%nat ->
  let base := GetCell meshFaces (at_ stale cellFaces 0) in
  let st := hexSearch' cellId cellFaces (hexBase' cellId cellFaces (cellPoints s)) in
  let oppositeFace := hexOpposite stale cellFaces st in
  let opp := GetCell meshFaces oppositeFace in
  let start := hexPivotIndex stale opp st in
  cellShape meshFaces cellFaces = VTK_HEXAHEDRON
  /\ exists s' ids,
       insertShape' additionalCells cellId s = Continue s'
       /\ Cells s' = Cells s ++ [mkCell VTK_HEXAHEDRON ids None]
       /\ Messages s' = Messages s
       /\ length ids = 8%nat
       /\ (forall j, 0 <= j < 4 ->
             ids !! Z.to_nat j
             = base !! Z.to_nat (if isOwner' (at_ stale cellFaces 0) cellId then 3 - j else j))
       /\ length opp = 4%nat
       /\ 0 <= start <= 4
       /\ (start < 4 -> forall k, 0 <= k < 4 ->
             ids !! Z.to_nat (4 + k)
             = opp !! Z.to_nat ((if isOwner' oppositeFace cellId then start + k else start - k)
                                  mod 4))
       /\ ((pivotPoint st ∈ opp) ->
             start < 4
             /\ opp !! Z.to_nat (if dupPoint st =? 2 then (start + 2) mod 4 else start)
                = Some (pivotPoint st))
       /\ (start = 4 ->
             (pivotPoint st ∉ opp) /\ dupPoint st <> 2
             /\ drop 4 ids
                = (if isOwner' oppositeFace cellId then opp
                   else stale 4%nat :: take 3 (reverse opp))).
Proof using stale FaceOwner meshCells meshFaces decompose.
  clear this_NumCells garbage.
  intros cellFaces Hlen Hall Hscratch.
  unfold insertShape. change (GetCell meshCells cellId) with cellFaces.
  rewrite cellShape_hexahedron by assumption.
  clearbody cellFaces.
  do 7 (destruct cellFaces as [|? cellFaces]; try discriminate Hlen). clear Hlen.
  rename z into f0, z0 into f1, z1 into f2, z2 into f3, z3 into f4, z4 into f5.
  assert (Hfour : forall f, f ∈ [f0; f1; f2; f3; f4; f5] -> GetSize meshFaces f = 4)
    by (apply Forall_forall; exact Hall).
  cbv zeta.
  set (base := GetCell meshFaces (at_ stale [f0; f1; f2; f3; f4; f5] 0)).
  set (st := hexSearch' cellId [f0; f1; f2; f3; f4; f5]
               (hexBase' cellId [f0; f1; f2; f3; f4; f5] (cellPoints s))).
  set (oppositeFace := hexOpposite stale [f0; f1; f2; f3; f4; f5] st).
  set (opp := GetCell meshFaces oppositeFace).
  set (start := hexPivotIndex stale opp st).
  split; [reflexivity|].
  assert (Hbase : length base = 4%nat).
  { unfold base. rewrite length_GetCell.
    change (at_ stale [f0; f1; f2; f3; f4; f5] 0) with f0.
    rewrite Hfour by (rewrite !elem_of_cons; tauto). reflexivity. }
  assert (Hopp : length opp = 4%nat).
  { unfold opp. rewrite length_GetCell.
    assert (Hsize : GetSize meshFaces oppositeFace = 4); [|rewrite Hsize; reflexivity].
    unfold oppositeFace, hexOpposite.
    destruct (Z.eqb_spec (cellOppositeFaceI st) (-1)) as [Hm|Hm].
    - apply Hfour. cbn. rewrite !elem_of_cons. tauto.
    - destruct (hexSearchFaces_opposite (fun f => GetSize meshFaces f = 4) cellId
                  [f0; f1; f2; f3; f4; f5]
                  (hexBase' cellId [f0; f1; f2; f3; f4; f5] (cellPoints s))
                  (upFrom 1 5) (mkHexSearch (-1) (-1) (-1))) as [H|H].
      + left. reflexivity.
      + repeat constructor; cbn; apply Hfour; rewrite !elem_of_cons; tauto.
      + contradiction.
      + exact H. }
  destruct (list_of_length_4 _ Hbase) as (b0 & b1 & b2 & b3 & Ebase).
  destruct (list_of_length_4 _ Hopp) as (o0 & o1 & o2 & o3 & Eopp).
  clear Hfour Hall.
  destruct s as [cells ids poly aid msgs]. cbn [cellPoints Cells Messages] in *.
  do 8 (destruct ids as [|? ids]; [cbn in Hscratch; lia|]). clear Hscratch.
  unfold insertHexahedron. cbn [cellPoints].
  fold st. fold oppositeFace. fold opp. fold start.
  assert (Hids0 : hexBase' cellId [f0; f1; f2; f3; f4; f5]
                    (z :: z0 :: z1 :: z2 :: z3 :: z4 :: z5 :: z6 :: ids)
                  = (if isOwner' f0 cellId then [b3; b2; b1; b0] else [b0; b1; b2; b3])
                    ++ z3 :: z4 :: z5 :: z6 :: ids).
  { unfold hexBase. fold base. rewrite Ebase.
    change (at_ stale [f0; f1; f2; f3; f4; f5] 0) with f0.
    destruct (isOwner' f0 cellId); reflexivity. }
  clearbody st. rewrite Hids0. clear Hids0.
  change (at_ stale [f0; f1; f2; f3; f4; f5] 0) with f0.
  assert (Hstart : start
                   = let p := if o0 =? pivotPoint st then 0
                              else if o1 =? pivotPoint st then 1
                              else if o2 =? pivotPoint st then 2
                              else if o3 =? pivotPoint st then 3 else 4 in
                     if dupPoint st =? 2 then (p + 2) mod 4 else p).
  { unfold start, hexPivotIndex. rewrite Eopp. reflexivity. }
  clearbody start opp base oppositeFace. subst opp base.
  set (own0 := isOwner' f0 cellId). set (ownOpp := isOwner' oppositeFace cellId).
  clearbody own0 ownOpp. clear Hbase Hopp.
  set (pivot := pivotPoint st) in *. set (dup := dupPoint st) in *.
  clearbody pivot dup.
  revert Hstart.
  destruct (Z.eqb_spec o0 pivot) as [E0|E0];
    [|destruct (Z.eqb_spec o1 pivot) as [E1|E1];
      [|destruct (Z.eqb_spec o2 pivot) as [E2|E2];
        [|destruct (Z.eqb_spec o3 pivot) as [E3|E3]]]];
    destruct (Z.eqb_spec dup 2) as [Ed|Ed];
    intros Hstart; vm_compute in Hstart; subst start;
    destruct own0, ownOpp;
    (eexists _, _; split; [reflexivity|];
     split; [reflexivity|]; split; [reflexivity|]; split; [reflexivity|];
     split; [four_cases|]; split; [reflexivity|]; split; [lia|];
     split; [intros Hlt; first [exfalso; lia|four_cases]|];
     split;
       [intros Hin; first [split; [lia|vm_compute; congruence] | exfalso; no_member]
       |intros Hfour;
        first [exfalso; lia
              |split; [intros Hin; no_member|split; [exact Ed|reflexivity]]]]).
Qed.


(** *** Polyhedra beyond the size limits *)

Lemma insertPolyhedron_outcome cellId (cellFaces : list Z) (s : GridState) :
  match insertPolyhedron stale FaceOwner meshFaces cellId cellFaces s with
  | Return s' => s' = report (TooLargePolyhedron cellId) s
  | Continue s' =>
      Messages s' = Messages s
      /\ exists ids stream,
           Cells s' = Cells s ++ [mkCell VTK_POLYHEDRON ids (Some (size cellFaces, stream))]
  end.
Proof.
  unfold insertPolyhedron.
  destruct (_ || _); [reflexivity|].
  destruct (forRange _ _ _ _) as [ids poly].
  destruct (addFaces _ _ _ _ _ _) as [p|]; [|reflexivity].
  cbn. split; [reflexivity|]. eexists _, _. reflexivity.
Qed.

(** Within the loop, [return] is reached through the size limits of a
    polyhedron that is not decomposed, and only so: the grid holds the cells
    it held, and the error is reported. *)
Lemma insertShape_return additionalCells cellId (s s' : GridState) :
  insertShape' additionalCells cellId s = Return s' ->
  additionalCells = false
  /\ Cells s' = Cells s
  /\ Messages s' = Messages s ++ [TooLargePolyhedron cellId].
Proof.
  unfold insertShape.
  set (cellFaces := GetCell meshCells cellId).
  assert (Hpoly : forall s0, Cells s0 = Cells s -> Messages s0 = Messages s ->
            (if additionalCells then Continue (decompose cellId cellFaces s0)
             else insertPolyhedron stale FaceOwner meshFaces cellId cellFaces s0) = Return s' ->
            additionalCells = false /\ Cells s' = Cells s
            /\ Messages s' = Messages s ++ [TooLargePolyhedron cellId]).
  { intros s0 Hc Hm H. destruct additionalCells; [discriminate H|].
    split; [reflexivity|].
    pose proof (insertPolyhedron_outcome cellId cellFaces s0) as Hout.
    rewrite H in Hout. subst s'. cbn. rewrite Hc, Hm. split; reflexivity. }
  destruct (cellShape meshFaces cellFaces); try discriminate.
  - destruct (insertWedge _ _ _ _ _ _) as [[|] s0] eqn:Hw; [discriminate|].
    apply Hpoly.
    + unfold insertWedge in Hw. destruct (negb _) in Hw; [discriminate Hw|].
      injection Hw as <-. reflexivity.
    + unfold insertWedge in Hw. destruct (negb _) in Hw; [discriminate Hw|].
      injection Hw as <-. reflexivity.
  - apply Hpoly; reflexivity.
Qed.

Lemma insertCell_return cellList additionalCells cellI (s s' : GridState) :
  insertCell' cellList additionalCells cellI s = Return s' ->
  additionalCells = false
  /\ Cells s' = Cells s
  /\ exists cellId, Messages s' = Messages s ++ [TooLargePolyhedron cellId].
Proof.
  unfold insertCell. destruct cellList as [list|].
  - destruct (_ <=? _); [discriminate|].
    intros H. apply insertShape_return in H as (Ha & Hc & Hm).
    split; [exact Ha|]. split; [exact Hc|]. eexists. exact Hm.
  - intros H. apply insertShape_return in H as (Ha & Hc & Hm).
    split; [exact Ha|]. split; [exact Hc|]. eexists. exact Hm.
Qed.

(** The loop over two runs of cells: the second run is gone through only
    if the first was left without [return]. *)
Lemma insertCells_app cellList additionalCells (l1 l2 : list Z) (s : GridState) :
  insertCells' cellList additionalCells (l1 ++ l2) s
  = match insertCells' cellList additionalCells l1 s with
    | Continue s' => insertCells' cellList additionalCells l2 s'
    | Return s' => Return s'
    end.
Proof.
  revert s. induction l1 as [|cellI l1 IH]; intros s; [reflexivity|].
  cbn. destruct (insertCell' _ _ _ _); [apply IH|reflexivity].
Qed.

(** A polyhedron whose first face has more than 256 points is beyond the
    limits. *)
Lemma first_face_too_large cellId (s : GridState) :
  let cellFaces := GetCell meshCells cellId in
  cellShape meshFaces cellFaces = VTK_POLYHEDRON ->
  maxNPoints < GetSize meshFaces (at_ stale cellFaces 0) ->
  insertShape' false cellId s = Return (report (TooLargePolyhedron cellId) s).
Proof.
  intros cellFaces Hshape Hlarge. unfold insertShape. fold cellFaces. rewrite Hshape.
  unfold insertPolyhedron, size. rewrite length_GetCell.
  replace (maxNPoints <? _) with true; [reflexivity|].
  symmetry. apply Z.ltb_lt. unfold maxNPoints in *. lia.
Qed.

(** When the body of the loop leaves through [return] at cell [cellI],
    [InsertCellsToGrid] ends there: the grid holds the cells inserted before
    [cellI] and nothing else, and the error is reported. *)
Lemma return_ends_insertion internalMesh cellList cellI
    (before after : GridState) :
  0 <= cellI < nCells this_NumCells cellList ->
  insertCells' cellList false (upFrom 0 cellI) (scratch garbage this_NumCells cellList internalMesh)
    = Continue before ->
  insertCell' cellList false cellI before = Return after ->
  let final := InsertCellsToGrid stale garbage FaceOwner this_NumCells meshCells meshFaces
                 decompose internalMesh false cellList in
  final = after
  /\ Cells final = Cells before
  /\ exists cellId, Messages final = Messages before ++ [TooLargePolyhedron cellId].
Proof.
  intros Hrange Hbefore Hreturn final.
  assert (Hfinal : final = after).
  { unfold final, InsertCellsToGrid.
    assert (Hsplit : upFrom 0 (nCells this_NumCells cellList)
                     = upFrom 0 cellI ++ cellI :: upFrom (cellI + 1)
                                                   (nCells this_NumCells cellList)).
    { unfold upFrom.
      replace (nCells this_NumCells cellList - 0)
        with (cellI + (nCells this_NumCells cellList - cellI)) by lia.
      rewrite seqZ_app by lia.
      replace (cellI - 0) with cellI by lia. f_equal.
      rewrite seqZ_cons by lia. f_equal. f_equal; lia. }
    assert (Hloop : insertCells' cellList false (upFrom 0 (nCells this_NumCells cellList))
                      (scratch garbage this_NumCells cellList internalMesh) = Return after).
    { rewrite Hsplit, insertCells_app, Hbefore. cbn [insertCells]. rewrite Hreturn.
      reflexivity. }
    destruct cellList; rewrite Hloop; reflexivity. }
  split; [exact Hfinal|].
  rewrite Hfinal.
  apply insertCell_return in Hreturn as (_ & Hc & Hm).
  split; [exact Hc|exact Hm].
Qed.

End InsertCellsFacts.

(** C5: a polyhedron beyond the size limits ends the insertion of the
    whole mesh, not of that one cell.  The mesh has a polyhedron with a face
    of 257 points and a tetrahedron.  With the polyhedron first the error is
    reported and the grid stays empty: no cell stands in for the polyhedron
    and the tetrahedron after it is not inserted.  With the tetrahedron first
    it is inserted before the error. *)
Lemma InsertCellsToGrid_stops_at_large_polyhedron :
  let run owner cells faces :=
    InsertCellsToGrid (fun _ => 0) (fun _ => 0) owner 2 cells faces noDecompose [] false None in
  Cells (run largeFirstOwner largeFirstCells largeFirstFaces) = []
  /\ Messages (run largeFirstOwner largeFirstCells largeFirstFaces) = [TooLargePolyhedron 0]
  /\ Cells (run largeLastOwner largeLastCells largeLastFaces)
     = [mkCell VTK_TETRA [1; 2; 0; 3] None]
  /\ Messages (run largeLastOwner largeLastCells largeLastFaces) = [TooLargePolyhedron 1].
Proof. vm_compute. repeat split. Qed.

(** C7, the input that decides it: the unit cube whose cell lists the back
    face right after the bottom.  The back face holds point 2 of the base
    face and not point 0, the search finds the pivot point 7 through it, and
    the points of the top face [4; 5; 6; 7] are inserted from point 5 on, two
    places past the pivot. *)
Lemma hexahedron_starts_two_past_the_pivot :
  let stale := fun _ : nat => 0 in
  let garbage := fun _ : nat => 0 in
  let grid := InsertCellsToGrid stale garbage cubeOwner 1 cubeCells cubeFaces noDecompose
                [] false None in
  let cellFaces := GetCell cubeCells 0 in
  let st := hexSearch stale cubeOwner cubeFaces 0 cellFaces
              (hexBase stale cubeOwner cubeFaces 0 cellFaces
                 (SetNumberOfValues garbage maxNPoints)) in
  Cells grid = [mkCell VTK_HEXAHEDRON [1; 2; 3; 0; 5; 6; 7; 4] None]
  /\ pivotPoint st = 7 /\ dupPoint st = 2
  /\ GetCell cubeFaces (hexOpposite stale cellFaces st) = [4; 5; 6; 7].
Proof. vm_compute. repeat split. Qed.

(** With the front face listed first the pivot is found through point 0 of
    the base face, and the points of the top face start at the pivot. *)
Lemma hexahedron_starts_at_the_pivot :
  let stale := fun _ : nat => 0 in
  let garbage := fun _ : nat => 0 in
  let grid := InsertCellsToGrid stale garbage cubeOwner 1 cubeCellsFrontFirst cubeFaces
                noDecompose [] false None in
  let cellFaces := GetCell cubeCellsFrontFirst 0 in
  let st := hexSearch stale cubeOwner cubeFaces 0 cellFaces
              (hexBase stale cubeOwner cubeFaces 0 cellFaces
                 (SetNumberOfValues garbage maxNPoints)) in
  Cells grid = [mkCell VTK_HEXAHEDRON [1; 2; 3; 0; 5; 6; 7; 4] None]
  /\ pivotPoint st = 5 /\ dupPoint st = 0.
Proof. vm_compute. repeat split. Qed.

(** The cube, its cell being the first of the grid. *)
Lemma hexahedron_cell_witness :
  let stale := fun _ : nat => 0 in
  let s := scratch (fun _ : nat => 0) 1 None [] in
  let cellFaces := GetCell cubeCells 0 in
  length cellFaces = 6%nat
  /\ Forall (fun f => GetSize cubeFaces f = 4) cellFaces
  /\ (8 <= length (cellPoints s))%nat
  /\ cellShape cubeFaces cellFaces = VTK_HEXAHEDRON
  /\ exists s',
       insertShape stale cubeOwner cubeCells cubeFaces noDecompose false 0 s = Continue s'
       /\ Cells s' = [mkCell VTK_HEXAHEDRON [1; 2; 3; 0; 5; 6; 7; 4] None].
Proof.
  intros stale s cellFaces.
  assert (H1 : length cellFaces = 6%nat) by reflexivity.
  assert (H2 : Forall (fun f => GetSize cubeFaces f = 4) cellFaces)
    by (repeat constructor).
  assert (H3 : (8 <= length (cellPoints s))%nat) by (vm_compute; lia).
  split; [exact H1|]. split; [exact H2|]. split; [exact H3|].
  destruct (hexahedron_cell stale cubeOwner cubeCells cubeFaces noDecompose
              false 0 s H1 H2 H3)
    as (Hshape & s' & ids & Hins & Hcells & _).
  split; [exact Hshape|].
  exists s'. split; [exact Hins|].
  injection Hins as <-. reflexivity.
Defined.

(** *** The scratch array of the cell points keeps its size *)

Section ScratchFacts.

Context (stale : nat -> Z) (garbage : nat -> Z).
Context (FaceOwner : vtkLabelArray) (this_NumCells : Z).
Context (meshCells meshFaces : vtkFoamLabelListList).
Context (decompose : Z -> list Z -> GridState -> GridState).

Lemma length_SetId (ids : list Z) i v : length (SetId ids i v) = length ids.
Proof. unfold SetId. apply length_insert. Qed.

Lemma length_fold_SetId {A : Type} (f : list Z -> A -> list Z) (l : list A) (ids : list Z) :
  (forall ids a, length (f ids a) = length ids) ->
  length (fold_left f l ids) = length ids.
Proof.
  intros Hf. revert ids. induction l as [|a l IH]; intros ids; [reflexivity|].
  cbn. rewrite IH. apply Hf.
Qed.

Lemma length_forRange_SetId (lo hi : Z) (src : Z -> Z) (pos : Z -> Z) (ids : list Z) :
  length (forRange lo hi (fun j ids => SetId ids (pos j) (src j)) ids) = length ids.
Proof.
  unfold forRange. apply (length_fold_SetId (fun ids j => SetId ids (pos j) (src j))).
  intros. apply length_SetId.
Qed.

Lemma length_copyPoints (src positions : list Z) basePointI (ids : list Z) :
  length (copyPoints stale src positions basePointI ids).1 = length ids.
Proof.
  unfold copyPoints. revert basePointI ids.
  induction positions as [|p positions IH]; intros basePointI ids; [reflexivity|].
  cbn [fold_left]. rewrite IH. apply length_SetId.
Qed.

Local Ltac copied_twice :=
  match goal with
  | |- context [copyPoints stale ?src ?pos ?b ?ids] =>
      let Hc := fresh "Hc" in
      pose proof (length_copyPoints src pos b ids) as Hc;
      destruct (copyPoints stale src pos b ids) as [? ?];
      cbn [fst] in Hc; cbv beta iota;
      etransitivity; [apply length_copyPoints|]; rewrite Hc
  end.

Lemma length_hexBase cellId (cellFaces ids : list Z) :
  length (hexBase stale FaceOwner meshFaces cellId cellFaces ids) = length ids.
Proof.
  unfold hexBase. destruct (isOwner _ _ _).
  - apply (length_forRange_SetId 0 4 (fun j => at_ stale _ (3 - j)) (fun j => j)).
  - apply (length_forRange_SetId 0 4 (fun j => at_ stale _ j) (fun j => j)).
Qed.

Lemma length_insertHexahedron cellId (cellFaces : list Z) (s : GridState) :
  length (cellPoints (insertHexahedron stale FaceOwner meshFaces cellId cellFaces s))
  = length (cellPoints s).
Proof.
  unfold insertHexahedron. cbn [cellPoints InsertNextCell withCellPoints].
  destruct (isOwner _ _ _); copied_twice; apply length_hexBase.
Qed.

Lemma length_insertWedge cellId (cellFaces : list Z) (s : GridState) :
  length (cellPoints (insertWedge stale FaceOwner meshFaces cellId cellFaces s).2)
  = length (cellPoints s).
Proof.
  unfold insertWedge.
  set (ids := if isOwner _ _ _ then _ else _).
  assert (Hids : length ids = length (cellPoints s)).
  { unfold ids. destruct (isOwner _ _ _).
    - apply (length_forRange_SetId 0 3 (fun j => at_ stale _ j) (fun j => j)).
    - apply (length_forRange_SetId 0 3 (fun j => at_ stale _ (2 - j)) (fun j => j)). }
  destruct (negb _); cbn [snd cellPoints InsertNextCell withCellPoints]; [|exact Hids].
  match goal with |- context [if ?c then _ else _] => destruct c end;
    copied_twice; exact Hids.
Qed.

Lemma length_insertPyramidOrTetra cellType cellId (cellFaces : list Z) (s : GridState) :
  length (cellPoints (insertPyramidOrTetra stale FaceOwner meshFaces cellType cellId
                        cellFaces s))
  = length (cellPoints s).
Proof.
  unfold insertPyramidOrTetra. cbn [cellPoints InsertNextCell withCellPoints].
  rewrite length_SetId. destruct (isOwner _ _ _).
  - apply (length_forRange_SetId 0 _ (fun j => at_ stale _ (_ - 1 - j)) (fun j => j)).
  - apply (length_forRange_SetId 0 _ (fun j => at_ stale _ j) (fun j => j)).
Qed.

Lemma length_addFacePoints (points : list Z) (p p' : PolyScratch) :
  addFacePoints points p = Some p' ->
  length (p_cellPoints p') = length (p_cellPoints p).
Proof.
  revert p. induction points as [|k points IH]; intros p H.
  - injection H as <-. reflexivity.
  - cbn [addFacePoints] in H.
    destruct (addFacePoint k p) as [p1|] eqn:E; [|discriminate].
    rewrite (IH _ H). unfold addFacePoint in E.
    destruct (negb (negb _)).
    + destruct (_ <=? _); [discriminate|].
      destruct (_ <=? _) in E; [discriminate|].
      injection E as <-. cbn. apply length_SetId.
    + destruct (_ <=? _) in E; [discriminate|].
      injection E as <-. reflexivity.
Qed.

Lemma length_addFaces cellId (faces : list Z) (p p' : PolyScratch) :
  addFaces stale FaceOwner meshFaces cellId faces p = Some p' ->
  length (p_cellPoints p') = length (p_cellPoints p).
Proof.
  revert p. induction faces as [|f faces IH]; intros p H.
  - injection H as <-. reflexivity.
  - cbn [addFaces] in H.
    destruct (addFace _ _ _ _ _ p) as [p1|] eqn:E; [|discriminate].
    rewrite (IH _ H). unfold addFace in E.
    destruct (_ <=? _); [discriminate|].
    apply length_addFacePoints in E. exact E.
Qed.

Lemma length_insertPolyhedron cellId (cellFaces : list Z) (s : GridState) :
  length (cellPoints (stateOf (insertPolyhedron stale FaceOwner meshFaces cellId cellFaces s)))
  = length (cellPoints s).
Proof.
  unfold insertPolyhedron.
  destruct (_ || _); [reflexivity|].
  set (body := fun (j : Z) '(ids, poly) => _).
  assert (Hbase : forall l st, length (fold_left (fun st j => body j st) l st).1 = length st.1).
  { induction l as [|j l IH]; intros st; [reflexivity|].
    cbn [fold_left]. rewrite IH. destruct st as [ids poly]. cbn. apply length_SetId. }
  unfold forRange. specialize (Hbase (seqZ 0 (size (GetCell meshFaces (at_ stale cellFaces 0)) - 0))
                                 (cellPoints s, SetId (polyPoints s) 0
                                    (size (GetCell meshFaces (at_ stale cellFaces 0))))).
  destruct (fold_left _ _ _) as [ids poly]. cbn [fst] in Hbase.
  destruct (addFaces _ _ _ _ _ _) as [p|] eqn:E; [|reflexivity].
  apply length_addFaces in E. cbn in E |- *. congruence.
Qed.

(** Without decomposition, the body of the loop leaves the scratch array of
    the cell points at its size. *)
Lemma length_cellPoints_insertCell cellList cellI (s : GridState) :
  length (cellPoints (stateOf (insertCell stale FaceOwner this_NumCells meshCells meshFaces
                                 decompose cellList false cellI s)))
  = length (cellPoints s).
Proof.
  assert (Hshape : forall cellId s0,
            length (cellPoints (stateOf (insertShape stale FaceOwner meshCells meshFaces
                                           decompose false cellId s0)))
            = length (cellPoints s0)).
  { intros cellId s0. unfold insertShape.
    destruct (cellShape meshFaces (GetCell meshCells cellId)); cbn [stateOf].
    - reflexivity.
    - apply length_insertPyramidOrTetra.
    - apply length_insertHexahedron.
    - pose proof (length_insertWedge cellId (GetCell meshCells cellId) s0) as Hw.
      destruct (insertWedge _ _ _ _ _ _) as [[|] s1]; cbn [snd] in Hw; [exact Hw|].
      rewrite length_insertPolyhedron. exact Hw.
    - apply length_insertPyramidOrTetra.
    - apply length_insertPolyhedron. }
  unfold insertCell. destruct cellList as [list|]; [|apply Hshape].
  destruct (_ <=? _); [reflexivity|]. rewrite Hshape. reflexivity.
Qed.

(** So every cell the loop comes to finds the 256 ids the function started
    with. *)
Lemma length_cellPoints_insertCells cellList (cells : list Z) (s : GridState) :
  length (cellPoints (stateOf (insertCells stale FaceOwner this_NumCells meshCells meshFaces
                                 decompose cellList false cells s)))
  = length (cellPoints s).
Proof.
  revert s. induction cells as [|cellI cells IH]; intros s; [reflexivity|].
  cbn [insertCells].
  pose proof (length_cellPoints_insertCell cellList cellI s) as H.
  destruct (insertCell _ _ _ _ _ _ _ _ _ _) as [s1|s1]; cbn [stateOf] in H.
  - rewrite IH. exact H.
  - exact H.
Qed.

Lemma length_cellPoints_scratch cellList internalMesh :
  length (cellPoints (scratch garbage this_NumCells cellList internalMesh)) = 256%nat.
Proof. unfold scratch, SetNumberOfValues. cbn [cellPoints]. rewrite length_map, length_seq. reflexivity. Qed.

End ScratchFacts.

(** *** A polyhedron that is inserted is within the size limits *)

Section PolyhedronFacts.

Context (stale : nat -> Z).
Context (FaceOwner : vtkLabelArray).
Context (meshFaces : vtkFoamLabelListList).

Lemma firstIndex_found (found : Z -> bool) (l : list Z) after :
  firstIndex found l after <> after ->
  exists i, i ∈ l /\ found i = true.
Proof.
  induction l as [|i l IH]; cbn; [congruence|].
  destruct (found i) eqn:E.
  - intros _. exists i. split; [constructor|exact E].
  - intros H. destruct (IH H) as (j & Hj & Hf). exists j. split; [constructor; exact Hj|exact Hf].
Qed.

Lemma elem_of_upFrom i lo hi : i ∈ upFrom lo hi <-> lo <= i < hi.
Proof. unfold upFrom. rewrite elem_of_seqZ. lia. Qed.

(** What the scratch arrays hold of the points gone through. *)
Definition pointsKept (seen : list Z) (p : PolyScratch) : Prop :=
  0 <= p_nPoints p <= maxNPoints
  /\ 0 <= p_nPolyPoints p <= maxNPolyPoints
  /\ maxNPoints <= Z.of_nat (length (p_cellPoints p))
  /\ forall x, x ∈ seen -> x ∈ take (Z.to_nat (p_nPoints p)) (p_cellPoints p).

Lemma addFacePoint_kept k (seen : list Z) (p p' : PolyScratch) :
  addFacePoint k p = Some p' -> pointsKept seen p ->
  pointsKept (k :: seen) p' /\ p_nPolyPoints p' = p_nPolyPoints p + 1.
Proof.
  unfold addFacePoint, pointsKept, maxNPoints, maxNPolyPoints.
  intros H (Hn & Hpoly & Hlen & Hseen).
  destruct (Z.eqb_spec (firstIndex (fun l => GetId (p_cellPoints p) l =? k)
                          (upFrom 0 (p_nPoints p)) (p_nPoints p)) (p_nPoints p)) as [Hnone|Hdup];
    cbn [negb] in H.
  - destruct (Z.leb_spec 256 (p_nPoints p)); [discriminate|].
    cbn [p_nPolyPoints] in H.
    destruct (Z.leb_spec 1024 (p_nPolyPoints p)); [discriminate|].
    injection H as <-. cbn [p_nPoints p_nPolyPoints p_cellPoints].
    split; [|reflexivity].
    split; [lia|]. split; [lia|]. split; [unfold SetId; rewrite length_insert; lia|].
    intros x Hx.
    replace (Z.to_nat (p_nPoints p + 1)) with (S (Z.to_nat (p_nPoints p))) by lia.
    unfold SetId.
    rewrite (take_S_r _ _ k) by (apply list_lookup_insert_eq; lia).
    rewrite take_insert_ge by lia.
    apply elem_of_app. apply elem_of_cons in Hx as [->|Hx].
    + right. constructor.
    + left. apply Hseen. exact Hx.
  - destruct (Z.leb_spec 1024 (p_nPolyPoints p)); [discriminate|].
    injection H as <-. cbn [p_nPoints p_nPolyPoints p_cellPoints].
    split; [|reflexivity].
    split; [lia|]. split; [lia|]. split; [lia|].
    intros x Hx. apply elem_of_cons in Hx as [->|Hx]; [|apply Hseen; exact Hx].
    apply firstIndex_found in Hdup as (i & Hi & Hfound).
    apply elem_of_upFrom in Hi. apply Z.eqb_eq in Hfound.
    unfold GetId in Hfound.
    apply list_elem_of_lookup. exists (Z.to_nat i).
    rewrite lookup_take_lt by lia.
    rewrite <- Hfound. apply list_lookup_lookup_total_lt. lia.
Qed.

Lemma addFacePoints_kept (points seen : list Z) (p p' : PolyScratch) :
  addFacePoints points p = Some p' -> pointsKept seen p ->
  pointsKept (points ++ seen) p'
  /\ p_nPolyPoints p' = p_nPolyPoints p + Z.of_nat (length points).
Proof.
  revert seen p. induction points as [|k points IH]; intros seen p H Hkept.
  - injection H as <-. split; [exact Hkept|cbn; lia].
  - cbn [addFacePoints] in H.
    destruct (addFacePoint k p) as [p1|] eqn:E; [|discriminate].
    destruct (addFacePoint_kept k seen p p1 E Hkept) as [Hk1 Hn1].
    destruct (IH (k :: seen) p1 H Hk1) as [(Hn & Hpoly & Hlen & Hseen) Hcount].
    split; [|cbn [length]; lia].
    split; [exact Hn|]. split; [exact Hpoly|]. split; [exact Hlen|].
    intros x Hx. apply Hseen.
    rewrite elem_of_app, elem_of_cons. rewrite elem_of_app, elem_of_cons in Hx. tauto.
Qed.


Lemma pointsKept_incl (seen seen' : list Z) (p : PolyScratch) :
  (forall x, x ∈ seen' -> x ∈ seen) -> pointsKept seen p -> pointsKept seen' p.
Proof.
  intros Hincl (Hn & Hpoly & Hlen & Hseen).
  split; [exact Hn|]. split; [exact Hpoly|]. split; [exact Hlen|].
  intros x Hx. apply Hseen, Hincl, Hx.
Qed.

Lemma at_lookup (v : list Z) (i : nat) x : v !! i = Some x -> at_ stale v (Z.of_nat i) = x.
Proof. unfold at_. rewrite Nat2Z.id. intros ->. reflexivity. Qed.

(** The points of a face gone through forwards or backwards are its
    points. *)
Lemma face_points_forwards (v : list Z) x :
  x ∈ v -> x ∈ map (at_ stale v) (upFrom 0 (size v)).
Proof.
  intros Hx. apply list_elem_of_lookup in Hx as [i Hi].
  apply list_elem_of_In, in_map_iff. exists (Z.of_nat i).
  split; [apply at_lookup; exact Hi|].
  apply list_elem_of_In, elem_of_upFrom. apply lookup_lt_Some in Hi. unfold size. lia.
Qed.

Lemma face_points_backwards (v : list Z) x :
  x ∈ v -> x ∈ map (at_ stale v) (downFrom (size v - 1) (-1)).
Proof.
  intros Hx. apply list_elem_of_lookup in Hx as [i Hi].
  apply list_elem_of_In, in_map_iff. exists (Z.of_nat i).
  split; [apply at_lookup; exact Hi|].
  apply list_elem_of_In. unfold downFrom. apply elem_of_reverse, elem_of_seqZ.
  apply lookup_lt_Some in Hi. unfold size. lia.
Qed.

Lemma length_downFrom from to : length (downFrom from to) = Z.to_nat (from - to).
Proof. unfold downFrom. rewrite length_reverse, length_seqZ. reflexivity. Qed.

Lemma length_upFrom from to : length (upFrom from to) = Z.to_nat (to - from).
Proof. unfold upFrom. apply length_seqZ. Qed.

Lemma addFace_kept cellId f (seen : list Z) (p p' : PolyScratch) :
  addFace stale FaceOwner meshFaces cellId f p = Some p' -> pointsKept seen p ->
  pointsKept (GetCell meshFaces f ++ seen) p'
  /\ p_nPolyPoints p' = p_nPolyPoints p + (1 + size (GetCell meshFaces f)).
Proof.
  unfold addFace. intros H Hkept.
  destruct (Z.leb_spec maxNPolyPoints (p_nPolyPoints p)) as [|Hroom]; [discriminate|].
  set (p1 := mkPoly _ _ _ _) in H.
  assert (Hkept1 : pointsKept seen p1).
  { destruct Hkept as (Hn & Hpoly & Hlen & Hseen).
    split; [exact Hn|]. split; [cbn; lia|]. split; [exact Hlen|exact Hseen]. }
  destruct (addFacePoints_kept _ seen p1 p' H Hkept1) as [Hk Hcount].
  split.
  - eapply pointsKept_incl; [|exact Hk].
    intros x Hx. apply elem_of_app in Hx as [Hx|Hx]; apply elem_of_app; [left|right; exact Hx].
    destruct (isOwner _ _ _);
      [apply face_points_forwards | apply face_points_backwards]; exact Hx.
  - rewrite Hcount. cbn [p1 p_nPolyPoints]. rewrite length_map.
    destruct (isOwner _ _ _); rewrite ?length_upFrom, ?length_downFrom; unfold size; lia.
Qed.

Lemma addFaces_kept cellId (faces seen : list Z) (p p' : PolyScratch) :
  addFaces stale FaceOwner meshFaces cellId faces p = Some p' -> pointsKept seen p ->
  pointsKept (concat (GetCell meshFaces <$> faces) ++ seen) p'
  /\ p_nPolyPoints p' = p_nPolyPoints p + faceStreamLength meshFaces faces.
Proof.
  revert seen p. induction faces as [|f faces IH]; intros seen p H Hkept.
  - injection H as <-. split; [exact Hkept|cbn; lia].
  - cbn [addFaces] in H.
    destruct (addFace _ _ _ _ _ p) as [p1|] eqn:E; [|discriminate].
    destruct (addFace_kept cellId f seen p p1 E Hkept) as [Hk1 Hn1].
    destruct (IH _ p1 H Hk1) as [Hk Hcount].
    split; [|cbn [faceStreamLength fold_right] in *; unfold faceStreamLength in Hcount; lia].
    eapply pointsKept_incl; [|exact Hk].
    intros x. cbn [fmap list_fmap concat]. rewrite !elem_of_app. tauto.
Qed.

(** The base face in the scratch arrays. *)
Lemma base_face_kept (owner : bool) (base ids poly : list Z) k :
  0 <= k <= size base -> size base <= Z.of_nat (length ids) ->
  let '(ids', poly') :=
    forRange 0 k
      (fun j '(ids, poly) =>
         let pointJ := at_ stale base (if owner then j else size base - 1 - j) in
         (SetId ids j pointJ, SetId poly (j + 1) pointJ))
      (ids, poly) in
  length ids' = length ids
  /\ forall j, 0 <= j < k ->
       ids' !! Z.to_nat j = Some (at_ stale base (if owner then j else size base - 1 - j)).
Proof.
  intros [Hk Hkn] Hlen. revert Hkn. pattern k. revert Hk. apply natlike_ind.
  - intros _. rewrite forRange_empty by lia. split; [reflexivity|]. intros; lia.
  - intros x Hx IH Hxn. unfold Z.succ. rewrite forRange_succ by lia.
    destruct (forRange 0 x _ _) as [ids1 poly1]. destruct IH as [Hlen1 Hin]; [lia|].
    split; [unfold SetId; rewrite length_insert; exact Hlen1|].
    intros j Hj. unfold SetId. destruct (decide (j = x)) as [->|Hne].
    + apply list_lookup_insert_eq. lia.
    + rewrite list_lookup_insert_ne by lia. apply Hin. lia.
Qed.

(** A polyhedron that is inserted is within the limits. *)
Lemma inserted_polyhedron_within_limits cellId (cellFaces : list Z) (s s' : GridState) :
  maxNPoints <= Z.of_nat (length (cellPoints s)) ->
  insertPolyhedron stale FaceOwner meshFaces cellId cellFaces s = Continue s' ->
  ~ exceedsLimits meshFaces cellFaces.
Proof.
  intros Hscratch Hins.
  destruct cellFaces as [|f0 rest].
  { intros [H|H]; vm_compute in H; discriminate H. }
  unfold insertPolyhedron in Hins.
  change (at_ stale (f0 :: rest) 0) with f0 in Hins.
  set (base := GetCell meshFaces f0) in *.
  destruct (Z.ltb_spec maxNPoints (size base)) as [|Hb1]; [discriminate|].
  destruct (Z.ltb_spec maxNPolyPoints (size base + 1)) as [|Hb2]; [discriminate|].
  cbn [orb] in Hins.
  pose proof (base_face_kept (isOwner FaceOwner f0 cellId) base (cellPoints s)
                (SetId (polyPoints s) 0 (size base)) (size base)) as Hbase.
  destruct (forRange 0 (size base) _ _) as [ids poly].
  destruct Hbase as [Hlen Hin]; [unfold size; lia|unfold maxNPoints in *; lia|].
  cbn [drop] in Hins.
  destruct (addFaces _ _ _ _ _ _) as [p|] eqn:E; [|discriminate].
  assert (Hkept0 : pointsKept base (mkPoly ids poly (size base) (size base + 1))).
  { split; [cbn; unfold size in *; lia|]. split; [cbn; unfold size in *; lia|].
    split; [cbn; lia|]. cbn [p_nPoints p_cellPoints].
    intros x Hx. apply list_elem_of_lookup in Hx as [i Hi].
    pose proof (lookup_lt_Some _ _ _ Hi) as Hlt.
    set (j := if isOwner FaceOwner f0 cellId then Z.of_nat i else size base - 1 - Z.of_nat i).
    apply list_elem_of_lookup. exists (Z.to_nat j).
    assert (Hj : 0 <= j < size base) by (unfold j, size; destruct (isOwner _ _ _); lia).
    rewrite lookup_take_lt by lia. rewrite Hin by exact Hj. f_equal.
    replace (if isOwner FaceOwner f0 cellId then j else size base - 1 - j) with (Z.of_nat i)
      by (unfold j; destruct (isOwner _ _ _); lia).
    apply at_lookup. exact Hi. }
  destruct (addFaces_kept cellId rest base _ p E Hkept0) as [(Hn & Hpoly & _ & Hseen) Hcount].
  cbn [p_nPolyPoints] in Hcount.
  intros [Hpoints|Hstream].
  - assert (Hle : (length (polyhedronPoints meshFaces (f0 :: rest))
                   <= length (take (Z.to_nat (p_nPoints p)) (p_cellPoints p)))%nat).
    { apply submseteq_length, NoDup_submseteq; [apply NoDup_remove_dups|].
      intros x Hx. unfold polyhedronPoints in Hx. rewrite elem_of_remove_dups in Hx.
      apply Hseen.
      rewrite fmap_cons in Hx. cbn [concat] in Hx. fold base in Hx.
      rewrite elem_of_app in Hx. rewrite elem_of_app. tauto. }
    rewrite length_take in Hle. unfold size in Hpoints. lia.
  - cbn [faceStreamLength fold_right] in Hstream. fold base in Hstream.
    unfold faceStreamLength in Hcount. lia.
Qed.

End PolyhedronFacts.

(** *** A polyhedron beyond the size limits ends the insertion *)

Section TooLargeFacts.

Context (stale : nat -> Z) (garbage : nat -> Z).
Context (FaceOwner : vtkLabelArray) (this_NumCells : Z).
Context (meshCells meshFaces : vtkFoamLabelListList).
Context (decompose : Z -> list Z -> GridState -> GridState).

(** Beyond the limits, the body of the loop reports the error and leaves
    through [return]. *)
Lemma exceeding_polyhedron_returns cellList cellI (s : GridState) :
  let cellId := cellIdAt cellList cellI in
  maxNPoints <= Z.of_nat (length (cellPoints s)) ->
  cellList = None \/ cellId < this_NumCells ->
  cellShape meshFaces (GetCell meshCells cellId) = VTK_POLYHEDRON ->
  exceedsLimits meshFaces (GetCell meshCells cellId) ->
  exists after,
    insertCell stale FaceOwner this_NumCells meshCells meshFaces decompose cellList false
      cellI s = Return after.
Proof.
  intros cellId Hscratch Hlist Hshape Hexceeds.
  assert (Hreturn : forall s0, cellPoints s0 = cellPoints s ->
            exists after, insertShape stale FaceOwner meshCells meshFaces decompose false
                            cellId s0 = Return after).
  { intros s0 Hs0. unfold insertShape. rewrite Hshape.
    destruct (insertPolyhedron _ _ _ _ _ _) as [s'|s'] eqn:E; [|eexists; reflexivity].
    exfalso. eapply inserted_polyhedron_within_limits; [|exact E|exact Hexceeds].
    rewrite Hs0. exact Hscratch. }
  unfold insertCell. subst cellId. destruct cellList as [list|]; cbn [cellIdAt] in *.
  - destruct Hlist as [|Hlt]; [discriminate|].
    destruct (Z.leb_spec this_NumCells (GetLabelValue list cellI (Is64BitArray list)));
      [lia|].
    apply Hreturn. reflexivity.
  - apply Hreturn. reflexivity.
Qed.

(** X6: when the loop of [InsertCellsToGrid] comes to a polyhedron that is
    not decomposed and exceeds the size limits (more than 256 cell points or
    more than 1024 entries of the face stream), the function reports the
    error and returns: the grid holds the cells inserted before that cell
    and nothing else.  No cell stands in for the polyhedron, and none of the
    cells after it is inserted. *)
Theorem too_large_polyhedron_ends_insertion internalMesh cellList cellI
    (before : GridState) :
  let cellId := cellIdAt cellList cellI in
  0 <= cellI < nCells this_NumCells cellList ->
  insertCells stale FaceOwner this_NumCells meshCells meshFaces decompose cellList false
    (upFrom 0 cellI) (scratch garbage this_NumCells cellList internalMesh)
  = Continue before ->
  cellList = None \/ cellId < this_NumCells ->
  cellShape meshFaces (GetCell meshCells cellId) = VTK_POLYHEDRON ->
  exceedsLimits meshFaces (GetCell meshCells cellId) ->
  let final := InsertCellsToGrid stale garbage FaceOwner this_NumCells meshCells meshFaces
                 decompose internalMesh false cellList in
  Cells final = Cells before
  /\ exists reported, Messages final = Messages before ++ [TooLargePolyhedron reported].
Proof.
  intros cellId Hrange Hbefore Hlist Hshape Hexceeds final.
  assert (Hscratch : maxNPoints <= Z.of_nat (length (cellPoints before))).
  { pose proof (length_cellPoints_insertCells stale FaceOwner this_NumCells meshCells
                  meshFaces decompose cellList (upFrom 0 cellI)
                  (scratch garbage this_NumCells cellList internalMesh)) as H.
    rewrite Hbefore in H. cbn [stateOf] in H.
    rewrite length_cellPoints_scratch in H. unfold maxNPoints. lia. }
  destruct (exceeding_polyhedron_returns cellList cellI before Hscratch Hlist Hshape Hexceeds)
    as [after Hreturn].
  destruct (return_ends_insertion stale garbage FaceOwner this_NumCells meshCells meshFaces
              decompose internalMesh cellList cellI before after Hrange Hbefore Hreturn)
    as (_ & Hcells & Hmsg).
  split; [exact Hcells|exact Hmsg].
Qed.

End TooLargeFacts.

(** The mesh whose first cell has a face of 257 points. *)
Lemma too_large_polyhedron_ends_insertion_witness :
  let stale := fun _ : nat => 0 in
  let garbage := fun _ : nat => 0 in
  let before := scratch garbage 2 None [] in
  let final := InsertCellsToGrid stale garbage largeFirstOwner 2 largeFirstCells
                 largeFirstFaces noDecompose [] false None in
  0 <= 0 < nCells 2 None
  /\ insertCells stale largeFirstOwner 2 largeFirstCells largeFirstFaces noDecompose
       None false (upFrom 0 0) before = Continue before
  /\ (@None vtkLabelArray = None \/ cellIdAt None 0 < 2)
  /\ cellShape largeFirstFaces (GetCell largeFirstCells (cellIdAt None 0)) = VTK_POLYHEDRON
  /\ exceedsLimits largeFirstFaces (GetCell largeFirstCells (cellIdAt None 0))
  /\ Cells final = Cells before
  /\ exists reported, Messages final = Messages before ++ [TooLargePolyhedron reported].
Proof.
  intros stale garbage before final.
  assert (H1 : 0 <= 0 < nCells 2 None) by (unfold nCells; lia).
  assert (H2 : insertCells stale largeFirstOwner 2 largeFirstCells largeFirstFaces
                 noDecompose None false (upFrom 0 0) before = Continue before)
    by reflexivity.
  assert (H3 : @None vtkLabelArray = None \/ cellIdAt None 0 < 2) by (left; reflexivity).
  assert (H4 : cellShape largeFirstFaces (GetCell largeFirstCells (cellIdAt None 0))
               = VTK_POLYHEDRON) by (vm_compute; reflexivity).
  assert (H5 : exceedsLimits largeFirstFaces (GetCell largeFirstCells (cellIdAt None 0)))
    by (left; vm_compute; reflexivity).
  split; [exact H1|]. split; [exact H2|]. split; [exact H3|]. split; [exact H4|].
  split; [exact H5|].
  exact (too_large_polyhedron_ends_insertion stale garbage largeFirstOwner 2 largeFirstCells
           largeFirstFaces noDecompose [] None 0 before H1 H2 H3 H4 H5).
Defined.

(** ** The shape of a cell *)

Section CellShapeFacts.

Context (meshFaces : vtkFoamLabelListList).

Lemma allOfSize_spec n (faces : list Z) all :
  allOfSize meshFaces n faces all = true
  <-> Forall (fun f => GetSize meshFaces f = n) faces /\ (faces <> [] \/ all = true).
Proof.
  revert all. induction faces as [|f faces IH]; intros all; cbn [allOfSize].
  - split; [intros ->; split; [constructor|right; reflexivity]|].
    intros [_ [H|H]]; [congruence|exact H].
  - destruct (Z.eqb_spec (GetSize meshFaces f) n) as [Hf|Hf].
    + rewrite IH. split.
      * intros [Hall _]. split; [constructor; assumption|left; discriminate].
      * intros [Hall _]. inversion Hall; subst. split; [assumption|right; reflexivity].
    + split; [discriminate|]. intros [Hall _]. inversion Hall; subst. contradiction.
Qed.

Lemma countOfSize_all n (faces : list Z) :
  Forall (fun f => GetSize meshFaces f = n) faces <-> countOfSize meshFaces n faces = length faces.
Proof.
  unfold countOfSize. induction faces as [|f faces IH]; [split; [reflexivity|constructor]|].
  rewrite filter_cons. destruct (decide (GetSize meshFaces f = n)) as [Hf|Hf]; cbn [length].
  - rewrite Forall_cons, IH. split; [intros [_ ->]; reflexivity|].
    intros H. split; [exact Hf|lia].
  - pose proof (length_filter (fun f => GetSize meshFaces f = n) faces). split.
    + intros H'. inversion H'; subst. contradiction.
    + lia.
Qed.

Lemma countOfSize_disjoint (faces : list Z) :
  (countOfSize meshFaces 0 faces + countOfSize meshFaces 3 faces
   + countOfSize meshFaces 4 faces <= length faces)%nat.
Proof.
  unfold countOfSize. induction faces as [|f faces IH]; [cbn; lia|].
  rewrite !filter_cons.
  destruct (decide (GetSize meshFaces f = 0)); destruct (decide (GetSize meshFaces f = 3));
    destruct (decide (GetSize meshFaces f = 4)); cbn [length]; lia.
Qed.

(** The count of the triangles and the quadrilaterals stops at the first
    face that is neither. *)
Lemma countTrisQuads_spec (faces : list Z) nTris nQuads :
  let '(t, q) := countTrisQuads meshFaces faces nTris nQuads in
  nTris <= t <= nTris + Z.of_nat (countOfSize meshFaces 3 faces)
  /\ nQuads <= q <= nQuads + Z.of_nat (countOfSize meshFaces 4 faces)
  /\ t - nTris + (q - nQuads) <= Z.of_nat (length faces)
  /\ (t - nTris + (q - nQuads) = Z.of_nat (length faces) ->
      t = nTris + Z.of_nat (countOfSize meshFaces 3 faces)
      /\ q = nQuads + Z.of_nat (countOfSize meshFaces 4 faces))
  /\ ((countOfSize meshFaces 3 faces + countOfSize meshFaces 4 faces = length faces)%nat ->
      t - nTris + (q - nQuads) = Z.of_nat (length faces)).
Proof.
  revert nTris nQuads.
  induction faces as [|f faces IH]; intros nTris nQuads; cbn [countTrisQuads].
  - cbn. lia.
  - pose proof (countOfSize_disjoint faces) as Hd. unfold countOfSize in *.
    rewrite !filter_cons.
    destruct (Z.eqb_spec (GetSize meshFaces f) 3) as [H3|H3].
    + specialize (IH (nTris + 1) nQuads).
      destruct (countTrisQuads meshFaces faces (nTris + 1) nQuads) as [t q].
      rewrite decide_True by exact H3. rewrite decide_False by lia. cbn [length]. lia.
    + destruct (Z.eqb_spec (GetSize meshFaces f) 4) as [H4|H4].
      * specialize (IH nTris (nQuads + 1)).
        destruct (countTrisQuads meshFaces faces nTris (nQuads + 1)) as [t q].
        rewrite decide_False by exact H3. rewrite decide_True by exact H4. cbn [length]. lia.
      * rewrite !decide_False by assumption. cbn [length]. lia.
Qed.

(** The shape as a function of the counts. *)
Lemma cellShape_by_counts (cellFaces : list Z) :
  let n := length cellFaces in
  let count k := countOfSize meshFaces k cellFaces in
  cellShape meshFaces cellFaces
  = if decide (n = 6%nat /\ count 4 = 6%nat) then VTK_HEXAHEDRON
    else if decide (n = 5%nat /\ count 3 = 2%nat /\ count 4 = 3%nat) then VTK_WEDGE
    else if decide (n = 5%nat /\ count 3 = 4%nat /\ count 4 = 1%nat) then VTK_PYRAMID
    else if decide (n = 4%nat /\ count 3 = 4%nat) then VTK_TETRA
    else if decide (count 0 = n) then VTK_EMPTY_CELL
    else VTK_POLYHEDRON.
Proof.
  intros n count.
  pose proof (allOfSize_spec 4 cellFaces false) as H4.
  pose proof (allOfSize_spec 3 cellFaces false) as H3.
  pose proof (allOfSize_spec 0 cellFaces true) as H0.
  rewrite countOfSize_all in H4, H3, H0.
  pose proof (countTrisQuads_spec cellFaces 0 0) as Hc.
  pose proof (countOfSize_disjoint cellFaces) as Hd.
  assert (Hnil : cellFaces <> [] <-> n <> 0%nat)
    by (subst n; destruct cellFaces; cbn; split; [congruence|lia|discriminate|discriminate]).
  fold n in H4, H3, H0, Hc, Hd. fold (count 4) in H4, Hc, Hd. fold (count 3) in H3, Hc, Hd.
  fold (count 0) in H0, Hd.
  assert (Hhex : allOfSize meshFaces 4 cellFaces false = true <-> count 4 = n /\ n <> 0%nat)
    by (rewrite H4; intuition discriminate).
  assert (Htet : allOfSize meshFaces 3 cellFaces false = true <-> count 3 = n /\ n <> 0%nat)
    by (rewrite H3; intuition discriminate).
  assert (Hemp : (if allOfSize meshFaces 0 cellFaces true then VTK_EMPTY_CELL else VTK_POLYHEDRON)
                 = if decide (count 0 = n) then VTK_EMPTY_CELL else VTK_POLYHEDRON).
  { destruct (allOfSize meshFaces 0 cellFaces true).
    - rewrite decide_True; [reflexivity|]. apply H0. reflexivity.
    - rewrite decide_False; [reflexivity|]. intros H. destruct H0 as [_ H0].
      assert (false = true); [|discriminate].
      apply H0. split; [exact H|right; reflexivity]. }
  clear H4 H3 H0 Hnil.
  unfold cellShape, size. fold n.
  destruct (countTrisQuads meshFaces cellFaces 0 0) as [t q].
  set (hex := allOfSize meshFaces 4 cellFaces false) in *.
  set (tet := allOfSize meshFaces 3 cellFaces false) in *.
  set (empty := allOfSize meshFaces 0 cellFaces true) in *.
  set (c0 := count 0) in *. set (c3 := count 3) in *. set (c4 := count 4) in *.
  clearbody hex tet empty c0 c3 c4 n. clear count cellFaces.
  destruct (Z.eqb_spec (Z.of_nat n) 6) as [N6|N6].
  { rewrite (decide_False (P := n = 5%nat /\ _)) by (clear -N6; lia).
    rewrite (decide_False (P := n = 5%nat /\ _)) by (clear -N6; lia).
    rewrite (decide_False (P := n = 4%nat /\ _)) by (clear -N6; lia).
    clear Hc Hd Htet. destruct hex.
    - rewrite decide_True; [reflexivity|]. destruct Hhex as [Hhex _].
      destruct (Hhex eq_refl) as [Hhex' _]. clear -Hhex' N6. lia.
    - rewrite decide_False; [exact Hemp|]. intros [Hn Hc4]. destruct Hhex as [_ Hhex].
      assert (false = true); [apply Hhex; clear -Hn Hc4; lia|discriminate]. }
  rewrite (decide_False (P := n = 6%nat /\ _)) by (clear -N6; lia).
  destruct (Z.eqb_spec (Z.of_nat n) 5) as [N5|N5].
  { rewrite (decide_False (P := n = 4%nat /\ _)) by (clear -N5; lia).
    assert (Hw : t = 2 /\ q = 3 <-> (n = 5 /\ c3 = 2 /\ c4 = 3)%nat) by (clear -Hc N5; lia).
    assert (Hp : t = 4 /\ q = 1 <-> (n = 5 /\ c3 = 4 /\ c4 = 1)%nat) by (clear -Hc N5; lia).
    clear Hc Hd Hhex Htet.
    destruct (Z.eqb_spec t 2) as [T2|T2]; destruct (Z.eqb_spec q 3) as [Q3|Q3]; cbn [andb].
    1: { rewrite decide_True; [reflexivity|]. apply Hw. split; assumption. }
    all: rewrite (decide_False (P := _ /\ c3 = 2%nat /\ _))
      by (rewrite <- Hw; intros [? ?]; contradiction).
    all: destruct (Z.eqb_spec t 4) as [T4|T4]; destruct (Z.eqb_spec q 1) as [Q1|Q1]; cbn [andb].
    all: first [ rewrite decide_True; [reflexivity|]; apply Hp; split; assumption
               | rewrite decide_False by (rewrite <- Hp; intros [? ?]; contradiction);
                 exact Hemp ]. }
  rewrite (decide_False (P := n = 5%nat /\ _)) by (clear -N5; lia).
  rewrite (decide_False (P := n = 5%nat /\ _)) by (clear -N5; lia).
  clear Hc Hd Hhex.
  destruct (Z.eqb_spec (Z.of_nat n) 4) as [N4|N4].
  { destruct tet.
    - rewrite decide_True; [reflexivity|]. destruct Htet as [Htet _].
      destruct (Htet eq_refl) as [Htet' _]. clear -Htet' N4. lia.
    - rewrite decide_False; [exact Hemp|]. intros [Hn Hc3]. destruct Htet as [_ Htet].
      assert (false = true); [apply Htet; clear -Hn Hc3; lia|discriminate]. }
  rewrite (decide_False (P := n = 4%nat /\ _)) by (clear -N4; lia). exact Hemp.
Qed.

(** The shape by the numbers of faces: each shape has its own counts. *)
Lemma cellShape_counts (cellFaces : list Z) :
  let n := length cellFaces in
  let count k := countOfSize meshFaces k cellFaces in
  (cellShape meshFaces cellFaces = VTK_HEXAHEDRON <-> n = 6%nat /\ count 4 = 6%nat)
  /\ (cellShape meshFaces cellFaces = VTK_TETRA <-> n = 4%nat /\ count 3 = 4%nat)
  /\ (cellShape meshFaces cellFaces = VTK_WEDGE
      <-> n = 5%nat /\ count 3 = 2%nat /\ count 4 = 3%nat)
  /\ (cellShape meshFaces cellFaces = VTK_PYRAMID
      <-> n = 5%nat /\ count 3 = 4%nat /\ count 4 = 1%nat)
  /\ (cellShape meshFaces cellFaces = VTK_EMPTY_CELL <-> count 0 = n)
  /\ (cellShape meshFaces cellFaces = VTK_POLYHEDRON
      <-> count 0 <> n
          /\ ~ (n = 6%nat /\ count 4 = 6%nat) /\ ~ (n = 4%nat /\ count 3 = 4%nat)
          /\ ~ (n = 5%nat /\ count 3 = 2%nat /\ count 4 = 3%nat)
          /\ ~ (n = 5%nat /\ count 3 = 4%nat /\ count 4 = 1%nat)).
Proof.
  intros n count.
  rewrite (cellShape_by_counts cellFaces). fold n. fold (count 4) (count 3) (count 0).
  pose proof (countOfSize_disjoint cellFaces) as Hd.
  fold n in Hd. fold (count 4) (count 3) (count 0) in Hd.
  set (c0 := count 0) in *. set (c3 := count 3) in *. set (c4 := count 4) in *.
  clearbody c0 c3 c4 n. clear count cellFaces.
  assert (XA : n = 6%nat /\ c4 = 6%nat -> c0 <> n) by (clear -Hd; lia).
  assert (XW : n = 5%nat /\ c3 = 2%nat /\ c4 = 3%nat -> c0 <> n) by (clear -Hd; lia).
  assert (XP : n = 5%nat /\ c3 = 4%nat /\ c4 = 1%nat -> c0 <> n) by (clear -Hd; lia).
  assert (XB : n = 4%nat /\ c3 = 4%nat -> c0 <> n) by (clear -Hd; lia).
  clear Hd.
  assert (AW : n = 6%nat /\ c4 = 6%nat -> ~ (n = 5%nat /\ c3 = 2%nat /\ c4 = 3%nat)) by (clear; lia).
  assert (AP : n = 6%nat /\ c4 = 6%nat -> ~ (n = 5%nat /\ c3 = 4%nat /\ c4 = 1%nat)) by (clear; lia).
  assert (AB : n = 6%nat /\ c4 = 6%nat -> ~ (n = 4%nat /\ c3 = 4%nat)) by (clear; lia).
  assert (WP : n = 5%nat /\ c3 = 2%nat /\ c4 = 3%nat
               -> ~ (n = 5%nat /\ c3 = 4%nat /\ c4 = 1%nat)) by (clear; lia).
  assert (WB : n = 5%nat /\ c3 = 2%nat /\ c4 = 3%nat -> ~ (n = 4%nat /\ c3 = 4%nat)) by (clear; lia).
  assert (PB : n = 5%nat /\ c3 = 4%nat /\ c4 = 1%nat -> ~ (n = 4%nat /\ c3 = 4%nat)) by (clear; lia).
  destruct (decide (n = 6%nat /\ c4 = 6%nat)) as [A|A];
    [|destruct (decide (n = 5%nat /\ c3 = 2%nat /\ c4 = 3%nat)) as [W|W];
      [|destruct (decide (n = 5%nat /\ c3 = 4%nat /\ c4 = 1%nat)) as [P|P];
        [|destruct (decide (n = 4%nat /\ c3 = 4%nat)) as [B|B];
          [|destruct (decide (c0 = n)) as [E|E]]]]].
  all: set (a := n = 6%nat /\ c4 = 6%nat) in *;
    set (w := n = 5%nat /\ c3 = 2%nat /\ c4 = 3%nat) in *;
    set (p := n = 5%nat /\ c3 = 4%nat /\ c4 = 1%nat) in *;
    set (b := n = 4%nat /\ c3 = 4%nat) in *;
    set (e := c0 = n) in *; clearbody a w p b e.
  all: repeat apply conj; intros; try discriminate; try reflexivity; try assumption; tauto.
Qed.

End CellShapeFacts.

(** ** Tetrahedra and pyramids *)

Section PyramidFacts.

Context (stale : nat -> Z).
Context (FaceOwner : vtkLabelArray).
Context (meshCells meshFaces : vtkFoamLabelListList).
Context (decompose : Z -> list Z -> GridState -> GridState).

(** A loop that stores [f j] at [j] rewrites the front of the array. *)
Lemma forRange_SetId (f : Z -> Z) (n : nat) (ids : list Z) :
  (n <= length ids)%nat ->
  forRange 0 (Z.of_nat n) (fun j ids => SetId ids j (f j)) ids
  = map f (seqZ 0 (Z.of_nat n)) ++ drop n ids.
Proof.
  induction n as [|n IH]; intros Hn.
  - rewrite forRange_empty by lia. reflexivity.
  - replace (Z.of_nat (S n)) with (Z.of_nat n + 1) by lia.
    rewrite forRange_succ by lia. rewrite IH by lia.
    rewrite seqZ_app by lia. rewrite map_app. cbn [seqZ map]. 
    unfold SetId. rewrite Nat2Z.id.
    assert (Hlen : length (map f (seqZ 0 (Z.of_nat n))) = n)
      by (rewrite length_map, length_seqZ; lia).
    destruct (drop n ids) as [|x rest] eqn:E.
    { apply (f_equal length) in E. rewrite length_drop in E. cbn in E. lia. }
    rewrite insert_app_r_alt by lia. rewrite Hlen, Nat.sub_diag. cbn [insert list_insert].
    rewrite <- app_assoc. cbn [app]. do 2 f_equal.
    replace (S n) with (n + 1)%nat by lia. rewrite <- drop_drop, E. reflexivity.
Qed.

Lemma map_at_forwards (v : list Z) : map (at_ stale v) (seqZ 0 (size v)) = v.
Proof.
  apply list_eq. intros i. rewrite list_lookup_fmap.
  destruct (v !! i) as [x|] eqn:E.
  - pose proof (lookup_lt_Some _ _ _ E) as Hi.
    rewrite lookup_seqZ_lt by (unfold size; lia). cbn. f_equal.
    replace (0 + Z.of_nat i) with (Z.of_nat i) by lia. apply at_lookup. exact E.
  - apply lookup_ge_None in E. rewrite lookup_seqZ_ge by (unfold size; lia). reflexivity.
Qed.

Lemma map_at_upFrom (v : list Z) : map (at_ stale v) (upFrom 0 (size v)) = v.
Proof. unfold upFrom. rewrite Z.sub_0_r. apply map_at_forwards. Qed.

Lemma map_at_backwards (v : list Z) :
  map (fun j => at_ stale v (size v - 1 - j)) (seqZ 0 (size v)) = reverse v.
Proof.
  apply list_eq. intros i. rewrite list_lookup_fmap.
  destruct (decide (i < length v)%nat) as [Hi|Hi].
  - rewrite lookup_seqZ_lt by (unfold size; lia). cbn.
    rewrite reverse_lookup by exact Hi.
    destruct (v !! (length v - S i)%nat) as [x|] eqn:E.
    + f_equal. replace (size v - 1 - (0 + Z.of_nat i)) with (Z.of_nat (length v - S i))
        by (unfold size; lia).
      apply at_lookup. exact E.
    + apply lookup_ge_None in E. lia.
  - rewrite lookup_seqZ_ge by (unfold size; lia).
    symmetry. apply lookup_ge_None. rewrite length_reverse. lia.
Qed.

Lemma firstIndex_spec (found : Z -> bool) (l : list Z) after :
  (Forall (fun i => found i = false) l /\ firstIndex found l after = after)
  \/ exists l1 i l2,
       l = l1 ++ i :: l2 /\ Forall (fun i => found i = false) l1
       /\ found i = true /\ firstIndex found l after = i.
Proof.
  induction l as [|i l IH]; cbn [firstIndex].
  - left. split; [constructor|reflexivity].
  - destruct (found i) eqn:E.
    + right. exists [], i, l. repeat split; [constructor|exact E].
    + destruct IH as [[Hall Hr]|(l1 & k & l2 & -> & Hall & Hk & Hr)].
      * left. split; [constructor; assumption|exact Hr].
      * right. exists (i :: l1), k, l2. repeat split; [constructor; assumption|exact Hk|exact Hr].
Qed.

(** Whether a point is one of the base face, as the inner loop finds it. *)
Lemma foundDup_spec (base : list Z) (x : Z) :
  negb (firstIndex (fun baseI => x =? at_ stale base baseI) (upFrom 0 (size base)) (size base)
        =? size base) = true
  <-> x ∈ base.
Proof.
  rewrite negb_true_iff, Z.eqb_neq. split.
  - intros H. apply firstIndex_found in H as (i & Hi & Hx).
    apply elem_of_upFrom in Hi. apply Z.eqb_eq in Hx. subst x.
    unfold at_. destruct (base !! Z.to_nat i) as [y|] eqn:E.
    + eapply list_elem_of_lookup_2. exact E.
    + apply lookup_ge_None in E. unfold size in Hi. lia.
  - intros Hx. apply list_elem_of_lookup in Hx as [i Hi].
    destruct (firstIndex_spec (fun baseI => x =? at_ stale base baseI)
                (upFrom 0 (size base)) (size base))
      as [[Hall _]|(l1 & k & l2 & Hl & _ & _ & ->)].
    + rewrite Forall_forall in Hall. specialize (Hall (Z.of_nat i)).
      rewrite (at_lookup _ _ _ _ Hi), Z.eqb_refl in Hall.
      apply lookup_lt_Some in Hi.
      assert (true = false); [|discriminate].
      apply Hall. apply elem_of_upFrom. unfold size. lia.
    + assert (Hk : k ∈ upFrom 0 (size base))
        by (rewrite Hl, elem_of_app, elem_of_cons; right; left; reflexivity).
      apply elem_of_upFrom in Hk. lia.
Qed.

(** The apex is the first point of the adjacent face that is no point of
    the base face, and its last point when all are. *)
Lemma findApex_spec (base : list Z) (points : list Z) (adjacent : list Z) (positions : list Z) a0 :
  map (at_ stale adjacent) positions = points ->
  let apex := findApex stale base adjacent positions a0 in
  (exists i, points !! i = Some apex /\ (apex ∉ base)
             /\ forall j y, (j < i)%nat -> points !! j = Some y -> y ∈ base)
  \/ (Forall (fun y => y ∈ base) points /\ apex = default a0 (last points)).
Proof.
  revert points a0. induction positions as [|ptI rest IH]; intros points a0 <-; cbn [findApex map].
  - right. split; [constructor|reflexivity].
  - cbv zeta.
    destruct (negb (firstIndex _ _ _ =? _)) eqn:E; cbn [negb].
    + apply foundDup_spec in E.
      destruct (IH _ (at_ stale adjacent ptI) eq_refl) as [(i & Hi & Hn & Hb)|[Hall Hl]].
      * left. exists (S i). split; [exact Hi|]. split; [exact Hn|].
        intros [|j] y Hj Hy; [injection Hy as <-; exact E|].
        apply (Hb j); [lia|exact Hy].
      * right. split; [constructor; assumption|].
        rewrite Hl. destruct (map _ rest) as [|z zs] eqn:Ez; [reflexivity|].
        change (last (at_ stale adjacent ptI :: z :: zs)) with (last (z :: zs)).
        destruct (last (z :: zs)) eqn:El; [reflexivity|].
        apply last_None in El. discriminate.
    + left. exists 0%nat. split; [reflexivity|]. split.
      * intros Hin. apply foundDup_spec in Hin. congruence.
      * intros j y Hj. lia.
Qed.

Local Abbreviation isOwner' := (isOwner FaceOwner).
Local Abbreviation insertShape' := (insertShape stale FaceOwner meshCells meshFaces decompose).

(** The cell [insertPyramidOrTetra] inserts, given the position of the base
    face. *)
Lemma insertPyramidOrTetra_cell (type : VTKCellType) cellId (cellFaces : list Z)
    (s : GridState) (baseFaceId : Z) :
  let nPoints := if VTKCellType_eqb type VTK_PYRAMID then 5 else 4 in
  (if VTKCellType_eqb type VTK_PYRAMID
   then firstIndex (fun j => GetSize meshFaces (at_ stale cellFaces j) =? 4)
          (upFrom 0 (size cellFaces)) 0
   else 0) = baseFaceId ->
  let baseFace := at_ stale cellFaces baseFaceId in
  let base := GetCell meshFaces baseFace in
  let adjacent := GetCell meshFaces (at_ stale cellFaces (if baseFaceId =? 0 then 1 else 0)) in
  size base = nPoints - 1 ->
  adjacent <> [] ->
  nPoints <= Z.of_nat (length (cellPoints s)) ->
  exists s' apex,
    insertPyramidOrTetra stale FaceOwner meshFaces type cellId cellFaces s = s'
    /\ Cells s'
       = Cells s ++ [mkCell type ((if isOwner' baseFace cellId then reverse base else base)
                                    ++ [apex]) None]
    /\ Messages s' = Messages s
    /\ ((exists i, adjacent !! i = Some apex /\ (apex ∉ base)
                   /\ forall j y, (j < i)%nat -> adjacent !! j = Some y -> y ∈ base)
        \/ (Forall (fun y => y ∈ base) adjacent /\ last adjacent = Some apex)).
Proof.
  intros nPoints Hbase baseFace base adjacent Hsize Hadj Hscratch.
  unfold insertPyramidOrTetra. rewrite Hbase. fold nPoints baseFace base adjacent.
  set (apex := findApex _ _ _ _ _).
  eexists _, apex. split; [reflexivity|].
  cbn [InsertNextCell withCellPoints Cells Messages cellPoints].
  split; [|split; [reflexivity|]].
  - do 3 f_equal.
    assert (Hn : (length base + 1 <= length (cellPoints s))%nat) by (unfold size in Hsize; lia).
    replace (Z.to_nat nPoints) with (length base + 1)%nat by (unfold size in Hsize; lia).
    replace (nPoints - 1) with (Z.of_nat (length base)) by (unfold size in Hsize; lia).
    unfold size.
    assert (Hfill : forall pts : list Z, length pts = length base ->
              take (length base + 1)
                (SetId (pts ++ drop (length base) (cellPoints s)) (Z.of_nat (length base)) apex)
              = pts ++ [apex]).
    { intros pts Hlen. unfold SetId. rewrite Nat2Z.id.
      destruct (drop (length base) (cellPoints s)) as [|x rest] eqn:E.
      { apply (f_equal length) in E. rewrite length_drop in E. cbn in E. lia. }
      rewrite insert_app_r_alt by lia. rewrite Hlen, Nat.sub_diag. cbn [insert list_insert].
      rewrite take_app_ge by lia. rewrite Hlen.
      replace (length base + 1 - length base)%nat with 1%nat by lia. reflexivity. }
    destruct (isOwner' baseFace cellId).
    + rewrite (forRange_SetId (fun j => at_ stale base (Z.of_nat (length base) - 1 - j)))
        by lia.
      pose proof (map_at_backwards base) as Hb. unfold size in Hb. rewrite Hb. apply Hfill. apply length_reverse.
    + rewrite (forRange_SetId (at_ stale base)) by lia.
      pose proof (map_at_forwards base) as Hb. unfold size in Hb. rewrite Hb. apply Hfill. reflexivity.
  - destruct (findApex_spec base adjacent adjacent (upFrom 0 (size adjacent))
                (at_ stale adjacent 0) (map_at_upFrom adjacent)) as [H|[Hall Hl]].
    + left. exact H.
    + right. split; [exact Hall|]. fold apex in Hl. rewrite Hl.
      destruct (last adjacent) eqn:El; [reflexivity|]. apply last_None in El. contradiction.
Qed.

Lemma firstIndex_seqZ (found : Z -> bool) (n : nat) lo after k :
  lo <= k < lo + Z.of_nat n -> found k = true ->
  (forall i, lo <= i < k -> found i = false) ->
  firstIndex found (seqZ lo (Z.of_nat n)) after = k.
Proof.
  revert lo. induction n as [|n IH]; intros lo Hk Hf Hbefore; [lia|].
  replace (Z.of_nat (S n)) with (Z.succ (Z.of_nat n)) by lia.
  rewrite seqZ_cons by lia. rewrite Z.pred_succ. cbn [firstIndex].
  destruct (decide (lo = k)) as [->|Hne]; [rewrite Hf; reflexivity|].
  rewrite Hbefore by lia. apply IH; [lia|exact Hf|]. intros i Hi. apply Hbefore. lia.
Qed.

(** A cell with one face of four points among faces of three points: the
    search for the base finds that face. *)
Lemma pyramid_base (cellFaces : list Z) :
  (countOfSize meshFaces 3 cellFaces + countOfSize meshFaces 4 cellFaces
   = length cellFaces)%nat ->
  countOfSize meshFaces 4 cellFaces = 1%nat ->
  exists l1 f l2,
    cellFaces = l1 ++ f :: l2
    /\ Forall (fun f => GetSize meshFaces f = 3) (l1 ++ l2)
    /\ GetSize meshFaces f = 4
    /\ firstIndex (fun j => GetSize meshFaces (at_ stale cellFaces j) =? 4)
         (upFrom 0 (size cellFaces)) 0 = Z.of_nat (length l1).
Proof.
  intros Hall Hone.
  assert (Hsplit : exists l1 f l2,
            cellFaces = l1 ++ f :: l2
            /\ Forall (fun f => GetSize meshFaces f = 3) (l1 ++ l2)
            /\ GetSize meshFaces f = 4).
  { clear -Hall Hone. induction cellFaces as [|f l IH]; [discriminate|].
    pose proof (countOfSize_disjoint meshFaces l) as Hd.
    unfold countOfSize in *. do 2 rewrite filter_cons in Hall. rewrite filter_cons in Hone.
    destruct (decide (GetSize meshFaces f = 4)) as [H4|H4].
    - rewrite decide_False in Hall by lia. cbn [length] in Hall, Hone.
      exists [], f, l. split; [reflexivity|]. split; [|exact H4].
      apply (countOfSize_all meshFaces 3 l). unfold countOfSize. lia.
    - destruct (decide (GetSize meshFaces f = 3)) as [H3|H3]; cbn [length] in Hall; [|lia].
      destruct IH as (l1 & g & l2 & -> & Hrest & Hg); [lia|exact Hone|].
      exists (f :: l1), g, l2. split; [reflexivity|]. split; [|exact Hg].
      constructor; assumption. }
  destruct Hsplit as (l1 & f & l2 & -> & Hrest & Hf).
  exists l1, f, l2. split; [reflexivity|]. split; [exact Hrest|]. split; [exact Hf|].
  unfold upFrom, size. rewrite Z.sub_0_r. apply firstIndex_seqZ.
  - rewrite length_app. cbn [length]. lia.
  - rewrite (at_lookup stale _ (length l1) f);
      [apply Z.eqb_eq; exact Hf|apply list_lookup_middle; reflexivity].
  - intros i Hi. apply Z.eqb_neq.
    apply Forall_app in Hrest as [H1 _]. rewrite Forall_forall in H1.
    destruct (l1 !! Z.to_nat i) as [g|] eqn:E; [|apply lookup_ge_None in E; lia].
    replace i with (Z.of_nat (Z.to_nat i)) by lia.
    rewrite (at_lookup stale _ (Z.to_nat i) g);
      [|rewrite lookup_app_l by lia; exact E].
    rewrite (H1 g); [lia|]. eapply list_elem_of_lookup_2. exact E.
Qed.

(** X2: a cell of four faces with three points each is inserted as one
    VTK_TETRA of four point ids: the three points of the cell's first face,
    reversed if the cell owns that face, followed by the apex.  The apex is
    the first point of the cell's second face that is no point of the first
    face, and the last point of the second face when all of them are. *)
Theorem tetrahedron_cell additionalCells cellId (s : GridState) :
  let cellFaces := GetCell meshCells cellId in
  length cellFaces = 4%nat ->
  Forall (fun f => GetSize meshFaces f = 3) cellFaces ->
  (4 <= length (cellPoints s))%nat ->
  let baseFace := at_ stale cellFaces 0 in
  let base := GetCell meshFaces baseFace in
  let adjacent := GetCell meshFaces (at_ stale cellFaces 1) in
  cellShape meshFaces cellFaces = VTK_TETRA
  /\ exists s' apex,
       insertShape' additionalCells cellId s = Continue s'
       /\ Cells s'
          = Cells s ++ [mkCell VTK_TETRA
                          ((if isOwner' baseFace cellId then reverse base else base) ++ [apex])
                          None]
       /\ Messages s' = Messages s
       /\ ((exists i, adjacent !! i = Some apex /\ (apex ∉ base)
                      /\ forall j y, (j < i)%nat -> adjacent !! j = Some y -> y ∈ base)
           \/ (Forall (fun y => y ∈ base) adjacent /\ last adjacent = Some apex)).
Proof.
  intros cellFaces Hlen Hall Hscratch baseFace base adjacent.
  assert (Hshape : cellShape meshFaces cellFaces = VTK_TETRA).
  { unfold cellShape, size. rewrite Hlen. cbn [Z.of_nat Pos.of_succ_nat Pos.succ Z.eqb Pos.eqb].
    rewrite (allOfSize_true meshFaces 3 cellFaces false Hall); [reflexivity|].
    left. intros E. rewrite E in Hlen. discriminate. }
  split; [exact Hshape|].
  unfold insertShape. fold cellFaces. rewrite Hshape.
  assert (Hsizes : forall i f, cellFaces !! i = Some f -> size (GetCell meshFaces f) = 3).
  { intros i f Hi. unfold size. rewrite length_GetCell.
    rewrite Forall_forall in Hall. rewrite (Hall f); [reflexivity|].
    eapply list_elem_of_lookup_2. exact Hi. }
  destruct cellFaces as [|f0 [|f1 rest]] eqn:Ec; try discriminate Hlen.
  destruct (insertPyramidOrTetra_cell VTK_TETRA cellId (f0 :: f1 :: rest) s 0 eq_refl)
    as (s' & apex & Hs & Hcells & Hmsg & Hapex).
  - exact (Hsizes 0%nat f0 eq_refl).
  - intros E. apply (f_equal length) in E. pose proof (Hsizes 1%nat f1 eq_refl) as H1.
    unfold size in H1. change (at_ stale (f0 :: f1 :: rest) (if 0 =? 0 then 1 else 0)) with f1 in E.
    rewrite E in H1. discriminate.
  - cbn. lia.
  - exists s', apex. rewrite Hs. split; [reflexivity|]. split; [exact Hcells|].
    split; [exact Hmsg|exact Hapex].
Qed.

(** X3: a cell of five faces, four with three points and one with four, is
    inserted as one VTK_PYRAMID of five point ids: the four points of the
    face with four points, reversed if the cell owns that face, followed by
    the apex.  The apex is taken from the cell's first face, or from its
    second face when the first is the base: the first point of it that is no
    point of the base, and its last point when all of them are. *)
Theorem pyramid_cell additionalCells cellId (s : GridState) :
  let cellFaces := GetCell meshCells cellId in
  length cellFaces = 5%nat ->
  countOfSize meshFaces 3 cellFaces = 4%nat ->
  countOfSize meshFaces 4 cellFaces = 1%nat ->
  (5 <= length (cellPoints s))%nat ->
  cellShape meshFaces cellFaces = VTK_PYRAMID
  /\ exists (j : nat) baseFace,
       cellFaces !! j = Some baseFace
       /\ GetSize meshFaces baseFace = 4
       /\ (forall i f, cellFaces !! i = Some f -> i <> j -> GetSize meshFaces f = 3)
       /\ let base := GetCell meshFaces baseFace in
          let adjacent := GetCell meshFaces (at_ stale cellFaces (if j is O then 1 else 0)) in
          exists s' apex,
            insertShape' additionalCells cellId s = Continue s'
            /\ Cells s'
               = Cells s ++ [mkCell VTK_PYRAMID
                               ((if isOwner' baseFace cellId then reverse base else base)
                                  ++ [apex])
                               None]
            /\ Messages s' = Messages s
            /\ ((exists i, adjacent !! i = Some apex /\ (apex ∉ base)
                           /\ forall k y, (k < i)%nat -> adjacent !! k = Some y -> y ∈ base)
                \/ (Forall (fun y => y ∈ base) adjacent /\ last adjacent = Some apex)).
Proof.
  intros cellFaces Hlen H3 H4 Hscratch.
  assert (Hshape : cellShape meshFaces cellFaces = VTK_PYRAMID).
  { unfold cellShape, size. rewrite Hlen. cbn [Z.of_nat Pos.of_succ_nat Pos.succ Z.eqb Pos.eqb].
    pose proof (countTrisQuads_spec meshFaces cellFaces 0 0) as Hc.
    destruct (countTrisQuads meshFaces cellFaces 0 0) as [t q].
    replace t with 4 by lia. replace q with 1 by lia. reflexivity. }
  split; [exact Hshape|].
  destruct (pyramid_base cellFaces) as (l1 & f & l2 & Hsplit & Hrest & Hf & Hfirst); [lia|exact H4|].
  exists (length l1), f.
  split; [rewrite Hsplit; apply list_lookup_middle; reflexivity|].
  split; [exact Hf|].
  assert (Hthree : forall i g, cellFaces !! i = Some g -> i <> length l1 ->
                     GetSize meshFaces g = 3).
  { intros i g Hi Hne. rewrite Forall_forall in Hrest. apply Hrest.
    rewrite Hsplit in Hi. rewrite elem_of_app.
    destruct (decide (i < length l1)%nat) as [Hlt|Hge].
    - rewrite lookup_app_l in Hi by exact Hlt. left. eapply list_elem_of_lookup_2. exact Hi.
    - rewrite lookup_app_r in Hi by lia.
      destruct (i - length l1)%nat as [|k] eqn:Ek; [lia|].
      right. eapply list_elem_of_lookup_2. exact Hi. }
  split; [exact Hthree|].
  intros base adjacent.
  unfold insertShape. fold cellFaces. rewrite Hshape.
  destruct (insertPyramidOrTetra_cell VTK_PYRAMID cellId cellFaces s (Z.of_nat (length l1)) Hfirst)
    as (s' & apex & Hs & Hcells & Hmsg & Hapex).
  - rewrite (at_lookup stale cellFaces (length l1) f)
      by (rewrite Hsplit; apply list_lookup_middle; reflexivity).
    unfold size. rewrite length_GetCell, Hf. reflexivity.
  - intros E. apply (f_equal length) in E. rewrite length_GetCell in E.
    assert (Hadj : exists i g, (Z.of_nat i = if Z.of_nat (length l1) =? 0 then 1 else 0)
                               /\ cellFaces !! i = Some g /\ i <> length l1).
    { destruct cellFaces as [|g0 [|g1 rest]] eqn:Ec; try discriminate Hlen.
      destruct (length l1); [exists 1%nat, g1|exists 0%nat, g0]; repeat split; lia. }
    destruct Hadj as (i & g & Hi & Hg & Hne). rewrite <- Hi in E.
    rewrite (at_lookup stale cellFaces i g Hg) in E. rewrite (Hthree i g Hg Hne) in E.
    discriminate.
  - cbn. lia.
  - rewrite (at_lookup stale cellFaces (length l1) f) in Hcells, Hapex
      by (rewrite Hsplit; apply list_lookup_middle; reflexivity).
    replace (if Z.of_nat (length l1) =? 0 then 1 else 0)
      with (if length l1 is O then 1 else 0) in Hapex by (destruct (length l1); reflexivity).
    exists s', apex. rewrite Hs. split; [reflexivity|]. split; [exact Hcells|].
    split; [exact Hmsg|exact Hapex].
Qed.

End PyramidFacts.

Lemma tetrahedron_cell_witness :
  let stale := fun _ : nat => 0 in
  let s := scratch (fun _ : nat => 0) 2 None [] in
  let cellFaces := GetCell largeLastCells 0 in
  length cellFaces = 4%nat
  /\ Forall (fun f => GetSize largeLastFaces f = 3) cellFaces
  /\ (4 <= length (cellPoints s))%nat
  /\ exists s',
       insertShape stale largeLastOwner largeLastCells largeLastFaces noDecompose false 0 s
       = Continue s'
       /\ Cells s' = [mkCell VTK_TETRA [1; 2; 0; 3] None].
Proof.
  intros stale s cellFaces.
  assert (H1 : length cellFaces = 4%nat) by reflexivity.
  assert (H2 : Forall (fun f => GetSize largeLastFaces f = 3) cellFaces)
    by (repeat constructor).
  assert (H3 : (4 <= length (cellPoints s))%nat) by (vm_compute; lia).
  split; [exact H1|]. split; [exact H2|]. split; [exact H3|].
  destruct (tetrahedron_cell stale largeLastOwner largeLastCells largeLastFaces noDecompose
              false 0 s H1 H2 H3)
    as (_ & s' & apex & Hins & _).
  exists s'. split; [exact Hins|].
  vm_compute in Hins. injection Hins as <-. reflexivity.
Defined.

Lemma pyramid_cell_witness :
  let stale := fun _ : nat => 0 in
  let s := scratch (fun _ : nat => 0) 1 None [] in
  let cellFaces := GetCell pyramidCells 0 in
  length cellFaces = 5%nat
  /\ countOfSize pyramidFaces 3 cellFaces = 4%nat
  /\ countOfSize pyramidFaces 4 cellFaces = 1%nat
  /\ (5 <= length (cellPoints s))%nat
  /\ exists s',
       insertShape stale pyramidOwner pyramidCells pyramidFaces noDecompose false 0 s
       = Continue s'
       /\ Cells s' = [mkCell VTK_PYRAMID [1; 2; 3; 0; 4] None].
Proof.
  intros stale s cellFaces.
  assert (H1 : length cellFaces = 5%nat) by reflexivity.
  assert (H2 : countOfSize pyramidFaces 3 cellFaces = 4%nat) by reflexivity.
  assert (H3 : countOfSize pyramidFaces 4 cellFaces = 1%nat) by reflexivity.
  assert (H4 : (5 <= length (cellPoints s))%nat) by (vm_compute; lia).
  split; [exact H1|]. split; [exact H2|]. split; [exact H3|]. split; [exact H4|].
  destruct (pyramid_cell stale pyramidOwner pyramidCells pyramidFaces noDecompose
              false 0 s H1 H2 H3 H4)
    as (_ & j & baseFace & _ & _ & _ & s' & apex & Hins & _).
  exists s'. split; [exact Hins|].
  vm_compute in Hins. injection Hins as <-. reflexivity.
Defined.

(** ** The polyhedron that is not decomposed *)

Section PolyhedronCellFacts.

Context (stale : nat -> Z).
Context (FaceOwner : vtkLabelArray).
Context (meshCells meshFaces : vtkFoamLabelListList).
Context (decompose : Z -> list Z -> GridState -> GridState).

Local Abbreviation isOwner' := (isOwner FaceOwner).
Local Abbreviation insertShape' := (insertShape stale FaceOwner meshCells meshFaces decompose).

Local Ltac limits := unfold maxNPoints, maxNPolyPoints in *; lia.

Lemma length_keepNew (points ids : list Z) : (length ids <= length (keepNew points ids))%nat.
Proof.
  revert ids. induction points as [|k points IH]; intros ids; cbn; [lia|].
  etransitivity; [|apply IH]. destruct (decide (k ∈ ids)); [lia|]. rewrite length_app. lia.
Qed.

Lemma keepNew_app (a b ids : list Z) : keepNew (a ++ b) ids = keepNew b (keepNew a ids).
Proof. apply fold_left_app. Qed.

(** What the scratch arrays hold: the cell points and the face stream so
    far, within the limits. *)
Definition holds (p : PolyScratch) (ids stream : list Z) : Prop :=
  p_nPoints p = Z.of_nat (length ids)
  /\ p_nPolyPoints p = Z.of_nat (length stream)
  /\ take (length ids) (p_cellPoints p) = ids
  /\ take (length stream) (p_polyPoints p) = stream
  /\ maxNPoints <= Z.of_nat (length (p_cellPoints p))
  /\ maxNPolyPoints <= Z.of_nat (length (p_polyPoints p))
  /\ Z.of_nat (length ids) <= maxNPoints
  /\ Z.of_nat (length stream) <= maxNPolyPoints.

Lemma take_SetId (l : list Z) (n : nat) k :
  (n < length l)%nat -> take (S n) (SetId l (Z.of_nat n) k) = take n l ++ [k].
Proof.
  intros Hn. unfold SetId. rewrite Nat2Z.id.
  rewrite (take_S_r _ _ k) by (apply list_lookup_insert_eq; exact Hn).
  rewrite take_insert_ge by lia. reflexivity.
Qed.

(** Whether a point is among the cell points kept so far, as the search
    finds it. *)
Lemma foundKept_spec (cellPoints : list Z) (n : nat) k :
  (n <= length cellPoints)%nat ->
  negb (firstIndex (fun l => GetId cellPoints l =? k) (upFrom 0 (Z.of_nat n)) (Z.of_nat n)
        =? Z.of_nat n) = true
  <-> k ∈ take n cellPoints.
Proof.
  intros Hn. rewrite negb_true_iff, Z.eqb_neq. split.
  - intros H. apply firstIndex_found in H as (i & Hi & Hk).
    apply elem_of_upFrom in Hi. apply Z.eqb_eq in Hk. subst k.
    unfold GetId. apply (list_elem_of_lookup_2 _ (Z.to_nat i)).
    rewrite lookup_take_lt by lia. apply list_lookup_lookup_total_lt. lia.
  - intros Hk. apply list_elem_of_lookup in Hk as [i Hi].
    pose proof (lookup_lt_Some _ _ _ Hi) as Hlt. rewrite length_take in Hlt.
    rewrite lookup_take_lt in Hi by lia.
    destruct (firstIndex_spec (fun l => GetId cellPoints l =? k)
                (upFrom 0 (Z.of_nat n)) (Z.of_nat n))
      as [[Hall _]|(l1 & j & l2 & Hl & _ & _ & ->)].
    + rewrite Forall_forall in Hall. specialize (Hall (Z.of_nat i)).
      unfold GetId in Hall. rewrite Nat2Z.id in Hall.
      rewrite (list_lookup_total_correct _ _ _ Hi), Z.eqb_refl in Hall.
      assert (true = false); [|discriminate].
      apply Hall. apply elem_of_upFrom. lia.
    + assert (Hj : j ∈ upFrom 0 (Z.of_nat n))
        by (rewrite Hl, elem_of_app, elem_of_cons; right; left; reflexivity).
      apply elem_of_upFrom in Hj. lia.
Qed.

Lemma addFacePoint_step k (p : PolyScratch) (ids stream : list Z) :
  holds p ids stream ->
  let ids' := if decide (k ∈ ids) then ids else ids ++ [k] in
  match addFacePoint k p with
  | Some p' => holds p' ids' (stream ++ [k])
  | None =>
      maxNPoints < Z.of_nat (length ids') \/ maxNPolyPoints < Z.of_nat (length (stream ++ [k]))
  end.
Proof.
  intros (Hn & Hm & Hids & Hstream & Hc & Hp & Hi & Hs) ids'.
  assert (Hle : (length ids <= length (p_cellPoints p))%nat) by limits.
  assert (Hle' : (length stream <= length (p_polyPoints p))%nat) by limits.
  pose proof (foundKept_spec (p_cellPoints p) (length ids) k Hle) as Hdup.
  rewrite Hids in Hdup.
  unfold addFacePoint. rewrite Hn, Hm.
  destruct (negb (firstIndex _ _ _ =? _)) eqn:E; cbn [negb].
  - assert (Hin : k ∈ ids) by (apply Hdup; reflexivity).
    subst ids'. rewrite decide_True by exact Hin. rewrite ?Hm.
    destruct (Z.leb_spec maxNPolyPoints (Z.of_nat (length stream))) as [Hfull|Hroom].
    + right. rewrite length_app. cbn [length]. limits.
    + unfold holds. cbn [p_nPoints p_nPolyPoints p_cellPoints p_polyPoints].
      rewrite length_app. cbn [length]. unfold SetId. rewrite length_insert.
      repeat split; try assumption; try limits.
      replace (length stream + 1)%nat with (S (length stream)) by lia.
      rewrite <- Hstream at 3. apply take_SetId. limits.
  - assert (Hnotin : k ∉ ids) by (intros Hin; apply Hdup in Hin; congruence).
    subst ids'. rewrite decide_False by exact Hnotin. rewrite length_app. cbn [length].
    destruct (Z.leb_spec maxNPoints (Z.of_nat (length ids))) as [Hfull|Hroom].
    + left. limits.
    + cbn [p_nPoints p_nPolyPoints p_cellPoints p_polyPoints]. rewrite ?Hm.
      destruct (Z.leb_spec maxNPolyPoints (Z.of_nat (length stream))) as [Hfull'|Hroom'].
      * right. rewrite length_app. cbn [length]. limits.
      * unfold holds. cbn [p_nPoints p_nPolyPoints p_cellPoints p_polyPoints].
        rewrite !length_app. cbn [length]. unfold SetId. rewrite !length_insert.
        repeat split; try assumption; try limits.
        -- replace (length ids + 1)%nat with (S (length ids)) by lia.
           rewrite <- Hids at 3. apply take_SetId. limits.
        -- replace (length stream + 1)%nat with (S (length stream)) by lia.
           rewrite <- Hstream at 3. apply take_SetId. limits.
Qed.

Lemma addFacePoints_step (points : list Z) (p : PolyScratch) (ids stream : list Z) :
  holds p ids stream ->
  match addFacePoints points p with
  | Some p' => holds p' (keepNew points ids) (stream ++ points)
  | None =>
      maxNPoints < Z.of_nat (length (keepNew points ids))
      \/ maxNPolyPoints < Z.of_nat (length (stream ++ points))
  end.
Proof.
  revert p ids stream. induction points as [|k points IH]; intros p ids stream Hholds.
  - cbn. rewrite app_nil_r. exact Hholds.
  - cbn [addFacePoints keepNew fold_left].
    pose proof (addFacePoint_step k p ids stream Hholds) as Hstep. cbv zeta in Hstep.
    fold (keepNew points (if decide (k ∈ ids) then ids else ids ++ [k])).
    replace (stream ++ k :: points) with ((stream ++ [k]) ++ points)
      by (rewrite <- app_assoc; reflexivity).
    destruct (addFacePoint k p) as [p1|].
    + apply IH. exact Hstep.
    + pose proof (length_keepNew points (if decide (k ∈ ids) then ids else ids ++ [k])) as Hgrow.
      rewrite length_app. destruct Hstep as [H|H]; [left; lia|right; lia].
Qed.

Lemma map_at_downFrom (v : list Z) :
  map (at_ stale v) (downFrom (size v - 1) (-1)) = reverse v.
Proof.
  unfold downFrom. replace (-1 + 1) with 0 by lia. replace (size v - 1 - -1) with (size v) by lia.
  unfold reverse. rewrite <- !rev_alt, map_rev. f_equal. apply map_at_forwards.
Qed.

Lemma addFace_step cellId f (p : PolyScratch) (ids stream : list Z) :
  holds p ids stream ->
  let points := GetCell meshFaces f in
  let oriented := if isOwner' f cellId then points else reverse points in
  match addFace stale FaceOwner meshFaces cellId f p with
  | Some p' => holds p' (keepNew oriented ids) (stream ++ size points :: oriented)
  | None =>
      maxNPoints < Z.of_nat (length (keepNew oriented ids))
      \/ maxNPolyPoints < Z.of_nat (length (stream ++ size points :: oriented))
  end.
Proof.
  intros Hholds points oriented. unfold addFace. fold points.
  destruct Hholds as (Hn & Hm & Hids & Hstream & Hc & Hp & Hi & Hs).
  rewrite Hm.
  destruct (Z.leb_spec maxNPolyPoints (Z.of_nat (length stream))) as [Hfull|Hroom].
  { right. rewrite length_app. cbn [length]. limits. }
  set (p1 := mkPoly _ _ _ _).
  assert (H1 : holds p1 ids (stream ++ [size points])).
  { unfold holds, p1. cbn [p_nPoints p_nPolyPoints p_cellPoints p_polyPoints].
    rewrite length_app. cbn [length]. unfold SetId. rewrite length_insert.
    repeat split; try assumption; try limits.
    replace (length stream + 1)%nat with (S (length stream)) by lia.
    rewrite <- Hstream at 3. apply take_SetId. limits. }
  assert (Hpoints : map (at_ stale points)
                      (if isOwner' f cellId then upFrom 0 (size points)
                       else downFrom (size points - 1) (-1)) = oriented).
  { subst oriented. destruct (isOwner' f cellId); [apply map_at_upFrom|apply map_at_downFrom]. }
  rewrite Hpoints.
  pose proof (addFacePoints_step oriented p1 ids (stream ++ [size points]) H1) as Hstep.
  replace ((stream ++ [size points]) ++ oriented) with (stream ++ size points :: oriented)
    in Hstep by (rewrite <- app_assoc; reflexivity).
  exact Hstep.
Qed.

(** The points and the face stream of the faces of a cell as the cell sees
    them. *)
Lemma addFaces_step cellId (faces : list Z) (p : PolyScratch) (ids stream : list Z) :
  holds p ids stream ->
  let oriented f :=
    if isOwner' f cellId then GetCell meshFaces f else reverse (GetCell meshFaces f) in
  let ids' := keepNew (concat (oriented <$> faces)) ids in
  let stream' :=
    stream ++ concat ((fun f => size (GetCell meshFaces f) :: oriented f) <$> faces) in
  match addFaces stale FaceOwner meshFaces cellId faces p with
  | Some p' => holds p' ids' stream'
  | None => maxNPoints < Z.of_nat (length ids') \/ maxNPolyPoints < Z.of_nat (length stream')
  end.
Proof.
  intros Hholds oriented. revert p ids stream Hholds.
  induction faces as [|f faces IH]; intros p ids stream Hholds; cbn [addFaces].
  - cbn. rewrite app_nil_r. exact Hholds.
  - rewrite !fmap_cons. cbn [concat]. rewrite keepNew_app.
    pose proof (addFace_step cellId f p ids stream Hholds) as Hstep. cbv zeta in Hstep.
    fold (oriented f) in Hstep.
    replace (stream ++ (size (GetCell meshFaces f) :: oriented f)
               ++ concat ((fun f => size (GetCell meshFaces f) :: oriented f) <$> faces))
      with ((stream ++ size (GetCell meshFaces f) :: oriented f)
              ++ concat ((fun f => size (GetCell meshFaces f) :: oriented f) <$> faces))
      by (rewrite <- app_assoc; reflexivity).
    destruct (addFace stale FaceOwner meshFaces cellId f p) as [p1|].
    + apply IH. exact Hstep.
    + pose proof (length_keepNew (concat (oriented <$> faces)) (keepNew (oriented f) ids)) as Hg.
      rewrite length_app. destruct Hstep as [H|H]; [left; lia|right; lia].
Qed.

Lemma forRange_pair {A B : Type} (f : Z -> A -> A) (g : Z -> B -> B) lo hi (a : A) (b : B) :
  forRange lo hi (fun j '(a, b) => (f j a, g j b)) (a, b)
  = (forRange lo hi f a, forRange lo hi g b).
Proof.
  unfold forRange. generalize (seqZ lo (hi - lo)). intros l. revert a b.
  induction l as [|j l IH]; intros a b; [reflexivity|]. cbn [fold_left]. apply IH.
Qed.

(** A loop that stores [f j] at [j + 1] rewrites the array after its first
    slot. *)
Lemma forRange_SetId_shift (f : Z -> Z) (n : nat) (poly : list Z) :
  (n + 1 <= length poly)%nat ->
  forRange 0 (Z.of_nat n) (fun j poly => SetId poly (j + 1) (f j)) poly
  = take 1 poly ++ map f (seqZ 0 (Z.of_nat n)) ++ drop (n + 1) poly.
Proof.
  induction n as [|n IH]; intros Hn.
  - rewrite forRange_empty by lia. cbn [Z.of_nat seqZ map app]. symmetry. apply take_drop.
  - replace (Z.of_nat (S n)) with (Z.of_nat n + 1) by lia.
    rewrite forRange_succ by lia. rewrite IH by lia.
    rewrite seqZ_app by lia. rewrite map_app. cbn [seqZ map].
    unfold SetId. replace (Z.to_nat (Z.of_nat n + 1)) with (n + 1)%nat by lia.
    assert (Hlen : length (take 1 poly ++ map f (seqZ 0 (Z.of_nat n))) = (n + 1)%nat)
      by (rewrite length_app, length_take, length_map, length_seqZ; lia).
    destruct (drop (n + 1) poly) as [|x rest] eqn:E.
    { apply (f_equal length) in E. rewrite length_drop in E. cbn in E. lia. }
    rewrite app_assoc. rewrite insert_app_r_alt by lia.
    rewrite Hlen, Nat.sub_diag. cbn [insert list_insert].
    rewrite <- !app_assoc. cbn [app]. do 3 f_equal.
    replace (S n + 1)%nat with ((n + 1) + 1)%nat by lia. rewrite <- drop_drop, E. reflexivity.
Qed.

(** The loop over the points of the first face. *)
Lemma base_face_loop (owner : bool) (base ids poly : list Z) :
  (length base <= length ids)%nat -> (length base + 1 <= length poly)%nat ->
  let oriented := if owner then base else reverse base in
  forRange 0 (size base)
    (fun j '(ids, poly) =>
       (SetId ids j (at_ stale base (if owner then j else size base - 1 - j)),
        SetId poly (j + 1) (at_ stale base (if owner then j else size base - 1 - j))))
    (ids, poly)
  = (oriented ++ drop (length base) ids, take 1 poly ++ oriented ++ drop (length base + 1) poly).
Proof.
  intros Hi Hp oriented.
  set (g := fun j => at_ stale base (if owner then j else size base - 1 - j)).
  assert (Hmap : map g (seqZ 0 (size base)) = oriented).
  { unfold oriented, g. destruct owner; [apply map_at_forwards|apply map_at_backwards]. }
  etransitivity;
    [exact (forRange_pair (fun j ids => SetId ids j (g j))
              (fun j poly => SetId poly (j + 1) (g j)) 0 (size base) ids poly)|].
  rewrite <- Hmap. f_equal.
  - exact (forRange_SetId g (length base) ids Hi).
  - exact (forRange_SetId_shift g (length base) poly Hp).
Qed.

Lemma cellShape_nil : cellShape meshFaces [] = VTK_EMPTY_CELL.
Proof. reflexivity. Qed.

(** X4: a cell that is neither a known shape nor empty and is not
    decomposed is inserted as one VTK_POLYHEDRON when it fits the scratch
    arrays.  Its face stream lists for every face of the cell the number of
    its points and its points, backwards for a face the cell does not own.
    Its point ids are the points of the first face as the stream has them,
    followed by the points of the other faces in the order of the stream,
    each at its first appearance only.  It fits when there are at most 256
    such ids and at most 1024 entries of the stream; when it does not fit,
    no cell is inserted, the error is reported and the function returns. *)
Theorem polyhedron_cell cellId (s : GridState) :
  let cellFaces := GetCell meshCells cellId in
  cellShape meshFaces cellFaces = VTK_POLYHEDRON ->
  maxNPoints <= Z.of_nat (length (cellPoints s)) ->
  maxNPolyPoints <= Z.of_nat (length (polyPoints s)) ->
  let oriented f :=
    if isOwner' f cellId then GetCell meshFaces f else reverse (GetCell meshFaces f) in
  let ids := keepNew (concat (oriented <$> drop 1 cellFaces)) (oriented (at_ stale cellFaces 0)) in
  let stream := concat ((fun f => size (GetCell meshFaces f) :: oriented f) <$> cellFaces) in
  (Z.of_nat (length ids) <= maxNPoints /\ Z.of_nat (length stream) <= maxNPolyPoints ->
   exists s',
     insertShape' false cellId s = Continue s'
     /\ Cells s' = Cells s ++ [mkCell VTK_POLYHEDRON ids (Some (size cellFaces, stream))]
     /\ Messages s' = Messages s)
  /\ (maxNPoints < Z.of_nat (length ids) \/ maxNPolyPoints < Z.of_nat (length stream) ->
      insertShape' false cellId s = Return (report (TooLargePolyhedron cellId) s)).
Proof.
  intros cellFaces Hshape Hc Hp oriented ids stream.
  unfold insertShape. fold cellFaces. rewrite Hshape.
  destruct cellFaces as [|f0 rest] eqn:Ec; [rewrite cellShape_nil in Hshape; discriminate|].
  change (at_ stale (f0 :: rest) 0) with f0 in *. change (drop 1 (f0 :: rest)) with rest in *.
  set (base := GetCell meshFaces f0).
  assert (Hlo : length (oriented f0) = length base)
    by (unfold oriented; fold base; destruct (isOwner' f0 cellId);
        [reflexivity|apply length_reverse]).
  assert (Hids : (length base <= length ids)%nat)
    by (rewrite <- Hlo; apply length_keepNew).
  assert (Hstream : stream
            = (size base :: oriented f0)
                ++ concat ((fun f => size (GetCell meshFaces f) :: oriented f) <$> rest))
    by reflexivity.
  assert (Hsl : (1 + length base <= length stream)%nat)
    by (rewrite Hstream, length_app; cbn [length]; lia).
  unfold insertPolyhedron. change (at_ stale (f0 :: rest) 0) with f0. fold base.
  change (drop 1 (f0 :: rest)) with rest.
  destruct ((maxNPoints <? size base) || (maxNPolyPoints <? size base + 1)) eqn:Ebase.
  { split; [|reflexivity]. intros [Hi Hs]. exfalso.
    apply orb_true_iff in Ebase as [E|E]; apply Z.ltb_lt in E; unfold size in E; limits. }
  apply orb_false_iff in Ebase as [E1 E2]. apply Z.ltb_ge in E1, E2. unfold size in E1, E2.
  cbv zeta.
  rewrite (base_face_loop (isOwner' f0 cellId) base)
    by (unfold SetId; rewrite ?length_insert; limits).
  change (if isOwner' f0 cellId then base else reverse base) with (oriented f0).
  set (p0 := mkPoly _ _ _ _).
  assert (H0 : holds p0 (oriented f0) (size base :: oriented f0)).
  { unfold holds, p0. cbn [p_nPoints p_nPolyPoints p_cellPoints p_polyPoints length].
    rewrite !length_app, !length_take, !length_drop, Hlo. unfold SetId.
    rewrite !length_insert. unfold size.
    repeat split; try limits.
    - rewrite take_app_length'; [reflexivity|symmetry; exact Hlo].
    - destruct (polyPoints s) as [|x poly] eqn:Epoly; [cbn in Hp; limits|].
      change (Z.to_nat 0) with 0%nat. cbn [insert list_insert take app]. f_equal.
      rewrite take_0. cbn [app].
      rewrite take_app_length'; [reflexivity|symmetry; exact Hlo]. }
  pose proof (addFaces_step cellId rest p0 _ _ H0) as Hstep. cbv zeta in Hstep.
  fold oriented in Hstep. fold ids in Hstep. rewrite <- Hstream in Hstep.
  destruct (addFaces stale FaceOwner meshFaces cellId rest p0) as [p'|].
  - destruct Hstep as (Hn & Hm & Htake & Htake' & _ & _ & Hi & Hs).
    split; [|intros [H|H]; exfalso; lia].
    intros _. eexists. split; [reflexivity|].
    cbn [InsertNextPolyhedron withScratch Cells Messages cellPoints polyPoints].
    split; [|reflexivity].
    rewrite Hn, Hm, !Nat2Z.id, Htake, Htake'. reflexivity.
  - split; [|reflexivity]. intros [Hi Hs]. exfalso. destruct Hstep; lia.
Qed.

End PolyhedronCellFacts.

Lemma polyhedron_cell_witness :
  let stale := fun _ : nat => 0 in
  let s := scratch (fun _ : nat => 0) 1 None [] in
  let cellFaces := GetCell prismCells 0 in
  cellShape prismFaces cellFaces = VTK_POLYHEDRON
  /\ maxNPoints <= Z.of_nat (length (cellPoints s))
  /\ maxNPolyPoints <= Z.of_nat (length (polyPoints s))
  /\ exists s',
       insertShape stale prismOwner prismCells prismFaces noDecompose false 0 s = Continue s'
       /\ Cells s'
          = [mkCell VTK_POLYHEDRON [0; 4; 3; 2; 1; 6; 7; 8; 9; 5]
               (Some (7, [5; 0; 4; 3; 2; 1; 5; 6; 7; 8; 9; 5; 4; 0; 1; 6; 5; 4; 1; 2; 7; 6;
                          4; 2; 3; 8; 7; 4; 3; 4; 9; 8; 4; 4; 0; 5; 9]))].
Proof.
  intros stale s cellFaces.
  assert (H1 : cellShape prismFaces cellFaces = VTK_POLYHEDRON) by reflexivity.
  assert (H2 : maxNPoints <= Z.of_nat (length (cellPoints s))) by (vm_compute; discriminate).
  assert (H3 : maxNPolyPoints <= Z.of_nat (length (polyPoints s))) by (vm_compute; discriminate).
  split; [exact H1|]. split; [exact H2|]. split; [exact H3|].
  destruct (polyhedron_cell stale prismOwner prismCells prismFaces noDecompose 0 s H1 H2 H3)
    as [Hfits _].
  destruct Hfits as (s' & Hins & _); [split; vm_compute; discriminate|].
  exists s'. split; [exact Hins|].
  vm_compute in Hins. injection Hins as <-. reflexivity.
Defined.

(** ** The type of the cell inserted *)

Section CellTypeFacts.

Context (stale : nat -> Z).
Context (FaceOwner : vtkLabelArray).
Context (meshCells meshFaces : vtkFoamLabelListList).
Context (decompose : Z -> list Z -> GridState -> GridState).

Local Abbreviation insertShape' := (insertShape stale FaceOwner meshCells meshFaces decompose).
Local Abbreviation insertWedge' := (insertWedge stale FaceOwner meshFaces).

(** Without decomposition the loop body, when it does not return, inserts
    one cell.  Its type is the shape the cell was classified as, except for
    a wedge for which no pivot point was found: that one is inserted as a
    polyhedron. *)
Lemma insertShape_continue cellId (s s' : GridState) :
  insertShape' false cellId s = Continue s' ->
  let cellFaces := GetCell meshCells cellId in
  exists c,
    Cells s' = Cells s ++ [c]
    /\ cellType c
       = match cellShape meshFaces cellFaces with
         | VTK_WEDGE =>
             if fst (insertWedge' cellId cellFaces s) then VTK_WEDGE else VTK_POLYHEDRON
         | shape => shape
         end.
Proof.
  unfold insertShape. set (cellFaces := GetCell meshCells cellId). cbv zeta.
  assert (Hpoly : forall s0, Cells s0 = Cells s ->
            insertPolyhedron stale FaceOwner meshFaces cellId cellFaces s0 = Continue s' ->
            exists c, Cells s' = Cells s ++ [c] /\ cellType c = VTK_POLYHEDRON).
  { intros s0 Hc H.
    pose proof (insertPolyhedron_outcome stale FaceOwner meshFaces cellId cellFaces s0) as Ho.
    rewrite H in Ho. destruct Ho as (_ & ids & stream & Hcells).
    rewrite Hc in Hcells. eexists. split; [exact Hcells|reflexivity]. }
  destruct (cellShape meshFaces cellFaces) eqn:Eshape.
  - intros H. apply (f_equal stateOf) in H. cbn [stateOf] in H. subst s'.
    eexists. split; reflexivity.
  - intros H. apply (f_equal stateOf) in H. cbn [stateOf] in H. subst s'.
    eexists. split; reflexivity.
  - intros H. apply (f_equal stateOf) in H. cbn [stateOf] in H. subst s'.
    eexists. split; reflexivity.
  - unfold insertWedge.
    destruct (negb _); cbn [fst].
    + intros H. apply (f_equal stateOf) in H. cbn [stateOf] in H. subst s'.
      eexists. split; reflexivity.
    + intros H. apply Hpoly in H; [exact H|reflexivity].
  - intros H. apply (f_equal stateOf) in H. cbn [stateOf] in H. subst s'.
    eexists. split; reflexivity.
  - intros H. apply Hpoly in H; [exact H|reflexivity].
Qed.

(** X1: [InsertCellsToGrid] classifies a cell by the number of its faces
    and the numbers of their points only: a hexahedron for six faces of four
    points, a tetrahedron for four faces of three points, a wedge for two
    faces of three points and three of four, a pyramid for four faces of
    three points and one of four, an empty cell when no face has a point
    (also when there is no face), and a polyhedron in every other case.
    Without decomposition the cell it then inserts, unless it returns for a
    polyhedron that is too large, is one cell of the type classified, with
    one exception: a cell classified as wedge is inserted as VTK_POLYHEDRON
    when the wedge constructor finds no pivot point. *)
Theorem inserted_cell_type cellId (s : GridState) :
  let cellFaces := GetCell meshCells cellId in
  let n := length cellFaces in
  let count k := countOfSize meshFaces k cellFaces in
  let shape := cellShape meshFaces cellFaces in
  ((shape = VTK_HEXAHEDRON <-> n = 6%nat /\ count 4 = 6%nat)
   /\ (shape = VTK_TETRA <-> n = 4%nat /\ count 3 = 4%nat)
   /\ (shape = VTK_WEDGE <-> n = 5%nat /\ count 3 = 2%nat /\ count 4 = 3%nat)
   /\ (shape = VTK_PYRAMID <-> n = 5%nat /\ count 3 = 4%nat /\ count 4 = 1%nat)
   /\ (shape = VTK_EMPTY_CELL <-> count 0 = n)
   /\ (shape = VTK_POLYHEDRON
       <-> count 0 <> n
           /\ ~ (n = 6%nat /\ count 4 = 6%nat) /\ ~ (n = 4%nat /\ count 3 = 4%nat)
           /\ ~ (n = 5%nat /\ count 3 = 2%nat /\ count 4 = 3%nat)
           /\ ~ (n = 5%nat /\ count 3 = 4%nat /\ count 4 = 1%nat)))
  /\ forall s',
       insertShape' false cellId s = Continue s' ->
       exists c,
         Cells s' = Cells s ++ [c]
         /\ cellType c
            = match shape with
              | VTK_WEDGE =>
                  if fst (insertWedge' cellId cellFaces s) then VTK_WEDGE else VTK_POLYHEDRON
              | _ => shape
              end.
Proof.
  intros cellFaces n count shape. split.
  - exact (cellShape_counts meshFaces cellFaces).
  - intros s' H. destruct (insertShape_continue cellId s s' H) as (c & Hc & Ht).
    exists c. split; [exact Hc|]. rewrite Ht. fold cellFaces. fold shape.
    destruct shape; reflexivity.
Qed.

End CellTypeFacts.

(** The pyramid. *)
Lemma inserted_cell_type_witness :
  let stale := fun _ : nat => 0 in
  let s := scratch (fun _ : nat => 0) 1 None [] in
  exists s',
    insertShape stale pyramidOwner pyramidCells pyramidFaces noDecompose false 0 s = Continue s'
    /\ exists c, Cells s' = Cells s ++ [c] /\ cellType c = VTK_PYRAMID.
Proof.
  intros stale s.
  assert (H : insertShape stale pyramidOwner pyramidCells pyramidFaces noDecompose false 0 s
              = Continue (stateOf (insertShape stale pyramidOwner pyramidCells pyramidFaces
                                     noDecompose false 0 s)))
    by (vm_compute; reflexivity).
  eexists. split; [exact H|].
  destruct (inserted_cell_type stale pyramidOwner pyramidCells pyramidFaces noDecompose 0 s)
    as [_ Hins].
  destruct (Hins _ H) as (c & Hc & Ht).
  exists c. split; [exact Hc|]. rewrite Ht. reflexivity.
Defined.

(** ** One grid cell for every cell *)

Section CellByCellFacts.

Context (stale : nat -> Z) (garbage : nat -> Z).
Context (FaceOwner : vtkLabelArray) (this_NumCells : Z).
Context (meshCells meshFaces : vtkFoamLabelListList).
Context (decompose : Z -> list Z -> GridState -> GridState).

Local Abbreviation insertCell' :=
  (insertCell stale FaceOwner this_NumCells meshCells meshFaces decompose).
Local Abbreviation insertCells' :=
  (insertCells stale FaceOwner this_NumCells meshCells meshFaces decompose).

(** What the grid cell of round [cellI] is: an empty cell for a label
    beyond the mesh, a cell of the shape of the mesh cell otherwise, a wedge
    possibly turned polyhedron. *)
Local Abbreviation cellOfRound cellList cellI c :=
  (if labelExceeds this_NumCells cellList cellI then c = mkCell VTK_EMPTY_CELL [] None
   else let shape := cellShape meshFaces (GetCell meshCells (cellIdAt cellList cellI)) in
        cellType c = shape \/ (shape = VTK_WEDGE /\ cellType c = VTK_POLYHEDRON)).

Lemma insertCell_continue cellList cellI (s s' : GridState) :
  insertCell' cellList false cellI s = Continue s' ->
  exists c, Cells s' = Cells s ++ [c] /\ cellOfRound cellList cellI c.
Proof.
  assert (Hshape : forall cellId s0, Cells s0 = Cells s ->
            insertShape stale FaceOwner meshCells meshFaces decompose false cellId s0
            = Continue s' ->
            exists c, Cells s' = Cells s ++ [c]
                      /\ let shape := cellShape meshFaces (GetCell meshCells cellId) in
                         cellType c = shape \/ (shape = VTK_WEDGE /\ cellType c = VTK_POLYHEDRON)).
  { intros cellId s0 Hc H.
    destruct (insertShape_continue stale FaceOwner meshCells meshFaces decompose cellId s0 s' H)
      as (c & Hcells & Ht).
    exists c. rewrite <- Hc. split; [exact Hcells|]. cbv zeta in *.
    destruct (cellShape meshFaces (GetCell meshCells cellId)); try (left; exact Ht).
    destruct (fst _); [left; exact Ht|right; split; [reflexivity|exact Ht]]. }
  unfold insertCell, labelExceeds, cellIdAt. destruct cellList as [list|].
  - destruct (this_NumCells <=? _).
    + intros H. apply (f_equal stateOf) in H. cbn [stateOf] in H. subst s'.
      eexists. split; reflexivity.
    + intros H. apply Hshape in H; [exact H|reflexivity].
  - intros H. apply Hshape in H; [exact H|reflexivity].
Qed.

Lemma insertCells_continue cellList (cells : list Z) (s s' : GridState) :
  insertCells' cellList false cells s = Continue s' ->
  exists inserted,
    Cells s' = Cells s ++ inserted
    /\ Forall2 (fun cellI c => cellOfRound cellList cellI c) cells inserted.
Proof.
  revert s. induction cells as [|cellI cells IH]; intros s H; cbn [insertCells] in H.
  - apply (f_equal stateOf) in H. cbn [stateOf] in H. subst s'.
    exists []. split; [symmetry; apply app_nil_r|constructor].
  - destruct (insertCell' cellList false cellI s) as [s1|s1] eqn:E; [|discriminate].
    destruct (insertCell_continue cellList cellI s s1 E) as (c & Hc & Hround).
    destruct (IH s1 H) as (inserted & Hcells & Hall).
    exists (c :: inserted). split.
    + rewrite Hcells, Hc, <- app_assoc. reflexivity.
    + constructor; assumption.
Qed.

Lemma insertCells_return cellList (cells : list Z) (s s' : GridState) :
  insertCells' cellList false cells s = Return s' ->
  exists reported, TooLargePolyhedron reported ∈ Messages s'.
Proof.
  revert s. induction cells as [|cellI cells IH]; intros s H; cbn [insertCells] in H;
    [discriminate|].
  destruct (insertCell' cellList false cellI s) as [s1|s1] eqn:E.
  - exact (IH s1 H).
  - apply (f_equal stateOf) in H. cbn [stateOf] in H. subst s1.
    apply insertCell_return in E as (_ & _ & reported & Hm).
    exists reported. rewrite Hm. apply elem_of_app. right. constructor.
Qed.


End CellByCellFacts.


(** ** ReadLabelListList: sub-lists written with their size *)

Section SizedListsFacts.

Context {double : Type} (garbage : nat -> Z).

Local Abbreviation token := (vtkFoamToken double).
Local Abbreviation io_ := (@mkIO double).

(** The labels of one sub-list, stored from [Offsets[idx] + j0] on. *)
Lemma read_sublist_labels idx (values : list Z) : forall j0 (lll : vtkFoamLabelListList) rest l64 f64,
  IsLabel64 lll = true -> Forall isLabel64 values ->
  0 <= GetValue (Offsets lll) idx -> 0 <= j0 ->
  (Z.to_nat (GetValue (Offsets lll) idx + j0) + length values <= length (Data lll))%nat ->
  fold_left (fun r subIdx =>
               bindR r (fun st : vtkFoamLabelListList * vtkFoamIOobject =>
                 let '(lll, io) := st in
                 do r <- ReadValue_int io;
                 let '(value, io) := r in
                 inr (LLL_SetValue2 lll idx subIdx value, io)))
    (seqZ j0 (Z.of_nat (length values)))
    (inr (lll, io_ ((TLabel <$> values) ++ rest) l64 f64))
  = inr (mkLabelListList true (Offsets lll)
           (take (Z.to_nat (GetValue (Offsets lll) idx + j0)) (Data lll) ++ values
            ++ drop (Z.to_nat (GetValue (Offsets lll) idx + j0) + length values) (Data lll)),
         io_ rest l64 f64).
Proof.
  set (f := fun (r : Result (vtkFoamLabelListList * @vtkFoamIOobject double)) (subIdx : Z) =>
              bindR r _).
  induction values as [|v values IH]; intros j0 lll rest l64 f64 H64 Hvs Hoff Hj Hroom.
  - cbn [length Z.of_nat seqZ fold_left fmap list_fmap app].
    rewrite Nat.add_0_r, take_drop. destruct lll as [is64 offs data]. cbn in H64. subst is64.
    reflexivity.
  - inversion Hvs as [|? ? Hv Hvs']; subst.
    replace (Z.of_nat (length (v :: values))) with (Z.succ (Z.of_nat (length values)))
      by (cbn [length]; lia).
    rewrite seqZ_cons by lia. rewrite Z.pred_succ. cbn [fold_left].
    set (lll1 := LLL_SetValue2 lll idx j0 v).
    replace (f (inr (lll, io_ ((TLabel <$> v :: values) ++ rest) l64 f64)) j0)
      with (@inr vtkFoamError _ (lll1, io_ ((TLabel <$> values) ++ rest) l64 f64))
      by reflexivity.
    assert (Hoffs1 : Offsets lll1 = Offsets lll) by reflexivity.
    assert (Hdata1 : Data lll1
                     = <[Z.to_nat (GetValue (Offsets lll) idx + j0) := v]> (Data lll)).
    { unfold lll1, LLL_SetValue2, SetValue, castLabel. cbn [Data]. rewrite H64.
      rewrite wrap64_small by exact Hv. reflexivity. }
    cbn [length] in Hroom.
    assert (Hroom1 : (Z.to_nat (GetValue (Offsets lll1) idx + Z.succ j0) + length values
                      <= length (Data lll1))%nat)
      by (rewrite Hoffs1, Hdata1, length_insert; lia).
    rewrite (IH (Z.succ j0) lll1 rest l64 f64 H64 Hvs' Hoff ltac:(lia) Hroom1).
    rewrite Hoffs1, Hdata1. f_equal. f_equal. f_equal.
    set (a := Z.to_nat (GetValue (Offsets lll) idx + j0)).
    replace (Z.to_nat (GetValue (Offsets lll) idx + Z.succ j0)) with (S a) by lia.
    rewrite (take_S_r _ _ v) by (apply list_lookup_insert_eq; lia).
    rewrite take_insert_ge by lia. rewrite <- app_assoc. cbn [app length].
    do 3 f_equal. rewrite drop_insert_lt by lia. f_equal. lia.
Qed.

Lemma length_growTo n (a : list Z) :
  length (growTo garbage n a) = Nat.max (length a) (Z.to_nat n).
Proof. unfold growTo. rewrite length_app, length_map, length_seq. lia. Qed.

Lemma take_growTo n (a : list Z) k :
  (k <= length a)%nat -> take k (growTo garbage n a) = take k a.
Proof. intros Hk. unfold growTo. apply take_app_le. exact Hk. Qed.

(** One sub-list written with its size: the round of the loop stores its
    labels after the labels read so far. *)
Lemma readSublist_sized idx (l C : list Z) (lll : vtkFoamLabelListList) rest l64 f64 :
  IsLabel64 lll = true -> Forall isLabel64 l ->
  0 <= idx -> (Z.to_nat idx < length (Offsets lll))%nat ->
  take (length C) (Data lll) = C ->
  Z.of_nat (length (C ++ l)) < 2 ^ 63 ->
  exists lll',
    readSublist garbage idx
      (lll, Z.of_nat (length C), io_ (sizedSublist l ++ rest) l64 f64)
    = inr (lll', Z.of_nat (length (C ++ l)), io_ rest l64 f64)
    /\ IsLabel64 lll' = true
    /\ Offsets lll' = <[Z.to_nat idx := Z.of_nat (length C)]> (Offsets lll)
    /\ take (length (C ++ l)) (Data lll') = C ++ l.
Proof.
  intros H64 Hl Hidx Hlt HC Hmax. rewrite length_app in Hmax.
  assert (HlenC : (length C <= length (Data lll))%nat)
    by (pose proof (f_equal length HC) as H; rewrite length_take in H; lia).
  set (nTotal := Z.of_nat (length C)).
  set (lllw := LLL_WritePointer garbage lll idx nTotal (Z.of_nat (length l))).
  assert (Hcast : castLabel (IsLabel64 lll) nTotal = nTotal)
    by (rewrite H64; apply wrap64_small; unfold nTotal; lia).
  assert (Hw64 : IsLabel64 lllw = true) by exact H64.
  assert (Hwoffs : Offsets lllw = <[Z.to_nat idx := nTotal]> (Offsets lll))
    by (unfold lllw, LLL_WritePointer, SetValue; cbn [Offsets]; rewrite Hcast; reflexivity).
  assert (Hwdata : Data lllw = growTo garbage (nTotal + Z.of_nat (length l)) (Data lll))
    by (unfold lllw, LLL_WritePointer, WritePointer; cbn [Data]; rewrite Hcast; reflexivity).
  assert (Hwoff : GetValue (Offsets lllw) idx = nTotal).
  { rewrite Hwoffs. unfold GetValue. apply list_lookup_total_insert_eq. exact Hlt. }
  pose proof (read_sublist_labels idx l 0 lllw ([TPunctuation chClose] ++ rest) l64 f64
                Hw64 Hl) as Hin.
  rewrite Hwoff, Z.add_0_r in Hin.
  assert (Hroom : (Z.to_nat nTotal + length l <= length (Data lllw))%nat)
    by (rewrite Hwdata, length_growTo; unfold nTotal; lia).
  specialize (Hin ltac:(unfold nTotal; lia) ltac:(lia) Hroom).
  eexists. split.
  - unfold readSublist, sizedSublist.
    cbn [io_Read tokens withTokens io_IsLabel64 io_IsFloat64 app].
    replace (Z.of_nat (length l) <? 0) with false by (symmetry; apply Z.ltb_ge; lia).
    fold nTotal. fold lllw. cbn [IsAsciiFormat].
    cbn [ReadExpecting io_Read tokens withTokens io_IsLabel64 io_IsFloat64 Token_eq_char bindR].
    rewrite Z.eqb_refl. cbn [bindR].
    unfold forRangeR. rewrite Z.sub_0_r.
    rewrite <- app_assoc.
    etransitivity.
    { apply (f_equal (fun r => bindR r _)). exact Hin. }
    cbn [bindR ReadExpecting io_Read tokens withTokens io_IsLabel64 io_IsFloat64
         Token_eq_char app].
    rewrite Z.eqb_refl. cbn [bindR].
    rewrite length_app, Nat2Z.inj_add. reflexivity.
  - cbn [IsLabel64 Offsets Data]. split; [reflexivity|]. split; [exact Hwoffs|].
    rewrite Hwdata. unfold nTotal. rewrite Nat2Z.id.
    rewrite take_growTo by exact HlenC. rewrite HC.
    rewrite app_assoc. apply take_app_length.
Qed.

(** The rounds of the loop over the sub-lists, from round [k] on. *)
Lemma readSublists_sized (lists : list (list Z)) :
  forall (k : nat) (C : list Z) (lll : vtkFoamLabelListList) rest l64 f64,
  IsLabel64 lll = true -> Forall (Forall isLabel64) lists ->
  (k + length lists <= length (Offsets lll))%nat ->
  take (length C) (Data lll) = C ->
  Z.of_nat (length (C ++ concat lists)) < 2 ^ 63 ->
  exists lll',
    fold_left (fun r i => bindR r (readSublist garbage i))
      (seqZ (Z.of_nat k) (Z.of_nat (length lists)))
      (inr (lll, Z.of_nat (length C),
            io_ (concat (sizedSublist <$> lists) ++ rest) l64 f64))
    = inr (lll', Z.of_nat (length (C ++ concat lists)), io_ rest l64 f64)
    /\ IsLabel64 lll' = true
    /\ length (Offsets lll') = length (Offsets lll)
    /\ (forall i : nat,
          Offsets lll' !! i
          = if decide (k <= i < k + length lists)%nat
            then Some (Z.of_nat (length (C ++ concat (take (i - k) lists))))
            else Offsets lll !! i)
    /\ take (length (C ++ concat lists)) (Data lll') = C ++ concat lists.
Proof.
  induction lists as [|l lists IH]; intros k C lll rest l64 f64 H64 Hall Hlen HC Hmax.
  - exists lll. cbn [length Z.of_nat seqZ fold_left fmap list_fmap concat app].
    rewrite app_nil_r. split; [reflexivity|]. split; [exact H64|]. split; [reflexivity|].
    split; [|exact HC].
    intros i. rewrite decide_False by lia. reflexivity.
  - inversion Hall as [|? ? Hl Hall']; subst. cbn [length] in Hlen.
    cbn [concat] in Hmax. rewrite app_assoc in Hmax.
    destruct (readSublist_sized (Z.of_nat k) l C lll
                (concat (sizedSublist <$> lists) ++ rest) l64 f64 H64 Hl)
      as (lll1 & Hread & H64' & Hoffs1 & HC1).
    { lia. }
    { rewrite Nat2Z.id. lia. }
    { exact HC. }
    { rewrite !length_app in Hmax. rewrite length_app. lia. }
    rewrite Nat2Z.id in Hoffs1.
    destruct (IH (S k) (C ++ l) lll1 rest l64 f64 H64' Hall')
      as (lll' & Hfold & H64'' & Hlen' & Hoffs' & HC').
    { rewrite Hoffs1, length_insert. lia. }
    { exact HC1. }
    { exact Hmax. }
    exists lll'.
    replace (Z.of_nat (length (l :: lists))) with (Z.succ (Z.of_nat (length lists)))
      by (cbn [length]; lia).
    rewrite seqZ_cons by lia. rewrite Z.pred_succ. cbn [fold_left bindR].
    rewrite fmap_cons. cbn [concat]. rewrite <- app_assoc, Hread.
    replace (Z.succ (Z.of_nat k)) with (Z.of_nat (S k)) by lia.
    cbn [concat]. rewrite app_assoc.
    split; [exact Hfold|]. split; [exact H64''|].
    split; [rewrite Hlen', Hoffs1, length_insert; reflexivity|].
    split; [|exact HC'].
    intros i. rewrite Hoffs'. cbn [length].
    destruct (decide (S k <= i < S k + length lists)%nat) as [Hi|Hi].
    + rewrite decide_True by lia.
      replace (i - k)%nat with (S (i - S k)) by lia. cbn [take concat].
      rewrite app_assoc. reflexivity.
    + rewrite Hoffs1. destruct (decide (i = k)) as [->|Hne].
      * rewrite decide_True by lia. rewrite list_lookup_insert_eq by lia.
        rewrite Nat.sub_diag. cbn [take concat]. rewrite app_nil_r. reflexivity.
      * rewrite decide_False by lia. apply list_lookup_insert_ne. lia.
Qed.

(** The offsets of packed lists are the running sums of the lengths. *)
Lemma packLists_offsets (lists : list (list Z)) :
  Offsets (packLists lists)
  = (fun k => Z.of_nat (length (concat (take k lists)))) <$> seq 0 (S (length lists)).
Proof.
  unfold packLists. cbn [Offsets].
  induction lists as [|l lists IH] using rev_ind; [reflexivity|].
  rewrite fold_left_app. cbn [fold_left]. rewrite IH. clear IH.
  set (n := length lists).
  assert (Hlast : last ((fun k => Z.of_nat (length (concat (take k lists)))) <$> seq 0 (S n))
                  = Some (Z.of_nat (length (concat lists)))).
  { rewrite seq_S, fmap_app. cbn [fmap list_fmap]. rewrite last_snoc.
    rewrite Nat.add_0_l. unfold n. rewrite take_ge by lia. reflexivity. }
  rewrite Hlast. cbn [default].
  replace (length (lists ++ [l])) with (S n) by (rewrite length_app; cbn; unfold n; lia).
  rewrite (seq_S (S n)), fmap_app. cbn [fmap list_fmap]. rewrite Nat.add_0_l.
  f_equal.
  - apply list_fmap_ext. intros i k Hk. apply lookup_seq in Hk as [-> Hk].
    rewrite take_app_le by (unfold n in Hk; lia). reflexivity.
  - rewrite take_ge by (rewrite length_app; cbn; unfold n; lia).
    rewrite concat_app. cbn [concat]. rewrite app_nil_r, length_app, Nat2Z.inj_add.
    reflexivity.
Qed.

Lemma packLists_offset (lists : list (list Z)) (k : nat) :
  (k <= length lists)%nat ->
  Offsets (packLists lists) !! k = Some (Z.of_nat (length (concat (take k lists)))).
Proof.
  intros Hk. rewrite packLists_offsets, list_lookup_fmap, lookup_seq_lt by lia. reflexivity.
Qed.

(** A packed list gives back every list it was packed from. *)
Lemma GetCell_packLists (lists : list (list Z)) (i : nat) (l : list Z) :
  lists !! i = Some l -> GetCell (packLists lists) (Z.of_nat i) = l.
Proof.
  intros Hi. pose proof (lookup_lt_Some _ _ _ Hi) as Hlt.
  unfold GetCell, GetValue.
  replace (Z.to_nat (Z.of_nat i + 1)) with (S i) by lia. rewrite Nat2Z.id.
  assert (H0 : Offsets (packLists lists) !! i
               = Some (Z.of_nat (length (concat (take i lists)))))
    by (apply packLists_offset; lia).
  assert (H1 : Offsets (packLists lists) !! S i
               = Some (Z.of_nat (length (concat (take (S i) lists)))))
    by (apply packLists_offset; lia).
  rewrite (list_lookup_total_correct _ _ _ H0), (list_lookup_total_correct _ _ _ H1).
  rewrite (take_S_r _ _ l Hi), concat_app. cbn [concat]. rewrite app_nil_r, length_app.
  replace (Z.of_nat (length (concat (take i lists)) + length l)
           - Z.of_nat (length (concat (take i lists)))) with (Z.of_nat (length l)) by lia.
  change (Data (packLists lists)) with (concat lists).
  assert (Hsplit : concat lists = concat (take i lists) ++ l ++ concat (drop (S i) lists)).
  { transitivity (concat (take i lists ++ l :: drop (S i) lists)).
    - f_equal. symmetry. apply take_drop_middle. exact Hi.
    - rewrite concat_app. reflexivity. }
  rewrite Hsplit.
  apply list_eq. intros j. rewrite list_lookup_fmap.
  destruct (decide (j < length l)%nat) as [Hj|Hj].
  - rewrite lookup_seqZ_lt by lia. cbn [fmap option_fmap option_map].
    destruct (l !! j) as [x|] eqn:E; [|apply lookup_ge_None in E; lia].
    f_equal. apply list_lookup_total_correct.
    rewrite lookup_app_r by lia.
    replace (Z.to_nat (Z.of_nat (length (concat (take i lists))) + Z.of_nat j)
             - length (concat (take i lists)))%nat with j by lia.
    rewrite lookup_app_l by lia. exact E.
  - rewrite lookup_seqZ_ge by lia. symmetry. apply lookup_ge_None. lia.
Qed.

(** X10: a list of label lists written with the size of every sub-list,
    [n(k0(v ... v) k1(v ... v) ...)], is read back as written.  From an ASCII
    stream [ReadLabelListList] consumes exactly this text and returns the
    64-bit list of lists whose data are the labels in order and whose offsets
    are the running sums of the sub-list sizes, so that there are [n]
    sub-lists and [GetCell] gives back each of them. *)
Theorem ReadLabelListList_sized_round_trip (lists : list (list Z)) rest l64 f64 :
  Forall (Forall isLabel64) lists ->
  Z.of_nat (length (concat lists)) < 2 ^ 63 ->
  ReadLabelListList garbage (io_ (sizedLists lists ++ rest) l64 f64)
  = inr (packLists lists, io_ rest l64 f64)
  /\ GetNumberOfElements (packLists lists) = Z.of_nat (length lists)
  /\ forall (i : nat) l, lists !! i = Some l -> GetCell (packLists lists) (Z.of_nat i) = l.
Proof.
  intros Hall Hmax. split; [|split].
  - unfold ReadLabelListList, sizedLists.
    cbn [io_Read tokens withTokens io_IsLabel64 io_IsFloat64 app IsAsciiFormat].
    replace (Z.of_nat (length lists) <? 0) with false by (symmetry; apply Z.ltb_ge; lia).
    rewrite orb_true_r.
    cbn [ReadExpecting io_Read tokens withTokens io_IsLabel64 io_IsFloat64 Token_eq_char bindR].
    rewrite Z.eqb_refl. cbn [bindR].
    set (lll0 := ResizeExact garbage (newLabelListList true) _ _).
    assert (Hlen0 : length (Offsets lll0) = S (length lists)).
    { unfold lll0, ResizeExact, SetValue, SetNumberOfValues. cbn [Offsets].
      rewrite length_insert, length_map, length_seq. lia. }
    destruct (readSublists_sized lists 0 [] lll0 ([TPunctuation chClose] ++ rest) l64 f64
                eq_refl Hall) as (lll' & Hfold & H64 & Hlen' & Hoffs & HC).
    { rewrite Hlen0. lia. }
    { reflexivity. }
    { exact Hmax. }
    unfold forRangeR. rewrite Z.sub_0_r. rewrite <- app_assoc.
    change (Z.of_nat 0) with 0 in Hfold. change (Z.of_nat (length (@nil Z))) with 0 in Hfold.
    unfold withTokens. cbn [io_IsLabel64 io_IsFloat64].
    rewrite Hfold. cbn [bindR app] in *.
    cbn [ReadExpecting io_Read tokens withTokens io_IsLabel64 io_IsFloat64 Token_eq_char bindR].
    rewrite Z.eqb_refl. cbn [bindR]. unfold withTokens. cbn [io_IsLabel64 io_IsFloat64].
    do 2 f_equal.
    unfold ResizeData, SetOffset, Resize, SetValue. cbn [IsLabel64 Offsets Data].
    rewrite H64. unfold castLabel. rewrite wrap64_small by lia. rewrite !Nat2Z.id.
    change (packLists lists)
      with (mkLabelListList true (Offsets (packLists lists)) (concat lists)).
    f_equal; [|exact HC].
    apply list_eq. intros i.
    destruct (decide (i = length lists)) as [->|Hne].
    + rewrite list_lookup_insert_eq by lia.
      rewrite (packLists_offset lists (length lists)) by lia.
      rewrite take_ge by lia. reflexivity.
    + rewrite list_lookup_insert_ne by lia. rewrite Hoffs.
      destruct (decide (0 <= i < 0 + length lists)%nat) as [Hi|Hi].
      * rewrite (packLists_offset lists i) by lia. rewrite Nat.sub_0_r. reflexivity.
      * rewrite (proj2 (lookup_ge_None _ _)) by lia.
        symmetry. apply lookup_ge_None. rewrite packLists_offsets, length_fmap, length_seq. lia.
  - unfold GetNumberOfElements. rewrite packLists_offsets, length_fmap, length_seq. lia.
  - intros i l Hi. apply GetCell_packLists. exact Hi.
Qed.

End SizedListsFacts.

(** [2(3(7 8 9) 2(4 5))] *)
Lemma ReadLabelListList_sized_round_trip_witness :
  let lists := [[7; 8; 9]; [4; 5]] in
  Forall (Forall isLabel64) lists
  /\ Z.of_nat (length (concat lists)) < 2 ^ 63
  /\ ReadLabelListList zeroGarbage sizedListList = inr (packLists lists, asciiStream [])
  /\ GetCell (packLists lists) 1 = [4; 5].
Proof.
  intros lists.
  assert (H1 : Forall (Forall isLabel64) lists)
    by (repeat constructor; unfold isLabel64; lia).
  assert (H2 : Z.of_nat (length (concat lists)) < 2 ^ 63) by (vm_compute; reflexivity).
  split; [exact H1|]. split; [exact H2|].
  destruct (ReadLabelListList_sized_round_trip (double := Q) zeroGarbage lists [] false true
              H1 H2) as (Hread & _ & Hcell).
  split; [exact Hread|]. exact (Hcell 1%nat [4; 5] eq_refl).
Defined.

(** ** update: offsets and types of the patches *)

Section UpdateOffsetFacts.
Context {double float : Type}.
Local Abbreviation entry := (vtkFoamEntry double float).
Local Abbreviation dict := (vtkFoamDict double float).

Lemma updatePatch_offset patchi (e : entry) st st' :
  updatePatch patchi e st = inr st' ->
  exists p,
    us_patches st' = <[Z.to_nat patchi := p]> (us_patches st)
    /\ type_ p = declaredType e
    /\ offset_ p = us_nBoundaryFaces st
    /\ us_nBoundaryFaces st' = us_nBoundaryFaces st + boundarySize p.
Proof.
  unfold updatePatch, declaredType.
  destruct (lookupExact (Entry_Dictionary e) "type") as [etype|]; [|discriminate].
  destruct (lookupExact (Entry_Dictionary e) "startFace") as [estart|]; [|discriminate].
  destruct (lookupExact (Entry_Dictionary e) "nFaces") as [esize|]; [|discriminate].
  cbn [start_ size_ name_ index_ offset_ type_ owner_].
  destruct (_ || _); [discriminate|].
  destruct (_ && _); [discriminate|].
  unfold patchTypeOf, boundarySize. cbv zeta.
  destruct (String.eqb (Entry_ToString etype) "patch" || String.eqb (Entry_ToString etype) "wall"
            || String.eqb (Entry_ToString etype) "mappedWall").
  - cbn [type_]. destruct (lookupExact (Entry_Dictionary e) "inGroups");
      intros H; injection H as <-; eexists; repeat split; reflexivity.
  - destruct (String.eqb (Entry_ToString etype) "processor"
              || String.eqb (Entry_ToString etype) "processorCyclic").
    + cbn [type_]. destruct (lookupExact (Entry_Dictionary e) "inGroups");
        intros H; injection H as <-; eexists; repeat split; reflexivity.
    + cbn [type_]. destruct (lookupExact (Entry_Dictionary e) "inGroups");
        intros H; injection H as <-; eexists; repeat split; try reflexivity;
        cbn [us_nBoundaryFaces type_]; lia.
Qed.

Lemma boundaryFaces_app (ps qs : list vtkFoamPatch) :
  boundaryFaces (ps ++ qs) = boundaryFaces ps + boundaryFaces qs.
Proof.
  unfold boundaryFaces. induction ps as [|p ps IH]; [reflexivity|].
  cbn [app fold_right]. rewrite IH. lia.
Qed.

(** The rounds of the loop from patch [k] on: they fill the slots from [k]
    on, each patch with the boundary faces counted so far as its offset. *)
Lemma update_loop_offsets (es : list entry) : forall (k : nat) st st',
  (k + length es <= length (us_patches st))%nat ->
  update_loop es (Z.of_nat k) st = inr st' ->
  exists ps,
    us_patches st' = take k (us_patches st) ++ ps ++ drop (k + length es) (us_patches st)
    /\ Forall2 (fun e p => type_ p = declaredType e) es ps
    /\ (forall (i : nat) p, ps !! i = Some p ->
          offset_ p = us_nBoundaryFaces st + boundaryFaces (take i ps))
    /\ us_nBoundaryFaces st' = us_nBoundaryFaces st + boundaryFaces ps.
Proof.
  induction es as [|e es IH]; intros k st st' Hlen H; cbn [update_loop] in H.
  - injection H as <-. exists []. cbn [length app]. rewrite Nat.add_0_r, take_drop.
    split; [reflexivity|]. split; [constructor|]. split; [intros i p Hp; discriminate|].
    cbn. lia.
  - cbn [length] in Hlen.
    destruct (updatePatch (Z.of_nat k) e st) as [err|st1] eqn:E; [discriminate|].
    destruct (updatePatch_offset _ _ _ _ E) as (p & Hps1 & Htype & Hoff & Hn1).
    rewrite Nat2Z.id in Hps1.
    replace (Z.of_nat k + 1) with (Z.of_nat (S k)) in H by lia.
    destruct (IH (S k) st1 st') as (ps & Hps & Htypes & Hoffs & Hn); [|exact H|].
    { rewrite Hps1, length_insert. lia. }
    exists (p :: ps). split; [|split; [|split]].
    + rewrite Hps, Hps1. rewrite (take_S_r _ _ p) by (apply list_lookup_insert_eq; lia).
      rewrite take_insert_ge by lia. rewrite drop_insert_lt by lia.
      rewrite <- app_assoc. cbn [app length].
      replace (k + S (length es))%nat with (S k + length es)%nat by lia. reflexivity.
    + constructor; assumption.
    + intros [|i] q Hq; cbn in Hq.
      * injection Hq as <-. cbn. lia.
      * rewrite (Hoffs i q Hq), Hn1. cbn [take]. cbn [boundaryFaces fold_right].
        unfold boundaryFaces. lia.
    + rewrite Hn, Hn1. cbn [boundaryFaces fold_right]. unfold boundaryFaces. lia.
Qed.


End UpdateOffsetFacts.


(** ** Wedges *)

Section WedgeFacts.

Context (stale : nat -> Z).
Context (FaceOwner : vtkLabelArray).
Context (meshCells meshFaces : vtkFoamLabelListList).
Context (decompose : Z -> list Z -> GridState -> GridState).

Local Abbreviation isOwner' := (isOwner FaceOwner).
Local Abbreviation insertShape' := (insertShape stale FaceOwner meshCells meshFaces decompose).
Local Abbreviation insertWedge' := (insertWedge stale FaceOwner meshFaces).
Local Abbreviation wedgeSearchFaces' := (wedgeSearchFaces stale FaceOwner meshFaces).

(** The search looks at the first three cell points only. *)
Lemma wedgeSearchFaces_ids cellId baseFaceId (cellFaces ids ids' faces : list Z) st :
  take 3 ids = take 3 ids' -> (3 <= length ids)%nat ->
  wedgeSearchFaces' cellId baseFaceId cellFaces ids faces st
  = wedgeSearchFaces' cellId baseFaceId cellFaces ids' faces st.
Proof.
  intros Htake Hlen.
  assert (Hlen' : (3 <= length ids')%nat).
  { pose proof (f_equal length Htake) as H. rewrite !length_take in H. lia. }
  assert (Hget : forall i, (i < 3)%nat -> GetId ids (Z.of_nat i) = GetId ids' (Z.of_nat i)).
  { intros i Hi. unfold GetId. rewrite Nat2Z.id.
    rewrite <- (lookup_total_take_lt ids 3 i) by lia.
    rewrite <- (lookup_total_take_lt ids' 3 i) by lia. rewrite Htake. reflexivity. }
  pose proof (Hget 0%nat ltac:(lia)) as H0. pose proof (Hget 1%nat ltac:(lia)) as H1.
  pose proof (Hget 2%nat ltac:(lia)) as H2.
  change (Z.of_nat 0) with 0 in H0. change (Z.of_nat 1) with 1 in H1.
  change (Z.of_nat 2) with 2 in H2.
  revert st. induction faces as [|faceI faces IH]; intros st; [reflexivity|].
  cbn [wedgeSearchFaces]. rewrite !H0, !H1, !H2, !IH. reflexivity.
Qed.

(** Faces that are no triangles leave the opposite face as it is. *)
Lemma wedgeSearchFaces_keeps cellId baseFaceId (cellFaces ids faces : list Z) st :
  Forall (fun i => i = baseFaceId \/ GetSize meshFaces (at_ stale cellFaces i) <> 3) faces ->
  w_cellOppositeFaceI (wedgeSearchFaces' cellId baseFaceId cellFaces ids faces st)
  = w_cellOppositeFaceI st.
Proof.
  intros Hall. revert st. induction Hall as [|i faces Hi _ IH]; intros st; [reflexivity|].
  cbn [wedgeSearchFaces].
  destruct (Z.eqb_spec i baseFaceId) as [->|Hne]; [apply IH|].
  destruct Hi as [Hi|Hi]; [contradiction|].
  apply Z.eqb_neq in Hi. rewrite Hi.
  match goal with
  | |- context [if ?c then ?a else wedgeSearchFaces' _ _ _ _ _ ?st'] =>
      assert (Hopp : w_cellOppositeFaceI st' = w_cellOppositeFaceI st);
      [|destruct c; [exact Hopp|rewrite IH; exact Hopp]]
  end.
  destruct (w_pivotPoint st =? -1); [|reflexivity].
  destruct (wedgeFindDup _ _ _ _ _) as [found0Dup pointI]. reflexivity.
Qed.

(** The opposite face is the triangle that is not the base. *)
Lemma wedgeSearchFaces_opposite cellId baseFaceId (cellFaces ids before after : list Z) k st :
  Forall (fun i => i = baseFaceId \/ GetSize meshFaces (at_ stale cellFaces i) <> 3) before ->
  Forall (fun i => i = baseFaceId \/ GetSize meshFaces (at_ stale cellFaces i) <> 3) after ->
  k <> baseFaceId -> GetSize meshFaces (at_ stale cellFaces k) = 3 ->
  w_cellOppositeFaceI st < 0 ->
  w_cellOppositeFaceI
    (wedgeSearchFaces' cellId baseFaceId cellFaces ids (before ++ k :: after) st)
  = at_ stale cellFaces k.
Proof.
  intros Hbefore Hafter Hk Hsize. revert st.
  induction Hbefore as [|i before Hi _ IH]; intros st Hst.
  - cbn [app wedgeSearchFaces].
    destruct (Z.eqb_spec k baseFaceId) as [|_]; [contradiction|].
    rewrite Hsize, Z.eqb_refl.
    destruct (_ && _); [reflexivity|].
    rewrite wedgeSearchFaces_keeps by exact Hafter. reflexivity.
  - cbn [app wedgeSearchFaces].
    destruct (Z.eqb_spec i baseFaceId) as [->|Hne]; [apply IH; exact Hst|].
    destruct Hi as [Hi|Hi]; [contradiction|].
    apply Z.eqb_neq in Hi. rewrite Hi.
    match goal with
    | |- context [if ?c then ?a else wedgeSearchFaces' _ _ _ _ _ ?st'] =>
        assert (Hopp : w_cellOppositeFaceI st' = w_cellOppositeFaceI st)
    end.
    { destruct (w_pivotPoint st =? -1); [|reflexivity].
      destruct (wedgeFindDup _ _ _ _ _) as [found0Dup pointI]. reflexivity. }
    rewrite Hopp.
    destruct (Z.leb_spec 0 (w_cellOppositeFaceI st)) as [|_]; [lia|]. cbn [andb].
    apply IH. rewrite Hopp. exact Hst.
Qed.

Lemma countOfSize_either (faces : list Z) :
  (countOfSize meshFaces 3 faces + countOfSize meshFaces 4 faces = length faces)%nat ->
  Forall (fun f => GetSize meshFaces f = 3 \/ GetSize meshFaces f = 4) faces.
Proof.
  induction faces as [|f faces IH]; intros H; [constructor|].
  pose proof (countOfSize_disjoint meshFaces faces) as Hd.
  unfold countOfSize in *. do 2 rewrite filter_cons in H.
  destruct (decide (GetSize meshFaces f = 3)) as [H3|H3];
    destruct (decide (GetSize meshFaces f = 4)) as [H4|H4]; cbn [length] in H.
  - constructor; [left; exact H3|]. exfalso. clear -H3 H4. lia.
  - constructor; [left; exact H3|]. apply IH. clear -H. lia.
  - constructor; [right; exact H4|]. apply IH. clear -H. lia.
  - exfalso. clear -H Hd. lia.
Qed.

Lemma one_triangle (faces : list Z) :
  Forall (fun f => GetSize meshFaces f = 3 \/ GetSize meshFaces f = 4) faces ->
  countOfSize meshFaces 3 faces = 1%nat ->
  exists l1 f l2,
    faces = l1 ++ f :: l2 /\ GetSize meshFaces f = 3
    /\ Forall (fun f => GetSize meshFaces f = 4) (l1 ++ l2).
Proof.
  induction 1 as [|g faces Hg Hall IH]; intros Hone; [discriminate|].
  unfold countOfSize in *. rewrite filter_cons in Hone.
  destruct (decide (GetSize meshFaces g = 3)) as [H3|H3]; cbn [length] in Hone.
  - exists [], g, faces. split; [reflexivity|]. split; [exact H3|]. cbn [app].
    assert (Hnone : length (filter (fun f => GetSize meshFaces f = 3) faces) = 0%nat)
      by (clear -Hone; lia).
    clear -Hall Hnone. induction Hall as [|h faces Hh _ IH]; [constructor|].
    rewrite filter_cons in Hnone.
    destruct (decide (GetSize meshFaces h = 3)) as [E|E]; [discriminate|].
    constructor; [tauto|apply IH; exact Hnone].
  - destruct (IH Hone) as (l1 & f & l2 & -> & Hf & Hrest).
    exists (g :: l1), f, l2. split; [reflexivity|]. split; [exact Hf|].
    cbn [app]. constructor; [tauto|exact Hrest].
Qed.

Lemma two_triangles (faces : list Z) :
  Forall (fun f => GetSize meshFaces f = 3 \/ GetSize meshFaces f = 4) faces ->
  countOfSize meshFaces 3 faces = 2%nat ->
  exists l1 b l2 o l3,
    faces = l1 ++ b :: l2 ++ o :: l3
    /\ GetSize meshFaces b = 3 /\ GetSize meshFaces o = 3
    /\ Forall (fun f => GetSize meshFaces f = 4) l1
    /\ Forall (fun f => GetSize meshFaces f = 4) (l2 ++ l3).
Proof.
  induction 1 as [|g faces Hg Hall IH]; intros Htwo; [discriminate|].
  unfold countOfSize in *. rewrite filter_cons in Htwo.
  destruct (decide (GetSize meshFaces g = 3)) as [H3|H3]; cbn [length] in Htwo.
  - destruct (one_triangle faces Hall) as (l2 & o & l3 & -> & Ho & Hrest).
    { unfold countOfSize. clear -Htwo. lia. }
    exists [], g, l2, o, l3. split; [reflexivity|]. split; [exact H3|].
    split; [exact Ho|]. split; [constructor|exact Hrest].
  - destruct (IH Htwo) as (l1 & b & l2 & o & l3 & -> & Hb & Ho & H1 & Hrest).
    exists (g :: l1), b, l2, o, l3. split; [reflexivity|]. split; [exact Hb|].
    split; [exact Ho|]. split; [constructor; [tauto|exact H1]|exact Hrest].
Qed.

(** The two triangles of a wedge by their positions. *)
Lemma wedge_faces (cellFaces : list Z) :
  length cellFaces = 5%nat ->
  countOfSize meshFaces 3 cellFaces = 2%nat ->
  countOfSize meshFaces 4 cellFaces = 3%nat ->
  exists (j k : nat) baseFace oppositeFace,
    (j < k < 5)%nat
    /\ cellFaces !! j = Some baseFace /\ cellFaces !! k = Some oppositeFace
    /\ GetSize meshFaces baseFace = 3 /\ GetSize meshFaces oppositeFace = 3
    /\ (forall i f, cellFaces !! i = Some f -> i <> j -> i <> k -> GetSize meshFaces f = 4).
Proof.
  intros Hlen H3 H4.
  destruct (two_triangles cellFaces) as (l1 & b & l2 & o & l3 & E & Hb & Ho & H1 & Hrest).
  { apply countOfSize_either. clear -Hlen H3 H4. lia. }
  { exact H3. }
  apply Forall_app in Hrest as [H2 Hl3].
  assert (Hk : cellFaces !! (length l1 + S (length l2))%nat = Some o).
  { rewrite E. rewrite lookup_app_r by lia.
    replace (length l1 + S (length l2) - length l1)%nat with (S (length l2)) by lia.
    change ((l2 ++ o :: l3) !! length l2 = Some o). apply list_lookup_middle. reflexivity. }
  exists (length l1), (length l1 + S (length l2))%nat, b, o.
  split.
  { apply lookup_lt_Some in Hk. clear -Hk Hlen. lia. }
  split; [rewrite E; apply list_lookup_middle; reflexivity|].
  split; [exact Hk|]. split; [exact Hb|]. split; [exact Ho|].
  intros i f Hi Hj Hk'. rewrite E in Hi.
  rewrite Forall_forall in H1, H2, Hl3.
  destruct (decide (i < length l1)%nat) as [Hlt|Hge].
  { rewrite lookup_app_l in Hi by exact Hlt. apply H1. eapply list_elem_of_lookup_2. exact Hi. }
  rewrite lookup_app_r in Hi by lia.
  destruct (i - length l1)%nat as [|i1] eqn:E1; [clear -E1 Hge Hj; lia|].
  change ((l2 ++ o :: l3) !! i1 = Some f) in Hi.
  destruct (decide (i1 < length l2)%nat) as [Hlt|Hge2].
  { rewrite lookup_app_l in Hi by exact Hlt. apply H2. eapply list_elem_of_lookup_2. exact Hi. }
  rewrite lookup_app_r in Hi by lia.
  destruct (i1 - length l2)%nat as [|i2] eqn:E2; [clear -E1 E2 Hge Hge2 Hk'; lia|].
  change (l3 !! i2 = Some f) in Hi. apply Hl3. eapply list_elem_of_lookup_2. exact Hi.
Qed.

Lemma list_of_length_3 (l : list Z) :
  length l = 3%nat -> exists a b c, l = [a; b; c].
Proof.
  intros H. do 4 (destruct l as [|? l]; try discriminate H). eauto.
Qed.

(** X12: a cell of five faces, two of three points and three of four, is
    classified as a wedge.  Its base is the first triangle among its faces
    and its opposite face the second.  When the pivot point that the search
    over the other faces designates is a point of the opposite face, the loop
    body inserts one VTK_WEDGE of six point ids: the points of the base,
    reversed if the cell does not own that face, followed by the points of
    the opposite face, reversed if the cell owns it, rotated so that the
    pivot is the first of them when it was found through point 0 of the base
    and the last of them when it was found through point 2.  When the pivot
    is no point of the opposite face, no wedge is inserted and the cell goes
    on as a polyhedron, with the base left in the array of cell points. *)
Theorem wedge_cell additionalCells cellId (s : GridState) :
  let cellFaces := GetCell meshCells cellId in
  length cellFaces = 5%nat ->
  countOfSize meshFaces 3 cellFaces = 2%nat ->
  countOfSize meshFaces 4 cellFaces = 3%nat ->
  (6 <= length (cellPoints s))%nat ->
  cellShape meshFaces cellFaces = VTK_WEDGE
  /\ exists (j k : nat) baseFace oppositeFace,
       (j < k < 5)%nat
       /\ cellFaces !! j = Some baseFace /\ cellFaces !! k = Some oppositeFace
       /\ GetSize meshFaces baseFace = 3 /\ GetSize meshFaces oppositeFace = 3
       /\ (forall i f, cellFaces !! i = Some f -> i <> j -> i <> k -> GetSize meshFaces f = 4)
       /\ let base := GetCell meshFaces baseFace in
          let opp := GetCell meshFaces oppositeFace in
          let basePoints := if isOwner' baseFace cellId then base else reverse base in
          let oppPoints := if isOwner' oppositeFace cellId then reverse opp else opp in
          let st := wedgeSearchFaces' cellId (Z.of_nat j) cellFaces basePoints (upFrom 0 5)
                      (mkWedgeSearch (-1) (-1) false) in
          w_cellOppositeFaceI st = oppositeFace
          /\ ((w_pivotPoint st ∈ opp) ->
              exists s' r,
                insertShape' additionalCells cellId s = Continue s'
                /\ Cells s'
                   = Cells s ++ [mkCell VTK_WEDGE (basePoints ++ rotate r oppPoints) None]
                /\ Messages s' = Messages s
                /\ rotate r oppPoints !! (if dupPoint2 st then 2 else 0)%nat
                   = Some (w_pivotPoint st))
          /\ ((w_pivotPoint st ∉ opp) ->
              insertShape' additionalCells cellId s
              = let s0 := withCellPoints s (basePoints ++ drop 3 (cellPoints s)) in
                if additionalCells then Continue (decompose cellId cellFaces s0)
                else insertPolyhedron stale FaceOwner meshFaces cellId cellFaces s0).
Proof.
  intros cellFaces Hlen H3 H4 Hscratch.
  assert (Hshape : cellShape meshFaces cellFaces = VTK_WEDGE).
  { destruct (cellShape_counts meshFaces cellFaces) as (_ & _ & [_ Hw] & _).
    apply Hw. repeat split; assumption. }
  split; [exact Hshape|].
  destruct (wedge_faces cellFaces Hlen H3 H4)
    as (j & k & b & o & Hjk & Hj & Hk & Hb & Ho & Hothers).
  exists j, k, b, o.
  split; [exact Hjk|]. split; [exact Hj|]. split; [exact Hk|]. split; [exact Hb|].
  split; [exact Ho|]. split; [exact Hothers|].
  intros base opp basePoints oppPoints st.
  assert (Hat : forall i f, cellFaces !! i = Some f -> at_ stale cellFaces (Z.of_nat i) = f)
    by (intros i f Hi; apply at_lookup; exact Hi).
  assert (Hquad : forall i, 0 <= i < 5 -> i <> Z.of_nat j -> i <> Z.of_nat k ->
                    GetSize meshFaces (at_ stale cellFaces i) = 4).
  { intros i Hi Hij Hik.
    destruct (cellFaces !! Z.to_nat i) as [f|] eqn:E;
      [|apply lookup_ge_None in E; clear -E Hi Hlen; lia].
    replace i with (Z.of_nat (Z.to_nat i)) by (clear -Hi; lia).
    rewrite (Hat _ _ E). apply (Hothers _ _ E); clear -Hi Hij Hik; lia. }
  assert (Hquads : forall lo n, 0 <= lo -> lo + n <= 5 ->
                     (forall i, lo <= i < lo + n -> i <> Z.of_nat k) ->
                     Forall (fun i => i = Z.of_nat j
                                      \/ GetSize meshFaces (at_ stale cellFaces i) <> 3)
                       (seqZ lo n)).
  { intros lo n Hlo Hhi Hk'. apply Forall_forall. intros i Hi. apply elem_of_seqZ in Hi.
    destruct (decide (i = Z.of_nat j)) as [Hij|Hij]; [left; exact Hij|right].
    rewrite Hquad; [discriminate|clear -Hi Hlo Hhi; lia|exact Hij|apply Hk'; exact Hi]. }
  assert (Hopp : w_cellOppositeFaceI st = o).
  { unfold st, upFrom.
    replace (seqZ 0 (5 - 0))
      with (seqZ 0 (Z.of_nat k) ++ Z.of_nat k :: seqZ (Z.of_nat k + 1) (4 - Z.of_nat k)).
    - rewrite <- (Hat k o Hk). apply wedgeSearchFaces_opposite.
      + apply Hquads; [lia|clear -Hjk; lia|intros i Hi; clear -Hi; lia].
      + apply Hquads; [lia|clear -Hjk; lia|intros i Hi; clear -Hi; lia].
      + clear -Hjk. lia.
      + rewrite (Hat k o Hk). exact Ho.
      + cbn. lia.
    - symmetry. replace (5 - 0) with (Z.of_nat k + (5 - Z.of_nat k)) by lia.
      rewrite (seqZ_app 0) by (clear -Hjk; lia). rewrite Z.add_0_l.
      rewrite (seqZ_cons (Z.of_nat k)) by (clear -Hjk; lia).
      replace (Z.succ (Z.of_nat k)) with (Z.of_nat k + 1) by lia.
      replace (Z.pred (5 - Z.of_nat k)) with (4 - Z.of_nat k) by lia. reflexivity. }
  assert (Hfirst : firstIndex (fun j0 => GetSize meshFaces (at_ stale cellFaces j0) =? 3)
                     (upFrom 0 5) 0 = Z.of_nat j).
  { unfold upFrom. change (5 - 0) with (Z.of_nat 5). apply firstIndex_seqZ.
    - clear -Hjk. lia.
    - rewrite (Hat j b Hj). apply Z.eqb_eq. exact Hb.
    - intros i Hi. apply Z.eqb_neq. rewrite Hquad; [discriminate| | |]; clear -Hi Hjk; lia. }
  assert (Hbase : length base = 3%nat)
    by (unfold base; rewrite length_GetCell, Hb; reflexivity).
  assert (Hoppl : length opp = 3%nat)
    by (unfold opp; rewrite length_GetCell, Ho; reflexivity).
  destruct (list_of_length_3 _ Hbase) as (b0 & b1 & b2 & Ebase).
  destruct (list_of_length_3 _ Hoppl) as (o0 & o1 & o2 & Eopp).
  split; [exact Hopp|].
  unfold insertShape. fold cellFaces. rewrite Hshape. unfold insertWedge.
  rewrite Hfirst. rewrite (Hat j b Hj). fold base.
  match goal with
  | |- context [wedgeSearchFaces' _ _ _ ?i _ _] => set (ids0 := i)
  end.
  assert (Hids0 : ids0 = basePoints ++ drop 3 (cellPoints s)).
  { unfold ids0, basePoints. rewrite Ebase.
    destruct s as [cells ids poly aid msgs]. cbn [cellPoints] in *.
    do 6 (destruct ids as [|? ids]; [cbn in Hscratch; lia|]).
    destruct (isOwner' b cellId); reflexivity. }
  assert (Hlb : length basePoints = 3%nat).
  { unfold basePoints. destruct (isOwner' b cellId); [|rewrite length_reverse]; exact Hbase. }
  assert (Hst : wedgeSearchFaces' cellId (Z.of_nat j) cellFaces ids0 (upFrom 0 5)
                  (mkWedgeSearch (-1) (-1) false) = st).
  { unfold st. apply wedgeSearchFaces_ids.
    - rewrite Hids0. rewrite take_app_length' by (symmetry; exact Hlb).
      rewrite take_ge by (rewrite Hlb; lia). reflexivity.
    - rewrite Hids0, length_app, Hlb. lia. }
  rewrite Hst, Hopp. fold opp. rewrite Hids0.
  clear Hst Hids0 ids0 Hfirst Hquads Hquad Hat Hothers Hshape H3 H4 Hlen Hlb Hopp.
  set (pivot := w_pivotPoint st). set (dup := dupPoint2 st).
  clearbody pivot dup. clear st.
  subst basePoints oppPoints. clearbody base opp. subst base opp.
  set (own0 := isOwner' b cellId). set (ownOpp := isOwner' o cellId).
  clearbody own0 ownOpp. clear Hbase Hoppl.
  destruct s as [cells ids poly aid msgs]. cbn [cellPoints Cells Messages] in *.
  do 6 (destruct ids as [|? ids]; [cbn in Hscratch; lia|]). clear Hscratch.
  match goal with
  | |- context [firstIndex ?f (upFrom 0 3) 3] => set (p := firstIndex f (upFrom 0 3) 3)
  end.
  assert (Hp : p = if o0 =? pivot then 0 else if o1 =? pivot then 1
                   else if o2 =? pivot then 2 else 3) by reflexivity.
  clearbody p.
  set (r := Z.to_nat (let p' := if ownOpp then (if dup then (p + 2) mod 3 else p)
                                else (if dup then (1 + p) mod 3 else p) in
                      if ownOpp then 2 - p' else p')).
  revert Hp.
  destruct (Z.eqb_spec o0 pivot) as [E0|E0];
    [|destruct (Z.eqb_spec o1 pivot) as [E1|E1];
      [|destruct (Z.eqb_spec o2 pivot) as [E2|E2]]];
    intros Hp; subst p; destruct dup, own0, ownOpp;
    (split;
       [intros Hin;
        first [exfalso; rewrite !elem_of_cons in Hin; rewrite elem_of_nil in Hin;
               intuition congruence
              |eexists; exists r; subst;
               split; [reflexivity|]; split; [reflexivity|]; split; reflexivity]
       |intros Hnin;
        first [exfalso; apply Hnin; subst; rewrite !elem_of_cons; tauto
              |reflexivity]]).
Qed.

End WedgeFacts.

Lemma wedge_cell_witness :
  let stale := fun _ : nat => 0 in
  let s := scratch (fun _ : nat => 0) 2 None [] in
  let cellFaces := GetCell wedgeCells 0 in
  length cellFaces = 5%nat
  /\ countOfSize wedgeFaces 3 cellFaces = 2%nat
  /\ countOfSize wedgeFaces 4 cellFaces = 3%nat
  /\ (6 <= length (cellPoints s))%nat
  /\ exists s',
       insertShape stale wedgeOwner wedgeCells wedgeFaces noDecompose false 0 s = Continue s'
       /\ Cells s' = [mkCell VTK_WEDGE [0; 2; 1; 3; 5; 4] None].
Proof.
  intros stale s cellFaces.
  assert (H1 : length cellFaces = 5%nat) by reflexivity.
  assert (H2 : countOfSize wedgeFaces 3 cellFaces = 2%nat) by reflexivity.
  assert (H3 : countOfSize wedgeFaces 4 cellFaces = 3%nat) by reflexivity.
  assert (H4 : (6 <= length (cellPoints s))%nat) by (vm_compute; lia).
  split; [exact H1|]. split; [exact H2|]. split; [exact H3|]. split; [exact H4|].
  destruct (wedge_cell stale wedgeOwner wedgeCells wedgeFaces noDecompose false 0 s
              H1 H2 H3 H4) as (_ & j & k & b & o & _ & _ & _ & _ & _ & _ & _).
  eexists. split; reflexivity.
Defined.

(** ** whichPatch: what the search returns *)

Section WhichPatchFacts.

Context (ps : list vtkFoamPatch) (faceIndex : Z).

(** The loop ends at the first patch that starts after the face. *)
Lemma whichPatch_loop_spec (Hsorted : sortedByStart ps) : forall fuel first count,
  0 <= first -> 0 <= count <= Z.of_nat fuel -> first + count <= Z.of_nat (length ps) ->
  (forall (k : nat) q, Z.of_nat k < first -> ps !! k = Some q -> start_ q <= faceIndex) ->
  (forall (k : nat) q, first + count <= Z.of_nat k -> ps !! k = Some q ->
     faceIndex < start_ q) ->
  first <= whichPatch_loop fuel ps faceIndex first count <= first + count
  /\ (forall (k : nat) q, Z.of_nat k < whichPatch_loop fuel ps faceIndex first count ->
        ps !! k = Some q -> start_ q <= faceIndex)
  /\ (forall (k : nat) q, whichPatch_loop fuel ps faceIndex first count <= Z.of_nat k ->
        ps !! k = Some q -> faceIndex < start_ q).
Proof.
  induction fuel as [|fuel IH]; intros first count Hfirst Hcount Hlen Hlo Hhi;
    cbn [whichPatch_loop].
  - split; [clear -Hcount; lia|]. split; [exact Hlo|].
    intros k q Hk. apply Hhi. clear -Hk Hcount. cbn in Hcount. lia.
  - destruct (Z.ltb_spec 0 count) as [Hpos|Hzero].
    2:{ split; [clear -Hcount Hzero; lia|]. split; [exact Hlo|].
        intros k q Hk. apply Hhi. clear -Hk Hcount Hzero. lia. }
    assert (Hstep : 0 <= count / 2 < count)
      by (split; [apply Z.div_pos; clear -Hpos; lia|apply Z.div_lt; clear -Hpos; lia]).
    set (step := count / 2) in *. clearbody step.
    destruct (ps !! Z.to_nat (first + step)) as [p|] eqn:E.
    2:{ apply lookup_ge_None in E. exfalso. clear -E Hstep Hlen Hfirst. lia. }
    destruct (Z.leb_spec (start_ p) faceIndex) as [Hle|Hgt].
    + destruct (IH (first + step + 1) (count - (step + 1))) as (Hr & Hlo' & Hhi').
      * clear -Hfirst Hstep. lia.
      * clear -Hcount Hstep. lia.
      * clear -Hlen Hstep. lia.
      * intros k q Hk Hq. pose proof (Hsorted k (Z.to_nat (first + step)) q p) as Hs.
        assert (start_ q <= start_ p); [apply Hs; [clear -Hk Hfirst Hstep; lia|exact Hq|exact E]|].
        clear -H Hle. lia.
      * intros k q Hk. apply Hhi. clear -Hk. lia.
      * split; [clear -Hr Hstep; lia|]. split; [exact Hlo'|exact Hhi'].
    + destruct (IH first step) as (Hr & Hlo' & Hhi').
      * exact Hfirst.
      * clear -Hcount Hstep. lia.
      * clear -Hlen Hstep. lia.
      * exact Hlo.
      * intros k q Hk Hq. pose proof (Hsorted (Z.to_nat (first + step)) k p q) as Hs.
        assert (start_ p <= start_ q); [apply Hs; [clear -Hk Hfirst Hstep; lia|exact E|exact Hq]|].
        clear -H Hgt. lia.
      * split; [clear -Hr Hstep; lia|]. split; [exact Hlo'|exact Hhi'].
Qed.

(** Patches that touch and have no negative size are sorted by their start,
    and a later patch starts at or after the end of an earlier one. *)
Lemma contiguous_sorted :
  Forall nonNegativeRange (rangeOf <$> ps) -> contiguousRanges (rangeOf <$> ps) ->
  forall (d k : nat) q q',
    ps !! k = Some q -> ps !! (k + S d)%nat = Some q' -> start_ q + size_ q <= start_ q'.
Proof.
  intros Hnn Hcont.
  assert (Hsize : forall k q, ps !! k = Some q -> 0 <= size_ q).
  { intros k q Hq. rewrite Forall_forall in Hnn.
    destruct (Hnn (rangeOf q)) as [_ H]; [|exact H].
    apply list_elem_of_fmap. exists q. split; [reflexivity|].
    eapply list_elem_of_lookup_2. exact Hq. }
  assert (Hnext : forall k q q', ps !! k = Some q -> ps !! S k = Some q' ->
                    start_ q + size_ q = start_ q').
  { intros k q q' Hq Hq'.
    apply (Hcont k (rangeOf q) (rangeOf q')); rewrite list_lookup_fmap.
    - rewrite Hq. reflexivity.
    - rewrite Hq'. reflexivity. }
  induction d as [|d IH]; intros k q q' Hq Hq'.
  - replace (k + 1)%nat with (S k) in Hq' by lia. rewrite (Hnext k q q' Hq Hq'). lia.
  - destruct (ps !! (k + S d)%nat) as [m|] eqn:Em.
    2:{ apply lookup_ge_None in Em. apply lookup_lt_Some in Hq'. lia. }
    pose proof (IH k q m Hq Em) as H1.
    replace (k + S (S d))%nat with (S (k + S d)) in Hq' by lia.
    pose proof (Hnext _ m q' Em Hq') as H2. pose proof (Hsize _ m Em) as H3.
    clear -H1 H2 H3. lia.
Qed.

(** X13: on a collection as [update] accepts it, patches without negative
    start or size that touch, numbered by their position and ending within
    the signed 64-bit integers, [whichPatch] never returns the patch that
    holds the face: for a face of the patch at position [i] it returns
    [i + 1], the index of the next patch, and -1 when that patch is the
    last. *)
Theorem whichPatch_returns_next_patch (i : nat) p :
  Forall nonNegativeRange (rangeOf <$> ps) ->
  contiguousRanges (rangeOf <$> ps) ->
  (forall (k : nat) q, ps !! k = Some q -> index_ q = Z.of_nat k) ->
  Forall (fun q => start_ q + size_ q <= VTK_TYPE_INT64_MAX) ps ->
  ps !! i = Some p -> patchHolds p faceIndex ->
  whichPatch ps faceIndex = if decide (S i < length ps)%nat then Z.of_nat (S i) else -1.
Proof.
  intros Hnn Hcont Hindex Hmax Hp [Hstart Hend].
  pose proof (contiguous_sorted Hnn Hcont) as Hafter.
  assert (Hsize : forall k q, ps !! k = Some q -> 0 <= start_ q /\ 0 <= size_ q).
  { intros k q Hq. rewrite Forall_forall in Hnn. apply (Hnn (rangeOf q)).
    apply list_elem_of_fmap. exists q. split; [reflexivity|].
    eapply list_elem_of_lookup_2. exact Hq. }
  assert (Hsorted : sortedByStart ps).
  { intros k k' q q' Hk Hq Hq'.
    destruct (decide (k = k')) as [->|Hne]; [rewrite Hq in Hq'; injection Hq' as ->; lia|].
    pose proof (Hafter (k' - S k)%nat k q q' Hq) as H.
    replace (k + S (k' - S k))%nat with k' in H by lia. specialize (H Hq').
    pose proof (Hsize k q Hq) as H0. clear -H H0. lia. }
  unfold whichPatch.
  destruct ps as [|front rest] eqn:Eps; [discriminate Hp|]. rewrite <- Eps in *.
  destruct (last ps) as [back|] eqn:Eback; [|rewrite Eps in Eback; apply last_None in Eback; discriminate].
  assert (Hfront : startFace front <= faceIndex).
  { unfold startFace.
    assert (H : start_ front <= start_ p);
      [apply (Hsorted 0%nat i front p); [lia|rewrite Eps; reflexivity|exact Hp]|lia]. }
  assert (Hback : faceIndex < endFace back).
  { assert (Hlast : ps !! (length ps - 1)%nat = Some back).
    { rewrite last_lookup in Eback.
      replace (length ps - 1)%nat with (Init.Nat.pred (length ps)) by lia. exact Eback. }
    unfold endFace. rewrite wrap64_small.
    - destruct (decide (i = length ps - 1)%nat) as [->|Hne].
      + rewrite Hp in Hlast. injection Hlast as <-. lia.
      + pose proof (lookup_lt_Some _ _ _ Hp) as Hi.
        pose proof (Hafter (length ps - 1 - S i)%nat i p back Hp) as H.
        replace (i + S (length ps - 1 - S i))%nat with (length ps - 1)%nat in H by lia.
        specialize (H Hlast). pose proof (Hsize _ back Hlast) as H0. clear -H H0 Hend. lia.
    - pose proof (Hsize _ back Hlast) as H0. rewrite Forall_forall in Hmax.
      pose proof (Hmax back (list_elem_of_lookup_2 _ _ _ Hlast)) as H1.
      unfold VTK_TYPE_INT64_MAX in H1. clear -H0 H1. lia. }
  destruct (Z.ltb_spec faceIndex (startFace front)) as [H|_]; [lia|].
  destruct (Z.leb_spec (endFace back) faceIndex) as [H|_]; [lia|]. cbn [orb].
  destruct (whichPatch_loop_spec Hsorted (length ps) 0 (Z.of_nat (length ps)))
    as (Hr & Hlo & Hhi).
  { clear. lia. }
  { clear. lia. }
  { clear. lia. }
  { intros k q Hk. exfalso. clear -Hk. lia. }
  { intros k q Hk Hq. apply lookup_lt_Some in Hq. exfalso. clear -Hk Hq. lia. }
  set (r := whichPatch_loop (length ps) ps faceIndex 0 (Z.of_nat (length ps))) in *.
  assert (Er : r = Z.of_nat (S i)).
  { assert (H1 : Z.of_nat i < r).
    { destruct (Z.lt_ge_cases (Z.of_nat i) r) as [H|H]; [exact H|].
      pose proof (Hhi i p H Hp). lia. }
    destruct (Z.le_gt_cases r (Z.of_nat (S i))) as [H|H]; [lia|].
    destruct (ps !! S i) as [q|] eqn:Eq.
    2:{ apply lookup_ge_None in Eq. lia. }
    pose proof (Hlo (S i) q H Eq) as H2.
    pose proof (Hafter 0%nat i p q Hp) as H3.
    replace (i + 1)%nat with (S i) in H3 by lia. specialize (H3 Eq). lia. }
  clearbody r. subst r. rewrite Nat2Z.id.
  destruct (decide (S i < length ps)%nat) as [Hlt|Hge].
  - destruct (ps !! S i) as [q|] eqn:Eq; [apply (Hindex _ _ Eq)|].
    apply lookup_ge_None in Eq. lia.
  - rewrite (proj2 (lookup_ge_None ps (S i))) by lia. reflexivity.
Qed.

End WhichPatchFacts.

Lemma whichPatch_returns_next_patch_witness :
  let walls := mkPatch "walls" 2 10 5 10 PHYSICAL true in
  threePatches !! 2%nat = Some walls /\ patchHolds walls 12
  /\ whichPatch threePatches 12 = -1.
Proof.
  intros walls.
  assert (Hp : threePatches !! 2%nat = Some walls) by reflexivity.
  assert (Hholds : patchHolds walls 12) by (unfold patchHolds; cbn; lia).
  split; [exact Hp|]. split; [exact Hholds|].
  apply (whichPatch_returns_next_patch threePatches 12 2 walls).
  - repeat constructor; cbn; lia.
  - intros k r r' H H'.
    destruct k as [|[|[|k]]]; cbn in H, H'; try discriminate;
      injection H as <-; injection H' as <-; reflexivity.
  - intros k q H. destruct k as [|[|[|k]]]; cbn in H; try discriminate;
      injection H as <-; reflexivity.
  - repeat constructor; cbn; unfold VTK_TYPE_INT64_MAX; lia.
  - exact Hp.
  - exact Hholds.
Defined.
